(** * A sequential model of the seqlock cuckoo hash table

    The definitions below follow, function by function,
    [include/hash_maps/cuckoo/cuckoohash_map.hpp].  The table is modelled
    as it behaves when a single thread operates on it: a stripe keeps its
    [migrated] flag and its element counter, while the writer bit and the
    epoch of the seqlock word, which only concurrent readers observe, are
    left out.  Machine integers are [Z] with the wrap-around written out,
    [double] is [spec_float] (IEEE 754 binary64). *)

From Stdlib Require Import ZArith Lia List Bool Sorted.
From Stdlib Require Import Floats.SpecFloat.
From stdpp Require Import base list.

Open Scope Z_scope.

(** ** Machine words *)

(** Conversion to an unsigned [w]-bit integer. *)
Definition wrap (w : Z) (z : Z) : Z := z mod 2 ^ w.

Definition wrap64 : Z -> Z := wrap 64.
Definition wrap32 : Z -> Z := wrap 32.
Definition wrap16 : Z -> Z := wrap 16.
Definition wrap8 : Z -> Z := wrap 8.

(** Conversion to [int64_t] (two's complement). *)
Definition wrap_i64 (z : Z) : Z := (z + 2 ^ 63) mod 2 ^ 64 - 2 ^ 63.

(** ** Hashing *)

(** [hashsize]: [size_type(1) << hp]. *)
Definition hashsize (hp : Z) : Z := wrap64 (Z.shiftl 1 hp).

(** [hashmask]: [hashsize(hp) - 1]. *)
Definition hashmask (hp : Z) : Z := wrap64 (hashsize hp - 1).

(** [partial_key]: the three casts-and-xors of the source. *)
Definition partial_key (hash : Z) : Z :=
  let hash_64bit := wrap64 hash in
  let hash_32bit := Z.lxor (wrap32 hash_64bit) (wrap32 (Z.shiftr hash_64bit 32)) in
  let hash_16bit := Z.lxor (wrap16 hash_32bit) (wrap16 (Z.shiftr hash_32bit 16)) in
  let hash_8bit := Z.lxor (wrap8 hash_16bit) (wrap8 (Z.shiftr hash_16bit 8)) in
  hash_8bit.

(** [index_hash]: [hv & hashmask(hp)]. *)
Definition index_hash (hp hv : Z) : Z := Z.land hv (hashmask hp).

(** The 64-bit MurmurHash2 constant. *)
Definition murmur_c : Z := 0xc6a4a7935bd1e995.

(** [alt_index]: [(index ^ (nonzero_tag * C)) & hashmask(hp)]. *)
Definition alt_index (hp partial index : Z) : Z :=
  let nonzero_tag := wrap64 (partial + 1) in
  Z.land (Z.lxor index (wrap64 (nonzero_tag * murmur_c))) (hashmask hp).

(** The partial tag as the specification words it: fold the upper half of
    a [w]-bit word onto its lower half with xor, from 64 to 32 to 16 to 8
    bits. *)
Definition fold_half (w : Z) (x : Z) : Z :=
  Z.lxor (x mod 2 ^ (w / 2)) (x / 2 ^ (w / 2)).

Definition partial_spec (h : Z) : Z := fold_half 16 (fold_half 32 (fold_half 64 h)).

(** The same tag, byte by byte: the xor of the eight bytes of the hash. *)
Definition byte_of (h : Z) (n : Z) : Z := (h / 2 ^ (8 * n)) mod 2 ^ 8.

Definition xor_bytes (h : Z) : Z :=
  fold_right Z.lxor 0 (map (fun n => byte_of h (Z.of_nat n)) (seq 0 8)).

(** ** Template parameters and constants *)

(** The template parameters of [cuckoohash_map] and the constants of
    [cuckoohash_util.hpp] that the class reads.  [hash_fn] and [key_eq]
    are the [Hash] and [KeyEqual] functors; [is_simple] and
    [nothrow_move] are the compile-time predicates [is_simple()] and
    [is_data_nothrow_move_constructible()] of the key and value types;
    [alloc_max_hashpower] is the largest hashpower whose bucket array
    the allocator can provide (a larger request throws
    [std::bad_alloc]). *)
Class Params := {
  K : Type;
  V : Type;
  hash_fn : K -> Z;
  key_eq : K -> K -> bool;
  SLOT_PER_BUCKET : nat;
  is_simple : bool;
  nothrow_move : bool;
  DEFAULT_MINIMUM_LOAD_FACTOR : spec_float;
  NO_MAXIMUM_HASHPOWER : Z;
  reserve_calc : Z -> Z;
  alloc_max_hashpower : Z
}.

Definition kMaxNumLocksPow : Z := 16.
Definition kMaxNumLocks : Z := Z.shiftl 1 kMaxNumLocksPow.
Definition MAX_BFS_PATH_LEN : Z := 5.

(** [double] arithmetic: binary64. *)
Definition prec64 : Z := 53.
Definition emax64 : Z := 1024.
Definition double_of_Z (n : Z) : spec_float := binary_normalize prec64 emax64 n 0 false.
Definition double_zero : spec_float := S754_zero false.
Definition double_one : spec_float := double_of_Z 1.
Definition double_lt (x y : spec_float) : bool := SFltb x y.
Definition double_le (x y : spec_float) : bool := SFleb x y.
Definition double_div (x y : spec_float) : spec_float := SFdiv prec64 emax64 x y.

(** ** Data model *)

(** Exceptions that leave the class, and the internal retry signal. *)
Inductive exn :=
| std_invalid_argument
| std_out_of_range
| std_bad_alloc
| load_factor_too_low (mlf : spec_float)
| maximum_hashpower_exceeded (hp : Z)
| hashpower_changed
| queue_overflow
| undefined_behavior.

(** The result of running a member function: a value, an exception, or
    the iteration budget of the model ran out. *)
Inductive outcome (A : Type) :=
| Ret (a : A)
| Throw (e : exn)
| OutOfFuel.
Arguments Ret {A} a.
Arguments Throw {A} e.
Arguments OutOfFuel {A}.

Section Model.
Context {params : Params}.

Definition slot_per_bucket : Z := Z.of_nat SLOT_PER_BUCKET.

(** [hash_value]. *)
Record hash_value := mk_hash_value { hv_hash : Z; hv_partial : Z }.

(** An occupied slot: its partial tag and its key-value pair. *)
Record kv_slot := mk_slot { s_partial : Z; s_key : K; s_mapped : V }.

(** Modelled from the spec: the bucket of [bucket.hpp], a fixed array of
    [SLOT_PER_BUCKET] slots, each with an occupancy bit, a partial tag and
    storage for a pair, the last two valid iff the slot is occupied. *)
Local Abbreviation bucket := (list (option kv_slot)).

Definition empty_bucket : bucket := replicate SLOT_PER_BUCKET None.

Definition slot_at (b : bucket) (i : Z) : option kv_slot :=
  if i <? 0 then None else mjoin (b !! Z.to_nat i).

Definition occupied (b : bucket) (i : Z) : bool := bool_decide (is_Some (slot_at b i)).

(** Modelled from the spec: the stripe of [seqlock.hpp], here with the two
    fields a single thread can observe, the [migrated] bit and the signed
    element counter. *)
Record seqlock := mk_seqlock { is_migrated : bool; elem_counter : Z }.

(** The table: the member variables of [cuckoohash_map].  [hashpower_]
    and [buckets_] are the bucket container, [locks_] the stripes. *)
Record table := mk_table {
  hashpower_ : Z;
  buckets_ : list bucket;
  locks_ : list seqlock;
  minimum_load_factor_ : spec_float;
  maximum_hashpower_ : Z;
  max_num_worker_threads_ : Z
}.

Definition set_buckets (t : table) (bs : list bucket) : table :=
  mk_table (hashpower_ t) bs (locks_ t) (minimum_load_factor_ t)
           (maximum_hashpower_ t) (max_num_worker_threads_ t).

Definition set_locks (t : table) (ls : list seqlock) : table :=
  mk_table (hashpower_ t) (buckets_ t) ls (minimum_load_factor_ t)
           (maximum_hashpower_ t) (max_num_worker_threads_ t).

Definition set_hashpower (t : table) (hp : Z) : table :=
  mk_table hp (buckets_ t) (locks_ t) (minimum_load_factor_ t)
           (maximum_hashpower_ t) (max_num_worker_threads_ t).

Definition set_minimum_load_factor (t : table) (mlf : spec_float) : table :=
  mk_table (hashpower_ t) (buckets_ t) (locks_ t) mlf
           (maximum_hashpower_ t) (max_num_worker_threads_ t).

Definition set_maximum_hashpower (t : table) (mhp : Z) : table :=
  mk_table (hashpower_ t) (buckets_ t) (locks_ t) (minimum_load_factor_ t)
           mhp (max_num_worker_threads_ t).

Definition set_max_num_worker_threads (t : table) (n : Z) : table :=
  mk_table (hashpower_ t) (buckets_ t) (locks_ t) (minimum_load_factor_ t)
           (maximum_hashpower_ t) n.

(** Member functions thread the table. *)
Definition M (A : Type) : Type := table -> outcome A * table.

Definition ret {A} (a : A) : M A := fun t => (Ret a, t).

Definition bind {A B} (m : M A) (f : A -> M B) : M B :=
  fun t =>
    match m t with
    | (Ret a, t') => f a t'
    | (Throw e, t') => (Throw e, t')
    | (OutOfFuel, t') => (OutOfFuel, t')
    end.

Definition throw {A} (e : exn) : M A := fun t => (Throw e, t).
Definition out_of_fuel {A} : M A := fun t => (OutOfFuel, t).
Definition get_table : M table := fun t => (Ret t, t).
Definition modify (f : table -> table) : M unit := fun t => (Ret tt, f t).

(** [try { m } catch (hashpower_changed &) { h }]. *)
Definition catch_hashpower_changed {A} (m : M A) (h : M A) : M A :=
  fun t =>
    match m t with
    | (Throw hashpower_changed, t') => h t'
    | r => r
    end.

End Model.

Abbreviation bucket := (list (option kv_slot)).

Notation "'let*' x ':=' m 'in' k" := (bind m (fun x => k))
  (at level 10, x pattern, m at level 100, k at level 200).

Section Operations.
Context {params : Params}.

(** ** Containers *)

(** The range of a counting loop [for (i = 0; i < n; ++i)]. *)
Definition zseq (n : nat) : list Z := Z.of_nat <$> seq 0 n.

Definition hashpower (t : table) : Z := hashpower_ t.

(** Modelled from the spec: [buckets_.size()], the number of buckets,
    [2^hashpower]. *)
Definition bucket_count (t : table) : Z := hashsize (hashpower t).

(** [buckets_[i]]. *)
Definition get_bucket (t : table) (i : Z) : bucket :=
  if i <? 0 then empty_bucket else default empty_bucket (buckets_ t !! Z.to_nat i).

(** [locks_[l]]. *)
Definition get_lock (t : table) (l : Z) : seqlock :=
  if l <? 0 then mk_seqlock true 0 else default (mk_seqlock true 0) (locks_ t !! Z.to_nat l).

(** Writing slot [slot] of bucket [i]; indices are unsigned, and a write
    outside the arrays is left out of the model. *)
Definition update_slot (i slot : Z) (c : option kv_slot) (t : table) : table :=
  if (i <? 0) || (slot <? 0) then t
  else set_buckets t (alter (fun b => <[Z.to_nat slot := c]> b) (Z.to_nat i) (buckets_ t)).

(** Modelled from the spec: [setKV] of [cuckoo_bucket_container.hpp],
    which constructs the pair in place, records the partial tag and sets
    the occupancy bit. *)
Definition setKV (i slot partial : Z) (key : K) (val : V) : table -> table :=
  update_slot i slot (Some (mk_slot partial key val)).

(** [eraseKV] of [bucket_container.hpp]: clears the occupancy bit and
    destroys the pair. *)
Definition eraseKV (i slot : Z) : table -> table := update_slot i slot None.

(** [buckets_.clear()]: erases every occupied slot. *)
Definition clear_buckets (t : table) : table :=
  set_buckets t ((fun b : bucket => (fun _ => None) <$> b) <$> buckets_ t).

Definition update_lock (l : Z) (f : seqlock -> seqlock) (t : table) : table :=
  if l <? 0 then t else set_locks t (alter f (Z.to_nat l) (locks_ t)).

(** [lock.set_migrated(m)]. *)
Definition set_migrated (l : Z) (m : bool) : table -> table :=
  update_lock l (fun lk => mk_seqlock m (elem_counter lk)).

(** [++lock.elem_counter()] and [--lock.elem_counter()]. *)
Definition incr_elem_counter (l : Z) : table -> table :=
  update_lock l (fun lk => mk_seqlock (is_migrated lk) (elem_counter lk + 1)).

Definition decr_elem_counter (l : Z) : table -> table :=
  update_lock l (fun lk => mk_seqlock (is_migrated lk) (elem_counter lk - 1)).

(** ** Table details *)

(** [size]: the counters are summed in a [counter_type] and the sum is
    cast to [size_type]. *)
Definition size (t : table) : Z :=
  wrap64 (fold_left (fun s lock => wrap_i64 (s + elem_counter lock)) (locks_ t) 0).

(** [capacity]: [bucket_count() * slot_per_bucket()]. *)
Definition capacity (t : table) : Z := wrap64 (bucket_count t * slot_per_bucket).

(** [load_factor]. *)
Definition load_factor (t : table) : spec_float :=
  double_div (double_of_Z (size t)) (double_of_Z (capacity t)).

(** The setter [minimum_load_factor(mlf)]. *)
Definition minimum_load_factor_set (mlf : spec_float) : M unit :=
  if double_lt mlf double_zero then throw std_invalid_argument
  else if double_lt double_one mlf then throw std_invalid_argument
  else modify (fun t => set_minimum_load_factor t mlf).

(** The getter [minimum_load_factor()]. *)
Definition minimum_load_factor (t : table) : spec_float := minimum_load_factor_ t.

(** The setter [maximum_hashpower(mhp)]. *)
Definition maximum_hashpower_set (mhp : Z) : M unit :=
  fun t =>
    if mhp <? hashpower t then (Throw std_invalid_argument, t)
    else (Ret tt, set_maximum_hashpower t mhp).

Definition maximum_hashpower (t : table) : Z := maximum_hashpower_ t.

Definition max_num_worker_threads (t : table) : Z := max_num_worker_threads_ t.

(** [hashed_key]. *)
Definition hashed_key (key : K) : hash_value :=
  let hash := wrap64 (hash_fn key) in
  mk_hash_value hash (partial_key hash).

Definition hashed_key_only_hash (key : K) : Z := wrap64 (hash_fn key).

(** [lock_ind]. *)
Definition lock_ind (bucket_ind : Z) : Z := Z.land bucket_ind (kMaxNumLocks - 1).

(** ** Searching *)

Inductive cuckoo_status :=
| ok
| failure
| failure_key_not_found
| failure_key_duplicated
| failure_table_full
| failure_under_expansion.

Definition status_eqb (a b : cuckoo_status) : bool :=
  match a, b with
  | ok, ok | failure, failure | failure_key_not_found, failure_key_not_found
  | failure_key_duplicated, failure_key_duplicated
  | failure_table_full, failure_table_full
  | failure_under_expansion, failure_under_expansion => true
  | _, _ => false
  end.

(** [table_position]; the bucket pointer is the bucket index. *)
Record table_position := mk_pos { pos_index : Z; pos_slot : Z; pos_status : cuckoo_status }.

(** [try_read_from_bucket], the loop from slot [i] on. *)
Fixpoint try_read_from_bucket_loop (b : bucket) (partial : Z) (key : K)
         (slots : list Z) : Z :=
  match slots with
  | [] => -1
  | i :: rest =>
      match slot_at b i with
      | None => try_read_from_bucket_loop b partial key rest
      | Some s =>
          if negb is_simple && negb (partial =? s_partial s)
          then try_read_from_bucket_loop b partial key rest
          else if key_eq (s_key s) key then i
          else try_read_from_bucket_loop b partial key rest
      end
  end.

Definition try_read_from_bucket (b : bucket) (partial : Z) (key : K) : Z :=
  try_read_from_bucket_loop b partial key (zseq SLOT_PER_BUCKET).

(** [cuckoo_find]. *)
Definition cuckoo_find (key : K) (partial i1 i2 : Z) (t : table) : table_position :=
  let slot := try_read_from_bucket (get_bucket t i1) partial key in
  if negb (slot =? -1) then mk_pos i1 slot ok
  else
    let slot := try_read_from_bucket (get_bucket t i2) partial key in
    if negb (slot =? -1) then mk_pos i2 slot ok
    else mk_pos 0 0 failure_key_not_found.

(** [pos.bucket_->mapped(pos.slot)]. *)
Definition mapped_at (t : table) (pos : table_position) : option V :=
  s_mapped <$> slot_at (get_bucket t (pos_index pos)) (pos_slot pos).

(** [try_find_insert_bucket], the loop from slot [i] on; [slot] is the
    out-parameter. *)
Fixpoint try_find_insert_bucket_loop (b : bucket) (slot : Z) (partial : Z) (key : K)
         (slots : list Z) : bool * Z :=
  match slots with
  | [] => (true, slot)
  | i :: rest =>
      match slot_at b i with
      | Some s =>
          if negb is_simple && negb (partial =? s_partial s)
          then try_find_insert_bucket_loop b slot partial key rest
          else if key_eq (s_key s) key then (false, i)
          else try_find_insert_bucket_loop b slot partial key rest
      | None => try_find_insert_bucket_loop b i partial key rest
      end
  end.

Definition try_find_insert_bucket (b : bucket) (partial : Z) (key : K) : bool * Z :=
  try_find_insert_bucket_loop b (-1) partial key (zseq SLOT_PER_BUCKET).

(** ** Lazy migration *)

(** [need_to_move_elem]. *)
Definition need_to_move_elem (hv : hash_value)
           (old_hp new_hp old_bucket_ind new_bucket_ind : Z) : bool :=
  let old_ihash := index_hash old_hp (hv_hash hv) in
  let old_ahash := alt_index old_hp (hv_partial hv) old_ihash in
  let new_ihash := index_hash new_hp (hv_hash hv) in
  let new_ahash := alt_index new_hp (hv_partial hv) new_ihash in
  ((old_bucket_ind =? old_ihash) && (new_ihash =? new_bucket_ind)) ||
  ((old_bucket_ind =? old_ahash) && (new_ahash =? new_bucket_ind)).

(** [move_bucket], the loop from slot [old_bucket_slot] on.  [old_bucket]
    and [new_bucket] are the indices of the two buckets passed by
    reference, [after_set] is the functor run after each move. *)
Fixpoint move_bucket_loop (old_hp old_bucket_ind old_bucket new_bucket : Z)
         (after_set : Z -> table -> table) (new_bucket_slot : Z)
         (slots : list Z) (t : table) : table :=
  match slots with
  | [] => t
  | old_bucket_slot :: rest =>
      let new_hp := old_hp + 1 in
      let new_bucket_ind := wrap64 (old_bucket_ind + hashsize old_hp) in
      match slot_at (get_bucket t old_bucket) old_bucket_slot with
      | Some s =>
          if need_to_move_elem (hashed_key (s_key s)) old_hp new_hp
                               old_bucket_ind new_bucket_ind
          then
            move_bucket_loop old_hp old_bucket_ind old_bucket new_bucket after_set
              (new_bucket_slot + 1) rest
              (after_set old_bucket_slot
                 (setKV new_bucket new_bucket_slot (s_partial s) (s_key s) (s_mapped s) t))
          else
            move_bucket_loop old_hp old_bucket_ind old_bucket new_bucket after_set
              new_bucket_slot rest t
      | None =>
          move_bucket_loop old_hp old_bucket_ind old_bucket new_bucket after_set
            new_bucket_slot rest t
      end
  end.

Definition move_bucket (old_hp old_bucket_ind old_bucket new_bucket : Z)
           (after_set : Z -> table -> table) (t : table) : table :=
  move_bucket_loop old_hp old_bucket_ind old_bucket new_bucket after_set 0
                   (zseq SLOT_PER_BUCKET) t.

(** [migrate_lock], the loop from [bucket_ind] on, for at most [n] more
    rounds. *)
Fixpoint migrate_lock_loop (n : nat) (bucket_ind : Z) (t : table) : table :=
  match n with
  | O => t
  | S n' =>
      if bucket_ind <? Z.shiftr (bucket_count t) 1 then
        let hp := hashpower t - 1 in
        migrate_lock_loop n' (bucket_ind + kMaxNumLocks)
          (move_bucket hp bucket_ind bucket_ind
             (wrap64 (bucket_ind + hashsize (hashpower t - 1)))
             (fun old_bucket_slot => eraseKV bucket_ind old_bucket_slot) t)
      else t
  end.

(** [migrate_lock]: the stride of the loop is [kMaxNumLocks], so it runs
    at most [buckets_.size() / 2 / kMaxNumLocks + 1] rounds. *)
Definition migrate_lock (l : Z) (t : table) : table :=
  migrate_lock_loop (Z.to_nat (Z.shiftr (bucket_count t) 1 / kMaxNumLocks) + 1) l t.

(** [lock_and_rehash]: takes the stripe and migrates it if needed; the
    returned pointer is the stripe index [l]. *)
Definition lock_and_rehash (l : Z) (t : table) : table :=
  if is_migrated (get_lock t l) then t
  else set_migrated l true (migrate_lock l t).

(** [rehash_with_workers]. *)
Definition rehash_with_workers (t : table) : table :=
  fold_left (fun t i => lock_and_rehash i t) (zseq (length (locks_ t))) t.

(** [rehash_all]. *)
Definition rehash_all (current_hp : Z) (t : table) : table :=
  if current_hp >? kMaxNumLocksPow then rehash_with_workers t else t.

(** ** Locking *)

(** [locked_table_mode] and [normal_mode]. *)
Inductive table_mode := locked_table_mode | normal_mode.

(** [TwoBuckets]; a lock manager holds a stripe index or is null. *)
Record TwoBuckets := mk_two {
  tb_i1 : Z; tb_i2 : Z; lock1 : option Z; lock2 : option Z
}.

(** The [normal_mode] constructor of [TwoBuckets]. *)
Definition TwoBuckets_normal (lock1_ lock2_ : option Z) (i1_ i2_ : Z) : TwoBuckets :=
  mk_two i1_ i2_ lock1_ (if bool_decide (lock1_ = lock2_) then None else lock2_).

(** [TwoBuckets::unlock]: both variants release the managers. *)
Definition tb_unlock (b : TwoBuckets) : TwoBuckets :=
  mk_two (tb_i1 b) (tb_i2 b) None (if tb_i1 b =? tb_i2 b then lock2 b else None).

(** [check_hashpower]. *)
Definition check_hashpower (hp : Z) : M unit :=
  fun t => if hashpower t =? hp then (Ret tt, t) else (Throw hashpower_changed, t).

(** [lock_one]. *)
Definition lock_one (mode : table_mode) (hp i : Z) : M (option Z) :=
  match mode with
  | locked_table_mode => ret None
  | normal_mode =>
      let* _ := modify (lock_and_rehash (lock_ind i)) in
      let* _ := check_hashpower hp in
      ret (Some (lock_ind i))
  end.

(** [lock_two]. *)
Definition lock_two (mode : table_mode) (hp i1 i2 : Z) : M TwoBuckets :=
  match mode with
  | locked_table_mode => ret (mk_two i1 i2 None None)
  | normal_mode =>
      let l1 := lock_ind i1 in
      let l2 := lock_ind i2 in
      let '(l1, l2) := if l2 <? l1 then (l2, l1) else (l1, l2) in
      let* _ := modify (lock_and_rehash l1) in
      let* _ := check_hashpower hp in
      let* lock2 :=
        if negb (l1 =? l2)
        then let* _ := modify (lock_and_rehash l2) in ret (Some l2)
        else ret None in
      ret (TwoBuckets_normal (Some l1) lock2 i1 i2)
  end.

(** Swapping two cells of the three-element arrays of [lock_three]. *)
Definition swap3 {A} (a : A * A * A) (i j : nat) : A * A * A :=
  let '(x0, x1, x2) := a in
  match i, j with
  | 2%nat, 1%nat => (x0, x2, x1)
  | 2%nat, 0%nat => (x2, x1, x0)
  | 1%nat, 0%nat => (x1, x0, x2)
  | _, _ => a
  end.

Definition nth3 {A} (a : A * A * A) (i : nat) : A :=
  let '(x0, x1, x2) := a in
  match i with 0%nat => x0 | 1%nat => x1 | _ => x2 end.

Definition set3 {A} (a : A * A * A) (i : nat) (x : A) : A * A * A :=
  let '(x0, x1, x2) := a in
  match i with 0%nat => (x, x1, x2) | 1%nat => (x0, x, x2) | _ => (x0, x1, x) end.

(** [lock_three]. *)
Definition lock_three (mode : table_mode) (hp : Z) (i : Z * Z * Z)
  : M (TwoBuckets * option Z) :=
  match mode with
  | locked_table_mode => ret (mk_two (nth3 i 0) (nth3 i 1) None None, None)
  | normal_mode =>
      let l := (lock_ind (nth3 i 0), lock_ind (nth3 i 1), lock_ind (nth3 i 2)) in
      let l2i := (0%nat, 1%nat, 2%nat) in
      let '(l, l2i) :=
        if nth3 l 2 <? nth3 l 1 then (swap3 l 2 1, swap3 l2i 2 1) else (l, l2i) in
      let '(l, l2i) :=
        if nth3 l 2 <? nth3 l 0 then (swap3 l 2 0, swap3 l2i 2 0) else (l, l2i) in
      let '(l, l2i) :=
        if nth3 l 1 <? nth3 l 0 then (swap3 l 1 0, swap3 l2i 1 0) else (l, l2i) in
      let* _ := modify (lock_and_rehash (nth3 l 0)) in
      let cur_locks := (Some (nth3 l 0), None, None) in
      let* _ := check_hashpower hp in
      let* cur_locks :=
        if negb (nth3 l 1 =? nth3 l 0)
        then let* _ := modify (lock_and_rehash (nth3 l 1)) in
             ret (set3 cur_locks 1 (Some (nth3 l 1)))
        else ret cur_locks in
      let* cur_locks :=
        if negb (nth3 l 2 =? nth3 l 1)
        then let* _ := modify (lock_and_rehash (nth3 l 2)) in
             ret (set3 cur_locks 2 (Some (nth3 l 2)))
        else ret cur_locks in
      let p := (0%nat, 0%nat, 0%nat) in
      let p := set3 p (nth3 l2i 0) 0%nat in
      let p := set3 p (nth3 l2i 1) 1%nat in
      let p := set3 p (nth3 l2i 2) 2%nat in
      ret (TwoBuckets_normal (nth3 cur_locks (nth3 p 0)) (nth3 cur_locks (nth3 p 1))
                             (nth3 i 0) (nth3 i 1),
           if bool_decide (nth3 cur_locks (nth3 p 2) = nth3 cur_locks (nth3 p 0)) ||
              bool_decide (nth3 cur_locks (nth3 p 2) = nth3 cur_locks (nth3 p 1))
           then None else nth3 cur_locks (nth3 p 2))
  end.

(** [snapshot_and_lock_two]; [n] bounds the retries. *)
Fixpoint snapshot_and_lock_two (mode : table_mode) (n : nat) (hv : hash_value)
  : M TwoBuckets :=
  match n with
  | O => out_of_fuel
  | S n' =>
      let* t := get_table in
      let hp := hashpower t in
      let i1 := index_hash hp (hv_hash hv) in
      let i2 := alt_index hp (hv_partial hv) i1 in
      catch_hashpower_changed (lock_two mode hp i1 i2)
                              (snapshot_and_lock_two mode n' hv)
  end.

(** ** Breadth-first search for a cuckoo path *)

(** [const_pow]. *)
Fixpoint const_pow (a : Z) (b : nat) : Z :=
  match b with
  | O => 1
  | S b' => wrap64 (a * const_pow a b')
  end.

(** [b_slot]. *)
Record b_slot := mk_b_slot { bs_bucket : Z; pathcode : Z; depth : Z }.

(** [MAX_CUCKOO_COUNT]. *)
Definition MAX_CUCKOO_COUNT : Z :=
  wrap64 (2 * (if slot_per_bucket =? 1 then MAX_BFS_PATH_LEN
               else wrap64 (const_pow slot_per_bucket (Z.to_nat MAX_BFS_PATH_LEN) - 1)
                    / (slot_per_bucket - 1))).

(** [b_queue]: the array [slots_] and the two indices. *)
Record b_queue := mk_b_queue { slots_ : list b_slot; first_ : Z; last_ : Z }.

Definition b_queue_new : b_queue :=
  mk_b_queue (replicate (Z.to_nat MAX_CUCKOO_COUNT) (mk_b_slot 0 0 0)) 0 0.

Definition q_empty (q : b_queue) : bool := first_ q =? last_ q.

Definition q_full (q : b_queue) : bool := last_ q =? MAX_CUCKOO_COUNT.

(** [enqueue]: [None] when the queue is full, where the source's
    assertion fails and the write would leave the array. *)
Definition enqueue (q : b_queue) (x : b_slot) : option b_queue :=
  if q_full q then None
  else Some (mk_b_queue (<[Z.to_nat (last_ q) := x]> (slots_ q)) (first_ q) (last_ q + 1)).

(** [dequeue]. *)
Definition dequeue (q : b_queue) : b_slot * b_queue :=
  (default (mk_b_slot 0 0 0) (slots_ q !! Z.to_nat (first_ q)),
   mk_b_queue (slots_ q) (first_ q + 1) (last_ q)).

(** The [for] loop of [slot_search] over the slots of the dequeued
    bucket: the queue when the loop is left, and the [b_slot] of the early
    return if there is one; [None] when [enqueue] overflows. *)
Fixpoint slot_search_bucket (hp : Z) (x : b_slot) (b : bucket) (starting_slot : Z)
         (range : list Z) (q : b_queue) : option (b_queue * option b_slot) :=
  match range with
  | [] => Some (q, None)
  | i :: rest =>
      let slot := wrap16 ((starting_slot + i) mod slot_per_bucket) in
      match slot_at b slot with
      | None =>
          Some (q, Some (mk_b_slot (bs_bucket x)
                                   (wrap16 (pathcode x * slot_per_bucket + slot))
                                   (depth x)))
      | Some s =>
          let partial := s_partial s in
          if depth x <? MAX_BFS_PATH_LEN - 1 then
            match enqueue q (mk_b_slot (alt_index hp partial (bs_bucket x))
                                       (wrap16 (pathcode x * slot_per_bucket + slot))
                                       (depth x + 1)) with
            | None => None
            | Some q' => slot_search_bucket hp x b starting_slot rest q'
            end
          else slot_search_bucket hp x b starting_slot rest q
      end
  end.

(** The [while (!q.empty())] loop of [slot_search]; it returns the queue
    along with the result. *)
Fixpoint slot_search_loop (mode : table_mode) (n : nat) (hp : Z) (q : b_queue)
  : M (b_slot * b_queue) :=
  match n with
  | O => out_of_fuel
  | S n' =>
      if q_empty q then ret (mk_b_slot 0 0 (-1), q)
      else
        let '(x, q) := dequeue q in
        let* _ := lock_one mode hp (bs_bucket x) in
        let* t := get_table in
        let b := get_bucket t (bs_bucket x) in
        let starting_slot := pathcode x mod slot_per_bucket in
        match slot_search_bucket hp x b starting_slot (zseq SLOT_PER_BUCKET) q with
        | None => throw queue_overflow
        | Some (q', Some x') => ret (x', q')
        | Some (q', None) => slot_search_loop mode n' hp q'
        end
  end.

(** [slot_search] with the final queue; every round dequeues one entry,
    so [MAX_CUCKOO_COUNT + 1] rounds empty the queue. *)
Definition slot_search_queue (mode : table_mode) (hp i1 i2 : Z) : M (b_slot * b_queue) :=
  match enqueue b_queue_new (mk_b_slot i1 0 0) with
  | None => throw queue_overflow
  | Some q =>
      match enqueue q (mk_b_slot i2 1 0) with
      | None => throw queue_overflow
      | Some q => slot_search_loop mode (Z.to_nat MAX_CUCKOO_COUNT + 1) hp q
      end
  end.

(** [slot_search]. *)
Definition slot_search (mode : table_mode) (hp i1 i2 : Z) : M b_slot :=
  let* r := slot_search_queue mode hp i1 i2 in ret (fst r).

(** ** Cuckoo paths *)

(** [CuckooRecord] and [CuckooRecords]. *)
Record CuckooRecord := mk_record { cr_bucket : Z; cr_slot : Z; cr_hv : hash_value }.

Local Abbreviation CuckooRecords := (list CuckooRecord).

Definition cuckoo_path_new : CuckooRecords :=
  replicate (Z.to_nat MAX_BFS_PATH_LEN) (mk_record 0 0 (mk_hash_value 0 0)).

Definition path_at (cuckoo_path : CuckooRecords) (i : Z) : CuckooRecord :=
  default (mk_record 0 0 (mk_hash_value 0 0)) (cuckoo_path !! Z.to_nat i).

Definition path_set_slot (cuckoo_path : CuckooRecords) (i slot : Z) : CuckooRecords :=
  alter (fun r => mk_record (cr_bucket r) slot (cr_hv r)) (Z.to_nat i) cuckoo_path.

Definition path_set_bucket (cuckoo_path : CuckooRecords) (i b : Z) : CuckooRecords :=
  alter (fun r => mk_record b (cr_slot r) (cr_hv r)) (Z.to_nat i) cuckoo_path.

Definition path_set_hv (cuckoo_path : CuckooRecords) (i : Z) (hv : hash_value)
  : CuckooRecords :=
  alter (fun r => mk_record (cr_bucket r) (cr_slot r) hv) (Z.to_nat i) cuckoo_path.

(** The first loop of [cuckoopath_search]: the slots, from the end of the
    path to its beginning. *)
Fixpoint decode_slots (n : nat) (i : Z) (x_pathcode : Z) (cuckoo_path : CuckooRecords)
  : Z * CuckooRecords :=
  match n with
  | O => (x_pathcode, cuckoo_path)
  | S n' =>
      decode_slots n' (i - 1) (x_pathcode / slot_per_bucket)
                   (path_set_slot cuckoo_path i (x_pathcode mod slot_per_bucket))
  end.

(** The last loop of [cuckoopath_search]: buckets and hashes, from the
    second record on. *)
Fixpoint fill_path (mode : table_mode) (hp : Z) (range : list Z) (x_depth : Z)
         (cuckoo_path : CuckooRecords) : M (Z * CuckooRecords) :=
  match range with
  | [] => ret (x_depth, cuckoo_path)
  | i :: rest =>
      let prev := path_at cuckoo_path (i - 1) in
      let curr_bucket := alt_index hp (hv_partial (cr_hv prev)) (cr_bucket prev) in
      let cuckoo_path := path_set_bucket cuckoo_path i curr_bucket in
      let* _ := lock_one mode hp curr_bucket in
      let* t := get_table in
      match slot_at (get_bucket t curr_bucket) (cr_slot (path_at cuckoo_path i)) with
      | None => ret (i, cuckoo_path)
      | Some s => fill_path mode hp rest x_depth
                            (path_set_hv cuckoo_path i (hashed_key (s_key s)))
      end
  end.

(** [cuckoopath_search]: the depth and the path written through the
    reference. *)
Definition cuckoopath_search (mode : table_mode) (hp : Z) (cuckoo_path : CuckooRecords)
           (i1 i2 : Z) : M (Z * CuckooRecords) :=
  let* x := slot_search mode hp i1 i2 in
  if depth x =? -1 then ret (-1, cuckoo_path)
  else
    let '(x_pathcode, cuckoo_path) :=
      decode_slots (Z.to_nat (depth x + 1)) (depth x) (pathcode x) cuckoo_path in
    let first_bucket := if x_pathcode =? 0 then i1 else i2 in
    let cuckoo_path := path_set_bucket cuckoo_path 0 first_bucket in
    let* _ := lock_one mode hp first_bucket in
    let* t := get_table in
    match slot_at (get_bucket t first_bucket) (cr_slot (path_at cuckoo_path 0)) with
    | None => ret (0, cuckoo_path)
    | Some s =>
        let cuckoo_path := path_set_hv cuckoo_path 0 (hashed_key (s_key s)) in
        fill_path mode hp ((fun i => i + 1) <$> zseq (Z.to_nat (depth x))) (depth x)
                  cuckoo_path
    end.

(** The [while (depth > 0)] loop of [cuckoopath_move]. *)
Fixpoint cuckoopath_move_loop (mode : table_mode) (hp : Z) (cuckoo_path : CuckooRecords)
         (depth : nat) (b : TwoBuckets) : M (bool * TwoBuckets) :=
  match depth with
  | O => ret (true, b)
  | S depth' =>
      let from_ := path_at cuckoo_path (Z.of_nat depth') in
      let to_ := path_at cuckoo_path (Z.of_nat depth) in
      let fs := cr_slot from_ in
      let ts := cr_slot to_ in
      let* twob :=
        if Nat.eqb depth 1
        then let* r := lock_three mode hp (tb_i1 b, tb_i2 b, cr_bucket to_) in ret (fst r)
        else lock_two mode hp (cr_bucket from_) (cr_bucket to_) in
      let* t := get_table in
      let fb := get_bucket t (cr_bucket from_) in
      let tb := get_bucket t (cr_bucket to_) in
      match slot_at fb fs with
      | None => ret (false, b)
      | Some s =>
          if occupied tb ts || negb (hashed_key_only_hash (s_key s) =? hv_hash (cr_hv from_))
          then ret (false, b)
          else
            let* _ := modify (setKV (cr_bucket to_) ts (s_partial s) (s_key s) (s_mapped s)) in
            let* _ := modify (eraseKV (cr_bucket from_) fs) in
            let b := if Nat.eqb depth 1 then twob else b in
            cuckoopath_move_loop mode hp cuckoo_path depth' b
      end
  end.

(** [cuckoopath_move]. *)
Definition cuckoopath_move (mode : table_mode) (hp : Z) (cuckoo_path : CuckooRecords)
           (depth : Z) (b : TwoBuckets) : M (bool * TwoBuckets) :=
  if depth =? 0 then
    let bucket_i := cr_bucket (path_at cuckoo_path 0) in
    let* b := lock_two mode hp (tb_i1 b) (tb_i2 b) in
    let* t := get_table in
    if negb (occupied (get_bucket t bucket_i) (cr_slot (path_at cuckoo_path 0)))
    then ret (true, b)
    else ret (false, tb_unlock b)
  else cuckoopath_move_loop mode hp cuckoo_path (Z.to_nat depth) b.

(** The [while (!done)] loop of [run_cuckoo]; the result is [done], the
    lock managers, [insert_bucket] and [insert_slot]. *)
Fixpoint run_cuckoo_loop (mode : table_mode) (n : nat) (hp : Z)
         (cuckoo_path : CuckooRecords) (b : TwoBuckets) (insert_bucket insert_slot : Z)
  : M (bool * TwoBuckets * Z * Z) :=
  match n with
  | O => out_of_fuel
  | S n' =>
      let* r := cuckoopath_search mode hp cuckoo_path (tb_i1 b) (tb_i2 b) in
      let '(depth, cuckoo_path) := r in
      if depth <? 0 then ret (false, b, insert_bucket, insert_slot)
      else
        let* r := cuckoopath_move mode hp cuckoo_path depth b in
        let '(moved, b) := r in
        if moved
        then ret (true, b, cr_bucket (path_at cuckoo_path 0),
                  cr_slot (path_at cuckoo_path 0))
        else run_cuckoo_loop mode n' hp cuckoo_path b insert_bucket insert_slot
  end.

(** [run_cuckoo]. *)
Definition run_cuckoo (mode : table_mode) (fuel : nat) (b : TwoBuckets)
           (insert_bucket insert_slot : Z) : M (cuckoo_status * TwoBuckets * Z * Z) :=
  let* t := get_table in
  let hp := hashpower t in
  let b := tb_unlock b in
  catch_hashpower_changed
    (let* r := run_cuckoo_loop mode fuel hp cuckoo_path_new b insert_bucket insert_slot in
     let '(done, b, insert_bucket, insert_slot) := r in
     ret (if done then ok else failure, b, insert_bucket, insert_slot))
    (ret (failure_under_expansion, b, insert_bucket, insert_slot)).

(** [cuckoo_insert]. *)
Definition cuckoo_insert (mode : table_mode) (fuel : nat) (hv : hash_value)
           (b : TwoBuckets) (key : K) : M (table_position * TwoBuckets) :=
  let* t := get_table in
  let '(r1, res1) := try_find_insert_bucket (get_bucket t (tb_i1 b)) (hv_partial hv) key in
  if negb r1 then ret (mk_pos (tb_i1 b) res1 failure_key_duplicated, b)
  else
    let '(r2, res2) := try_find_insert_bucket (get_bucket t (tb_i2 b)) (hv_partial hv) key in
    if negb r2 then ret (mk_pos (tb_i2 b) res2 failure_key_duplicated, b)
    else if negb (res1 =? -1) then ret (mk_pos (tb_i1 b) res1 ok, b)
    else if negb (res2 =? -1) then ret (mk_pos (tb_i2 b) res2 ok, b)
    else
      let* r := run_cuckoo mode fuel b 0 0 in
      let '(st, b, insert_bucket, insert_slot) := r in
      match st with
      | failure_under_expansion => ret (mk_pos 0 0 failure_under_expansion, b)
      | ok =>
          let* t := get_table in
          let pos := cuckoo_find key (hv_partial hv) (tb_i1 b) (tb_i2 b) t in
          if status_eqb (pos_status pos) ok
          then ret (mk_pos (pos_index pos) (pos_slot pos) failure_key_duplicated, b)
          else ret (mk_pos insert_bucket insert_slot ok, b)
      | _ => ret (mk_pos 0 0 failure_table_full, b)
      end.

(** ** Resizing *)

(** [check_resize_validity]; [auto_resize] is [AUTO_RESIZE::value]. *)
Definition check_resize_validity (auto_resize : bool) (orig_hp new_hp : Z)
  : M cuckoo_status :=
  fun t =>
    let mhp := maximum_hashpower t in
    if negb (mhp =? NO_MAXIMUM_HASHPOWER) && (new_hp >? mhp)
    then (Throw (maximum_hashpower_exceeded new_hp), t)
    else if auto_resize && double_lt (load_factor t) (minimum_load_factor t)
    then (Throw (load_factor_too_low (minimum_load_factor t)), t)
    else if negb (hashpower t =? orig_hp) then (Ret failure_under_expansion, t)
    else (Ret ok, t).

(** Modelled from the spec: [locks_.double_size] of [lock_container.hpp]
    appends as many fresh stripes as there are, each migrated and with a
    zero counter. *)
Definition maybe_resize_locks (t : table) : table :=
  if hashpower t >=? kMaxNumLocksPow then t
  else set_locks t (locks_ t ++ replicate (length (locks_ t)) (mk_seqlock true 0)).

(** Modelled from the spec: [buckets_.double_size] of [data_storage.hpp]
    appends [2^hashpower] empty buckets and increments the hashpower; the
    allocator refuses a hashpower above [alloc_max_hashpower]. *)
Definition double_size : M unit :=
  fun t =>
    if hashpower t + 1 >? alloc_max_hashpower then (Throw std_bad_alloc, t)
    else (Ret tt,
          set_hashpower
            (set_buckets t (buckets_ t ++
                            replicate (Z.to_nat (bucket_count t)) empty_bucket))
            (hashpower t + 1)).

(** The eager migration loop of [cuckoo_fast_double] for a table with
    fewer buckets than stripes. *)
Definition fast_double_migrate (current_hp : Z) (t : table) : table :=
  fold_left
    (fun t old_bucket_ind =>
       move_bucket current_hp old_bucket_ind old_bucket_ind
         (hashsize current_hp + old_bucket_ind)
         (fun old_bucket_slot t =>
            incr_elem_counter (hashsize current_hp + old_bucket_ind)
              (decr_elem_counter old_bucket_ind
                 (eraseKV old_bucket_ind old_bucket_slot t)))
         t)
    (zseq (Z.to_nat (hashsize current_hp))) t.

(** [cuckoo_fast_double].  Moves are pure in the model, so the key and
    value types are nothrow-move-constructible and the branch to
    [cuckoo_fast_double_throwable] is not taken. *)
Definition cuckoo_fast_double (mode : table_mode) (auto_resize : bool) (current_hp : Z)
  : M cuckoo_status :=
  let new_hp := wrap64 (current_hp + 1) in
  let* st := check_resize_validity auto_resize current_hp new_hp in
  if negb (status_eqb st ok) then ret st
  else
    let* _ := modify (rehash_all current_hp) in
    let* _ := modify maybe_resize_locks in
    let* _ := double_size in
    let* _ :=
      if current_hp <? kMaxNumLocksPow
      then modify (fast_double_migrate current_hp)
      else
        let* _ := modify (fun t =>
                   set_locks t ((fun lk => mk_seqlock false (elem_counter lk))
                                  <$> locks_ t)) in
        match mode with
        | locked_table_mode => modify rehash_with_workers
        | normal_mode => ret tt
        end in
    ret ok.

(** [cuckoo_insert_loop]; [n] bounds the rounds of the loop. *)
Fixpoint cuckoo_insert_loop (mode : table_mode) (n : nat) (fuel : nat)
         (hv : hash_value) (b : TwoBuckets) (key : K) : M (table_position * TwoBuckets) :=
  match n with
  | O => out_of_fuel
  | S n' =>
      let* t := get_table in
      let hp := hashpower t in
      let* r := cuckoo_insert mode fuel hv b key in
      let '(pos, b) := r in
      match pos_status pos with
      | ok | failure_key_duplicated => ret (pos, b)
      | failure_table_full =>
          let* _ := cuckoo_fast_double mode true hp in
          let* b := snapshot_and_lock_two mode fuel hv in
          cuckoo_insert_loop mode n' fuel hv b key
      | failure_under_expansion =>
          let* b := snapshot_and_lock_two mode fuel hv in
          cuckoo_insert_loop mode n' fuel hv b key
      | _ => throw undefined_behavior
      end
  end.

(** ** Table operations *)

(** [add_to_bucket] through a stripe reference; dereferencing a null
    manager is undefined. *)
Definition add_to_bucket (lock_ : option Z) (index slot partial : Z) (key : K) (val : V)
  : M unit :=
  match lock_ with
  | None => throw undefined_behavior
  | Some l =>
      let* _ := modify (setKV index slot partial key val) in
      modify (incr_elem_counter l)
  end.

(** [add_to_bucket] by bucket index. *)
Definition add_to_bucket_index (index slot partial : Z) (key : K) (val : V) : M unit :=
  let* _ := modify (setKV index slot partial key val) in
  modify (incr_elem_counter (lock_ind index)).

(** [del_from_bucket] through a stripe reference. *)
Definition del_from_bucket (lock_ : option Z) (index slot : Z) : M unit :=
  match lock_ with
  | None => throw undefined_behavior
  | Some l =>
      let* _ := modify (eraseKV index slot) in
      modify (decr_elem_counter l)
  end.

(** [read_and_rehash]: [None] is the null pointer that makes the caller
    retry. *)
Definition read_and_rehash (l : Z) : M (option Z) :=
  fun t =>
    if negb (is_migrated (get_lock t l))
    then (Ret None, set_migrated l true (migrate_lock l t))
    else (Ret (Some l), t).

(** [read_value]; [n] bounds the retries.  Without a concurrent writer
    the two epochs are unchanged at the final test. *)
Fixpoint read_value (n : nat) (key : K) : M (option V) :=
  match n with
  | O => out_of_fuel
  | S n' =>
      let hv := hashed_key key in
      let* t := get_table in
      let hp := hashpower t in
      let i1 := index_hash hp (hv_hash hv) in
      let i2 := alt_index hp (hv_partial hv) i1 in
      let l1 := lock_ind i1 in
      let l2 := lock_ind i2 in
      let* lock1 := read_and_rehash l1 in
      let* t := get_table in
      if bool_decide (lock1 = None) || negb (hp =? hashpower t) then read_value n' key
      else
        let* lock2 := if negb (l1 =? l2) then read_and_rehash l2 else ret (Some l2) in
        if bool_decide (lock2 = None) then read_value n' key
        else
          let* t := get_table in
          let pos := cuckoo_find key (hv_partial hv) i1 i2 t in
          ret (if status_eqb (pos_status pos) ok then mapped_at t pos else None)
  end.

(** [find_fn]: the boolean, and what the functor was applied to. *)
Definition find_fn {R} (fuel : nat) (key : K) (fn : V -> R) : M (bool * option R) :=
  let* value_opt := read_value fuel key in
  match value_opt with
  | Some v => ret (true, Some (fn v))
  | None => ret (false, None)
  end.

(** Writing the mapped value of an occupied slot through a reference. *)
Definition set_mapped (index slot : Z) (v : V) (t : table) : table :=
  match slot_at (get_bucket t index) slot with
  | Some s => update_slot index slot (Some (mk_slot (s_partial s) (s_key s) v)) t
  | None => t
  end.

(** [update_fn]. *)
Definition update_fn (fuel : nat) (key : K) (fn : V -> V) : M bool :=
  let hv := hashed_key key in
  let* b := snapshot_and_lock_two normal_mode fuel hv in
  let* t := get_table in
  let pos := cuckoo_find key (hv_partial hv) (tb_i1 b) (tb_i2 b) t in
  if status_eqb (pos_status pos) ok then
    match mapped_at t pos with
    | Some v =>
        let* _ := modify (set_mapped (pos_index pos) (pos_slot pos) (fn v)) in
        ret true
    | None => throw undefined_behavior
    end
  else ret false.

(** [erase_fn]. *)
Definition erase_fn (fuel : nat) (key : K) (fn : V -> V * bool) : M bool :=
  let hv := hashed_key key in
  let* b := snapshot_and_lock_two normal_mode fuel hv in
  let* t := get_table in
  let pos := cuckoo_find key (hv_partial hv) (tb_i1 b) (tb_i2 b) t in
  if status_eqb (pos_status pos) ok then
    match mapped_at t pos with
    | Some v =>
        let '(v', erase) := fn v in
        let* _ := modify (set_mapped (pos_index pos) (pos_slot pos) v') in
        let* _ :=
          if erase then del_from_bucket (lock1 b) (pos_index pos) (pos_slot pos)
          else ret tt in
        ret true
    | None => throw undefined_behavior
    end
  else ret false.

(** [uprase_fn]; [val] is the value the forwarded arguments construct. *)
Definition uprase_fn (fuel : nat) (key : K) (fn : V -> V * bool) (val : V) : M bool :=
  let hv := hashed_key key in
  let* b := snapshot_and_lock_two normal_mode fuel hv in
  let* r := cuckoo_insert_loop normal_mode fuel fuel hv b key in
  let '(pos, b) := r in
  if status_eqb (pos_status pos) ok then
    let* _ := add_to_bucket (lock1 b) (pos_index pos) (pos_slot pos)
                            (hv_partial hv) key val in
    ret true
  else
    let* t := get_table in
    match mapped_at t pos with
    | Some v =>
        let '(v', erase) := fn v in
        let* _ := modify (set_mapped (pos_index pos) (pos_slot pos) v') in
        let* _ :=
          if erase then del_from_bucket (lock1 b) (pos_index pos) (pos_slot pos)
          else ret tt in
        ret false
    | None => throw undefined_behavior
    end.

(** [upsert]. *)
Definition upsert (fuel : nat) (key : K) (fn : V -> V) (val : V) : M bool :=
  uprase_fn fuel key (fun v => (fn v, false)) val.

(** [find(key, val)]: the boolean and the content of [val] afterwards. *)
Definition find_copy (fuel : nat) (key : K) (val : V) : M (bool * V) :=
  let* r := find_fn fuel key (fun v => v) in
  ret (fst r, default val (snd r)).

(** [find(key)]. *)
Definition find (fuel : nat) (key : K) : M V :=
  let* value_opt := read_value fuel key in
  match value_opt with
  | Some v => ret v
  | None => throw std_out_of_range
  end.

(** [contains]. *)
Definition contains (fuel : nat) (key : K) : M bool :=
  let* r := find_fn fuel key (fun _ => tt) in ret (fst r).

(** [update]. *)
Definition update (fuel : nat) (key : K) (val : V) : M bool :=
  update_fn fuel key (fun _ => val).

(** [insert]. *)
Definition insert (fuel : nat) (key : K) (val : V) : M bool :=
  upsert fuel key (fun v => v) val.

(** [insert_or_assign]. *)
Definition insert_or_assign (fuel : nat) (key : K) (val : V) : M bool :=
  upsert fuel key (fun _ => val) val.

(** [erase]. *)
Definition erase (fuel : nat) (key : K) : M bool :=
  erase_fn fuel key (fun v => (v, true)).

(** [cuckoo_clear]. *)
Definition cuckoo_clear (t : table) : table :=
  let t := clear_buckets t in
  set_locks t ((fun _ => mk_seqlock true 0) <$> locks_ t).

(** [clear]. *)
Definition clear : M unit := modify cuckoo_clear.

(** The constructor [cuckoohash_map(n)]: [2^reserve_calc(n)] empty
    buckets and [2^min(reserve_calc(n), kMaxNumLocksPow)] fresh stripes. *)
Definition new_table (n : Z) : outcome table :=
  let hp := wrap64 (reserve_calc n) in
  if hp >? alloc_max_hashpower then Throw std_bad_alloc
  else Ret (mk_table hp
              (replicate (Z.to_nat (hashsize hp)) empty_bucket)
              (replicate (Z.to_nat (hashsize (Z.min hp kMaxNumLocksPow)))
                         (mk_seqlock true 0))
              DEFAULT_MINIMUM_LOAD_FACTOR NO_MAXIMUM_HASHPOWER 0).

(** The body of the loop of [cuckoo_change_capacity]: every live pair
    of the old buckets, in bucket and slot order. *)
Definition live_pairs (t : table) : list (K * V) :=
  flat_map
    (fun i =>
       omap (fun j => (fun s => (s_key s, s_mapped s)) <$> slot_at (get_bucket t i) j)
            (zseq SLOT_PER_BUCKET))
    (zseq (Z.to_nat (hashsize (hashpower t)))).

(** Inserting a list of pairs into [new_map]. *)
Fixpoint insert_all (fuel : nat) (kvs : list (K * V)) : M unit :=
  match kvs with
  | [] => ret tt
  | (k, v) :: rest =>
      let* _ := insert fuel k v in
      insert_all fuel rest
  end.

(** [cuckoo_change_capacity]. *)
Definition cuckoo_change_capacity (mode : table_mode) (auto_resize : bool)
           (fuel : nat) (new_hp : Z) : M cuckoo_status :=
  let* t := get_table in
  let hp := hashpower t in
  let* st := check_resize_validity auto_resize hp new_hp in
  if negb (status_eqb st ok) then ret st
  else
    let* _ := modify (rehash_all hp) in
    let* t := get_table in
    match new_table (wrap64 (hashsize new_hp * slot_per_bucket)) with
    | Ret new_map =>
        let new_map := set_max_num_worker_threads new_map (max_num_worker_threads t) in
        match insert_all fuel (live_pairs t) new_map with
        | (Ret _, new_map) =>
            let* _ := modify (fun t =>
                       set_hashpower
                         (set_buckets (set_locks t (locks_ new_map)) (buckets_ new_map))
                         (hashpower new_map)) in
            ret ok
        | (Throw e, _) => throw e
        | (OutOfFuel, _) => out_of_fuel
        end
    | Throw e => throw e
    | OutOfFuel => out_of_fuel
    end.

(** [cuckoo_rehash] and [cuckoo_reserve]. *)
Definition cuckoo_rehash (mode : table_mode) (fuel : nat) (n : Z) : M bool :=
  let* t := get_table in
  let hp := hashpower t in
  if n =? hp then ret false
  else
    let* st := cuckoo_change_capacity mode false fuel n in
    ret (status_eqb st ok).

Definition cuckoo_reserve (mode : table_mode) (fuel : nat) (n : Z) : M bool :=
  let* t := get_table in
  let hp := hashpower t in
  let new_hp := wrap64 (reserve_calc n) in
  if new_hp =? hp then ret false
  else
    let* st := cuckoo_change_capacity mode false fuel new_hp in
    ret (status_eqb st ok).

(** [rehash] and [reserve]. *)
Definition rehash (fuel : nat) (n : Z) : M bool := cuckoo_rehash normal_mode fuel n.
Definition reserve (fuel : nat) (n : Z) : M bool := cuckoo_reserve normal_mode fuel n.

(** [empty]: [size() == 0]. *)
Definition empty (t : table) : bool := size t =? 0.

(** The conversion to [int32_t]. *)
Definition wrap_i32 (z : Z) : Z := (z + 2 ^ 31) mod 2 ^ 32 - 2 ^ 31.

(** [cuckoo_expand_simple], the loop from [current_hp] on; [n] bounds
    the rounds.  [current_hp] is an [int32_t]: it is converted to
    [size_type] for the comparison and for the call. *)
Fixpoint cuckoo_expand_simple_loop (auto_resize : bool) (n : nat)
         (current_hp new_hp : Z) : M cuckoo_status :=
  if wrap64 current_hp <? new_hp then
    match n with
    | O => out_of_fuel
    | S n' =>
        let* st := cuckoo_fast_double locked_table_mode auto_resize (wrap64 current_hp) in
        if negb (status_eqb st ok) then ret st
        else cuckoo_expand_simple_loop auto_resize n' (wrap_i32 (current_hp + 1)) new_hp
    end
  else ret ok.

(** [cuckoo_expand_simple]; the table mode only selects the locks that
    [lock_all] takes. *)
Definition cuckoo_expand_simple (mode : table_mode) (auto_resize : bool)
           (fuel : nat) (new_hp : Z) : M cuckoo_status :=
  let* t := get_table in
  cuckoo_expand_simple_loop auto_resize fuel (wrap_i32 (hashpower t)) new_hp.

(** [cuckoo_rehash_concurrent] and [cuckoo_reserve_concurrent]. *)
Definition cuckoo_rehash_concurrent (mode : table_mode) (fuel : nat)
           (n : Z) : M bool :=
  let* t := get_table in
  let hp := hashpower t in
  if n <=? hp then ret false
  else
    let* st := cuckoo_expand_simple mode false fuel n in
    ret (status_eqb st ok).

Definition cuckoo_reserve_concurrent (mode : table_mode) (fuel : nat)
           (n : Z) : M bool :=
  let* t := get_table in
  let hp := hashpower t in
  let new_hp := wrap64 (reserve_calc n) in
  if new_hp <=? hp then ret false
  else
    let* st := cuckoo_expand_simple mode false fuel new_hp in
    ret (status_eqb st ok).

(** [rehash_concurrent] and [reserve_concurrent]. *)
Definition rehash_concurrent (fuel : nat) (n : Z) : M bool :=
  cuckoo_rehash_concurrent normal_mode fuel n.

Definition reserve_concurrent (fuel : nat) (n : Z) : M bool :=
  cuckoo_reserve_concurrent normal_mode fuel n.

(** The range constructor: the table of the first constructor, then
    [insert] of every pair of the range, in order. *)
Definition new_table_range
           (fuel : nat) (kvs : list (K * V)) (n : Z) : outcome table :=
  match new_table n with
  | Ret t =>
      match insert_all fuel kvs t with
      | (Ret _, t') => Ret t'
      | (Throw e, _) => Throw e
      | (OutOfFuel, _) => OutOfFuel
      end
  | Throw e => Throw e
  | OutOfFuel => OutOfFuel
  end.

(** ** Predicates of the specification *)

(** [s] is the first empty slot of [b], or [-1] when [b] is full. *)
Definition first_empty_slot_is (b : bucket) (s : Z) : Prop :=
  (s = -1 /\ forall j, 0 <= j < slot_per_bucket -> occupied b j = true) \/
  (0 <= s < slot_per_bucket /\ occupied b s = false /\
   forall j, 0 <= j < s -> occupied b j = true).

(** [s] is the last empty slot of [b], or [-1] when [b] is full. *)
Definition last_empty_slot_is (b : bucket) (s : Z) : Prop :=
  (s = -1 /\ forall j, 0 <= j < slot_per_bucket -> occupied b j = true) \/
  (0 <= s < slot_per_bucket /\ occupied b s = false /\
   forall j, s < j < slot_per_bucket -> occupied b j = true).

End Operations.

(** ** An instantiation: [cuckoohash_map<int, int>] with four slots *)

(** [reserve_calc_for_slots] as in libcuckoo: the least hashpower whose
    buckets hold [n] elements. *)
Definition reserve_calc_for_slots (spb : Z) (n : Z) : Z :=
  Z.log2_up ((n + spb - 1) / spb).

#[export] Instance int_params : Params := {|
  K := Z;
  V := Z;
  hash_fn := fun k => k;
  key_eq := Z.eqb;
  SLOT_PER_BUCKET := 4;
  is_simple := true;
  nothrow_move := true;
  DEFAULT_MINIMUM_LOAD_FACTOR := double_div (double_of_Z 5) (double_of_Z 100);
  NO_MAXIMUM_HASHPOWER := 2 ^ 64 - 1;
  reserve_calc := reserve_calc_for_slots 4;
  alloc_max_hashpower := 40
|}.

(** A fresh table with room for [n] elements. *)
Definition int_table (n : Z) : table :=
  match new_table n with
  | Ret t => t
  | _ => mk_table 0 [] [] double_zero 0 0
  end.

(** The table after inserting the pairs [kvs] in order. *)
Definition int_table_with (n : Z) (kvs : list (Z * Z)) : table :=
  snd (insert_all 10 kvs (int_table n)).

(** ** Notions used in the proofs *)

Section Notions.
Context {params : Params}.

(** The geometric sum [1 + s + ... + s^(k-1)]. *)
Fixpoint geo (s : Z) (k : nat) : Z :=
  match k with
  | O => 0
  | S k' => 1 + s * geo s k'
  end.

(** The number of entries a queue entry of depth [d] can account for:
    itself and all the entries the search can derive from it. *)
Definition bfs_weight (d : Z) : Z := geo slot_per_bucket (Z.to_nat (MAX_BFS_PATH_LEN - d)).

(** The entries enqueued and not yet dequeued. *)
Definition pending (q : b_queue) : list b_slot :=
  take (Z.to_nat (last_ q - first_ q)) (drop (Z.to_nat (first_ q)) (slots_ q)).

Definition sum_weights (l : list b_slot) : Z :=
  fold_right (fun x acc => (bfs_weight (depth x) - 1) + acc) 0 l.

(** The invariant of the search: the entries enqueued so far, those the
    pending entries can still derive, and a reserve of [budget] entries
    fit the array. *)
Definition queue_inv (q : b_queue) (budget : Z) : Prop :=
  0 <= first_ q <= last_ q /\ last_ q <= MAX_CUCKOO_COUNT /\
  length (slots_ q) = Z.to_nat MAX_CUCKOO_COUNT /\
  Forall (fun x => 0 <= depth x < MAX_BFS_PATH_LEN) (pending q) /\
  0 <= budget /\
  last_ q + sum_weights (pending q) + budget <= MAX_CUCKOO_COUNT.

(** The content of slot [j] of bucket [i]. *)
Definition cell (t : table) (i j : Z) : option kv_slot := slot_at (get_bucket t i) j.

(** The pair [sl] is stored in some slot of the table. *)
Definition stored (t : table) (sl : kv_slot) : Prop :=
  exists i j, cell t i j = Some sl.

(** No slot of the table holds a key equal to [key]. *)
Definition absent (t : table) (key : K) : Prop :=
  forall sl, stored t sl -> key_eq (s_key sl) key = false.

(** Sums over lists. *)
Definition zsum {A} (f : A -> Z) (l : list A) : Z :=
  fold_right (fun x acc => f x + acc) 0 l.

(** One for an occupied slot, zero for an empty one. *)
Definition slot_count (c : option kv_slot) : Z := if c is Some _ then 1 else 0.

(** The number of occupied slots of a bucket, and of the table. *)
Definition occupied_in (b : bucket) : Z := zsum slot_count b.

Definition occupied_slots (t : table) : Z := zsum occupied_in (buckets_ t).

(** The sum over all stripes of the element counter. *)
Definition counters_sum (t : table) : Z := zsum elem_counter (locks_ t).

(** A slot that exists: bucket [i] is in the array and has a slot [s]. *)
Definition valid_slot (t : table) (i s : Z) : Prop :=
  0 <= i /\ (Z.to_nat i < length (buckets_ t))%nat /\
  0 <= s /\ (Z.to_nat s < length (get_bucket t i))%nat.

(** The stripe [l] is marked migrated. *)
Definition migrated (t : table) (l : Z) : Prop := is_migrated (get_lock t l) = true.

(** The compile-time and allocation constraints of an instantiation:
    the two static assertions on the slot count, and an array of
    [2^alloc_max_hashpower] buckets fits the address space. *)
Definition params_ok : Prop :=
  0 < slot_per_bucket /\
  slot_per_bucket ^ MAX_BFS_PATH_LEN < 65535 /\
  0 <= alloc_max_hashpower /\
  slot_per_bucket * 2 ^ alloc_max_hashpower < 2 ^ 63.

(** The shape of a table: [2^hashpower] buckets of [SLOT_PER_BUCKET]
    slots, [2^min(hashpower, kMaxNumLocksPow)] stripes, and no pending
    migration in a table that never had more buckets than stripes. *)
Definition wf (t : table) : Prop :=
  0 <= hashpower t <= alloc_max_hashpower /\
  length (buckets_ t) = Z.to_nat (2 ^ hashpower t) /\
  Forall (fun b : bucket => length b = SLOT_PER_BUCKET) (buckets_ t) /\
  length (locks_ t) = Z.to_nat (2 ^ Z.min (hashpower t) kMaxNumLocksPow) /\
  (hashpower t <= kMaxNumLocksPow -> forall l, migrated t l).

(** Lazy migration: a bucket of the upper half whose stripe is not yet
    migrated is still empty. *)
Definition lazy_ok (t : table) : Prop :=
  forall j, 2 ^ (hashpower t - 1) <= j < 2 ^ hashpower t ->
            ~ migrated t (lock_ind j) ->
            forall s, cell t j s = None.

(** The invariant of a quiescent table. *)
Definition inv (t : table) : Prop :=
  wf t /\ lazy_ok t /\ counters_sum t = occupied_slots t.

(** [t'] is [t] after some stripes were taken and migrated. *)
Inductive migr : table -> table -> Prop :=
| migr_refl t : migr t t
| migr_step t l t' : migr (lock_and_rehash l t) t' -> migr t t'.

(** The two tables differ at most in the policy fields. *)
Definition same_data (t t' : table) : Prop :=
  hashpower t' = hashpower t /\ buckets_ t' = buckets_ t /\ locks_ t' = locks_ t.

(** The two tables have the same policy fields. *)
Definition same_policy (t t' : table) : Prop :=
  minimum_load_factor_ t' = minimum_load_factor_ t /\
  maximum_hashpower_ t' = maximum_hashpower_ t /\
  max_num_worker_threads_ t' = max_num_worker_threads_ t.

(** The operations of the public interface, for sequences of calls. *)
Inductive operation :=
| op_find (key : K)
| op_find_copy (key : K) (val : V)
| op_find_fn (key : K) (fn : V -> V)
| op_contains (key : K)
| op_update (key : K) (val : V)
| op_update_fn (key : K) (fn : V -> V)
| op_erase (key : K)
| op_erase_fn (key : K) (fn : V -> V * bool)
| op_insert (key : K) (val : V)
| op_insert_or_assign (key : K) (val : V)
| op_upsert (key : K) (fn : V -> V) (val : V)
| op_uprase_fn (key : K) (fn : V -> V * bool) (val : V)
| op_rehash (n : Z)
| op_reserve (n : Z)
| op_clear
| op_minimum_load_factor (mlf : spec_float)
| op_maximum_hashpower (mhp : Z)
| op_max_num_worker_threads (n : Z).

(** Running one operation, its result dropped. *)
Definition run_operation (fuel : nat) (o : operation) : M unit :=
  match o with
  | op_find key => let* _ := find fuel key in ret tt
  | op_find_copy key val => let* _ := find_copy fuel key val in ret tt
  | op_find_fn key fn => let* _ := find_fn fuel key fn in ret tt
  | op_contains key => let* _ := contains fuel key in ret tt
  | op_update key val => let* _ := update fuel key val in ret tt
  | op_update_fn key fn => let* _ := update_fn fuel key fn in ret tt
  | op_erase key => let* _ := erase fuel key in ret tt
  | op_erase_fn key fn => let* _ := erase_fn fuel key fn in ret tt
  | op_insert key val => let* _ := insert fuel key val in ret tt
  | op_insert_or_assign key val => let* _ := insert_or_assign fuel key val in ret tt
  | op_upsert key fn val => let* _ := upsert fuel key fn val in ret tt
  | op_uprase_fn key fn val => let* _ := uprase_fn fuel key fn val in ret tt
  | op_rehash n => let* _ := rehash fuel n in ret tt
  | op_reserve n => let* _ := reserve fuel n in ret tt
  | op_clear => clear
  | op_minimum_load_factor mlf => minimum_load_factor_set mlf
  | op_maximum_hashpower mhp => maximum_hashpower_set mhp
  | op_max_num_worker_threads n => modify (fun t => set_max_num_worker_threads t n)
  end.

(** Running a sequence of operations; it stops at the first one that
    throws. *)
Fixpoint run_operations (fuel : nat) (ops : list operation) : M unit :=
  match ops with
  | [] => ret tt
  | o :: rest => let* _ := run_operation fuel o in run_operations fuel rest
  end.

(** Weakest precondition of a member function. *)
Definition wp {A} (m : M A) (Q : outcome A -> table -> Prop) (t : table) : Prop :=
  Q (fst (m t)) (snd (m t)).

(** The shape of the bucket array. *)
Definition shape (n : nat) (t : table) : Prop :=
  length (buckets_ t) = n /\
  Forall (fun b : bucket => length b = SLOT_PER_BUCKET) (buckets_ t).

(** What the migration of a stripe keeps besides the buckets. *)
Definition same_rest (t t' : table) : Prop :=
  hashpower t' = hashpower t /\ locks_ t' = locks_ t /\ same_policy t t'.

(** What taking and migrating stripes keeps. *)
Definition keeps (t t' : table) : Prop :=
  hashpower t' = hashpower t /\ same_policy t t' /\
  length (locks_ t') = length (locks_ t) /\
  counters_sum t' = counters_sum t /\
  occupied_slots t' = occupied_slots t /\
  (forall x, stored t' x <-> stored t x) /\
  (forall l, migrated t l -> migrated t' l).

(** The stripes of [i1] and [i2] are both migrated. *)
Definition stripes_migrated (t : table) (i1 i2 : Z) : Prop :=
  migrated t (lock_ind i1) /\ migrated t (lock_ind i2).

(** Taking the stripes of a list in order. *)
Definition take_stripes (ls : list Z) (t : table) : table :=
  fold_left (fun t l => lock_and_rehash l t) ls t.

(** The test of the scans of a bucket: the tags are compared unless the
    key type is simple, then the keys. *)
Definition key_matches (partial : Z) (key : K) (sl : kv_slot) : bool :=
  negb (negb is_simple && negb (partial =? s_partial sl)) && key_eq (s_key sl) key.

(** What [read_value] reads once both stripes are migrated. *)
Definition read_result (key : K) (t : table) : option V :=
  let hv := hashed_key key in
  let i1 := index_hash (hashpower t) (hv_hash hv) in
  let i2 := alt_index (hashpower t) (hv_partial hv) i1 in
  let pos := cuckoo_find key (hv_partial hv) i1 i2 t in
  if status_eqb (pos_status pos) ok then mapped_at t pos else None.

(** A test of the invariant for a table with no more buckets than
    stripes. *)
Definition inv_check (t : table) : bool :=
  (0 <=? hashpower t) && (hashpower t <=? alloc_max_hashpower) &&
  (hashpower t <=? kMaxNumLocksPow) &&
  (length (buckets_ t) =? Z.to_nat (2 ^ hashpower t))%nat &&
  forallb (fun b : bucket => (length b =? SLOT_PER_BUCKET)%nat) (buckets_ t) &&
  (length (locks_ t) =? Z.to_nat (2 ^ hashpower t))%nat &&
  forallb is_migrated (locks_ t) &&
  (counters_sum t =? occupied_slots t).

(** A test that no slot holds a key equal to [key]. *)
Definition absent_check (t : table) (key : K) : bool :=
  forallb (fun b : bucket =>
             forallb (fun c : option kv_slot =>
                        match c with
                        | Some sl => negb (key_eq (s_key sl) key)
                        | None => true
                        end) b) (buckets_ t).

(** The shape and the lazy-migration invariant together. *)
Definition good (t : table) : Prop := wf t /\ lazy_ok t.

(** Bucket [i] and slot [s] exist in a table of hashpower [hp]. *)
Definition in_table (hp i s : Z) : Prop := 0 <= i < 2 ^ hp /\ 0 <= s < slot_per_bucket.

(** The records [0 .. d] of a path name slots of the table. *)
Definition path_ok (hp : Z) (cuckoo_path : list CuckooRecord) (d : Z) : Prop :=
  forall k, 0 <= k <= d ->
            in_table hp (cr_bucket (path_at cuckoo_path k)) (cr_slot (path_at cuckoo_path k)).

(** The first lock manager holds the stripe of one of the two buckets. *)
Definition held (b : TwoBuckets) : Prop :=
  exists l, lock1 b = Some l /\ (l = lock_ind (tb_i1 b) \/ l = lock_ind (tb_i2 b)).

(** What [cuckoo_insert] guarantees with status [ok]: an empty slot of
    one of the two buckets, no matching key in either, and the stripes
    held. *)
Definition insert_site (hv : hash_value) (key : K) (t : table) (b : TwoBuckets)
           (pos : table_position) : Prop :=
  in_table (hashpower t) (pos_index pos) (pos_slot pos) /\
  (pos_index pos = tb_i1 b \/ pos_index pos = tb_i2 b) /\
  cell t (pos_index pos) (pos_slot pos) = None /\
  try_read_from_bucket (get_bucket t (tb_i1 b)) (hv_partial hv) key = -1 /\
  try_read_from_bucket (get_bucket t (tb_i2 b)) (hv_partial hv) key = -1 /\
  held b /\ stripes_migrated t (tb_i1 b) (tb_i2 b).

(** What it guarantees with status [failure_key_duplicated]: the
    position is the one [cuckoo_find] reports. *)
Definition duplicate_site (hv : hash_value) (key : K) (t : table) (b : TwoBuckets)
           (pos : table_position) : Prop :=
  cuckoo_find key (hv_partial hv) (tb_i1 b) (tb_i2 b) t
  = mk_pos (pos_index pos) (pos_slot pos) ok /\
  held b /\ stripes_migrated t (tb_i1 b) (tb_i2 b).

(** The candidate buckets of [b] are buckets of a table of hashpower [hp]. *)
Definition buckets_in (hp : Z) (b : TwoBuckets) : Prop :=
  0 <= tb_i1 b < 2 ^ hp /\ 0 <= tb_i2 b < 2 ^ hp.

(** The postcondition of [cuckoo_insert] and of [cuckoo_insert_loop]
    on a returned position. *)
Definition site (hv : hash_value) (key : K) (t : table) (b : TwoBuckets)
           (pos : table_position) : Prop :=
  match pos_status pos with
  | ok => insert_site hv key t b pos
  | failure_key_duplicated => duplicate_site hv key t b pos
  | failure_table_full => True
  | _ => False
  end.

(** What an expansion keeps: the policy fields, the sum of the counters,
    the number of occupied slots and the stored pairs. *)
Definition carries (t t' : table) : Prop :=
  same_policy t t' /\ counters_sum t' = counters_sum t /\
  occupied_slots t' = occupied_slots t /\ (forall x, stored t' x <-> stored t x).

(** The two buckets of [b] are those of [hv] at the hashpower of [t]. *)
Definition aligned (hv : hash_value) (t : table) (b : TwoBuckets) : Prop :=
  tb_i1 b = index_hash (hashpower t) (hv_hash hv) /\
  tb_i2 b = alt_index (hashpower t) (hv_partial hv) (tb_i1 b).

(** [key] is found at slot [ps] of bucket [pi], which holds [sl], and
    the stripes of its two buckets are migrated. *)
Definition found_at (key : K) (t : table) (pi ps : Z) (sl : kv_slot) : Prop :=
  let hv := hashed_key key in
  let i1 := index_hash (hashpower t) (hv_hash hv) in
  let i2 := alt_index (hashpower t) (hv_partial hv) i1 in
  stripes_migrated t i1 i2 /\
  cuckoo_find key (hv_partial hv) i1 i2 t = mk_pos pi ps ok /\
  cell t pi ps = Some sl /\ in_table (hashpower t) pi ps.

(** The postcondition shared by the operations: a returned result comes
    with the invariant and the same policy fields. *)
Definition keeps_inv {A} (t : table) (o : outcome A) (t' : table) : Prop :=
  match o with
  | Ret _ => inv t' /\ same_policy t t'
  | _ => True
  end.

(** A returned result comes with the invariant. *)
Definition ret_inv {A} (o : outcome A) (t' : table) : Prop :=
  match o with
  | Ret _ => inv t'
  | _ => True
  end.

(** The specification's [upsert]: [uprase_fn] with the functor that runs
    the modifier and returns [false]. *)
Definition upsert_spec `{params : Params} (fuel : nat) (key : K) (modifier : V -> V)
           (val : V) : M bool :=
  uprase_fn fuel key (fun v => (modifier v, false)) val.

(** The specification's [insert_or_assign]: [upsert] with the functor
    that assigns [v]. *)
Definition insert_or_assign_spec `{params : Params} (fuel : nat) (key : K) (v : V)
  : M bool :=
  upsert fuel key (fun _ => v) v.

(** What [cuckoo_expand_simple] guarantees when it expands a table [t]
    to the hashpower [new_hp]. *)
Definition expanded (new_hp : Z) (fuel : nat) (t : table)
           (o : outcome cuckoo_status) (t' : table) : Prop :=
  match o with
  | Ret st =>
      st = ok /\ good t' /\ carries t t' /\ hashpower t' = Z.max (hashpower t) new_hp /\
      (hashpower t < new_hp -> forall l, migrated t' l) /\
      (new_hp <= hashpower t -> t' = t)
  | Throw e =>
      e = std_bad_alloc \/
      (e = maximum_hashpower_exceeded (hashpower t' + 1) /\
       good t' /\ carries t t' /\ hashpower t' < new_hp /\
       hashpower t' = Z.max (hashpower t) (maximum_hashpower t) /\
       maximum_hashpower t <> NO_MAXIMUM_HASHPOWER)
  | OutOfFuel => (fuel < Z.to_nat (new_hp - hashpower t))%nat
  end.

(** [key_eq] is an equivalence that the hash function respects, as the
    table requires of [KeyEqual] and [Hash]. *)
Definition eq_ok : Prop :=
  (forall k, key_eq k k = true) /\
  (forall k k', key_eq k k' = true -> key_eq k' k = true) /\
  (forall k1 k2 k3, key_eq k1 k2 = true -> key_eq k2 k3 = true -> key_eq k1 k3 = true) /\
  (forall k k', key_eq k k' = true -> wrap64 (hash_fn k) = wrap64 (hash_fn k')).

(** Bucket [i] is one of the two candidate buckets of [key] at the
    hashpower [hp]. *)
Definition candidate (hp : Z) (key : K) (i : Z) : Prop :=
  i = index_hash hp (hv_hash (hashed_key key)) \/
  i = alt_index hp (hv_partial (hashed_key key)) (index_hash hp (hv_hash (hashed_key key))).

(** The tag stored with a pair is the tag of its key. *)
Definition tagged (sl : kv_slot) : Prop :=
  s_partial sl = hv_partial (hashed_key (s_key sl)).

(** Every stored pair has the tag of its key and sits in a candidate
    bucket of its key at the hashpower [eff i s] of its slot. *)
Definition placed_with (eff : Z -> Z -> Z) (t : table) : Prop :=
  forall i s sl, cell t i s = Some sl -> tagged sl /\ candidate (eff i s) (s_key sl) i.

(** The hashpower at which the pairs of bucket [i] are placed: the
    table's, or one less while the stripe of the bucket awaits its
    migration. *)
Definition level (t : table) (i : Z) : Z :=
  if is_migrated (get_lock t (lock_ind i)) then hashpower t else hashpower t - 1.

(** Every stored pair is where a lookup of its key searches. *)
Definition placed (t : table) : Prop :=
  placed_with (fun i _ => level t i) t.

(** No two slots hold equal keys. *)
Definition unique (t : table) : Prop :=
  forall i s sl i' s' sl',
    cell t i s = Some sl -> cell t i' s' = Some sl' ->
    key_eq (s_key sl) (s_key sl') = true -> i = i' /\ s = s'.

(** The invariant of a table as a map: the invariant of the counters and
    of the shape, with the placement and the uniqueness of the keys. *)
Definition sound (t : table) : Prop :=
  inv t /\ placed t /\ unique t.

(** Each record of the path up to [d] is in the alternate bucket of the
    record before it, for the hash value noted there. *)
Definition path_linked (hp : Z) (cuckoo_path : list CuckooRecord)
           (d : Z) : Prop :=
  forall k, 1 <= k <= d ->
            hv_partial (cr_hv (path_at cuckoo_path (k - 1)))
            = partial_key (hv_hash (cr_hv (path_at cuckoo_path (k - 1)))) /\
            cr_bucket (path_at cuckoo_path k)
            = alt_index hp (hv_partial (cr_hv (path_at cuckoo_path (k - 1))))
                        (cr_bucket (path_at cuckoo_path (k - 1))).

(** The table holds the pair of [k] and [v]. *)
Definition holds (t : table) (k : K) (v : V) : Prop :=
  exists sl, stored t sl /\ s_key sl = k /\ s_mapped sl = v.

(** The keys of a list of pairs are pairwise different. *)
Definition distinct_keys (kvs : list (K * V)) : Prop :=
  ForallOrdPairs (fun a b => key_eq (fst a) (fst b) = false) kvs.

(** A test of [sound] for a table with no more buckets than stripes:
    every pair has the tag of its key, sits in a candidate bucket of its
    key, and shares its key with no other slot. *)
Definition sound_check (t : table) : bool :=
  let buckets := zseq (Z.to_nat (2 ^ hashpower t)) in
  let slots := zseq SLOT_PER_BUCKET in
  inv_check t &&
  forallb (fun i =>
    forallb (fun j =>
      match cell t i j with
      | None => true
      | Some sl =>
          let hv := hashed_key (s_key sl) in
          let i1 := index_hash (hashpower t) (hv_hash hv) in
          (s_partial sl =? hv_partial hv) &&
          ((i =? i1) || (i =? alt_index (hashpower t) (hv_partial hv) i1)) &&
          forallb (fun i' =>
            forallb (fun j' =>
              match cell t i' j' with
              | None => true
              | Some sl' =>
                  negb (key_eq (s_key sl) (s_key sl')) || ((i =? i') && (j =? j'))
              end) slots) buckets
      end) slots) buckets.

(** Every slot of bucket [i] is occupied. *)
Definition full_bucket (t : table) (i : Z) : Prop :=
  forall s, 0 <= s < slot_per_bucket -> cell t i s <> None.

(** The buckets that the breadth-first search of [slot_search] visits from
    [i1] and [i2], with their depths: a step leads from a bucket to the
    alternate bucket of one of its pairs, and a path has at most
    [MAX_BFS_PATH_LEN] buckets. *)
Inductive reach (hp : Z) (t : table) (i1 i2 : Z) : Z -> Z -> Prop :=
| reach_first : reach hp t i1 i2 0 i1
| reach_second : reach hp t i1 i2 0 i2
| reach_step d i s sl :
    reach hp t i1 i2 d i -> d < MAX_BFS_PATH_LEN - 1 ->
    0 <= s < slot_per_bucket -> cell t i s = Some sl ->
    reach hp t i1 i2 (d + 1) (alt_index hp (s_partial sl) i).

(** The entry [e] was enqueued. *)
Definition seen (q : b_queue) (e : b_slot) : Prop :=
  exists k, (k < Z.to_nat (last_ q))%nat /\ slots_ q !! k = Some e.

(** The entry [e] was dequeued. *)
Definition visited (q : b_queue) (e : b_slot) : Prop :=
  exists k, (k < Z.to_nat (first_ q))%nat /\ slots_ q !! k = Some e.

(** The queue [q'] holds the entries of [q] and maybe more. *)
Definition grows (q q' : b_queue) : Prop :=
  last_ q <= last_ q' /\
  forall k, (k < Z.to_nat (last_ q))%nat -> slots_ q' !! k = slots_ q !! k.

(** The invariant of the search in a table that does not change: the
    bucket of a dequeued entry is full, and the alternate buckets of its
    pairs were enqueued one level deeper. *)
Definition bfs_inv (hp : Z) (t : table) (q : b_queue) : Prop :=
  forall e, visited q e ->
    full_bucket t (bs_bucket e) /\
    (depth e < MAX_BFS_PATH_LEN - 1 ->
     forall s sl, 0 <= s < slot_per_bucket -> cell t (bs_bucket e) s = Some sl ->
       exists e', seen q e' /\ bs_bucket e' = alt_index hp (s_partial sl) (bs_bucket e) /\
                  depth e' = depth e + 1).

End Notions.

(** A table of [cuckoohash_map<int, int>] with [2^16] buckets, as many as
    there are stripes; the keys 5, 65541 and 131077 share bucket 5. *)
Definition wide_table : table := int_table_with 262144 [(5, 50); (65541, 60); (131077, 70)].

(** The same table after a doubling in the normal mode, which leaves the
    migration of every stripe to the operation that takes it. *)
Definition lazy_table : table :=
  snd (@cuckoo_fast_double int_params normal_mode false (hashpower wide_table) wide_table).

(** A table of [cuckoohash_map<int, int>] with four buckets whose
    buckets 1 and 3 are full; key 259, in bucket 3, has bucket 0 as its
    other candidate, the other keys have the buckets 1 and 3. *)
Definition path_table : table :=
  int_table_with 16 [(259, 2590); (1, 10); (5, 50); (9, 90); (13, 130); (17, 170);
                     (21, 210); (25, 250)].

(** A table of [cuckoohash_map<int, int>] with two buckets whose keys 1,
    3, 5 and 7 all have bucket 1 as both candidates, with the floor of the
    load factor set to 0.9. *)
Definition crowded_table : table :=
  snd (run_operations 10
         [@op_insert int_params 1 10; @op_insert int_params 3 30;
          @op_insert int_params 5 50; @op_insert int_params 7 70;
          @op_minimum_load_factor int_params (double_div (double_of_Z 9) (double_of_Z 10))]
         (int_table 8)).


(** A sequence of operations on [cuckoohash_map<int, int>]: inserts
    that force an expansion, an erase, an upsert of a present key and an
    explicit rehash. *)
Definition sample_operations : list (@operation int_params) :=
  [@op_insert int_params 1 10; @op_insert int_params 3 30; @op_insert int_params 5 50;
   @op_insert int_params 7 70; @op_insert int_params 9 90; @op_erase int_params 3;
   @op_insert_or_assign int_params 5 55; @op_rehash int_params 3;
   @op_insert int_params 2 20].

(** * Properties *)

(** ** Machine words and bits *)

Lemma wrap_range w z : 0 <= w -> 0 <= wrap w z < 2 ^ w.
Proof. intros Hw. unfold wrap. apply Z.mod_pos_bound. apply Z.pow_pos_nonneg; lia. Qed.

Lemma wrap_small w z : 0 <= z < 2 ^ w -> wrap w z = z.
Proof. intros H. unfold wrap. apply Z.mod_small. exact H. Qed.

Lemma wrap64_range z : 0 <= wrap64 z < 2 ^ 64.
Proof. apply wrap_range. lia. Qed.

Lemma wrap64_small z : 0 <= z < 2 ^ 64 -> wrap64 z = z.
Proof. apply wrap_small. Qed.

Lemma hashsize_small hp : 0 <= hp < 64 -> hashsize hp = 2 ^ hp.
Proof.
  intros H. unfold hashsize. rewrite Z.shiftl_1_l. apply wrap64_small.
  split; [apply Z.pow_nonneg; lia | apply Z.pow_lt_mono_r; lia].
Qed.

Lemma hashsize_large hp : 64 <= hp -> hashsize hp = 0.
Proof.
  intros H. unfold hashsize, wrap64, wrap. rewrite Z.shiftl_1_l.
  replace hp with (64 + (hp - 64)) by lia.
  rewrite Z.pow_add_r by lia. rewrite Z.mul_comm. apply Z.mod_mul. lia.
Qed.

(** The mask has its low [min hp 64] bits set. *)
Lemma hashmask_ones hp : 0 <= hp -> hashmask hp = Z.ones (Z.min hp 64).
Proof.
  intros H. unfold hashmask. destruct (Z_lt_le_dec hp 64) as [Hlt|Hge].
  - rewrite hashsize_small by lia. rewrite Z.min_l by lia.
    rewrite Z.ones_equiv, <- Z.sub_1_r. apply wrap64_small.
    assert (0 < 2 ^ hp) by (apply Z.pow_pos_nonneg; lia).
    assert (2 ^ hp < 2 ^ 64) by (apply Z.pow_lt_mono_r; lia). lia.
  - rewrite hashsize_large by lia. rewrite Z.min_r by lia. reflexivity.
Qed.

Lemma hashmask_small hp : 0 <= hp < 64 -> hashmask hp = 2 ^ hp - 1.
Proof.
  intros H. rewrite hashmask_ones by lia. rewrite Z.min_l by lia.
  rewrite Z.ones_equiv. lia.
Qed.

Lemma testbit_above (n k z : Z) : 0 <= z < 2 ^ k -> k <= n -> Z.testbit z n = false.
Proof.
  intros Hz Hn. destruct (Z.eq_dec z 0) as [->|Hnz]; [apply Z.bits_0|].
  apply Z.bits_above_log2; [lia|].
  assert (Z.log2 z < k); [|lia]. apply Z.log2_lt_pow2; lia.
Qed.

Lemma land_ones_small z k : 0 <= k -> 0 <= z < 2 ^ k -> Z.land z (Z.ones k) = z.
Proof. intros Hk Hz. rewrite Z.land_ones by lia. apply Z.mod_small. exact Hz. Qed.

Lemma land_ones_range z k : 0 <= k -> 0 <= Z.land z (Z.ones k) < 2 ^ k.
Proof.
  intros Hk. rewrite Z.land_ones by lia. apply Z.mod_pos_bound.
  apply Z.pow_pos_nonneg; lia.
Qed.

Lemma lxor_range (a b k : Z) :
  0 <= k -> 0 <= a < 2 ^ k -> 0 <= b < 2 ^ k -> 0 <= Z.lxor a b < 2 ^ k.
Proof.
  intros Hk Ha Hb.
  assert (Hnn : 0 <= Z.lxor a b) by (apply Z.lxor_nonneg; lia).
  split; [exact Hnn|].
  destruct (Z.eq_dec (Z.lxor a b) 0) as [->|Hnz]; [apply Z.pow_pos_nonneg; lia|].
  apply Z.log2_lt_pow2; [lia|].
  destruct (Z_lt_le_dec (Z.log2 (Z.lxor a b)) k) as [|Hge]; [assumption|exfalso].
  assert (Hbit : Z.testbit (Z.lxor a b) (Z.log2 (Z.lxor a b)) = true)
    by (apply Z.bit_log2; lia).
  rewrite Z.lxor_spec in Hbit.
  rewrite (testbit_above _ k a), (testbit_above _ k b) in Hbit by lia.
  discriminate.
Qed.

(** ** C3: the alternate index *)

Lemma alt_index_range hp p i : 0 <= hp -> 0 <= alt_index hp p i < 2 ^ Z.min hp 64.
Proof.
  intros H. unfold alt_index. rewrite hashmask_ones by lia.
  apply land_ones_range. lia.
Qed.

(** C3.  For every hashpower [hp], every partial tag [p] and every bucket
    index [i] below [2^hp] (a 64-bit word), applying [alt_index] twice with
    the same hashpower and tag gives [i] back.  A shift by 64 or more is
    taken with wrap-around, as the definitions of [hashsize] and
    [hashmask] write it. *)
Theorem alt_index_involution (hp p i : Z) :
  0 <= hp -> 0 <= i < 2 ^ hp -> i < 2 ^ 64 ->
  alt_index hp p (alt_index hp p i) = i.
Proof.
  intros Hhp Hi Hi64. unfold alt_index. rewrite hashmask_ones by lia.
  set (m := wrap64 (wrap64 (p + 1) * murmur_c)).
  set (k := Z.min hp 64).
  assert (Hk : 0 <= k) by lia.
  assert (Hik : 0 <= i < 2 ^ k).
  { unfold k. destruct (Z_lt_le_dec hp 64); [rewrite Z.min_l by lia|rewrite Z.min_r by lia]; lia. }
  apply Z.bits_inj'. intros n Hn.
  rewrite !Z.land_spec, !Z.lxor_spec, !Z.land_spec, !Z.lxor_spec.
  destruct (Z_lt_le_dec n k) as [Hlt|Hge].
  - rewrite Z.ones_spec_low by lia. rewrite !andb_true_r.
    rewrite xorb_assoc, xorb_nilpotent, xorb_false_r. reflexivity.
  - rewrite Z.ones_spec_high by lia. rewrite andb_false_r.
    symmetry. apply (testbit_above n k); lia.
Qed.

(** The witness: hashpower 10, tag 37, bucket 600. *)
Lemma alt_index_involution_witness :
  alt_index 10 37 (alt_index 10 37 600) = 600.
Proof. apply alt_index_involution; lia. Defined.

(** ** C4: the partial tag *)

Lemma fold_half_range (w x : Z) :
  0 <= w -> 0 <= x < 2 ^ (2 * w) -> 0 <= Z.lxor (x mod 2 ^ w) (x / 2 ^ w) < 2 ^ w.
Proof.
  intros Hw Hx.
  assert (Hpos : 0 < 2 ^ w) by (apply Z.pow_pos_nonneg; lia).
  apply lxor_range; [lia| apply Z.mod_pos_bound; lia|].
  split; [apply Z.div_pos; lia|].
  apply Z.div_lt_upper_bound; [lia|].
  rewrite <- Z.pow_add_r by lia. replace (w + w) with (2 * w) by lia. lia.
Qed.

Lemma fold_step (w x : Z) :
  0 <= w -> 0 <= x < 2 ^ (2 * w) ->
  Z.lxor (wrap w x) (wrap w (Z.shiftr x w)) = Z.lxor (x mod 2 ^ w) (x / 2 ^ w).
Proof.
  intros Hw Hx.
  assert (Hpos : 0 < 2 ^ w) by (apply Z.pow_pos_nonneg; lia).
  rewrite Z.shiftr_div_pow2 by lia. unfold wrap at 1. f_equal.
  apply wrap_small. split; [apply Z.div_pos; lia|].
  apply Z.div_lt_upper_bound; [lia|].
  rewrite <- Z.pow_add_r by lia. replace (w + w) with (2 * w) by lia. lia.
Qed.

Lemma partial_key_spec (h : Z) : partial_key h = partial_spec (wrap64 h).
Proof.
  unfold partial_key, partial_spec, fold_half, wrap32, wrap16, wrap8.
  change (64 / 2) with 32. change (32 / 2) with 16. change (16 / 2) with 8.
  pose proof (wrap64_range h) as H64.
  rewrite (fold_step 32) by (change (2 ^ (2 * 32)) with (2 ^ 64); lia).
  pose proof (fold_half_range 32 (wrap64 h) ltac:(lia) H64) as H32.
  rewrite (fold_step 16) by (change (2 ^ (2 * 16)) with (2 ^ 32); lia).
  pose proof (fold_half_range 16 _ ltac:(lia) H32) as H16.
  rewrite (fold_step 8) by (change (2 ^ (2 * 8)) with (2 ^ 16); lia).
  reflexivity.
Qed.

Lemma partial_key_range (h : Z) : 0 <= partial_key h < 2 ^ 8.
Proof.
  rewrite partial_key_spec. unfold partial_spec, fold_half.
  change (64 / 2) with 32. change (32 / 2) with 16. change (16 / 2) with 8.
  pose proof (wrap64_range h) as H64.
  pose proof (fold_half_range 32 (wrap64 h) ltac:(lia) H64) as H32.
  pose proof (fold_half_range 16 _ ltac:(lia) H32) as H16.
  exact (fold_half_range 8 _ ltac:(lia) H16).
Qed.

Lemma Zltb_true a b : a < b -> (a <? b) = true. Proof. intros; apply Z.ltb_lt; lia. Qed.
Lemma Zltb_false a b : b <= a -> (a <? b) = false. Proof. intros; apply Z.ltb_ge; lia. Qed.
Lemma testbit_idx x a b : a = b -> Z.testbit x a = Z.testbit x b. Proof. congruence. Qed.

Lemma partial_key_xor_bytes (h : Z) : partial_key h = xor_bytes (wrap64 h).
Proof.
  apply Z.bits_inj'. intros n Hn.
  destruct (Z_lt_le_dec n 8) as [Hlt|Hge].
  - rewrite partial_key_spec. generalize (wrap64 h). intros x.
    unfold partial_spec, fold_half, xor_bytes, byte_of.
    change (64 / 2) with 32. change (32 / 2) with 16. change (16 / 2) with 8.
    cbn [seq map fold_right].
    repeat first
      [ rewrite Z.lxor_spec
      | rewrite Z.testbit_mod_pow2 by lia
      | rewrite Z.div_pow2_bits by lia
      | rewrite Z.bits_0 ].
    rewrite !Zltb_true by lia.
    rewrite !andb_true_l, xorb_false_r.
    rewrite (testbit_idx x (n + 8 * Z.of_nat 0) n) by lia.
    rewrite (testbit_idx x (n + 8 * Z.of_nat 1) (n + 8)) by lia.
    rewrite (testbit_idx x (n + 8 * Z.of_nat 2) (n + 16)) by lia.
    rewrite (testbit_idx x (n + 8 * Z.of_nat 3) (n + 8 + 16)) by lia.
    rewrite (testbit_idx x (n + 8 * Z.of_nat 4) (n + 32)) by lia.
    rewrite (testbit_idx x (n + 8 * Z.of_nat 5) (n + 8 + 32)) by lia.
    rewrite (testbit_idx x (n + 8 * Z.of_nat 6) (n + 16 + 32)) by lia.
    rewrite (testbit_idx x (n + 8 * Z.of_nat 7) (n + 8 + 16 + 32)) by lia.
    generalize (Z.testbit x n) (Z.testbit x (n+8)) (Z.testbit x (n+16)) (Z.testbit x (n+8+16)) (Z.testbit x (n+32)) (Z.testbit x (n+8+32)) (Z.testbit x (n+16+32)) (Z.testbit x (n+8+16+32)).
    intros [] [] [] [] [] [] [] []; reflexivity.
  - rewrite (testbit_above n 8) by (try apply partial_key_range; lia).
    unfold xor_bytes, byte_of. cbn [seq map fold_right].
    repeat first
      [ rewrite Z.lxor_spec
      | rewrite Z.testbit_mod_pow2 by lia
      | rewrite Z.bits_0 ].
    rewrite !(Zltb_false n 8) by lia. reflexivity.
Qed.

(** C4.  For every hash [h], [partial_key h] is the byte obtained by
    xor-folding the 64-bit hash to 32, then 16, then 8 bits, which is the
    xor of its eight bytes; it is
    determined by the 64-bit value of the hash alone (the function takes
    neither a table nor a hashpower), and it is the tag that [hashed_key]
    attaches to the hash of every key. *)
Theorem partial_key_xor_fold `{params : Params} (h : Z) :
  partial_key h = partial_spec (wrap64 h) /\
  partial_key h = xor_bytes (wrap64 h) /\
  0 <= partial_key h < 2 ^ 8 /\
  (forall h', wrap64 h' = wrap64 h -> partial_key h' = partial_key h) /\
  (forall key : K, hv_partial (hashed_key key) = partial_key (hv_hash (hashed_key key))).
Proof.
  split; [apply partial_key_spec|].
  split; [apply partial_key_xor_bytes|].
  split; [apply partial_key_range|].
  split.
  - intros h' Heq. rewrite !partial_key_spec, Heq. reflexivity.
  - intros key. reflexivity.
Qed.

(** ** C10: the setter of the minimum load factor *)

Lemma SFcompare_antisym (x y : spec_float) :
  SFcompare y x = option_map CompOpp (SFcompare x y).
Proof.
  destruct x as [sx|sx| |sx mx ex], y as [sy|sy| |sy my ey]; simpl; try reflexivity;
    try (destruct sx; reflexivity); try (destruct sy; reflexivity);
    try (destruct sx, sy; reflexivity).
  destruct sx, sy; simpl; try reflexivity.
  - rewrite (Z.compare_antisym ex ey). destruct (ex ?= ey); simpl; try reflexivity.
    rewrite (Pos.compare_cont_antisym mx my Eq). simpl. reflexivity.
  - rewrite (Z.compare_antisym ex ey). destruct (ex ?= ey); simpl; try reflexivity.
    rewrite (Pos.compare_cont_antisym mx my Eq). simpl.
    destruct (Pos.compare_cont Eq mx my); reflexivity.
Qed.

Lemma double_le_not_lt (x y : spec_float) :
  double_le x y = true -> double_lt y x = false.
Proof.
  unfold double_le, double_lt, SFleb, SFltb. rewrite (SFcompare_antisym x y).
  destruct (SFcompare x y) as [[]|]; simpl; congruence.
Qed.

(** C10.  [minimum_load_factor(mlf)] throws [std::invalid_argument] and
    leaves the table, hence the stored minimum load factor, as it was
    when [mlf < 0.0] or [mlf > 1.0]; for [0.0 <= mlf <= 1.0] it returns
    normally and the stored minimum load factor is [mlf]. *)
Theorem minimum_load_factor_set_correct `{params : Params} (mlf : spec_float) (t : table) :
  (double_lt mlf double_zero = true \/ double_lt double_one mlf = true ->
   minimum_load_factor_set mlf t = (Throw std_invalid_argument, t)) /\
  (double_le double_zero mlf = true /\ double_le mlf double_one = true ->
   minimum_load_factor_set mlf t = (Ret tt, set_minimum_load_factor t mlf) /\
   minimum_load_factor (set_minimum_load_factor t mlf) = mlf).
Proof.
  unfold minimum_load_factor_set. split.
  - intros [H|H].
    + rewrite H. reflexivity.
    + rewrite H. destruct (double_lt mlf double_zero); reflexivity.
  - intros [H0 H1].
    rewrite (double_le_not_lt _ _ H0), (double_le_not_lt _ _ H1).
    split; reflexivity.
Qed.

(** ** Scanning a bucket *)

Section Scan.
Context {params : Params}.

Lemma occupied_Some (b : bucket) i s : slot_at b i = Some s -> occupied b i = true.
Proof. intros H. unfold occupied. rewrite H. apply bool_decide_eq_true. eauto. Qed.

Lemma occupied_None (b : bucket) i : slot_at b i = None -> occupied b i = false.
Proof.
  intros H. unfold occupied. rewrite H. apply bool_decide_eq_false.
  intros [x Hx]. discriminate.
Qed.

Lemma occupied_true_iff (b : bucket) i : occupied b i = true <-> exists s, slot_at b i = Some s.
Proof.
  unfold occupied. rewrite bool_decide_eq_true. reflexivity.
Qed.

Lemma occupied_false_iff (b : bucket) i : occupied b i = false <-> slot_at b i = None.
Proof.
  unfold occupied. rewrite bool_decide_eq_false. rewrite <- eq_None_not_Some. reflexivity.
Qed.

Lemma elem_of_zseq n j : j ∈ zseq n <-> 0 <= j < Z.of_nat n.
Proof.
  unfold zseq. rewrite list_elem_of_fmap. split.
  - intros [k [-> Hk]]. apply elem_of_seq in Hk. lia.
  - intros Hj. exists (Z.to_nat j). split; [lia|]. apply elem_of_seq. lia.
Qed.

Lemma zseq_sorted_from a n : StronglySorted Z.lt (Z.of_nat <$> seq a n).
Proof.
  revert a. induction n as [|n IH]; intros a; simpl; constructor.
  - apply IH.
  - apply Forall_forall. intros j Hj. apply list_elem_of_fmap in Hj.
    destruct Hj as [k [-> Hk]]. apply elem_of_seq in Hk. lia.
Qed.

Lemma zseq_sorted n : StronglySorted Z.lt (zseq n).
Proof. apply zseq_sorted_from. Qed.

(** The scan for an insertion site, when it meets no duplicate, leaves in
    [slot] the last empty slot of the range, or its initial value. *)
Lemma try_find_insert_bucket_loop_true (b : bucket) partial key slots :
  StronglySorted Z.lt slots ->
  forall acc s,
  try_find_insert_bucket_loop b acc partial key slots = (true, s) ->
  (s = acc /\ forall j, j ∈ slots -> occupied b j = true) \/
  (s ∈ slots /\ occupied b s = false /\
   forall j, j ∈ slots -> s < j -> occupied b j = true).
Proof.
  induction 1 as [|i rest Hsorted IH Hlt]; intros acc s Hrun; simpl in Hrun.
  - inversion Hrun; subst. left. split; [reflexivity|]. intros j Hj.
    apply elem_of_nil in Hj. destruct Hj.
  - rewrite Forall_forall in Hlt.
    destruct (slot_at b i) as [sl|] eqn:Hslot.
    + assert (Hrec : try_find_insert_bucket_loop b acc partial key rest = (true, s)).
      { destruct (negb is_simple && negb (partial =? s_partial sl)); [exact Hrun|].
        destruct (key_eq (s_key sl) key); [discriminate|exact Hrun]. }
      destruct (IH _ _ Hrec) as [[-> Hall]|[Hin [Hocc Hafter]]].
      * left. split; [reflexivity|]. intros j Hj. apply elem_of_cons in Hj.
        destruct Hj as [->|Hj]; [eapply occupied_Some; eauto|auto].
      * right. split; [apply elem_of_cons; right; exact Hin|]. split; [exact Hocc|].
        intros j Hj Hsj. apply elem_of_cons in Hj.
        destruct Hj as [->|Hj]; [eapply occupied_Some; eauto|auto].
    + destruct (IH _ _ Hrun) as [[-> Hall]|[Hin [Hocc Hafter]]].
      * right. split; [apply elem_of_cons; left; reflexivity|].
        split; [apply occupied_None; exact Hslot|].
        intros j Hj Hsj. apply elem_of_cons in Hj. destruct Hj as [->|Hj]; [lia|auto].
      * right. split; [apply elem_of_cons; right; exact Hin|]. split; [exact Hocc|].
        intros j Hj Hsj. apply elem_of_cons in Hj. destruct Hj as [->|Hj]; [|auto].
        specialize (Hlt _ Hin). lia.
Qed.

Lemma try_find_insert_bucket_true (b : bucket) partial key s :
  try_find_insert_bucket b partial key = (true, s) ->
  last_empty_slot_is b s.
Proof.
  intros Hrun. unfold try_find_insert_bucket in Hrun. unfold last_empty_slot_is.
  destruct (try_find_insert_bucket_loop_true b partial key _ (zseq_sorted _) _ _ Hrun)
    as [[-> Hall]|[Hin [Hocc Hafter]]].
  - left. split; [reflexivity|]. intros j Hj. apply Hall. apply elem_of_zseq. exact Hj.
  - apply elem_of_zseq in Hin. right. split; [exact Hin|]. split; [exact Hocc|].
    intros j Hj. apply Hafter; [apply elem_of_zseq; unfold slot_per_bucket in Hj; lia|lia].
Qed.

(** When the scan meets a duplicate it reports the slot that holds it. *)
Lemma try_find_insert_bucket_loop_false (b : bucket) partial key slots acc s :
  try_find_insert_bucket_loop b acc partial key slots = (false, s) ->
  s ∈ slots /\ exists sl, slot_at b s = Some sl /\ key_eq (s_key sl) key = true /\
     (is_simple = true \/ partial = s_partial sl).
Proof.
  revert acc. induction slots as [|i rest IH]; intros acc Hrun; simpl in Hrun.
  - discriminate.
  - destruct (slot_at b i) as [sl|] eqn:Hslot.
    + destruct (negb is_simple && negb (partial =? s_partial sl)) eqn:Hskip.
      * destruct (IH _ Hrun) as [Hin Hex]. split; [apply elem_of_cons; auto|exact Hex].
      * destruct (key_eq (s_key sl) key) eqn:Heq.
        -- inversion Hrun; subst. split; [apply elem_of_cons; auto|].
           exists sl. split; [exact Hslot|]. split; [exact Heq|].
           apply andb_false_iff in Hskip. destruct Hskip as [Hs|Hp].
           ++ left. destruct is_simple; [reflexivity|discriminate].
           ++ right. apply negb_false_iff in Hp. apply Z.eqb_eq in Hp. exact Hp.
        -- destruct (IH _ Hrun) as [Hin Hex]. split; [apply elem_of_cons; auto|exact Hex].
    + destruct (IH _ Hrun) as [Hin Hex]. split; [apply elem_of_cons; auto|exact Hex].
Qed.


Lemma lock_two_normal_lock1 hp i1 i2 t b t' :
  lock_two normal_mode hp i1 i2 t = (Ret b, t') ->
  exists l, lock1 b = Some l.
Proof.
  unfold lock_two, bind, modify, check_hashpower, ret.
  destruct (lock_ind i2 <? lock_ind i1);
    match goal with |- context [hashpower ?t' =? hp] => destruct (hashpower t' =? hp) end;
    try discriminate;
    match goal with |- context [negb ?c] => destruct c end; simpl;
    intros H; inversion H; subst; eexists; reflexivity.
Qed.

Lemma snapshot_and_lock_two_normal_lock1 n hv t b t' :
  snapshot_and_lock_two normal_mode n hv t = (Ret b, t') ->
  exists l, lock1 b = Some l.
Proof.
  revert t. induction n as [|n IH]; intros t; cbn [snapshot_and_lock_two].
  - discriminate.
  - unfold bind at 1, get_table at 1, catch_hashpower_changed.
    match goal with
    | |- context [lock_two ?m ?hp ?i1 ?i2 t] =>
        destruct (lock_two m hp i1 i2 t) as [[b0|e|] t0] eqn:Hlock
    end.
    + intros H. inversion H; subst. eapply lock_two_normal_lock1; eauto.
    + destruct e; try discriminate. apply IH.
    + discriminate.
Qed.

End Scan.

(** ** C5: where an insert constructs the pair *)

(** C5, as stated, fails: with slots 0 and 1 empty the scan reports slot
    1, which is not the first empty slot, and an insert into a fresh
    table constructs the pair in the last slot of the bucket. *)
Lemma first_empty_slot_counterexample :
  let b : bucket := [None; None; Some (mk_slot 0 5 50); Some (mk_slot 0 6 60)] in
  try_find_insert_bucket b 0 7 = (true, 1) /\
  ~ first_empty_slot_is b 1 /\
  get_bucket (snd (insert 1 0 100 (int_table 8))) 0
  = [None; None; None; Some (mk_slot 0 0 100)].
Proof.
  split; [reflexivity|]. split; [|reflexivity].
  intros [[H _]|[_ [_ H]]]; [discriminate|].
  specialize (H 0 ltac:(lia)). discriminate.
Qed.

(** C5, amended.  For an insert whose scans of the two locked candidate
    buckets meet no duplicate, each scan reports the last empty slot of
    its bucket (or -1 for a full bucket); when bucket 1 has an empty slot
    the pair is constructed in its last empty slot, otherwise, when
    bucket 2 has one, in the last empty slot of bucket 2; in both cases
    the counter of the first held stripe is incremented and the insert
    returns true. *)
Theorem insert_site_last_empty_slot `{params : Params}
        (fuel : nat) (key : K) (fn : V -> V * bool) (val : V)
        (t t1 : table) (b : TwoBuckets) (s1 s2 : Z) :
  snapshot_and_lock_two normal_mode (S fuel) (hashed_key key) t = (Ret b, t1) ->
  try_find_insert_bucket (get_bucket t1 (tb_i1 b)) (hv_partial (hashed_key key)) key
  = (true, s1) ->
  try_find_insert_bucket (get_bucket t1 (tb_i2 b)) (hv_partial (hashed_key key)) key
  = (true, s2) ->
  last_empty_slot_is (get_bucket t1 (tb_i1 b)) s1 /\
  last_empty_slot_is (get_bucket t1 (tb_i2 b)) s2 /\
  exists l, lock1 b = Some l /\
    (s1 <> -1 ->
     uprase_fn (S fuel) key fn val t
     = (Ret true,
        incr_elem_counter l
          (setKV (tb_i1 b) s1 (hv_partial (hashed_key key)) key val t1))) /\
    (s1 = -1 -> s2 <> -1 ->
     uprase_fn (S fuel) key fn val t
     = (Ret true,
        incr_elem_counter l
          (setKV (tb_i2 b) s2 (hv_partial (hashed_key key)) key val t1))).
Proof.
  intros Hsnap H1 H2.
  split; [eapply try_find_insert_bucket_true; eauto|].
  split; [eapply try_find_insert_bucket_true; eauto|].
  destruct (snapshot_and_lock_two_normal_lock1 _ _ _ _ _ Hsnap) as [l Hl].
  exists l. split; [exact Hl|].
  assert (Hins : forall s i, (s1 <> -1 /\ s = s1 /\ i = tb_i1 b) \/
                             (s1 = -1 /\ s2 <> -1 /\ s = s2 /\ i = tb_i2 b) ->
            cuckoo_insert normal_mode (S fuel) (hashed_key key) b key t1
            = (Ret (mk_pos i s ok, b), t1)).
  { intros s i Hcase. unfold cuckoo_insert, bind, get_table, ret.
    rewrite H1, H2. simpl.
    destruct Hcase as [[Hne [-> ->]]|[-> [Hne [-> ->]]]].
    - apply Z.eqb_neq in Hne. rewrite Hne. reflexivity.
    - apply Z.eqb_neq in Hne. rewrite Hne. reflexivity. }
  assert (Hup : forall s i, (s1 <> -1 /\ s = s1 /\ i = tb_i1 b) \/
                            (s1 = -1 /\ s2 <> -1 /\ s = s2 /\ i = tb_i2 b) ->
            uprase_fn (S fuel) key fn val t
            = (Ret true,
               incr_elem_counter l (setKV i s (hv_partial (hashed_key key)) key val t1))).
  { intros s i Hcase. unfold uprase_fn. unfold bind at 1. rewrite Hsnap.
    unfold bind at 1. cbn [cuckoo_insert_loop].
    unfold bind at 1, get_table at 1. unfold bind at 1.
    rewrite (Hins s i Hcase). cbn [pos_status ret status_eqb pos_index pos_slot].
    rewrite Hl. reflexivity. }
  split.
  - intros Hne. apply Hup. left. auto.
  - intros He Hne. apply Hup. right. auto.
Qed.

(** The witness: inserting key 0 into a fresh two-bucket table; both
    candidate buckets are empty, so the pair goes to slot 3 of bucket 0. *)
Lemma insert_site_last_empty_slot_witness :
  uprase_fn 1 (0 : Z) (fun v => (v, false)) (100 : Z) (int_table 8)
  = (Ret true, incr_elem_counter 0 (setKV 0 3 0 0 100 (int_table 8))).
Proof.
  destruct (insert_site_last_empty_slot (params := int_params)
              0 (0 : Z) (fun v => (v, false)) (100 : Z)
              (int_table 8) (int_table 8) (mk_two 0 1 (Some 0) (Some 1)) 3 3
              ltac:(vm_compute; reflexivity) ltac:(vm_compute; reflexivity)
              ltac:(vm_compute; reflexivity))
    as (_ & _ & l & Hl & H1 & _).
  simpl in Hl. inversion Hl; subst l. apply H1. lia.
Defined.

(** ** Reasoning about member functions *)

Section Monad.
Context {params : Params}.

Lemma wp_bind {A B} (m : M A) (f : A -> M B) Q t :
  wp m (fun o t' =>
          match o with
          | Ret a => wp (f a) Q t'
          | Throw e => Q (Throw e) t'
          | OutOfFuel => Q OutOfFuel t'
          end) t ->
  wp (bind m f) Q t.
Proof.
  unfold wp, bind. destruct (m t) as [[a|e|] t']; simpl; auto.
Qed.

Lemma wp_ret {A} (a : A) (Q : outcome A -> table -> Prop) t : Q (Ret a) t -> wp (ret a) Q t.
Proof. auto. Qed.

Lemma wp_throw {A} e (Q : outcome A -> table -> Prop) t : Q (Throw e) t -> wp (throw e) Q t.
Proof. auto. Qed.

Lemma wp_out_of_fuel {A} (Q : outcome A -> table -> Prop) t :
  Q OutOfFuel t -> wp out_of_fuel Q t.
Proof. auto. Qed.

Lemma wp_get_table (Q : outcome table -> table -> Prop) t : Q (Ret t) t -> wp get_table Q t.
Proof. auto. Qed.

Lemma wp_modify f (Q : outcome unit -> table -> Prop) t : Q (Ret tt) (f t) -> wp (modify f) Q t.
Proof. auto. Qed.

Lemma wp_mono {A} (m : M A) (Q Q' : outcome A -> table -> Prop) t :
  wp m Q t -> (forall o t', Q o t' -> Q' o t') -> wp m Q' t.
Proof. unfold wp. auto. Qed.

Lemma wp_eq {A} (m : M A) (Q : outcome A -> table -> Prop) t o t' :
  m t = (o, t') -> Q o t' -> wp m Q t.
Proof. intros H HQ. unfold wp. rewrite H. exact HQ. Qed.

Lemma wp_inv {A} (m : M A) (Q : outcome A -> table -> Prop) t o t' :
  wp m Q t -> m t = (o, t') -> Q o t'.
Proof. unfold wp. intros H Heq. rewrite Heq in H. exact H. Qed.

End Monad.

(** ** C9: the queue of the breadth-first search *)

Section Queue.
Context {params : Params}.

Lemma geo_nonneg s k : 0 < s -> 0 <= geo s k.
Proof. intros Hs. induction k as [|k IH]; simpl; nia. Qed.

Lemma geo_pos s k : 0 < s -> (0 < k)%nat -> 1 <= geo s k.
Proof.
  intros Hs Hk. destruct k as [|k]; [lia|]. simpl.
  pose proof (geo_nonneg s k Hs). nia.
Qed.

Lemma geo_pow s k : (s - 1) * geo s k = s ^ Z.of_nat k - 1.
Proof.
  induction k as [|k IH].
  - simpl. lia.
  - rewrite Nat2Z.inj_succ, Z.pow_succ_r by lia. cbn [geo]. nia.
Qed.

Lemma const_pow_exact s k :
  0 < s -> s ^ Z.of_nat k < 2 ^ 64 -> const_pow s k = s ^ Z.of_nat k.
Proof.
  intros Hs. induction k as [|k IH]; intros Hk.
  - reflexivity.
  - rewrite Nat2Z.inj_succ, Z.pow_succ_r in * by lia. cbn [const_pow].
    assert (0 < s ^ Z.of_nat k) by (apply Z.pow_pos_nonneg; lia).
    rewrite IH by nia. apply wrap64_small. nia.
Qed.

Lemma MAX_CUCKOO_COUNT_geo (slots_pos : 0 < slot_per_bucket)
      (pathcode_fits : slot_per_bucket ^ MAX_BFS_PATH_LEN < 65535) :
  MAX_CUCKOO_COUNT = 2 * geo slot_per_bucket (Z.to_nat MAX_BFS_PATH_LEN).
Proof.
  unfold MAX_CUCKOO_COUNT. set (s := slot_per_bucket) in *.
  change (Z.to_nat MAX_BFS_PATH_LEN) with 5%nat.
  change MAX_BFS_PATH_LEN with 5 in *.
  pose proof (geo_pow s 5) as Hg. change (Z.of_nat 5) with 5 in Hg.
  pose proof (geo_nonneg s 5 slots_pos) as Hnn.
  destruct (s =? 1) eqn:Hs1.
  - apply Z.eqb_eq in Hs1. rewrite Hs1. reflexivity.
  - apply Z.eqb_neq in Hs1.
    rewrite (const_pow_exact s 5) by (change (Z.of_nat 5) with 5; lia).
    change (Z.of_nat 5) with 5.
    assert (0 < s ^ 5) by (apply Z.pow_pos_nonneg; lia).
    rewrite (wrap64_small (s ^ 5 - 1)) by lia.
    rewrite <- Hg. rewrite (Z.mul_comm (s - 1)), Z.div_mul by lia.
    apply wrap64_small. nia.
Qed.


Lemma bfs_weight_step d :
  0 <= d < MAX_BFS_PATH_LEN -> bfs_weight d = 1 + slot_per_bucket * bfs_weight (d + 1).
Proof.
  intros Hd. unfold bfs_weight.
  replace (Z.to_nat (MAX_BFS_PATH_LEN - d))
    with (S (Z.to_nat (MAX_BFS_PATH_LEN - (d + 1)))) by lia.
  reflexivity.
Qed.

Lemma bfs_weight_last : bfs_weight (MAX_BFS_PATH_LEN - 1) = 1.
Proof.
  unfold bfs_weight.
  change (Z.to_nat (MAX_BFS_PATH_LEN - (MAX_BFS_PATH_LEN - 1))) with 1%nat.
  cbn [geo]. lia.
Qed.

Lemma bfs_weight_nonneg (slots_pos : 0 < slot_per_bucket) d : 0 <= bfs_weight d.
Proof. apply geo_nonneg. exact slots_pos. Qed.

Lemma bfs_weight_pos (slots_pos : 0 < slot_per_bucket) d : 0 <= d < MAX_BFS_PATH_LEN -> 1 <= bfs_weight d.
Proof. intros Hd. apply geo_pos; [exact slots_pos|lia]. Qed.

Lemma sum_weights_app l1 l2 : sum_weights (l1 ++ l2) = sum_weights l1 + sum_weights l2.
Proof. induction l1 as [|x l1 IH]; simpl; [reflexivity|]. unfold sum_weights in *. simpl. lia. Qed.

Lemma sum_weights_nonneg (slots_pos : 0 < slot_per_bucket) l :
  Forall (fun x => 0 <= depth x < MAX_BFS_PATH_LEN) l -> 0 <= sum_weights l.
Proof.
  induction 1 as [|x l Hx Hl IH]; [reflexivity|].
  unfold sum_weights in *. simpl. pose proof (bfs_weight_pos slots_pos _ Hx). lia.
Qed.

Lemma pending_enqueue q x :
  0 <= first_ q <= last_ q -> last_ q < MAX_CUCKOO_COUNT ->
  length (slots_ q) = Z.to_nat MAX_CUCKOO_COUNT ->
  exists q', enqueue q x = Some q' /\ first_ q' = first_ q /\ last_ q' = last_ q + 1 /\
             length (slots_ q') = length (slots_ q) /\ pending q' = pending q ++ [x].
Proof.
  intros Hfl Hlast Hlen. unfold enqueue, q_full.
  destruct (last_ q =? MAX_CUCKOO_COUNT) eqn:Hfull; [apply Z.eqb_eq in Hfull; lia|].
  eexists. split; [reflexivity|]. cbn [first_ last_ slots_].
  split; [reflexivity|]. split; [reflexivity|]. split; [apply length_insert|].
  unfold pending. cbn [first_ last_ slots_].
  replace (Z.to_nat (last_ q + 1 - first_ q)) with (S (Z.to_nat (last_ q - first_ q))) by lia.
  rewrite drop_insert_ge by lia.
  replace (Z.to_nat (last_ q) - Z.to_nat (first_ q))%nat
    with (Z.to_nat (last_ q - first_ q)) by lia.
  rewrite (take_S_r _ _ x).
  - rewrite take_insert_ge by lia. reflexivity.
  - apply list_lookup_insert_eq. rewrite length_drop. lia.
Qed.

Lemma pending_dequeue q :
  0 <= first_ q < last_ q -> last_ q <= MAX_CUCKOO_COUNT ->
  length (slots_ q) = Z.to_nat MAX_CUCKOO_COUNT ->
  pending q = fst (dequeue q) :: pending (snd (dequeue q)).
Proof.
  intros Hfl Hlast Hlen. unfold dequeue, pending. cbn [fst snd first_ last_ slots_].
  destruct (lookup_lt_is_Some_2 (slots_ q) (Z.to_nat (first_ q)) ltac:(lia)) as [x Hx].
  rewrite Hx. cbn [default from_option].
  rewrite (drop_S _ x _ Hx).
  replace (Z.to_nat (last_ q - first_ q))
    with (S (Z.to_nat (last_ q - (first_ q + 1)))) by lia.
  cbn [take]. replace (Z.to_nat (first_ q + 1)) with (S (Z.to_nat (first_ q))) by lia.
  reflexivity.
Qed.

Lemma queue_inv_weaken q B B' : queue_inv q B -> 0 <= B' <= B -> queue_inv q B'.
Proof. unfold queue_inv. intuition lia. Qed.

Lemma queue_inv_enqueue (slots_pos : 0 < slot_per_bucket) q B x :
  queue_inv q B -> 0 <= depth x < MAX_BFS_PATH_LEN -> bfs_weight (depth x) <= B ->
  exists q', enqueue q x = Some q' /\ first_ q' = first_ q /\
             queue_inv q' (B - bfs_weight (depth x)).
Proof.
  intros (Hfl & Hlast & Hlen & Hall & HB & Hpot) Hd Hw.
  pose proof (bfs_weight_pos slots_pos _ Hd) as Hw1.
  pose proof (sum_weights_nonneg slots_pos _ Hall) as Hnn.
  destruct (pending_enqueue q x Hfl ltac:(lia) Hlen)
    as (q' & Henq & Hf & Hl & Hlen' & Hpend).
  exists q'. split; [exact Henq|]. split; [exact Hf|].
  unfold queue_inv. rewrite Hf, Hl, Hlen', Hpend, sum_weights_app.
  repeat split; try lia.
  - apply Forall_app. split; [exact Hall|]. constructor; [exact Hd|constructor].
  - unfold sum_weights at 2. simpl. lia.
Qed.

Lemma sum_weights_cons x l :
  sum_weights (x :: l) = (bfs_weight (depth x) - 1) + sum_weights l.
Proof. reflexivity. Qed.

Lemma queue_inv_dequeue (slots_pos : 0 < slot_per_bucket) q :
  queue_inv q 0 -> q_empty q = false ->
  0 <= depth (fst (dequeue q)) < MAX_BFS_PATH_LEN /\
  first_ (snd (dequeue q)) = first_ q + 1 /\
  queue_inv (snd (dequeue q)) (bfs_weight (depth (fst (dequeue q))) - 1).
Proof.
  intros (Hfl & Hlast & Hlen & Hall & HB & Hpot) Hne.
  unfold q_empty in Hne. apply Z.eqb_neq in Hne.
  pose proof (pending_dequeue q ltac:(lia) Hlast Hlen) as Hpend.
  assert (Hf' : first_ (snd (dequeue q)) = first_ q + 1) by reflexivity.
  assert (Hl' : last_ (snd (dequeue q)) = last_ q) by reflexivity.
  assert (Hs' : slots_ (snd (dequeue q)) = slots_ q) by reflexivity.
  revert Hpend Hf' Hl' Hs'.
  generalize (snd (dequeue q)) (fst (dequeue q)). intros q' x Hpend Hf' Hl' Hs'.
  rewrite Hpend in Hall, Hpot. rewrite sum_weights_cons in Hpot.
  apply Forall_cons in Hall. destruct Hall as [Hx Hall].
  pose proof (bfs_weight_pos slots_pos _ Hx) as Hw1.
  split; [exact Hx|]. split; [exact Hf'|].
  unfold queue_inv. rewrite Hf', Hl', Hs'.
  repeat split; try lia; try assumption.
Qed.

Lemma slot_search_bucket_inv (slots_pos : 0 < slot_per_bucket) hp x b starting_slot range q :
  0 <= depth x < MAX_BFS_PATH_LEN ->
  queue_inv q (Z.of_nat (length range) *
               (if depth x <? MAX_BFS_PATH_LEN - 1 then bfs_weight (depth x + 1) else 0)) ->
  exists q' r, slot_search_bucket hp x b starting_slot range q = Some (q', r) /\
               first_ q' = first_ q /\ queue_inv q' 0.
Proof.
  intros Hd. revert q. induction range as [|i rest IH]; intros q Hinv.
  - exists q, None. split; [reflexivity|]. split; [reflexivity|].
    eapply queue_inv_weaken; [exact Hinv|]. simpl. lia.
  - cbn [slot_search_bucket].
    destruct (slot_at b _) as [sl|].
    + destruct (depth x <? MAX_BFS_PATH_LEN - 1) eqn:Hdepth.
      * apply Z.ltb_lt in Hdepth.
        pose proof (bfs_weight_pos slots_pos (depth x + 1) ltac:(lia)) as Hw1.
        match goal with
        | |- context [enqueue q ?y] =>
            destruct (queue_inv_enqueue slots_pos q _ y Hinv) as (q' & Henq & Hf & Hinv')
        end.
        { cbn [depth]. lia. }
        { cbn [depth]. cbn [length]. nia. }
        rewrite Henq. cbn [depth] in Hinv'.
        destruct (IH q') as (q'' & r & Hrun & Hf' & Hinv'').
        { eapply queue_inv_weaken; [exact Hinv'|]. cbn [length]. nia. }
        exists q'', r. split; [exact Hrun|]. split; [congruence|exact Hinv''].
      * destruct (IH q) as (q'' & r & Hrun & Hf' & Hinv'').
        { eapply queue_inv_weaken; [exact Hinv|]. lia. }
        exists q'', r. auto.
    + eexists q, _. split; [reflexivity|]. split; [reflexivity|].
      eapply queue_inv_weaken; [exact Hinv|].
      destruct Hinv as (_ & _ & _ & _ & HB & _). lia.
Qed.

Lemma wp_lock_one mode hp i t :
  wp (lock_one mode hp i)
     (fun o _ => match o with
                 | Ret _ => True
                 | Throw e => e = hashpower_changed
                 | OutOfFuel => False
                 end) t.
Proof.
  destruct mode; [exact I|].
  unfold wp, lock_one, bind, modify, check_hashpower, ret.
  destruct (hashpower _ =? hp); simpl; auto.
Qed.

Lemma length_zseq n : length (zseq n) = n.
Proof. unfold zseq. rewrite length_fmap, length_seq. reflexivity. Qed.

Lemma slot_search_loop_bounded (slots_pos : 0 < slot_per_bucket) mode n hp q t :
  queue_inv q 0 -> MAX_CUCKOO_COUNT < Z.of_nat n + first_ q ->
  wp (slot_search_loop mode n hp q)
     (fun o _ => match o with
                 | Ret r => queue_inv (snd r) 0
                 | Throw e => e = hashpower_changed
                 | OutOfFuel => False
                 end) t.
Proof.
  revert q t. induction n as [|n IH]; intros q t Hinv Hfuel.
  - destruct Hinv as (Hfl & Hlast & _). lia.
  - cbn [slot_search_loop].
    destruct (q_empty q) eqn:Hempty.
    + apply wp_ret. exact Hinv.
    + destruct (queue_inv_dequeue slots_pos q Hinv Hempty) as (Hd & Hf & Hinv').
      destruct (dequeue q) as [x q1]. cbn [fst snd] in *.
      apply wp_bind. eapply wp_mono; [apply wp_lock_one|].
      intros [_|e|] t1 Hpost; [|exact Hpost|destruct Hpost].
      apply wp_bind. apply wp_get_table.
      destruct (slot_search_bucket_inv slots_pos hp x (get_bucket t1 (bs_bucket x))
                  (pathcode x mod slot_per_bucket) (zseq SLOT_PER_BUCKET) q1 Hd)
        as (q2 & r & Hrun & Hf2 & Hinv2).
      { rewrite length_zseq. fold slot_per_bucket.
        destruct (depth x <? MAX_BFS_PATH_LEN - 1) eqn:Hdepth.
        - apply Z.ltb_lt in Hdepth. rewrite (bfs_weight_step (depth x)) in Hinv' by lia.
          replace (slot_per_bucket * bfs_weight (depth x + 1))
            with (1 + slot_per_bucket * bfs_weight (depth x + 1) - 1) by lia.
          exact Hinv'.
        - apply Z.ltb_ge in Hdepth.
          assert (depth x = MAX_BFS_PATH_LEN - 1) as Heq by lia.
          rewrite Heq in Hinv'. rewrite Z.mul_0_r.
          rewrite bfs_weight_last in Hinv'. exact Hinv'. }
      rewrite Hrun. destruct r as [x'|].
      * apply wp_ret. exact Hinv2.
      * apply IH; [exact Hinv2|]. lia.
Qed.


Lemma pending_new : pending b_queue_new = [].
Proof. unfold pending, b_queue_new. cbn [first_ last_ slots_]. apply take_0. Qed.

Lemma queue_inv_new (slots_pos : 0 < slot_per_bucket)
      (pathcode_fits : slot_per_bucket ^ MAX_BFS_PATH_LEN < 65535) : queue_inv b_queue_new (2 * bfs_weight 0).
Proof.
  pose proof (bfs_weight_nonneg slots_pos 0) as Hw.
  unfold queue_inv. rewrite pending_new.
  unfold b_queue_new. cbn [first_ last_ slots_].
  rewrite length_replicate.
  rewrite (MAX_CUCKOO_COUNT_geo slots_pos pathcode_fits). unfold bfs_weight in *.
  change (MAX_BFS_PATH_LEN - 0) with MAX_BFS_PATH_LEN in *.
  change (sum_weights []) with 0.
  repeat split; try lia. constructor.
Qed.

End Queue.

(** C9.  For every search started with two buckets, in every table
    state: the capacity [MAX_CUCKOO_COUNT] of the queue is
    [2 * (S^L - 1) / (S - 1)] (and [2 * L] for one slot per bucket), the
    search never finds the queue full when it enqueues and always returns
    (a [b_slot], or the retry signal of a changed hashpower), and the
    number [last_] of entries enqueued in all is at most the capacity.
    The hypotheses are the two static assertions on the slot count. *)
Theorem bfs_queue_never_overflows `{params : Params}
        (mode : table_mode) (hp i1 i2 : Z) (t : table) :
  0 < slot_per_bucket ->
  slot_per_bucket ^ MAX_BFS_PATH_LEN < 65535 ->
  (slot_per_bucket <> 1 ->
   MAX_CUCKOO_COUNT
   = 2 * ((slot_per_bucket ^ MAX_BFS_PATH_LEN - 1) / (slot_per_bucket - 1))) /\
  (slot_per_bucket = 1 -> MAX_CUCKOO_COUNT = 2 * MAX_BFS_PATH_LEN) /\
  match fst (slot_search_queue mode hp i1 i2 t) with
  | Ret (x, q) => 0 <= first_ q <= last_ q /\ last_ q <= MAX_CUCKOO_COUNT
  | Throw e => e = hashpower_changed
  | OutOfFuel => False
  end.
Proof.
  intros Hpos Hfits.
  pose proof (MAX_CUCKOO_COUNT_geo Hpos Hfits) as Hmax.
  pose proof (geo_pow slot_per_bucket (Z.to_nat MAX_BFS_PATH_LEN)) as Hg.
  change (Z.of_nat (Z.to_nat MAX_BFS_PATH_LEN)) with MAX_BFS_PATH_LEN in Hg.
  split; [|split].
  - intros Hne. rewrite Hmax, <- Hg.
    rewrite (Z.mul_comm (slot_per_bucket - 1)), Z.div_mul by lia. reflexivity.
  - intros He. rewrite Hmax, He. reflexivity.
  - unfold slot_search_queue.
    pose proof (queue_inv_new Hpos Hfits) as Hinv0.
    pose proof (bfs_weight_pos Hpos 0 ltac:(unfold MAX_BFS_PATH_LEN; lia)) as Hw.
    destruct (queue_inv_enqueue Hpos b_queue_new _ (mk_b_slot i1 0 0) Hinv0)
      as (q1 & Henq1 & Hf1 & Hinv1);
      [cbn [depth]; unfold MAX_BFS_PATH_LEN; lia|cbn [depth]; lia|].
    rewrite Henq1. cbn [depth] in Hinv1.
    destruct (queue_inv_enqueue Hpos q1 _ (mk_b_slot i2 1 0) Hinv1)
      as (q2 & Henq2 & Hf2 & Hinv2);
      [cbn [depth]; unfold MAX_BFS_PATH_LEN; lia|cbn [depth]; lia|].
    rewrite Henq2. cbn [depth] in Hinv2.
    assert (Hinv2' : queue_inv q2 0).
    { eapply queue_inv_weaken; [exact Hinv2|]. lia. }
    assert (Hfuel : MAX_CUCKOO_COUNT < Z.of_nat (Z.to_nat MAX_CUCKOO_COUNT + 1) + first_ q2).
    { rewrite Hf2, Hf1. cbn [b_queue_new first_]. lia. }
    pose proof (slot_search_loop_bounded Hpos mode _ hp q2 t Hinv2' Hfuel) as Hwp.
    unfold wp in Hwp.
    destruct (fst (slot_search_loop mode _ hp q2 t)) as [[x q]|e|]; [|exact Hwp|exact Hwp].
    cbn [snd] in Hwp. destruct Hwp as (Hfl & Hlast & _). auto.
Qed.

(** The witness: four slots per bucket, a search from buckets 0 and 1. *)
Lemma bfs_queue_never_overflows_witness :
  MAX_CUCKOO_COUNT = 682 /\
  match fst (slot_search_queue normal_mode 1 0 1 (int_table 8)) with
  | Ret (x, q) => 0 <= first_ q <= last_ q /\ last_ q <= MAX_CUCKOO_COUNT
  | Throw e => e = hashpower_changed
  | OutOfFuel => False
  end.
Proof.
  destruct (bfs_queue_never_overflows (params := int_params) normal_mode 1 0 1 (int_table 8)
              ltac:(vm_compute; reflexivity) ltac:(vm_compute; reflexivity))
    as (H1 & _ & H3).
  split; [|exact H3]. rewrite H1 by (vm_compute; discriminate). reflexivity.
Defined.

(** ** Updates of buckets and stripes *)

Section Updates.
Context {params : Params}.

Lemma update_slot_fields i s c t :
  hashpower (update_slot i s c t) = hashpower t /\
  locks_ (update_slot i s c t) = locks_ t /\
  same_policy t (update_slot i s c t).
Proof.
  unfold update_slot, same_policy.
  destruct ((i <? 0) || (s <? 0)); repeat split; reflexivity.
Qed.

Lemma update_lock_fields l f t :
  hashpower (update_lock l f t) = hashpower t /\
  buckets_ (update_lock l f t) = buckets_ t /\
  same_policy t (update_lock l f t).
Proof.
  unfold update_lock, same_policy. destruct (l <? 0); repeat split; reflexivity.
Qed.

Lemma length_buckets_update_slot i s c t :
  length (buckets_ (update_slot i s c t)) = length (buckets_ t).
Proof.
  unfold update_slot. destruct ((i <? 0) || (s <? 0)); [reflexivity|].
  cbn [set_buckets buckets_]. apply length_alter.
Qed.

Lemma length_locks_update_lock l f t :
  length (locks_ (update_lock l f t)) = length (locks_ t).
Proof.
  unfold update_lock. destruct (l <? 0); [reflexivity|].
  cbn [set_locks locks_]. apply length_alter.
Qed.

Lemma get_bucket_lookup t i b :
  0 <= i -> buckets_ t !! Z.to_nat i = Some b -> get_bucket t i = b.
Proof.
  intros Hi Hb. unfold get_bucket.
  destruct (i <? 0) eqn:Hneg; [apply Z.ltb_lt in Hneg; lia|]. rewrite Hb. reflexivity.
Qed.

Lemma get_bucket_update_slot_ne i s c t i' :
  i' <> i -> get_bucket (update_slot i s c t) i' = get_bucket t i'.
Proof.
  intros Hne. unfold update_slot.
  destruct ((i <? 0) || (s <? 0)) eqn:Hneg; [reflexivity|].
  apply orb_false_iff in Hneg. destruct Hneg as [Hi Hs].
  apply Z.ltb_ge in Hi. unfold get_bucket. cbn [set_buckets buckets_].
  destruct (i' <? 0) eqn:Hi'; [reflexivity|]. apply Z.ltb_ge in Hi'.
  rewrite list_lookup_alter_ne by lia. reflexivity.
Qed.

Lemma get_bucket_update_slot_eq i s c t :
  0 <= i -> 0 <= s -> (Z.to_nat i < length (buckets_ t))%nat ->
  get_bucket (update_slot i s c t) i = <[Z.to_nat s := c]> (get_bucket t i).
Proof.
  intros Hi Hs Hlen. unfold update_slot.
  destruct ((i <? 0) || (s <? 0)) eqn:Hneg.
  { apply orb_true_iff in Hneg. destruct Hneg as [H|H]; apply Z.ltb_lt in H; lia. }
  unfold get_bucket. cbn [set_buckets buckets_].
  destruct (i <? 0) eqn:Hi'; [apply Z.ltb_lt in Hi'; lia|].
  rewrite list_lookup_alter_eq.
  destruct (lookup_lt_is_Some_2 _ _ Hlen) as [b Hb]. rewrite Hb. reflexivity.
Qed.

Lemma slot_at_insert_eq (b : bucket) s c :
  0 <= s -> (Z.to_nat s < length b)%nat -> slot_at (<[Z.to_nat s := c]> b) s = c.
Proof.
  intros Hs Hlen. unfold slot_at.
  destruct (s <? 0) eqn:Hneg; [apply Z.ltb_lt in Hneg; lia|].
  rewrite list_lookup_insert_eq by exact Hlen. reflexivity.
Qed.

Lemma slot_at_insert_ne (b : bucket) s c j :
  0 <= s -> j <> s -> slot_at (<[Z.to_nat s := c]> b) j = slot_at b j.
Proof.
  intros Hs Hne. unfold slot_at. destruct (j <? 0) eqn:Hneg; [reflexivity|].
  apply Z.ltb_ge in Hneg. rewrite list_lookup_insert_ne by lia. reflexivity.
Qed.

Lemma cell_update_slot_eq i s c t :
  valid_slot t i s -> cell (update_slot i s c t) i s = c.
Proof.
  intros (Hi & Hlen & Hs & Hslot). unfold cell.
  rewrite get_bucket_update_slot_eq by assumption.
  apply slot_at_insert_eq; assumption.
Qed.

Lemma cell_update_slot_ne i s c t i' j' :
  (i' <> i \/ j' <> s) -> cell (update_slot i s c t) i' j' = cell t i' j'.
Proof.
  intros Hne. unfold cell.
  destruct (Z.eq_dec i' i) as [->|Hi]; [|rewrite get_bucket_update_slot_ne by exact Hi; reflexivity].
  destruct Hne as [Hne|Hne]; [congruence|].
  unfold update_slot. destruct ((i <? 0) || (s <? 0)) eqn:Hneg; [reflexivity|].
  apply orb_false_iff in Hneg. destruct Hneg as [Hi Hs].
  apply Z.ltb_ge in Hi. apply Z.ltb_ge in Hs.
  unfold get_bucket. cbn [set_buckets buckets_].
  destruct (i <? 0) eqn:Hi'; [reflexivity|].
  rewrite list_lookup_alter_eq.
  destruct (buckets_ t !! Z.to_nat i) as [b|]; cbn [fmap option_fmap option_map default from_option];
    [|reflexivity].
  apply slot_at_insert_ne; assumption.
Qed.

Lemma length_bucket_update_slot i s c t i' :
  length (get_bucket (update_slot i s c t) i') = length (get_bucket t i').
Proof.
  destruct (Z.eq_dec i' i) as [->|Hne]; [|rewrite get_bucket_update_slot_ne by exact Hne; reflexivity].
  unfold update_slot. destruct ((i <? 0) || (s <? 0)) eqn:Hneg; [reflexivity|].
  unfold get_bucket. cbn [set_buckets buckets_].
  destruct (i <? 0); [reflexivity|]. rewrite list_lookup_alter_eq.
  destruct (buckets_ t !! Z.to_nat i) as [b|]; cbn [fmap option_fmap option_map default from_option];
    [apply length_insert|reflexivity].
Qed.

Lemma valid_slot_update_slot i s c t i' s' :
  valid_slot (update_slot i s c t) i' s' <-> valid_slot t i' s'.
Proof.
  unfold valid_slot. rewrite length_buckets_update_slot, length_bucket_update_slot.
  reflexivity.
Qed.

Lemma Forall_length_update_slot i s c t :
  Forall (fun b : bucket => length b = SLOT_PER_BUCKET) (buckets_ t) ->
  Forall (fun b : bucket => length b = SLOT_PER_BUCKET) (buckets_ (update_slot i s c t)).
Proof.
  intros Hall. unfold update_slot. destruct ((i <? 0) || (s <? 0)); [exact Hall|].
  cbn [set_buckets buckets_]. apply Forall_alter; [exact Hall|].
  intros b _ Hb. rewrite length_insert. exact Hb.
Qed.

(** Sums *)

Lemma zsum_app {A} (f : A -> Z) l1 l2 : zsum f (l1 ++ l2) = zsum f l1 + zsum f l2.
Proof. unfold zsum. induction l1 as [|x l1 IH]; cbn [app fold_right]; lia. Qed.

Lemma zsum_cons {A} (f : A -> Z) x l : zsum f (x :: l) = f x + zsum f l.
Proof. reflexivity. Qed.

Lemma zsum_replicate {A} (f : A -> Z) n x : zsum f (replicate n x) = Z.of_nat n * f x.
Proof.
  induction n as [|n IH]; [reflexivity|].
  change (replicate (S n) x) with (x :: replicate n x). rewrite zsum_cons, IH. lia.
Qed.

Lemma zsum_fmap {A B} (f : B -> Z) (g : A -> B) l : zsum f (g <$> l) = zsum (fun x => f (g x)) l.
Proof. induction l as [|x l IH]; [reflexivity|]. cbn [fmap list_fmap]. rewrite !zsum_cons. f_equal. exact IH. Qed.

Lemma zsum_ext {A} (f g : A -> Z) l : (forall x, x ∈ l -> f x = g x) -> zsum f l = zsum g l.
Proof.
  induction l as [|x l IH]; intros H; [reflexivity|]. rewrite !zsum_cons.
  rewrite H by (apply elem_of_cons; auto). rewrite IH; [reflexivity|].
  intros y Hy. apply H. apply elem_of_cons. auto.
Qed.

Lemma zsum_insert {A} (f : A -> Z) l n x y :
  l !! n = Some y -> zsum f (<[n := x]> l) = zsum f l - f y + f x.
Proof.
  revert n. induction l as [|z l IH]; intros n Hn; [discriminate|].
  destruct n as [|n].
  - change ((z :: l) !! 0%nat) with (Some z) in Hn. inversion Hn; subst.
    change (<[0%nat := x]> (y :: l)) with (x :: l). rewrite !zsum_cons. lia.
  - change ((z :: l) !! S n) with (l !! n) in Hn.
    change (<[S n := x]> (z :: l)) with (z :: <[n := x]> l).
    rewrite !zsum_cons, (IH n Hn). lia.
Qed.

Lemma zsum_alter {A} (f : A -> Z) (g : A -> A) l n y :
  l !! n = Some y -> zsum f (alter g n l) = zsum f l - f y + f (g y).
Proof.
  revert n. induction l as [|z l IH]; intros n Hn; [discriminate|].
  destruct n as [|n].
  - change ((z :: l) !! 0%nat) with (Some z) in Hn. inversion Hn; subst.
    change (alter g 0%nat (y :: l)) with (g y :: l). rewrite !zsum_cons. lia.
  - change ((z :: l) !! S n) with (l !! n) in Hn.
    change (alter g (S n) (z :: l)) with (z :: alter g n l).
    rewrite !zsum_cons, (IH n Hn). lia.
Qed.

Lemma zsum_bounds {A} (f : A -> Z) l lo hi :
  (forall x, x ∈ l -> lo <= f x <= hi) ->
  Z.of_nat (length l) * lo <= zsum f l <= Z.of_nat (length l) * hi.
Proof.
  induction l as [|x l IH]; intros H; [cbn; lia|].
  rewrite zsum_cons. cbn [length]. rewrite Nat2Z.inj_succ.
  specialize (H x (ltac:(apply elem_of_cons; auto))) as Hx.
  destruct IH as [IH1 IH2]; [intros y Hy; apply H; apply elem_of_cons; auto|]. nia.
Qed.

Lemma slot_count_occupied (b : bucket) j : slot_count (slot_at b j) = if occupied b j then 1 else 0.
Proof.
  unfold occupied. destruct (slot_at b j) as [sl|]; cbn [slot_count].
  - rewrite bool_decide_eq_true_2 by eauto. reflexivity.
  - rewrite bool_decide_eq_false_2; [reflexivity|]. intros [x Hx]. discriminate.
Qed.

Lemma occupied_slots_update_slot i s c t :
  valid_slot t i s ->
  occupied_slots (update_slot i s c t)
  = occupied_slots t - slot_count (cell t i s) + slot_count c.
Proof.
  intros (Hi & Hlen & Hs & Hslot). unfold occupied_slots, update_slot, cell.
  destruct ((i <? 0) || (s <? 0)) eqn:Hneg.
  { apply orb_true_iff in Hneg. destruct Hneg as [H|H]; apply Z.ltb_lt in H; lia. }
  cbn [set_buckets buckets_].
  destruct (lookup_lt_is_Some_2 _ _ Hlen) as [b Hb].
  rewrite (get_bucket_lookup t i b Hi Hb) in *.
  rewrite (zsum_alter _ _ _ _ b Hb).
  destruct (lookup_lt_is_Some_2 _ _ Hslot) as [c0 Hc0].
  unfold occupied_in at 2 3. rewrite (zsum_insert _ _ _ _ c0 Hc0).
  unfold slot_at. destruct (s <? 0) eqn:Hs'; [apply Z.ltb_lt in Hs'; lia|].
  rewrite Hc0. cbn [mjoin option_join]. fold (occupied_in b). lia.
Qed.

Lemma occupied_slots_update_lock l f t :
  occupied_slots (update_lock l f t) = occupied_slots t.
Proof.
  unfold occupied_slots. destruct (update_lock_fields l f t) as (_ & -> & _). reflexivity.
Qed.

Lemma counters_sum_update_slot i s c t :
  counters_sum (update_slot i s c t) = counters_sum t.
Proof.
  unfold counters_sum. destruct (update_slot_fields i s c t) as (_ & -> & _). reflexivity.
Qed.

(** Stripes *)

Lemma get_lock_lookup t l lk :
  0 <= l -> locks_ t !! Z.to_nat l = Some lk -> get_lock t l = lk.
Proof.
  intros Hl Hlk. unfold get_lock.
  destruct (l <? 0) eqn:Hneg; [apply Z.ltb_lt in Hneg; lia|]. rewrite Hlk. reflexivity.
Qed.

Lemma get_lock_update_lock_ne l f t l' :
  l' <> l -> get_lock (update_lock l f t) l' = get_lock t l'.
Proof.
  intros Hne. unfold update_lock. destruct (l <? 0) eqn:Hl; [reflexivity|].
  apply Z.ltb_ge in Hl. unfold get_lock. cbn [set_locks locks_].
  destruct (l' <? 0) eqn:Hl'; [reflexivity|]. apply Z.ltb_ge in Hl'.
  rewrite list_lookup_alter_ne by lia. reflexivity.
Qed.

Lemma get_lock_update_lock_eq l f t :
  0 <= l -> (Z.to_nat l < length (locks_ t))%nat ->
  get_lock (update_lock l f t) l = f (get_lock t l).
Proof.
  intros Hl Hlen. unfold update_lock, get_lock.
  destruct (l <? 0) eqn:Hneg; [apply Z.ltb_lt in Hneg; lia|].
  cbn [set_locks locks_]. rewrite list_lookup_alter_eq.
  destruct (lookup_lt_is_Some_2 _ _ Hlen) as [lk Hlk]. rewrite Hlk. reflexivity.
Qed.

Lemma counters_sum_update_lock l f t :
  0 <= l -> (Z.to_nat l < length (locks_ t))%nat ->
  counters_sum (update_lock l f t)
  = counters_sum t - elem_counter (get_lock t l) + elem_counter (f (get_lock t l)).
Proof.
  intros Hl Hlen. unfold counters_sum, update_lock.
  destruct (l <? 0) eqn:Hneg; [apply Z.ltb_lt in Hneg; lia|].
  cbn [set_locks locks_].
  destruct (lookup_lt_is_Some_2 _ _ Hlen) as [lk Hlk].
  rewrite (get_lock_lookup t l lk Hl Hlk). apply zsum_alter. exact Hlk.
Qed.

Lemma cell_update_lock l f t i j : cell (update_lock l f t) i j = cell t i j.
Proof.
  unfold cell, get_bucket. destruct (update_lock_fields l f t) as (_ & -> & _). reflexivity.
Qed.

Lemma get_lock_update_slot i s c t l : get_lock (update_slot i s c t) l = get_lock t l.
Proof.
  unfold get_lock. destruct (update_slot_fields i s c t) as (_ & -> & _). reflexivity.
Qed.

Lemma migrated_set_migrated_eq l t :
  0 <= l -> (Z.to_nat l < length (locks_ t))%nat -> migrated (set_migrated l true t) l.
Proof.
  intros Hl Hlen. unfold migrated, set_migrated.
  rewrite get_lock_update_lock_eq by assumption. reflexivity.
Qed.

Lemma migrated_update_lock_ne l f t l' :
  l' <> l -> (migrated (update_lock l f t) l' <-> migrated t l').
Proof. intros Hne. unfold migrated. rewrite get_lock_update_lock_ne by exact Hne. reflexivity. Qed.

Lemma migrated_update_slot i s c t l : migrated (update_slot i s c t) l <-> migrated t l.
Proof. unfold migrated. rewrite get_lock_update_slot. reflexivity. Qed.

Lemma migrated_out_of_range t l :
  (l < 0 \/ (length (locks_ t) <= Z.to_nat l)%nat) -> migrated t l.
Proof.
  intros H. unfold migrated, get_lock. destruct (l <? 0) eqn:Hneg; [reflexivity|].
  apply Z.ltb_ge in Hneg. destruct H as [H|H]; [lia|].
  rewrite (lookup_ge_None_2 _ _ H). reflexivity.
Qed.

(** [size] is the sum of the counters when that sum is a [size_type]. *)

Lemma wrap_i64_mod z : wrap_i64 z mod 2 ^ 64 = z mod 2 ^ 64.
Proof.
  unfold wrap_i64. rewrite Zminus_mod, Zmod_mod, <- Zminus_mod.
  f_equal. lia.
Qed.

Lemma size_fold_mod (ls : list seqlock) a :
  fold_left (fun s lock => wrap_i64 (s + elem_counter lock)) ls a mod 2 ^ 64
  = (a + zsum elem_counter ls) mod 2 ^ 64.
Proof.
  revert a. induction ls as [|lk ls IH]; intros a; cbn [fold_left].
  - unfold zsum. cbn. f_equal. lia.
  - rewrite IH, zsum_cons.
    rewrite Zplus_mod, wrap_i64_mod, <- Zplus_mod. f_equal. lia.
Qed.

Lemma size_counters_sum t :
  0 <= counters_sum t < 2 ^ 64 -> size t = counters_sum t.
Proof.
  intros H. unfold size, wrap64, wrap. rewrite size_fold_mod.
  rewrite Z.add_0_l. apply Z.mod_small. exact H.
Qed.

End Updates.

(** ** Moving the pairs of a bucket *)

Section Migration.
Context {params : Params}.

Lemma cell_buckets_eq t t' i j : buckets_ t' = buckets_ t -> cell t' i j = cell t i j.
Proof. intros H. unfold cell, get_bucket. rewrite H. reflexivity. Qed.

Lemma get_bucket_buckets_eq t t' i : buckets_ t' = buckets_ t -> get_bucket t' i = get_bucket t i.
Proof. intros H. unfold get_bucket. rewrite H. reflexivity. Qed.

Lemma occupied_slots_buckets_eq t t' :
  buckets_ t' = buckets_ t -> occupied_slots t' = occupied_slots t.
Proof. intros H. unfold occupied_slots. rewrite H. reflexivity. Qed.

Lemma stored_buckets_eq t t' sl : buckets_ t' = buckets_ t -> stored t' sl <-> stored t sl.
Proof.
  intros H. unfold stored. split; intros (i & j & Hc); exists i, j.
  - rewrite <- (cell_buckets_eq t t') by exact H. exact Hc.
  - rewrite (cell_buckets_eq t t') by exact H. exact Hc.
Qed.

Lemma valid_slot_buckets_eq t t' i s :
  buckets_ t' = buckets_ t -> valid_slot t' i s <-> valid_slot t i s.
Proof. intros H. unfold valid_slot, get_bucket. rewrite H. reflexivity. Qed.

Lemma shape_update_slot n i s c t : shape n t -> shape n (update_slot i s c t).
Proof.
  intros [Hlen Hall]. split.
  - rewrite length_buckets_update_slot. exact Hlen.
  - apply Forall_length_update_slot. exact Hall.
Qed.

Lemma shape_buckets_eq n t t' : buckets_ t' = buckets_ t -> shape n t -> shape n t'.
Proof. intros H. unfold shape. rewrite H. auto. Qed.

Lemma shape_get_bucket_length n t i :
  shape n t -> 0 <= i -> (Z.to_nat i < n)%nat -> length (get_bucket t i) = SLOT_PER_BUCKET.
Proof.
  intros [Hlen Hall] Hi Hlt.
  destruct (lookup_lt_is_Some_2 (buckets_ t) (Z.to_nat i) ltac:(lia)) as [b Hb].
  rewrite (get_bucket_lookup t i b Hi Hb).
  rewrite Forall_forall in Hall. apply Hall. eapply list_elem_of_lookup_2. exact Hb.
Qed.

Lemma shape_valid_slot n t i s :
  shape n t -> 0 <= i -> (Z.to_nat i < n)%nat -> 0 <= s < slot_per_bucket ->
  valid_slot t i s.
Proof.
  intros Hshape Hi Hlt Hs. pose proof Hshape as [Hlen Hall].
  unfold valid_slot. rewrite (shape_get_bucket_length n t i Hshape Hi Hlt).
  unfold slot_per_bucket in Hs. repeat split; lia.
Qed.

Lemma cell_None_out_of_range n t i s :
  shape n t -> (i < 0 \/ (n <= Z.to_nat i)%nat \/ s < 0 \/ slot_per_bucket <= s) ->
  cell t i s = None.
Proof.
  intros [Hlen Hall] Hout. unfold cell, get_bucket, slot_at.
  destruct (s <? 0) eqn:Hs; [reflexivity|]. apply Z.ltb_ge in Hs.
  destruct (i <? 0) eqn:Hi.
  { unfold empty_bucket. destruct (replicate _ _ !! _) as [c|] eqn:Hc; [|reflexivity].
    apply lookup_replicate in Hc. destruct Hc as [-> _]. reflexivity. }
  apply Z.ltb_ge in Hi.
  destruct (buckets_ t !! Z.to_nat i) as [b|] eqn:Hb; cbn [default from_option].
  - assert (length b = SLOT_PER_BUCKET) as Hb'.
    { rewrite Forall_forall in Hall. apply Hall. eapply list_elem_of_lookup_2. exact Hb. }
    apply lookup_lt_Some in Hb.
    destruct Hout as [H|[H|[H|H]]]; try lia.
    rewrite lookup_ge_None_2; [reflexivity|]. unfold slot_per_bucket in H.
    unfold id. lia.
  - unfold empty_bucket. destruct (replicate _ _ !! _) as [c|] eqn:Hc; [|reflexivity].
    apply lookup_replicate in Hc. destruct Hc as [-> _]. reflexivity.
Qed.

(** A property that every write to a slot and every [after_set] keeps is
    kept by the loop. *)
Lemma move_bucket_loop_invariant (P : table -> Prop) old_hp bi ob nb after_set :
  (forall i s c t, P t -> P (update_slot i s c t)) ->
  (forall s t, P t -> P (after_set s t)) ->
  forall slots k t, P t -> P (move_bucket_loop old_hp bi ob nb after_set k slots t).
Proof.
  intros Hupd Hafter. induction slots as [|j rest IH]; intros k t HP; cbn [move_bucket_loop].
  - exact HP.
  - destruct (slot_at (get_bucket t ob) j) as [sl|]; [|apply IH; exact HP].
    destruct (need_to_move_elem _ _ _ _ _); [|apply IH; exact HP].
    apply IH. apply Hafter. apply Hupd. exact HP.
Qed.

Lemma kv_slot_eta (sl : kv_slot) : mk_slot (s_partial sl) (s_key sl) (s_mapped sl) = sl.
Proof. destruct sl. reflexivity. Qed.

(** One move: the pair of slot [j] of bucket [bi] goes to the empty slot
    [k] of bucket [nb]. *)
Lemma move_one n bi nb j k sl t t2 :
  shape n t -> 0 <= bi -> (Z.to_nat bi < n)%nat -> 0 <= nb -> (Z.to_nat nb < n)%nat ->
  nb <> bi -> 0 <= k < slot_per_bucket -> 0 <= j < slot_per_bucket ->
  cell t bi j = Some sl -> cell t nb k = None ->
  buckets_ t2 = buckets_ (eraseKV bi j (setKV nb k (s_partial sl) (s_key sl) (s_mapped sl) t)) ->
  shape n t2 /\
  occupied_slots t2 = occupied_slots t /\
  (forall x, stored t2 x <-> stored t x) /\
  (forall i s, cell t2 i s = if decide (i = nb /\ s = k) then Some sl
                             else if decide (i = bi /\ s = j) then None
                             else cell t i s).
Proof.
  intros Hshape Hbi Hbin Hnb Hnbn Hne Hk Hj Hsl Hempty Hb2.
  unfold setKV, eraseKV in Hb2. rewrite kv_slot_eta in Hb2.
  assert (Hcells : forall i s, cell t2 i s = if decide (i = nb /\ s = k) then Some sl
                             else if decide (i = bi /\ s = j) then None
                             else cell t i s).
  { intros i s. rewrite (cell_buckets_eq _ _ i s Hb2).
    destruct (decide (i = nb /\ s = k)) as [[-> ->]|Hn1].
    - rewrite cell_update_slot_ne by (left; exact Hne).
      apply cell_update_slot_eq. eapply shape_valid_slot; eauto.
    - destruct (decide (i = bi /\ s = j)) as [[-> ->]|Hn2].
      + apply cell_update_slot_eq. apply valid_slot_update_slot.
        eapply shape_valid_slot; eauto.
      + rewrite !cell_update_slot_ne; [reflexivity| |];
          destruct (Z.eq_dec i nb), (Z.eq_dec s k), (Z.eq_dec i bi), (Z.eq_dec s j);
          intuition lia. }
  split; [|split; [|split; [|exact Hcells]]].
  - eapply shape_buckets_eq; [exact Hb2|]. apply shape_update_slot, shape_update_slot. exact Hshape.
  - rewrite (occupied_slots_buckets_eq _ _ Hb2).
    rewrite occupied_slots_update_slot
      by (apply valid_slot_update_slot; eapply shape_valid_slot; eauto).
    rewrite occupied_slots_update_slot by (eapply shape_valid_slot; eauto).
    rewrite cell_update_slot_ne by (left; lia).
    rewrite Hsl, Hempty. cbn [slot_count]. lia.
  - intros x. unfold stored. split.
    + intros (i & s & Hc). rewrite Hcells in Hc.
      destruct (decide (i = nb /\ s = k)); [inversion Hc; subst; eauto|].
      destruct (decide (i = bi /\ s = j)); [discriminate|eauto].
    + intros (i & s & Hc).
      destruct (decide (i = bi /\ s = j)) as [[-> ->]|Hn2].
      * exists nb, k. rewrite Hcells. rewrite decide_True by auto. congruence.
      * exists i, s. rewrite Hcells.
        destruct (decide (i = nb /\ s = k)) as [[-> ->]|Hn1]; [congruence|].
        rewrite decide_False by exact Hn2. exact Hc.
Qed.

(** The loop of [move_bucket], when the slots of the new bucket from [k]
    on are empty. *)
Lemma move_bucket_loop_spec n old_hp bi nb after_set :
  0 <= bi -> (Z.to_nat bi < n)%nat -> 0 <= nb -> (Z.to_nat nb < n)%nat -> nb <> bi ->
  (forall s t, buckets_ (after_set s t) = buckets_ (eraseKV bi s t)) ->
  forall slots, StronglySorted Z.lt slots ->
  forall k t,
  (forall j, j ∈ slots -> k <= j < slot_per_bucket) -> 0 <= k ->
  shape n t -> (forall s, k <= s -> cell t nb s = None) ->
  let t' := move_bucket_loop old_hp bi bi nb after_set k slots t in
  shape n t' /\
  occupied_slots t' = occupied_slots t /\
  (forall x, stored t' x <-> stored t x) /\
  (forall i s, i <> bi -> i <> nb -> cell t' i s = cell t i s).
Proof.
  intros Hbi Hbin Hnb Hnbn Hne Hafter.
  induction 1 as [|j rest Hsorted IH Hlt]; intros k t Hrange Hk Hshape Hempty;
    cbn [move_bucket_loop].
  - split; [exact Hshape|]. split; [reflexivity|]. split; [reflexivity|]. reflexivity.
  - rewrite Forall_forall in Hlt.
    assert (Hj : k <= j < slot_per_bucket) by (apply Hrange, elem_of_cons; auto).
    assert (Hrest : forall k', k' <= j + 1 -> forall j', j' ∈ rest -> k' <= j' < slot_per_bucket).
    { intros k' Hk' j' Hj'. specialize (Hlt _ Hj').
      specialize (Hrange j' ltac:(apply elem_of_cons; auto)). lia. }
    fold (cell t bi j). destruct (cell t bi j) as [sl|] eqn:Hsl.
    2:{ apply IH; auto. apply Hrest. lia. }
    destruct (need_to_move_elem _ _ _ _ _).
    2:{ apply IH; auto. apply Hrest. lia. }
    match goal with
    | |- context [move_bucket_loop _ _ _ _ _ _ _ ?t2] => set (t2' := t2)
    end.
    destruct (move_one n bi nb j k sl t t2' Hshape Hbi Hbin Hnb Hnbn Hne
                ltac:(lia) ltac:(lia) Hsl (Hempty k ltac:(lia)) (Hafter _ _))
      as (Hshape2 & Hocc2 & Hstored2 & Hcells2).
    destruct (IH (k + 1) t2') as (Hs' & Ho' & Hst' & Hg').
    + apply Hrest. lia.
    + lia.
    + exact Hshape2.
    + intros s Hs. rewrite Hcells2. rewrite decide_False by lia.
      rewrite decide_False by (intros [? ?]; lia). apply Hempty. lia.
    + split; [exact Hs'|]. split; [lia|]. split.
      * intros x. rewrite Hst'. apply Hstored2.
      * intros i s Hi1 Hi2. rewrite Hg' by assumption. rewrite Hcells2.
        rewrite decide_False by (intros [? ?]; lia).
        rewrite decide_False by (intros [? ?]; lia). reflexivity.
Qed.

(** ** Migrating a stripe *)

Lemma lock_ind_mod x : lock_ind x = x mod 2 ^ 16.
Proof. unfold lock_ind. change (kMaxNumLocks - 1) with (Z.ones 16). apply Z.land_ones. lia. Qed.

Lemma lock_ind_range x : 0 <= lock_ind x < 2 ^ 16.
Proof. rewrite lock_ind_mod. apply Z.mod_pos_bound. lia. Qed.

Lemma lock_ind_add_stride x : lock_ind (x + kMaxNumLocks) = lock_ind x.
Proof.
  rewrite !lock_ind_mod. change kMaxNumLocks with (1 * 2 ^ 16). apply Z.mod_add. lia.
Qed.

Lemma lock_ind_add_half x hp : 16 <= hp -> lock_ind (x + 2 ^ hp) = lock_ind x.
Proof.
  intros Hhp. rewrite !lock_ind_mod.
  replace (2 ^ hp) with (2 ^ (hp - 16) * 2 ^ 16)
    by (rewrite <- Z.pow_add_r by lia; f_equal; lia).
  apply Z.mod_add. lia.
Qed.

Lemma lock_ind_small x : 0 <= x < 2 ^ 16 -> lock_ind x = x.
Proof. intros H. rewrite lock_ind_mod. apply Z.mod_small. exact H. Qed.

Lemma params_ok_hashpower : params_ok -> alloc_max_hashpower < 63.
Proof.
  intros (Hpos & _ & Hnn & Hfit).
  destruct (Z_lt_le_dec alloc_max_hashpower 63) as [|Hge]; [assumption|exfalso].
  assert (2 ^ 63 <= 2 ^ alloc_max_hashpower) by (apply Z.pow_le_mono_r; lia).
  nia.
Qed.

Lemma shiftr_pow2 hp : 1 <= hp -> Z.shiftr (2 ^ hp) 1 = 2 ^ (hp - 1).
Proof.
  intros H. rewrite Z.shiftr_div_pow2 by lia.
  replace hp with (hp - 1 + 1) at 1 by lia. rewrite Z.pow_add_r by lia.
  change (2 ^ 1) with 2. apply Z.div_mul. lia.
Qed.

Lemma pow2_half hp : 1 <= hp -> 2 ^ hp = 2 * 2 ^ (hp - 1).
Proof.
  intros H. replace hp with (hp - 1 + 1) at 1 by lia. rewrite Z.pow_add_r by lia. lia.
Qed.

Lemma same_rest_refl t : same_rest t t.
Proof. unfold same_rest, same_policy. auto. Qed.

Lemma same_rest_trans t1 t2 t3 : same_rest t1 t2 -> same_rest t2 t3 -> same_rest t1 t3.
Proof.
  unfold same_rest, same_policy. intros (? & ? & ? & ? & ?) (? & ? & ? & ? & ?).
  repeat split; congruence.
Qed.

Lemma same_rest_update_slot t0 i s c t : same_rest t0 t -> same_rest t0 (update_slot i s c t).
Proof.
  intros H. eapply same_rest_trans; [exact H|].
  destruct (update_slot_fields i s c t) as (? & ? & ?). split; auto.
Qed.

Lemma migrate_lock_loop_spec hp l :
  17 <= hp < 63 -> 0 <= l < 2 ^ 16 ->
  forall m bucket_ind t,
  hashpower t = hp -> shape (Z.to_nat (2 ^ hp)) t ->
  0 <= bucket_ind -> lock_ind bucket_ind = l ->
  (forall j, bucket_ind <= j < 2 ^ (hp - 1) -> lock_ind j = l ->
             forall s, cell t (j + 2 ^ (hp - 1)) s = None) ->
  let t' := migrate_lock_loop m bucket_ind t in
  shape (Z.to_nat (2 ^ hp)) t' /\
  same_rest t t' /\
  occupied_slots t' = occupied_slots t /\
  (forall x, stored t' x <-> stored t x) /\
  (forall i s, lock_ind i <> l -> cell t' i s = cell t i s).
Proof.
  intros Hhp Hl.
  assert (Hpow : 0 < 2 ^ (hp - 1)) by (apply Z.pow_pos_nonneg; lia).
  pose proof (pow2_half hp ltac:(lia)) as Hhalf.
  induction m as [|m IH]; intros bucket_ind t Hhpt Hshape Hbi Hlock Hempty;
    cbn [migrate_lock_loop].
  - split; [exact Hshape|]. split; [apply same_rest_refl|]. auto.
  - unfold bucket_count. rewrite Hhpt, hashsize_small by lia.
    rewrite shiftr_pow2 by lia. rewrite hashsize_small by lia.
    destruct (bucket_ind <? 2 ^ (hp - 1)) eqn:Hlt.
    2:{ split; [exact Hshape|]. split; [apply same_rest_refl|]. auto. }
    apply Z.ltb_lt in Hlt.
    rewrite wrap64_small
      by (assert (2 ^ hp < 2 ^ 64) by (apply Z.pow_lt_mono_r; lia); lia).
    set (nb := bucket_ind + 2 ^ (hp - 1)).
    set (after := fun old_bucket_slot : Z => eraseKV bucket_ind old_bucket_slot).
    assert (Hrest : same_rest t (move_bucket (hp - 1) bucket_ind bucket_ind nb after t)).
    { unfold move_bucket. apply (move_bucket_loop_invariant (same_rest t)).
      - intros. apply same_rest_update_slot. assumption.
      - intros. unfold after, eraseKV. apply same_rest_update_slot. assumption.
      - apply same_rest_refl. }
    destruct (move_bucket_loop_spec (Z.to_nat (2 ^ hp)) (hp - 1) bucket_ind nb after
                ltac:(lia) ltac:(lia) ltac:(unfold nb; lia) ltac:(unfold nb; lia)
                ltac:(unfold nb; lia) ltac:(reflexivity)
                (zseq SLOT_PER_BUCKET) (zseq_sorted _) 0 t)
      as (Hshape1 & Hocc1 & Hstored1 & Hframe1).
    + intros j Hj. apply elem_of_zseq in Hj. unfold slot_per_bucket. lia.
    + lia.
    + exact Hshape.
    + intros s _. apply Hempty; [lia|exact Hlock].
    + fold (move_bucket (hp - 1) bucket_ind bucket_ind nb after t) in *.
      set (t1 := move_bucket (hp - 1) bucket_ind bucket_ind nb after t) in *.
      destruct Hrest as (Hhp1 & Hlocks1 & Hpol1).
      destruct (IH (bucket_ind + kMaxNumLocks) t1) as (Hs' & Hr' & Ho' & Hst' & Hf').
      * congruence.
      * exact Hshape1.
      * change kMaxNumLocks with 65536. lia.
      * rewrite lock_ind_add_stride. exact Hlock.
      * intros j Hj Hjl s. rewrite Hframe1.
        -- apply Hempty; [|exact Hjl]. change kMaxNumLocks with 65536 in Hj. lia.
        -- change kMaxNumLocks with 65536 in Hj. lia.
        -- unfold nb. change kMaxNumLocks with 65536 in Hj. lia.
      * split; [exact Hs'|]. split.
        { eapply same_rest_trans; [|exact Hr']. split; auto. }
        split; [lia|]. split.
        { intros x. rewrite Hst'. apply Hstored1. }
        intros i s Hi. rewrite Hf' by exact Hi. apply Hframe1.
        -- intros ->. congruence.
        -- intros ->. unfold nb in Hi. rewrite lock_ind_add_half in Hi by lia. congruence.
Qed.

Lemma keeps_refl t : keeps t t.
Proof. unfold keeps, same_policy. repeat split; auto. Qed.

Lemma keeps_trans t1 t2 t3 : keeps t1 t2 -> keeps t2 t3 -> keeps t1 t3.
Proof.
  unfold keeps, same_policy.
  intros (H1 & (H2a & H2b & H2c) & H3 & H4 & H5 & H6 & H7)
         (G1 & (G2a & G2b & G2c) & G3 & G4 & G5 & G6 & G7).
  repeat split; try congruence; try lia.
  - intros Hx. apply H6, G6, Hx.
  - intros Hx. apply G6, H6, Hx.
  - auto.
Qed.

Lemma wf_shape t : wf t -> shape (Z.to_nat (2 ^ hashpower t)) t.
Proof. intros (_ & Hlen & Hall & _). split; assumption. Qed.

Lemma zsum_alter_same {A} (f : A -> Z) (g : A -> A) l n :
  (forall x, f (g x) = f x) -> zsum f (alter g n l) = zsum f l.
Proof.
  intros Hfg. revert n. induction l as [|z l IH]; intros n; [reflexivity|].
  destruct n as [|n].
  - change (alter g 0%nat (z :: l)) with (g z :: l). rewrite !zsum_cons, Hfg. reflexivity.
  - change (alter g (S n) (z :: l)) with (z :: alter g n l). rewrite !zsum_cons, IH. reflexivity.
Qed.

Lemma counters_sum_set_migrated l m t : counters_sum (set_migrated l m t) = counters_sum t.
Proof.
  unfold set_migrated, update_lock. destruct (l <? 0); [reflexivity|].
  unfold counters_sum. cbn [set_locks locks_]. apply zsum_alter_same. reflexivity.
Qed.

Lemma lock_and_rehash_spec l t :
  params_ok -> wf t -> lazy_ok t ->
  let t' := lock_and_rehash l t in
  wf t' /\ lazy_ok t' /\ keeps t t' /\ migrated t' l /\
  (forall l', l' <> l -> migrated t' l' -> migrated t l') /\
  (forall i s, lock_ind i <> l -> cell t' i s = cell t i s) /\
  (migrated t l -> t' = t).
Proof.
  intros Hpar Hwf Hlazy. cbv zeta. unfold lock_and_rehash.
  destruct (is_migrated (get_lock t l)) eqn:Hmig.
  { split; [exact Hwf|]. split; [exact Hlazy|]. split; [apply keeps_refl|].
    split; [exact Hmig|]. auto. }
  pose proof (params_ok_hashpower Hpar) as Hmax.
  pose proof Hwf as (Hhp & Hlenb & Hall & Hlenl & Hsmall).
  assert (Hbig : 17 <= hashpower t).
  { destruct (Z_lt_le_dec (hashpower t) 17) as [Hlt|]; [exfalso|assumption].
    specialize (Hsmall ltac:(unfold kMaxNumLocksPow; lia) l).
    unfold migrated in Hsmall. congruence. }
  assert (Hnl : length (locks_ t) = Z.to_nat (2 ^ 16)).
  { rewrite Hlenl. rewrite Z.min_r by (unfold kMaxNumLocksPow; lia). reflexivity. }
  assert (Hl : 0 <= l < 2 ^ 16).
  { destruct (Z_lt_le_dec l 0) as [Hneg|Hl0].
    - pose proof (migrated_out_of_range t l ltac:(left; exact Hneg)) as H.
      unfold migrated in H. congruence.
    - destruct (Z_lt_le_dec l (2 ^ 16)) as [|Hge]; [lia|].
      pose proof (migrated_out_of_range t l ltac:(right; lia)) as H.
      unfold migrated in H. congruence. }
  assert (Hpow : 0 < 2 ^ (hashpower t - 1)) by (apply Z.pow_pos_nonneg; lia).
  pose proof (pow2_half (hashpower t) ltac:(lia)) as Hhalf.
  destruct (migrate_lock_loop_spec (hashpower t) l ltac:(lia) Hl
              (Z.to_nat (Z.shiftr (bucket_count t) 1 / kMaxNumLocks) + 1) l t
              eq_refl (wf_shape t Hwf) ltac:(lia) (lock_ind_small l Hl))
    as (Hshape1 & (Hhp1 & Hlocks1 & Hpol1) & Hocc1 & Hstored1 & Hframe1).
  { intros j Hj Hjl s. apply Hlazy; [lia|].
    rewrite lock_ind_add_half by lia. rewrite Hjl. unfold migrated. congruence. }
  fold (migrate_lock l t) in *. set (t1 := migrate_lock l t) in *.
  assert (Hlen1 : (Z.to_nat l < length (locks_ t1))%nat) by (rewrite Hlocks1, Hnl; lia).
  destruct (update_lock_fields l (fun lk => mk_seqlock true (elem_counter lk)) t1)
    as (Hhp2 & Hb2 & Hpol2).
  fold (set_migrated l true t1) in *.
  assert (Hmig2 : migrated (set_migrated l true t1) l)
    by (apply migrated_set_migrated_eq; [lia|exact Hlen1]).
  assert (Hother : forall l', l' <> l ->
            (migrated (set_migrated l true t1) l' <-> migrated t l')).
  { intros l' Hne. unfold set_migrated. rewrite migrated_update_lock_ne by exact Hne.
    unfold migrated, get_lock. rewrite Hlocks1. reflexivity. }
  assert (Hcell2 : forall i s, cell (set_migrated l true t1) i s = cell t1 i s).
  { intros i s. apply cell_update_lock. }
  split; [|split; [|split; [|split; [exact Hmig2|split; [|split]]]]].
  - (* wf *)
    split; [rewrite Hhp2, Hhp1; exact Hhp|]. rewrite Hhp2, Hhp1, Hb2.
    destruct Hshape1 as [Hl1 Ha1].
    split; [exact Hl1|]. split; [exact Ha1|]. split.
    + unfold set_migrated. rewrite length_locks_update_lock, Hlocks1. exact Hlenl.
    + intros Hle. unfold kMaxNumLocksPow in Hle. lia.
  - (* lazy_ok *)
    intros j Hj Hnm s. rewrite Hhp2, Hhp1 in Hj.
    assert (Hjl : lock_ind j <> l) by (intros Heq; apply Hnm; rewrite Heq; exact Hmig2).
    rewrite Hcell2, Hframe1 by exact Hjl.
    apply Hlazy; [exact Hj|]. intros Hm. apply Hnm. apply Hother; assumption.
  - (* keeps *)
    unfold keeps. split; [congruence|]. split.
    { unfold same_policy in *. intuition congruence. }
    split; [unfold set_migrated; rewrite length_locks_update_lock; congruence|].
    split.
    { rewrite counters_sum_set_migrated. unfold counters_sum. rewrite Hlocks1. reflexivity. }
    split.
    { unfold set_migrated. rewrite occupied_slots_update_lock. exact Hocc1. }
    split.
    { intros x. rewrite <- Hstored1. apply stored_buckets_eq. exact Hb2. }
    intros l' Hm. destruct (Z.eq_dec l' l) as [->|Hne]; [exact Hmig2|].
    apply Hother; assumption.
  - intros l' Hne Hm. apply Hother in Hm; assumption.
  - intros i s Hi. rewrite Hcell2. apply Hframe1. exact Hi.
  - intros Hm. unfold migrated in Hm. congruence.
Qed.

Lemma migr_trans t1 t2 t3 : migr t1 t2 -> migr t2 t3 -> migr t1 t3.
Proof. induction 1; intros H23; [exact H23|]. eapply migr_step. eauto. Qed.

Lemma migr_one l t : migr t (lock_and_rehash l t).
Proof. eapply migr_step. apply migr_refl. Qed.

Lemma migr_spec t t' :
  params_ok -> migr t t' -> wf t -> lazy_ok t -> wf t' /\ lazy_ok t' /\ keeps t t'.
Proof.
  intros Hpar. induction 1 as [t|t l t' Hm IH]; intros Hwf Hlazy.
  - split; [exact Hwf|]. split; [exact Hlazy|]. apply keeps_refl.
  - destruct (lock_and_rehash_spec l t Hpar Hwf Hlazy) as (Hwf1 & Hlazy1 & Hk1 & _).
    destruct (IH Hwf1 Hlazy1) as (Hwf2 & Hlazy2 & Hk2).
    split; [exact Hwf2|]. split; [exact Hlazy2|]. eapply keeps_trans; eauto.
Qed.

Lemma inv_keeps t t' : wf t' -> lazy_ok t' -> keeps t t' -> inv t -> inv t'.
Proof.
  intros Hwf Hlazy (_ & _ & _ & Hc & Ho & _) (_ & _ & Heq).
  split; [exact Hwf|]. split; [exact Hlazy|]. lia.
Qed.

Lemma migr_inv t t' : params_ok -> migr t t' -> inv t -> inv t' /\ keeps t t'.
Proof.
  intros Hpar Hm Hinv. pose proof Hinv as (Hwf & Hlazy & _).
  destruct (migr_spec t t' Hpar Hm Hwf Hlazy) as (Hwf' & Hlazy' & Hk).
  split; [|exact Hk]. eapply inv_keeps; eauto.
Qed.

End Migration.

(** ** Taking stripes *)

Section Locking.
Context {params : Params}.

Lemma migrate_lock_loop_invariant (P : table -> Prop) :
  (forall i s c t, P t -> P (update_slot i s c t)) ->
  forall m bucket_ind t, P t -> P (migrate_lock_loop m bucket_ind t).
Proof.
  intros Hupd. induction m as [|m IH]; intros bucket_ind t HP; cbn [migrate_lock_loop].
  - exact HP.
  - destruct (bucket_ind <? _); [|exact HP]. apply IH.
    unfold move_bucket. apply move_bucket_loop_invariant; auto.
    intros. unfold eraseKV. auto.
Qed.

Lemma lock_and_rehash_hashpower l t : hashpower (lock_and_rehash l t) = hashpower t.
Proof.
  unfold lock_and_rehash. destruct (is_migrated (get_lock t l)); [reflexivity|].
  unfold set_migrated.
  destruct (update_lock_fields l (fun lk => mk_seqlock true (elem_counter lk))
                               (migrate_lock l t)) as (-> & _).
  unfold migrate_lock.
  apply (migrate_lock_loop_invariant (fun t' => hashpower t' = hashpower t)); [|reflexivity].
  intros i s c t' Ht'. destruct (update_slot_fields i s c t') as (-> & _). exact Ht'.
Qed.

Lemma migr_hashpower t t' : migr t t' -> hashpower t' = hashpower t.
Proof.
  induction 1 as [|t l t' _ IH]; [reflexivity|]. rewrite IH. apply lock_and_rehash_hashpower.
Qed.

Lemma lock_one_normal hp i t :
  hashpower t = hp ->
  lock_one normal_mode hp i t = (Ret (Some (lock_ind i)), lock_and_rehash (lock_ind i) t).
Proof.
  intros Hhp. unfold lock_one, bind, modify, check_hashpower, ret.
  rewrite lock_and_rehash_hashpower, Hhp, Z.eqb_refl. reflexivity.
Qed.

Lemma migrated_after_two l1 l2 t :
  params_ok -> wf t -> lazy_ok t ->
  migrated (lock_and_rehash l2 (lock_and_rehash l1 t)) l1 /\
  migrated (lock_and_rehash l2 (lock_and_rehash l1 t)) l2.
Proof.
  intros Hpar Hwf Hlazy.
  destruct (lock_and_rehash_spec l1 t Hpar Hwf Hlazy) as (Hwf1 & Hlazy1 & _ & Hm1 & _).
  destruct (lock_and_rehash_spec l2 _ Hpar Hwf1 Hlazy1)
    as (_ & _ & (_ & _ & _ & _ & _ & _ & Hmono) & Hm2 & _).
  split; [apply Hmono; exact Hm1|exact Hm2].
Qed.

Lemma lock_two_normal hp i1 i2 t :
  hashpower t = hp ->
  exists b t',
    lock_two normal_mode hp i1 i2 t = (Ret b, t') /\ migr t t' /\
    tb_i1 b = i1 /\ tb_i2 b = i2 /\
    (exists l, lock1 b = Some l /\ (l = lock_ind i1 \/ l = lock_ind i2)) /\
    (params_ok -> wf t -> lazy_ok t -> stripes_migrated t' i1 i2).
Proof.
  intros Hhp. unfold lock_two.
  destruct (lock_ind i2 <? lock_ind i1) eqn:Hswap;
    unfold bind, modify, check_hashpower, ret;
    rewrite lock_and_rehash_hashpower, Hhp, Z.eqb_refl; cbn [negb].
  - (* stripes swapped *)
    destruct (lock_ind i2 =? lock_ind i1) eqn:Heq; cbn [negb].
    + apply Z.eqb_eq in Heq. apply Z.ltb_lt in Hswap. lia.
    + eexists _, _. split; [reflexivity|]. split; [eapply migr_step, migr_one|].
      split; [reflexivity|]. split; [reflexivity|]. split; [eauto|].
      intros Hpar Hwf Hlazy.
      destruct (migrated_after_two (lock_ind i2) (lock_ind i1) t Hpar Hwf Hlazy).
      split; assumption.
  - destruct (lock_ind i1 =? lock_ind i2) eqn:Heq; cbn [negb].
    + apply Z.eqb_eq in Heq.
      eexists _, _. split; [reflexivity|]. split; [apply migr_one|].
      split; [reflexivity|]. split; [reflexivity|]. split; [eauto|].
      intros Hpar Hwf Hlazy.
      destruct (lock_and_rehash_spec (lock_ind i1) t Hpar Hwf Hlazy) as (_ & _ & _ & Hm & _).
      split; [exact Hm|rewrite <- Heq; exact Hm].
    + eexists _, _. split; [reflexivity|]. split; [eapply migr_step, migr_one|].
      split; [reflexivity|]. split; [reflexivity|]. split; [eauto|].
      intros Hpar Hwf Hlazy.
      destruct (migrated_after_two (lock_ind i1) (lock_ind i2) t Hpar Hwf Hlazy).
      split; assumption.
Qed.

Lemma snapshot_and_lock_two_normal n hv t :
  exists b t',
    snapshot_and_lock_two normal_mode (S n) hv t = (Ret b, t') /\ migr t t' /\
    tb_i1 b = index_hash (hashpower t) (hv_hash hv) /\
    tb_i2 b = alt_index (hashpower t) (hv_partial hv) (tb_i1 b) /\
    (exists l, lock1 b = Some l /\ (l = lock_ind (tb_i1 b) \/ l = lock_ind (tb_i2 b))) /\
    (params_ok -> wf t -> lazy_ok t -> stripes_migrated t' (tb_i1 b) (tb_i2 b)).
Proof.
  cbn [snapshot_and_lock_two]. unfold bind at 1, get_table at 1, catch_hashpower_changed.
  destruct (lock_two_normal (hashpower t) (index_hash (hashpower t) (hv_hash hv))
              (alt_index (hashpower t) (hv_partial hv)
                 (index_hash (hashpower t) (hv_hash hv))) t eq_refl)
    as (b & t' & Hrun & Hm & Hi1 & Hi2 & Hl & Hmig).
  rewrite Hrun. exists b, t'. split; [reflexivity|]. split; [exact Hm|].
  rewrite Hi1, Hi2. auto.
Qed.


Lemma take_stripes_migr ls t : migr t (take_stripes ls t).
Proof.
  revert t. induction ls as [|l ls IH]; intros t; [apply migr_refl|].
  cbn [take_stripes fold_left]. eapply migr_step. apply IH.
Qed.

Lemma take_stripes_migrated ls t l :
  params_ok -> wf t -> lazy_ok t -> (l ∈ ls \/ migrated t l) -> migrated (take_stripes ls t) l.
Proof.
  intros Hpar. revert t. induction ls as [|l0 ls IH]; intros t Hwf Hlazy Hin.
  - destruct Hin as [Hin|Hm]; [apply elem_of_nil in Hin; destruct Hin|exact Hm].
  - cbn [take_stripes fold_left].
    destruct (lock_and_rehash_spec l0 t Hpar Hwf Hlazy)
      as (Hwf1 & Hlazy1 & (_ & _ & _ & _ & _ & _ & Hmono) & Hm1 & _).
    apply IH; [exact Hwf1|exact Hlazy1|].
    destruct Hin as [Hin|Hm]; [|right; auto].
    apply elem_of_cons in Hin. destruct Hin as [->|Hin]; [right; exact Hm1|left; exact Hin].
Qed.

Lemma lock_three_normal hp i0 i1 i2 t :
  hashpower t = hp ->
  exists b e ls,
    lock_three normal_mode hp (i0, i1, i2) t = (Ret (b, e), take_stripes ls t) /\
    tb_i1 b = i0 /\ tb_i2 b = i1 /\ lock1 b = Some (lock_ind i0) /\
    lock_ind i0 ∈ ls /\ lock_ind i1 ∈ ls /\ lock_ind i2 ∈ ls.
Proof.
  intros Hhp. unfold lock_three. cbn [nth3].
  generalize (lock_ind i0) (lock_ind i1) (lock_ind i2). intros a b c.
  destruct (c <? b) eqn:H1; cbn [swap3 nth3];
    [destruct (b <? a) eqn:H2|destruct (c <? a) eqn:H2]; cbn [swap3 nth3];
    match goal with
    | |- context [if ?x <? ?y then _ else _] => destruct (x <? y) eqn:H3
    end; cbn [swap3 nth3 set3];
    unfold bind, modify, check_hashpower, ret;
    rewrite lock_and_rehash_hashpower, Hhp, Z.eqb_refl;
    repeat match goal with
    | |- context [negb (?x =? ?y)] => destruct (x =? y) eqn:?; cbn [negb set3 nth3]
    end;
    repeat match goal with
    | H : (_ <? _) = true |- _ => apply Z.ltb_lt in H
    | H : (_ <? _) = false |- _ => apply Z.ltb_ge in H
    | H : (_ =? _) = true |- _ => apply Z.eqb_eq in H
    | H : (_ =? _) = false |- _ => apply Z.eqb_neq in H
    end; try lia; subst.
  all: try (eexists _, _, [_; _; _]; split; [reflexivity|];
            split; [reflexivity|]; split; [reflexivity|];
            split; [unfold TwoBuckets_normal; cbn [lock1]; reflexivity|];
            repeat split; repeat (apply elem_of_cons; (left; reflexivity) || right); fail).
  all: try (eexists _, _, [_; _]; split; [reflexivity|];
            split; [reflexivity|]; split; [reflexivity|];
            split; [unfold TwoBuckets_normal; cbn [lock1]; reflexivity|];
            repeat split; repeat (apply elem_of_cons; (left; reflexivity) || right); fail).
  all: try (eexists _, _, [_]; split; [reflexivity|];
            split; [reflexivity|]; split; [reflexivity|];
            split; [unfold TwoBuckets_normal; cbn [lock1]; reflexivity|];
            repeat split; repeat (apply elem_of_cons; (left; reflexivity) || right); fail).
Qed.
End Locking.

(** ** Looking a key up *)

Section Lookup.
Context {params : Params}.

Lemma try_read_from_bucket_loop_spec (b : bucket) p key slots :
  (try_read_from_bucket_loop b p key slots = -1 /\
   forall j sl, j ∈ slots -> slot_at b j = Some sl -> key_matches p key sl = false) \/
  (try_read_from_bucket_loop b p key slots ∈ slots /\
   exists sl, slot_at b (try_read_from_bucket_loop b p key slots) = Some sl /\
              key_matches p key sl = true).
Proof.
  induction slots as [|i rest IH]; cbn [try_read_from_bucket_loop].
  - left. split; [reflexivity|]. intros j sl Hj. apply elem_of_nil in Hj. destruct Hj.
  - assert (Hrec : forall sl0, slot_at b i = Some sl0 -> key_matches p key sl0 = false ->
       (try_read_from_bucket_loop b p key rest = -1 /\
        forall j sl, j ∈ i :: rest -> slot_at b j = Some sl -> key_matches p key sl = false) \/
       (try_read_from_bucket_loop b p key rest ∈ i :: rest /\
        exists sl, slot_at b (try_read_from_bucket_loop b p key rest) = Some sl /\
                   key_matches p key sl = true)).
    { intros sl0 Hsl0 Hno. destruct IH as [[Hr Hall]|[Hin Hex]].
      - left. split; [exact Hr|]. intros j sl Hj Hsl. apply elem_of_cons in Hj.
        destruct Hj as [->|Hj]; [congruence|eauto].
      - right. split; [apply elem_of_cons; right; exact Hin|exact Hex]. }
    destruct (slot_at b i) as [sl0|] eqn:Hslot.
    + unfold key_matches in Hrec. specialize (Hrec sl0 eq_refl).
      destruct (negb is_simple && negb (p =? s_partial sl0)) eqn:Hskip; cbn [negb andb] in Hrec.
      * apply Hrec. reflexivity.
      * destruct (key_eq (s_key sl0) key) eqn:Heq.
        -- right. split; [apply elem_of_cons; left; reflexivity|].
           exists sl0. split; [exact Hslot|]. unfold key_matches. rewrite Hskip, Heq. reflexivity.
        -- apply Hrec. reflexivity.
    + destruct IH as [[Hr Hall]|[Hin Hex]].
      * left. split; [exact Hr|]. intros j sl Hj Hsl. apply elem_of_cons in Hj.
        destruct Hj as [->|Hj]; [congruence|eauto].
      * right. split; [apply elem_of_cons; right; exact Hin|exact Hex].
Qed.

(** [try_read_from_bucket] reports [-1] exactly when no slot matches. *)
Lemma try_read_from_bucket_none (b : bucket) p key :
  try_read_from_bucket b p key = -1 <->
  forall j sl, slot_at b j = Some sl -> 0 <= j < slot_per_bucket -> key_matches p key sl = false.
Proof.
  unfold try_read_from_bucket.
  destruct (try_read_from_bucket_loop_spec b p key (zseq SLOT_PER_BUCKET))
    as [[Hr Hall]|[Hin (sl & Hsl & Hm)]].
  - split; [|intros _; exact Hr]. intros _ j sl Hsl Hj. eapply Hall; [|exact Hsl].
    apply elem_of_zseq. exact Hj.
  - apply elem_of_zseq in Hin. split.
    + intros Hr. lia.
    + intros Hall. rewrite (Hall _ _ Hsl) in Hm; [discriminate|exact Hin].
Qed.

Lemma try_read_from_bucket_found (b : bucket) p key :
  try_read_from_bucket b p key <> -1 ->
  0 <= try_read_from_bucket b p key < slot_per_bucket /\
  exists sl, slot_at b (try_read_from_bucket b p key) = Some sl /\ key_matches p key sl = true.
Proof.
  unfold try_read_from_bucket.
  destruct (try_read_from_bucket_loop_spec b p key (zseq SLOT_PER_BUCKET))
    as [[Hr Hall]|[Hin Hex]]; [congruence|].
  intros _. apply elem_of_zseq in Hin. auto.
Qed.

Lemma key_matches_key_eq p key sl : key_matches p key sl = true -> key_eq (s_key sl) key = true.
Proof. unfold key_matches. intros H. apply andb_true_iff in H. tauto. Qed.

Lemma try_read_from_bucket_absent t key p i :
  absent t key -> try_read_from_bucket (get_bucket t i) p key = -1.
Proof.
  intros Habs. apply try_read_from_bucket_none. intros j sl Hsl _.
  destruct (key_matches p key sl) eqn:Hm; [|reflexivity].
  apply key_matches_key_eq in Hm. rewrite (Habs sl) in Hm; [discriminate|].
  exists i, j. exact Hsl.
Qed.

Lemma cuckoo_find_absent t key p i1 i2 :
  absent t key -> cuckoo_find key p i1 i2 t = mk_pos 0 0 failure_key_not_found.
Proof.
  intros Habs. unfold cuckoo_find.
  rewrite !try_read_from_bucket_absent by exact Habs. reflexivity.
Qed.

Lemma read_result_absent t key : absent t key -> read_result key t = None.
Proof. intros Habs. unfold read_result. rewrite cuckoo_find_absent by exact Habs. reflexivity. Qed.

Lemma absent_keeps t t' key : keeps t t' -> absent t key -> absent t' key.
Proof.
  intros (_ & _ & _ & _ & _ & Hst & _) Habs sl Hsl. apply Habs. apply Hst. exact Hsl.
Qed.

(** [read_and_rehash] takes the stripe as [lock_and_rehash] does. *)
Lemma read_and_rehash_eq l t :
  read_and_rehash l t
  = if is_migrated (get_lock t l) then (Ret (Some l), t)
    else (Ret None, lock_and_rehash l t).
Proof.
  unfold read_and_rehash, lock_and_rehash.
  destruct (is_migrated (get_lock t l)); reflexivity.
Qed.

(** With both stripes migrated the read succeeds at once. *)
Lemma read_value_migrated n key t :
  stripes_migrated t (index_hash (hashpower t) (hv_hash (hashed_key key)))
                   (alt_index (hashpower t) (hv_partial (hashed_key key))
                      (index_hash (hashpower t) (hv_hash (hashed_key key)))) ->
  read_value (S n) key t = (Ret (read_result key t), t).
Proof.
  intros [Hm1 Hm2]. unfold migrated in Hm1, Hm2.
  cbn [read_value]. unfold bind, get_table, ret.
  rewrite read_and_rehash_eq, Hm1. rewrite Z.eqb_refl. cbn [negb orb].
  rewrite bool_decide_eq_false_2 by discriminate. cbn [orb].
  destruct (negb (_ =? _)).
  - rewrite read_and_rehash_eq, Hm2.
    rewrite bool_decide_eq_false_2 by discriminate. reflexivity.
  - rewrite bool_decide_eq_false_2 by discriminate. reflexivity.
Qed.

(** Three rounds are enough: each of the first two migrates a stripe. *)
Lemma read_value_total n key t :
  params_ok -> wf t -> lazy_ok t ->
  exists t', read_value (3 + n) key t = (Ret (read_result key t'), t') /\ migr t t'.
Proof.
  intros Hpar Hwf Hlazy.
  set (i1 := index_hash (hashpower t) (hv_hash (hashed_key key))).
  set (i2 := alt_index (hashpower t) (hv_partial (hashed_key key)) i1).
  assert (Hstep : forall m t0, hashpower t0 = hashpower t -> wf t0 -> lazy_ok t0 ->
            forall l, (l = lock_ind i1 \/ (l = lock_ind i2 /\ migrated t0 (lock_ind i1))) ->
            is_migrated (get_lock t0 l) = false ->
            read_value (S m) key t0 = read_value m key (lock_and_rehash l t0)).
  { intros m t0 Hhp Hwf0 Hlazy0 l Hl Hun.
    cbn [read_value]. unfold bind at 1, get_table at 1. rewrite Hhp. fold i1. fold i2.
    unfold bind at 1. rewrite read_and_rehash_eq.
    destruct Hl as [->|[-> H1]].
    - rewrite Hun. unfold bind at 1, get_table at 1.
      rewrite bool_decide_eq_true_2 by reflexivity. reflexivity.
    - destruct (is_migrated (get_lock t0 (lock_ind i1))) eqn:Hm1.
      + unfold bind at 1, get_table at 1. rewrite Hhp, Z.eqb_refl. cbn [negb orb].
        rewrite bool_decide_eq_false_2 by discriminate. cbn [orb].
        destruct (lock_ind i1 =? lock_ind i2) eqn:Heq.
        * apply Z.eqb_eq in Heq. rewrite Heq in Hm1. congruence.
        * cbn [negb]. unfold bind at 1. rewrite read_and_rehash_eq, Hun.
          rewrite bool_decide_eq_true_2 by reflexivity. reflexivity.
      + unfold migrated in H1. congruence. }
  destruct (is_migrated (get_lock t (lock_ind i1))) eqn:Hm1.
  - destruct (is_migrated (get_lock t (lock_ind i2))) eqn:Hm2.
    + exists t. split; [|apply migr_refl]. apply read_value_migrated. split; assumption.
    + change (3 + n)%nat with (S (S (S n))).
      rewrite (Hstep _ t eq_refl Hwf Hlazy (lock_ind i2)) by auto.
      destruct (lock_and_rehash_spec (lock_ind i2) t Hpar Hwf Hlazy)
        as (Hwf1 & Hlazy1 & (Hhp1 & _ & _ & _ & _ & _ & Hmono) & Hmig & _).
      exists (lock_and_rehash (lock_ind i2) t). split; [|apply migr_one].
      apply read_value_migrated. rewrite Hhp1. fold i1. fold i2.
      split; [apply Hmono; exact Hm1|exact Hmig].
  - change (3 + n)%nat with (S (S (S n))).
    rewrite (Hstep _ t eq_refl Hwf Hlazy (lock_ind i1)) by auto.
    destruct (lock_and_rehash_spec (lock_ind i1) t Hpar Hwf Hlazy)
      as (Hwf1 & Hlazy1 & (Hhp1 & _ & _ & _ & _ & _ & Hmono) & Hmig & _).
    set (t1 := lock_and_rehash (lock_ind i1) t) in *.
    destruct (is_migrated (get_lock t1 (lock_ind i2))) eqn:Hm2.
    + exists t1. split; [|apply migr_one]. apply read_value_migrated.
      rewrite Hhp1. fold i1. fold i2. split; [exact Hmig|exact Hm2].
    + rewrite (Hstep _ t1 Hhp1 Hwf1 Hlazy1 (lock_ind i2)) by auto.
      destruct (lock_and_rehash_spec (lock_ind i2) t1 Hpar Hwf1 Hlazy1)
        as (Hwf2 & Hlazy2 & (Hhp2 & _ & _ & _ & _ & _ & Hmono2) & Hmig2 & _).
      exists (lock_and_rehash (lock_ind i2) t1).
      split; [|eapply migr_step, migr_one].
      apply read_value_migrated. rewrite Hhp2, Hhp1. fold i1. fold i2.
      split; [apply Hmono2; exact Hmig|exact Hmig2].
Qed.

End Lookup.

(** ** Checking a small table *)

Section Checks.
Context {params : Params}.

Lemma all_migrated t :
  forallb is_migrated (locks_ t) = true -> forall l, migrated t l.
Proof.
  intros Hall l. unfold migrated, get_lock.
  destruct (l <? 0); [reflexivity|].
  destruct (locks_ t !! Z.to_nat l) as [lk|] eqn:Hlk; [|reflexivity].
  cbn [default]. rewrite forallb_forall in Hall. apply Hall.
  apply list_elem_of_In. eapply list_elem_of_lookup_2. exact Hlk.
Qed.

Lemma inv_check_sound t : inv_check t = true -> inv t.
Proof.
  unfold inv_check. rewrite !andb_true_iff.
  intros [[[[[[[H0 H1] H2] H3] H4] H5] H6] H7].
  apply Z.leb_le in H0, H1, H2. apply Nat.eqb_eq in H3, H5. apply Z.eqb_eq in H7.
  pose proof (all_migrated t H6) as Hmig.
  split; [|split; [|exact H7]].
  - split; [lia|]. split; [exact H3|]. split.
    + apply Forall_forall. intros b Hb. rewrite forallb_forall in H4.
      apply Nat.eqb_eq. apply H4. apply list_elem_of_In. exact Hb.
    + split; [|intros _; exact Hmig]. rewrite Z.min_l by lia. exact H5.
  - intros j _ Hun. destruct Hun. apply Hmig.
Qed.

Lemma slot_at_empty_bucket j : slot_at empty_bucket j = None.
Proof.
  unfold slot_at, empty_bucket. destruct (j <? 0); [reflexivity|].
  destruct (replicate SLOT_PER_BUCKET None !! Z.to_nat j) as [c|] eqn:Hc; [|reflexivity].
  apply lookup_replicate in Hc. destruct Hc as [-> _]. reflexivity.
Qed.

Lemma absent_check_sound t key : absent_check t key = true -> absent t key.
Proof.
  unfold absent_check. rewrite forallb_forall. intros Hall sl (i & j & Hcell).
  unfold cell, get_bucket in Hcell.
  destruct (i <? 0).
  - rewrite slot_at_empty_bucket in Hcell. discriminate.
  - destruct (buckets_ t !! Z.to_nat i) as [b|] eqn:Hb; cbn [default] in Hcell.
    + apply list_elem_of_lookup_2, list_elem_of_In in Hb. specialize (Hall _ Hb).
      rewrite forallb_forall in Hall. unfold slot_at in Hcell.
      destruct (j <? 0); [discriminate|].
      match type of Hcell with
      | mjoin ?x = _ => destruct x as [c|] eqn:Hc; [|inversion Hcell]
      end.
      change (c = Some sl) in Hcell. subst c.
      apply list_elem_of_lookup_2, list_elem_of_In in Hc. specialize (Hall _ Hc).
      cbn in Hall. apply negb_true_iff in Hall. exact Hall.
    + rewrite slot_at_empty_bucket in Hcell. discriminate.
Qed.

End Checks.

Lemma int_params_ok : @params_ok int_params.
Proof. unfold params_ok. vm_compute. repeat split; discriminate. Qed.

(** ** C8: how the operations report an absent key *)

Section Misses.
Context {params : Params}.

Lemma read_value_absent n key t :
  params_ok -> wf t -> lazy_ok t -> absent t key ->
  exists t', read_value (3 + n) key t = (Ret None, t') /\ keeps t t'.
Proof.
  intros Hpar Hwf Hlazy Habs.
  destruct (read_value_total n key t Hpar Hwf Hlazy) as (t' & Hrun & Hm).
  destruct (migr_spec t t' Hpar Hm Hwf Hlazy) as (_ & _ & Hk).
  exists t'. split; [|exact Hk]. rewrite Hrun.
  rewrite read_result_absent; [reflexivity|]. eapply absent_keeps; eauto.
Qed.

Lemma snapshot_absent n key t :
  params_ok -> wf t -> lazy_ok t -> absent t key ->
  exists b t', snapshot_and_lock_two normal_mode (S n) (hashed_key key) t = (Ret b, t') /\
               keeps t t' /\
               cuckoo_find key (hv_partial (hashed_key key)) (tb_i1 b) (tb_i2 b) t'
               = mk_pos 0 0 failure_key_not_found.
Proof.
  intros Hpar Hwf Hlazy Habs.
  destruct (snapshot_and_lock_two_normal n (hashed_key key) t)
    as (b & t' & Hrun & Hm & _).
  destruct (migr_spec t t' Hpar Hm Hwf Hlazy) as (_ & _ & Hk).
  exists b, t'. split; [exact Hrun|]. split; [exact Hk|].
  apply cuckoo_find_absent. eapply absent_keeps; eauto.
Qed.

End Misses.

(** C8.  On a table that satisfies the invariant and holds no key equal
    to [key], with fuel for three rounds of the read loop: [find(key)]
    throws [std::out_of_range]; [find_fn], [find(key, val)], [contains],
    [update], [update_fn], [erase] and [erase_fn] return [false] and throw
    nothing ([find(key, val)] leaves [val] as it was, and [find_fn] does
    not run the functor).  In every case the table keeps its hashpower,
    its counters and its pairs. *)
Theorem absent_key_only_find_throws `{params : Params}
        (fuel : nat) (key : K) (t : table) :
  params_ok -> inv t -> absent t key -> (3 <= fuel)%nat ->
  (exists t', find fuel key t = (Throw std_out_of_range, t') /\ keeps t t') /\
  (forall R (fn : V -> R),
      exists t', find_fn fuel key fn t = (Ret (false, None), t') /\ keeps t t') /\
  (forall val, exists t', find_copy fuel key val t = (Ret (false, val), t') /\ keeps t t') /\
  (exists t', contains fuel key t = (Ret false, t') /\ keeps t t') /\
  (forall val, exists t', update fuel key val t = (Ret false, t') /\ keeps t t') /\
  (forall fn, exists t', update_fn fuel key fn t = (Ret false, t') /\ keeps t t') /\
  (exists t', erase fuel key t = (Ret false, t') /\ keeps t t') /\
  (forall fn, exists t', erase_fn fuel key fn t = (Ret false, t') /\ keeps t t').
Proof.
  intros Hpar (Hwf & Hlazy & _) Habs Hfuel.
  destruct fuel as [|[|[|n]]]; try lia.
  destruct (read_value_absent n key t Hpar Hwf Hlazy Habs) as (t1 & Hread & Hk1).
  change (3 + n)%nat with (S (S (S n))) in Hread.
  destruct (snapshot_absent (S (S n)) key t Hpar Hwf Hlazy Habs)
    as (b & t2 & Hsnap & Hk2 & Hfind).
  assert (Hfn : forall R (fn : V -> R),
             find_fn (S (S (S n))) key fn t = (Ret (false, None), t1)).
  { intros R fn. unfold find_fn, bind. rewrite Hread. reflexivity. }
  assert (Hup : forall fn, update_fn (S (S (S n))) key fn t = (Ret false, t2)).
  { intros fn. unfold update_fn. unfold bind at 1. rewrite Hsnap.
    unfold bind at 1, get_table at 1. rewrite Hfind. reflexivity. }
  assert (Her : forall fn, erase_fn (S (S (S n))) key fn t = (Ret false, t2)).
  { intros fn. unfold erase_fn. unfold bind at 1. rewrite Hsnap.
    unfold bind at 1, get_table at 1. rewrite Hfind. reflexivity. }
  split; [|split; [|split; [|split; [|split; [|split; [|split]]]]]].
  - exists t1. split; [|exact Hk1]. unfold find, bind. rewrite Hread. reflexivity.
  - intros R fn. exists t1. auto.
  - intros val. exists t1. split; [|exact Hk1]. unfold find_copy, bind.
    rewrite Hfn. reflexivity.
  - exists t1. split; [|exact Hk1]. unfold contains, bind. rewrite Hfn. reflexivity.
  - intros val. exists t2. split; [|exact Hk2]. apply Hup.
  - intros fn. exists t2. auto.
  - exists t2. split; [|exact Hk2]. apply Her.
  - intros fn. exists t2. auto.
Qed.

(** The witness: key 5 in the table that holds keys 1 and 2. *)
Lemma absent_key_only_find_throws_witness :
  fst (find 3 5 (int_table_with 8 [(1, 10); (2, 20)])) = Throw std_out_of_range /\
  fst (contains 3 5 (int_table_with 8 [(1, 10); (2, 20)])) = Ret false /\
  fst (erase 3 5 (int_table_with 8 [(1, 10); (2, 20)])) = Ret false.
Proof.
  assert (Hinv : inv (int_table_with 8 [(1, 10); (2, 20)])).
  { apply inv_check_sound. vm_compute. reflexivity. }
  assert (Habs : absent (int_table_with 8 [(1, 10); (2, 20)]) 5).
  { apply absent_check_sound. vm_compute. reflexivity. }
  destruct (absent_key_only_find_throws (params := int_params) 3 5
              (int_table_with 8 [(1, 10); (2, 20)]) int_params_ok Hinv Habs ltac:(lia))
    as ((t1 & H1 & _) & _ & _ & (t2 & H2 & _) & _ & _ & (t3 & H3 & _) & _).
  rewrite H1, H2, H3. repeat split.
Defined.

(** ** Moving a pair along a cuckoo path *)

Section Moves.
Context {params : Params}.

Lemma wf_valid_slot t i s : wf t -> in_table (hashpower t) i s -> valid_slot t i s.
Proof.
  intros Hwf [Hi Hs]. eapply shape_valid_slot; [apply wf_shape; exact Hwf|lia| |exact Hs].
  lia.
Qed.

Lemma wf_update_slot i s c t : wf t -> wf (update_slot i s c t).
Proof.
  intros (Hhp & Hlen & Hall & Hlocks & Hmig).
  destruct (update_slot_fields i s c t) as (Ehp & Elocks & _).
  unfold wf. rewrite Ehp, Elocks, length_buckets_update_slot.
  split; [exact Hhp|]. split; [exact Hlen|].
  split; [apply Forall_length_update_slot; exact Hall|].
  split; [exact Hlocks|]. intros Hle l. apply migrated_update_slot. auto.
Qed.

Lemma same_policy_trans t1 t2 t3 : same_policy t1 t2 -> same_policy t2 t3 -> same_policy t1 t3.
Proof. unfold same_policy. intros (? & ? & ?) (? & ? & ?). repeat split; congruence. Qed.

(** One move of [cuckoopath_move]: the pair of an occupied slot goes to
    an empty slot whose stripe is migrated. *)
Lemma move_cell t fb fs tb ts sl :
  good t -> in_table (hashpower t) fb fs -> in_table (hashpower t) tb ts ->
  cell t fb fs = Some sl -> cell t tb ts = None -> migrated t (lock_ind tb) ->
  let t' := eraseKV fb fs (setKV tb ts (s_partial sl) (s_key sl) (s_mapped sl) t) in
  good t' /\ keeps t t' /\
  (forall i s, cell t' i s = if decide (i = fb /\ s = fs) then None
                             else if decide (i = tb /\ s = ts) then Some sl
                             else cell t i s).
Proof.
  intros [Hwf Hlazy] Hf Ht Hfrom Hto Hmig. unfold eraseKV, setKV. rewrite kv_slot_eta.
  set (t1 := update_slot tb ts (Some sl) t).
  pose proof (wf_valid_slot t fb fs Hwf Hf) as Hvf.
  pose proof (wf_valid_slot t tb ts Hwf Ht) as Hvt.
  assert (Hne : fb <> tb \/ fs <> ts).
  { destruct (decide (fb = tb)) as [->|]; [|auto]. right. intros ->. congruence. }
  assert (Hcell : forall i s, cell (update_slot fb fs None t1) i s
                     = if decide (i = fb /\ s = fs) then None
                       else if decide (i = tb /\ s = ts) then Some sl
                       else cell t i s).
  { intros i s. destruct (decide (i = fb /\ s = fs)) as [[-> ->]|Hn1].
    - apply cell_update_slot_eq. apply valid_slot_update_slot. exact Hvf.
    - rewrite cell_update_slot_ne by (destruct (decide (i = fb)); [right; intros ->; tauto|auto]).
      unfold t1. destruct (decide (i = tb /\ s = ts)) as [[-> ->]|Hn2].
      + apply cell_update_slot_eq. exact Hvt.
      + apply cell_update_slot_ne. destruct (decide (i = tb)); [right; intros ->; tauto|auto]. }
  assert (Hwf' : wf (update_slot fb fs None t1)) by (apply wf_update_slot, wf_update_slot, Hwf).
  destruct (update_slot_fields tb ts (Some sl) t) as (Ehp1 & Elocks1 & Epol1).
  destruct (update_slot_fields fb fs None t1) as (Ehp2 & Elocks2 & Epol2).
  fold t1 in Ehp1, Elocks1, Epol1.
  assert (Hmigeq : forall l, migrated (update_slot fb fs None t1) l <-> migrated t l).
  { intros l. unfold t1. rewrite !migrated_update_slot. reflexivity. }
  split; [split; [exact Hwf'|]|split; [|exact Hcell]].
  - intros j Hj Hun s. rewrite Hcell.
    destruct (decide (j = fb /\ s = fs)); [reflexivity|].
    destruct (decide (j = tb /\ s = ts)) as [[-> ->]|].
    + destruct Hun. apply Hmigeq. exact Hmig.
    + apply Hlazy; [rewrite Ehp2, Ehp1 in Hj; exact Hj|].
      intros Hm. apply Hun. apply Hmigeq. exact Hm.
  - split; [congruence|]. split; [eapply same_policy_trans; eauto|].
    split; [congruence|].
    split; [unfold t1; rewrite !counters_sum_update_slot; reflexivity|].
    split.
    + rewrite occupied_slots_update_slot by (apply valid_slot_update_slot; exact Hvf).
      assert (Hc1 : cell t1 fb fs = Some sl).
      { unfold t1. rewrite cell_update_slot_ne by tauto. exact Hfrom. }
      rewrite Hc1. unfold t1. rewrite occupied_slots_update_slot by exact Hvt.
      rewrite Hto. cbn [slot_count]. lia.
    + split; [|intros l Hl; apply Hmigeq; exact Hl].
      intros x. split.
      * intros (i & s & Hx). rewrite Hcell in Hx.
        destruct (decide (i = fb /\ s = fs)); [discriminate|].
        destruct (decide (i = tb /\ s = ts)).
        -- inversion Hx; subst x. exists fb, fs. exact Hfrom.
        -- exists i, s. exact Hx.
      * intros (i & s & Hx). destruct (decide (i = fb /\ s = fs)) as [[-> ->]|Hn1].
        -- exists tb, ts. rewrite Hcell.
           destruct (decide (tb = fb /\ ts = fs)) as [[-> ->]|]; [congruence|].
           destruct (decide (tb = tb /\ ts = ts)); [congruence|tauto].
        -- exists i, s. rewrite Hcell.
           destruct (decide (i = fb /\ s = fs)); [tauto|].
           destruct (decide (i = tb /\ s = ts)) as [[-> ->]|]; [congruence|exact Hx].
Qed.

End Moves.

(** ** The search for a cuckoo path in a quiescent table *)

Section PathSearch.
Context {params : Params}.

Lemma slot_search_bucket_depth hp x (b : bucket) starting_slot range q q' x' :
  slot_search_bucket hp x b starting_slot range q = Some (q', Some x') ->
  depth x' = depth x.
Proof.
  revert q. induction range as [|i rest IH]; intros q; cbn [slot_search_bucket].
  - discriminate.
  - destruct (slot_at b _) as [sl|].
    + destruct (depth x <? MAX_BFS_PATH_LEN - 1).
      * destruct (enqueue q _) as [q1|]; [apply IH|discriminate].
      * apply IH.
    + intros H. inversion H; subst. reflexivity.
Qed.

Lemma slot_search_loop_normal (slots_pos : 0 < slot_per_bucket) n hp q t :
  queue_inv q 0 -> MAX_CUCKOO_COUNT < Z.of_nat n + first_ q -> hashpower t = hp ->
  exists x q' t',
    slot_search_loop normal_mode n hp q t = (Ret (x, q'), t') /\ migr t t' /\
    (depth x = -1 \/ 0 <= depth x < MAX_BFS_PATH_LEN).
Proof.
  revert q t. induction n as [|n IH]; intros q t Hinv Hfuel Hhp.
  - destruct Hinv as (Hfl & Hlast & _). lia.
  - cbn [slot_search_loop].
    destruct (q_empty q) eqn:Hempty.
    + eexists _, _, _. split; [reflexivity|]. split; [apply migr_refl|]. left. reflexivity.
    + destruct (queue_inv_dequeue slots_pos q Hinv Hempty) as (Hd & Hf & Hinv').
      destruct (dequeue q) as [x q1]. cbn [fst snd] in *.
      unfold bind at 1. rewrite (lock_one_normal hp _ t Hhp).
      unfold bind at 1, get_table at 1.
      set (t1 := lock_and_rehash (lock_ind (bs_bucket x)) t).
      destruct (slot_search_bucket_inv slots_pos hp x (get_bucket t1 (bs_bucket x))
                  (pathcode x mod slot_per_bucket) (zseq SLOT_PER_BUCKET) q1 Hd)
        as (q2 & r & Hrun & Hf2 & Hinv2).
      { rewrite length_zseq. fold slot_per_bucket.
        destruct (depth x <? MAX_BFS_PATH_LEN - 1) eqn:Hdepth.
        - apply Z.ltb_lt in Hdepth. rewrite (bfs_weight_step (depth x)) in Hinv' by lia.
          replace (slot_per_bucket * bfs_weight (depth x + 1))
            with (1 + slot_per_bucket * bfs_weight (depth x + 1) - 1) by lia.
          exact Hinv'.
        - apply Z.ltb_ge in Hdepth.
          assert (depth x = MAX_BFS_PATH_LEN - 1) as Heq by lia.
          rewrite Heq in Hinv'. rewrite Z.mul_0_r.
          rewrite bfs_weight_last in Hinv'. exact Hinv'. }
      rewrite Hrun. destruct r as [x'|].
      * eexists _, _, _. split; [reflexivity|]. split; [apply migr_one|].
        right. rewrite (slot_search_bucket_depth _ _ _ _ _ _ _ _ Hrun). exact Hd.
      * destruct (IH q2 t1 Hinv2) as (x' & q' & t' & Hrun' & Hm & Hdx).
        { lia. }
        { unfold t1. rewrite lock_and_rehash_hashpower. exact Hhp. }
        exists x', q', t'. split; [exact Hrun'|]. split; [|exact Hdx].
        eapply migr_step. exact Hm.
Qed.

Lemma slot_search_normal hp i1 i2 t :
  params_ok -> hashpower t = hp ->
  exists x t',
    slot_search normal_mode hp i1 i2 t = (Ret x, t') /\ migr t t' /\
    (depth x = -1 \/ 0 <= depth x < MAX_BFS_PATH_LEN).
Proof.
  intros (Hpos & Hfits & _) Hhp. unfold slot_search, slot_search_queue.
  pose proof (queue_inv_new Hpos Hfits) as Hinv0.
  pose proof (bfs_weight_pos Hpos 0 ltac:(unfold MAX_BFS_PATH_LEN; lia)) as Hw.
  destruct (queue_inv_enqueue Hpos b_queue_new _ (mk_b_slot i1 0 0) Hinv0)
    as (q1 & Henq1 & Hf1 & Hinv1);
    [cbn [depth]; unfold MAX_BFS_PATH_LEN; lia|cbn [depth]; lia|].
  rewrite Henq1. cbn [depth] in Hinv1.
  destruct (queue_inv_enqueue Hpos q1 _ (mk_b_slot i2 1 0) Hinv1)
    as (q2 & Henq2 & Hf2 & Hinv2);
    [cbn [depth]; unfold MAX_BFS_PATH_LEN; lia|cbn [depth]; lia|].
  rewrite Henq2. cbn [depth] in Hinv2.
  assert (Hinv2' : queue_inv q2 0).
  { eapply queue_inv_weaken; [exact Hinv2|]. lia. }
  assert (Hfuel : MAX_CUCKOO_COUNT < Z.of_nat (Z.to_nat MAX_CUCKOO_COUNT + 1) + first_ q2).
  { rewrite Hf2, Hf1. cbn [b_queue_new first_]. lia. }
  destruct (slot_search_loop_normal Hpos _ hp q2 t Hinv2' Hfuel Hhp)
    as (x & q' & t' & Hrun & Hm & Hd).
  exists x, t'. unfold bind. rewrite Hrun. cbn [fst]. auto.
Qed.

End PathSearch.

(** ** Decoding a cuckoo path *)

Section PathDecode.
Context {params : Params}.

Lemma path_at_alter_eq f (p : list CuckooRecord) i :
  0 <= i -> (Z.to_nat i < length p)%nat ->
  path_at (alter f (Z.to_nat i) p) i = f (path_at p i).
Proof.
  intros Hi Hlt. unfold path_at. rewrite list_lookup_alter_eq.
  destruct (lookup_lt_is_Some_2 p (Z.to_nat i) Hlt) as [r Hr]. rewrite Hr. reflexivity.
Qed.

Lemma path_at_alter_ne f (p : list CuckooRecord) i k :
  0 <= i -> 0 <= k -> k <> i -> path_at (alter f (Z.to_nat i) p) k = path_at p k.
Proof.
  intros Hi Hk Hne. unfold path_at. rewrite list_lookup_alter_ne by lia. reflexivity.
Qed.

(** An update of a record that keeps a field keeps it in the whole path. *)
Lemma path_at_alter_field {A} (g : CuckooRecord -> A) f (p : list CuckooRecord) n k :
  (forall r, g (f r) = g r) -> g (path_at (alter f n p) k) = g (path_at p k).
Proof.
  intros Hg. unfold path_at. destruct (decide (Z.to_nat k = n)) as [<-|Hne].
  - rewrite list_lookup_alter_eq. destruct (p !! Z.to_nat k); cbn; [apply Hg|reflexivity].
  - rewrite list_lookup_alter_ne by congruence. reflexivity.
Qed.

Lemma decode_slots_spec (slots_pos : 0 < slot_per_bucket) n :
  forall i code (p : list CuckooRecord),
  i = Z.of_nat n - 1 -> (Z.to_nat (i + 1) <= length p)%nat ->
  length (snd (decode_slots n i code p)) = length p /\
  (forall k, 0 <= k <= i ->
             0 <= cr_slot (path_at (snd (decode_slots n i code p)) k) < slot_per_bucket) /\
  (forall k, i < k -> path_at (snd (decode_slots n i code p)) k = path_at p k).
Proof.
  induction n as [|n IH]; intros i code p Hi Hlen; cbn [decode_slots snd].
  - split; [reflexivity|]. split; [intros k Hk; lia|reflexivity].
  - destruct (IH (i - 1) (code / slot_per_bucket)
                (path_set_slot p i (code mod slot_per_bucket))) as (Hl & Hslots & Hrest).
    { lia. }
    { unfold path_set_slot. rewrite length_alter. lia. }
    unfold path_set_slot in Hl. rewrite length_alter in Hl.
    split; [exact Hl|]. split.
    + intros k Hk. destruct (decide (k = i)) as [->|Hne].
      * rewrite Hrest by lia. unfold path_set_slot.
        rewrite path_at_alter_eq by lia. cbn [cr_slot].
        apply Z.mod_pos_bound. exact slots_pos.
      * apply Hslots. lia.
    + intros k Hk. rewrite Hrest by lia. unfold path_set_slot.
      apply path_at_alter_ne; lia.
Qed.

Lemma fill_path_spec hp D n :
  0 <= hp < 64 ->
  forall a (p : list CuckooRecord) t,
  hashpower t = hp -> (1 <= a)%nat -> D = Z.of_nat (a + n) - 1 ->
  (Z.to_nat (D + 1) <= length p)%nat ->
  (forall k, 0 <= k <= D -> 0 <= cr_slot (path_at p k) < slot_per_bucket) ->
  (forall k, 0 <= k < Z.of_nat a -> 0 <= cr_bucket (path_at p k) < 2 ^ hp) ->
  exists d p' t',
    fill_path normal_mode hp (Z.of_nat <$> seq a n) D p t = (Ret (d, p'), t') /\
    migr t t' /\ length p' = length p /\ 0 <= d <= D /\ path_ok hp p' d /\
    cr_bucket (path_at p' 0) = cr_bucket (path_at p 0).
Proof.
  intros Hhp. induction n as [|n IH]; intros a p t Ht Ha HD Hlen Hslots Hbuckets.
  - cbn [seq fmap list_fmap fill_path]. exists D, p, t.
    split; [reflexivity|]. split; [apply migr_refl|]. split; [reflexivity|].
    split; [lia|]. split; [|reflexivity].
    intros k Hk. split; [apply Hbuckets; lia|apply Hslots; lia].
  - change (Z.of_nat <$> seq a (S n))
      with (Z.of_nat a :: (Z.of_nat <$> seq (S a) n)).
    cbn [fill_path].
    set (curr := alt_index hp (hv_partial (cr_hv (path_at p (Z.of_nat a - 1))))
                           (cr_bucket (path_at p (Z.of_nat a - 1)))).
    assert (Hcurr : 0 <= curr < 2 ^ hp).
    { pose proof (alt_index_range hp (hv_partial (cr_hv (path_at p (Z.of_nat a - 1))))
                    (cr_bucket (path_at p (Z.of_nat a - 1))) ltac:(lia)) as H.
      rewrite Z.min_l in H by lia. exact H. }
    set (p1 := path_set_bucket p (Z.of_nat a) curr).
    unfold bind at 1. rewrite (lock_one_normal hp _ t Ht).
    unfold bind at 1, get_table at 1.
    set (t1 := lock_and_rehash (lock_ind curr) t).
    assert (Hlen1 : length p1 = length p) by (unfold p1, path_set_bucket; apply length_alter).
    assert (Hslots1 : forall k, cr_slot (path_at p1 k) = cr_slot (path_at p k)).
    { intros k. unfold p1, path_set_bucket. apply path_at_alter_field. reflexivity. }
    assert (Hb1 : forall k, 0 <= k <= Z.of_nat a -> 0 <= cr_bucket (path_at p1 k) < 2 ^ hp).
    { intros k Hk. unfold p1, path_set_bucket. destruct (decide (k = Z.of_nat a)) as [->|Hne].
      - rewrite path_at_alter_eq by lia. cbn [cr_bucket]. exact Hcurr.
      - rewrite path_at_alter_ne by lia. apply Hbuckets. lia. }
    assert (Hb0 : cr_bucket (path_at p1 0) = cr_bucket (path_at p 0)).
    { unfold p1, path_set_bucket. rewrite path_at_alter_ne by lia. reflexivity. }
    destruct (slot_at (get_bucket t1 curr) (cr_slot (path_at p1 (Z.of_nat a)))) as [s|].
    + set (p2 := path_set_hv p1 (Z.of_nat a) (hashed_key (s_key s))).
      destruct (IH (S a) p2 t1) as (d & p' & t' & Hrun & Hm & Hl & Hd & Hok & H0).
      { unfold t1. rewrite lock_and_rehash_hashpower. exact Ht. }
      { lia. }
      { lia. }
      { unfold p2, path_set_hv. rewrite length_alter. lia. }
      { intros k Hk. unfold p2, path_set_hv.
        rewrite (path_at_alter_field cr_slot) by reflexivity. rewrite Hslots1. auto. }
      { intros k Hk. unfold p2, path_set_hv.
        rewrite (path_at_alter_field cr_bucket) by reflexivity. apply Hb1. lia. }
      exists d, p', t'. split; [exact Hrun|]. split; [eapply migr_step; exact Hm|].
      split; [rewrite Hl; unfold p2, path_set_hv; rewrite length_alter; exact Hlen1|].
      split; [exact Hd|]. split; [exact Hok|].
      rewrite H0. unfold p2, path_set_hv.
      rewrite (path_at_alter_field cr_bucket) by reflexivity. exact Hb0.
    + exists (Z.of_nat a), p1, t1. split; [reflexivity|]. split; [apply migr_one|].
      split; [exact Hlen1|]. split; [lia|]. split; [|exact Hb0].
      intros k Hk. split; [apply Hb1; lia|rewrite Hslots1; apply Hslots; lia].
Qed.

Lemma zseq_succ n : (fun i => i + 1) <$> zseq n = Z.of_nat <$> seq 1 n.
Proof.
  unfold zseq. rewrite <- list_fmap_compose.
  rewrite <- (fmap_S_seq 0 n), <- list_fmap_compose.
  apply list_fmap_ext. intros _ k _. cbn. lia.
Qed.

Lemma cuckoopath_search_normal hp (p : list CuckooRecord) i1 i2 t :
  params_ok -> hashpower t = hp -> 0 <= hp < 64 ->
  length p = Z.to_nat MAX_BFS_PATH_LEN -> 0 <= i1 < 2 ^ hp -> 0 <= i2 < 2 ^ hp ->
  exists d p' t',
    cuckoopath_search normal_mode hp p i1 i2 t = (Ret (d, p'), t') /\ migr t t' /\
    length p' = Z.to_nat MAX_BFS_PATH_LEN /\
    (d = -1 \/
     (0 <= d < MAX_BFS_PATH_LEN /\ path_ok hp p' d /\
      (cr_bucket (path_at p' 0) = i1 \/ cr_bucket (path_at p' 0) = i2))).
Proof.
  intros Hpar Ht Hhp Hlen Hi1 Hi2. pose proof Hpar as (Hpos & _).
  unfold cuckoopath_search.
  destruct (slot_search_normal hp i1 i2 t Hpar Ht) as (x & t0 & Hrun & Hm0 & Hdx).
  unfold bind at 1. rewrite Hrun.
  destruct (depth x =? -1) eqn:Hneg.
  - exists (-1), p, t0. split; [reflexivity|]. split; [exact Hm0|]. split; [exact Hlen|].
    left. reflexivity.
  - apply Z.eqb_neq in Hneg. destruct Hdx as [Hdx|Hdx]; [lia|].
    pose proof (decode_slots_spec Hpos (Z.to_nat (depth x + 1)) (depth x) (pathcode x) p
                  ltac:(lia) ltac:(rewrite Hlen; lia)) as (Hl1 & Hs1 & _).
    destruct (decode_slots (Z.to_nat (depth x + 1)) (depth x) (pathcode x) p)
      as [code p1]. cbn [snd] in Hl1, Hs1.
    set (first_bucket := if code =? 0 then i1 else i2).
    assert (Hfb : 0 <= first_bucket < 2 ^ hp /\ (first_bucket = i1 \/ first_bucket = i2)).
    { unfold first_bucket. destruct (code =? 0); auto. }
    set (p2 := path_set_bucket p1 0 first_bucket).
    assert (Hl2 : length p2 = length p) by (unfold p2, path_set_bucket; rewrite length_alter; exact Hl1).
    assert (Hs2 : forall k, cr_slot (path_at p2 k) = cr_slot (path_at p1 k)).
    { intros k. unfold p2, path_set_bucket. apply path_at_alter_field. reflexivity. }
    assert (Hb2 : cr_bucket (path_at p2 0) = first_bucket).
    { unfold p2, path_set_bucket.
      rewrite path_at_alter_eq; [reflexivity|lia|rewrite Hl1, Hlen; unfold MAX_BFS_PATH_LEN; lia]. }
    assert (Ht0 : hashpower t0 = hp) by (rewrite (migr_hashpower _ _ Hm0); exact Ht).
    unfold bind at 1. rewrite (lock_one_normal hp _ t0 Ht0).
    unfold bind at 1, get_table at 1.
    set (t1 := lock_and_rehash (lock_ind first_bucket) t0).
    assert (Hm1 : migr t t1).
    { eapply migr_trans; [exact Hm0|apply migr_one]. }
    destruct (slot_at (get_bucket t1 first_bucket) (cr_slot (path_at p2 0))) as [s|].
    + set (p3 := path_set_hv p2 0 (hashed_key (s_key s))).
      rewrite zseq_succ.
      destruct (fill_path_spec hp (depth x) (Z.to_nat (depth x)) Hhp 1%nat p3 t1)
        as (d & p' & t' & Hfill & Hm & Hl & Hd & Hok & H0).
      { unfold t1. rewrite lock_and_rehash_hashpower. exact Ht0. }
      { lia. }
      { lia. }
      { unfold p3, path_set_hv. rewrite length_alter, Hl2, Hlen. lia. }
      { intros k Hk. unfold p3, path_set_hv.
        rewrite (path_at_alter_field cr_slot) by reflexivity. rewrite Hs2. auto. }
      { intros k Hk. assert (k = 0) as -> by lia. unfold p3, path_set_hv.
        rewrite (path_at_alter_field cr_bucket) by reflexivity. rewrite Hb2. tauto. }
      exists d, p', t'. split; [exact Hfill|].
      split; [eapply migr_trans; [exact Hm1|exact Hm]|].
      split; [rewrite Hl; unfold p3, path_set_hv; rewrite length_alter, Hl2; exact Hlen|].
      right. split; [lia|]. split; [exact Hok|].
      rewrite H0. unfold p3, path_set_hv.
      rewrite (path_at_alter_field cr_bucket) by reflexivity. rewrite Hb2. tauto.
    + exists 0, p2, t1. split; [reflexivity|]. split; [exact Hm1|].
      split; [rewrite Hl2; exact Hlen|]. right.
      split; [unfold MAX_BFS_PATH_LEN; lia|]. split; [|rewrite Hb2; tauto].
      intros k Hk. assert (k = 0) as -> by lia.
      split; [rewrite Hb2; tauto|rewrite Hs2; apply Hs1; lia].
Qed.

End PathDecode.

(** ** Moving the pairs of a cuckoo path *)

Section PathMove.
Context {params : Params}.

Lemma good_migr t t' : params_ok -> good t -> migr t t' -> good t' /\ keeps t t'.
Proof.
  intros Hpar [Hwf Hlazy] Hm.
  destruct (migr_spec t t' Hpar Hm Hwf Hlazy) as (Hwf' & Hlazy' & Hk).
  split; [split; assumption|exact Hk].
Qed.

Lemma keeps_hashpower t t' : keeps t t' -> hashpower t' = hashpower t.
Proof. intros (H & _). exact H. Qed.

Lemma keeps_migrated t t' l : keeps t t' -> migrated t l -> migrated t' l.
Proof. intros (_ & _ & _ & _ & _ & _ & H). apply H. Qed.

Lemma cuckoopath_move_loop_spec hp (path : list CuckooRecord) d :
  params_ok ->
  forall b t,
  good t -> hashpower t = hp -> path_ok hp path (Z.of_nat d) ->
  exists moved b' t',
    cuckoopath_move_loop normal_mode hp path d b t = (Ret (moved, b'), t') /\
    good t' /\ keeps t t' /\ tb_i1 b' = tb_i1 b /\ tb_i2 b' = tb_i2 b /\
    (moved = true -> (1 <= d)%nat ->
     cell t' (cr_bucket (path_at path 0)) (cr_slot (path_at path 0)) = None /\
     held b' /\ stripes_migrated t' (tb_i1 b) (tb_i2 b)).
Proof.
  intros Hpar. induction d as [|d IH]; intros b t Hgood Hhp Hok.
  - exists true, b, t. split; [reflexivity|]. split; [exact Hgood|].
    split; [apply keeps_refl|]. split; [reflexivity|]. split; [reflexivity|].
    intros _ Hd. lia.
  - cbn [cuckoopath_move_loop].
    set (from_ := path_at path (Z.of_nat d)).
    set (to_ := path_at path (Z.of_nat (S d))).
    pose proof (Hok (Z.of_nat d) ltac:(lia)) as Hfrom. fold from_ in Hfrom.
    pose proof (Hok (Z.of_nat (S d)) ltac:(lia)) as Hto. fold to_ in Hto.
    (* the stripes taken before the move *)
    assert (Hlock : exists twob t1,
               (if Nat.eqb (S d) 1
                then let* r := lock_three normal_mode hp
                                 (tb_i1 b, tb_i2 b, cr_bucket to_) in ret (fst r)
                else lock_two normal_mode hp (cr_bucket from_) (cr_bucket to_)) t
               = (Ret twob, t1) /\
               good t1 /\ keeps t t1 /\ migrated t1 (lock_ind (cr_bucket to_)) /\
               (d = 0%nat -> tb_i1 twob = tb_i1 b /\ tb_i2 twob = tb_i2 b /\ held twob /\
                             stripes_migrated t1 (tb_i1 b) (tb_i2 b))).
    { destruct d as [|d'].
      - cbn [Nat.eqb].
        destruct (lock_three_normal hp (tb_i1 b) (tb_i2 b) (cr_bucket to_) t Hhp)
          as (b3 & e & ls & Hrun & H1 & H2 & Hl1 & Hin1 & Hin2 & Hin3).
        destruct (good_migr t _ Hpar Hgood (take_stripes_migr ls t)) as (Hg1 & Hk1).
        destruct Hgood as [Hwf Hlazy].
        exists b3, (take_stripes ls t). unfold bind. rewrite Hrun. cbn [fst ret].
        split; [reflexivity|]. split; [exact Hg1|]. split; [exact Hk1|].
        split; [apply take_stripes_migrated; auto|].
        intros _. split; [exact H1|]. split; [exact H2|]. split.
        + exists (lock_ind (tb_i1 b)). rewrite H1. auto.
        + split; apply take_stripes_migrated; auto.
      - cbn [Nat.eqb].
        destruct (lock_two_normal hp (cr_bucket from_) (cr_bucket to_) t Hhp)
          as (b2 & t1 & Hrun & Hm & _ & _ & _ & Hmig).
        destruct (good_migr t t1 Hpar Hgood Hm) as (Hg1 & Hk1).
        destruct Hgood as [Hwf Hlazy]. destruct (Hmig Hpar Hwf Hlazy) as [_ Hmto].
        exists b2, t1. split; [exact Hrun|]. split; [exact Hg1|]. split; [exact Hk1|].
        split; [exact Hmto|]. intros Hd. discriminate. }
    destruct Hlock as (twob & t1 & Hrun & Hg1 & Hk1 & Hmto & Hfirst).
    unfold bind at 1. rewrite Hrun. unfold bind at 1, get_table at 1.
    assert (Hhp1 : hashpower t1 = hp) by (rewrite (keeps_hashpower _ _ Hk1); exact Hhp).
    destruct (slot_at (get_bucket t1 (cr_bucket from_)) (cr_slot from_)) as [s|] eqn:Hs.
    2:{ exists false, b, t1. split; [reflexivity|]. split; [exact Hg1|]. split; [exact Hk1|].
        split; [reflexivity|]. split; [reflexivity|]. intros Hm. discriminate. }
    destruct (occupied (get_bucket t1 (cr_bucket to_)) (cr_slot to_) ||
              negb (hashed_key_only_hash (s_key s) =? hv_hash (cr_hv from_))) eqn:Hbad.
    { exists false, b, t1. split; [reflexivity|]. split; [exact Hg1|]. split; [exact Hk1|].
      split; [reflexivity|]. split; [reflexivity|]. intros Hm. discriminate. }
    apply orb_false_iff in Hbad. destruct Hbad as [Hocc _].
    apply occupied_false_iff in Hocc.
    unfold bind at 1, modify at 1. unfold bind at 1, modify at 1.
    rewrite <- Hhp1 in Hfrom, Hto.
    destruct (move_cell t1 (cr_bucket from_) (cr_slot from_) (cr_bucket to_) (cr_slot to_) s
                Hg1 Hfrom Hto Hs Hocc Hmto) as (Hg2 & Hk2 & Hcell).
    set (t2 := eraseKV (cr_bucket from_) (cr_slot from_)
                 (setKV (cr_bucket to_) (cr_slot to_) (s_partial s) (s_key s) (s_mapped s) t1))
      in *.
    assert (Hhp2 : hashpower t2 = hp) by (rewrite (keeps_hashpower _ _ Hk2); exact Hhp1).
    destruct (IH (if Nat.eqb (S d) 1 then twob else b) t2 Hg2 Hhp2)
      as (moved & b' & t' & Hrec & Hg' & Hk' & H1 & H2 & Hpost).
    { intros k Hk. apply Hok. lia. }
    exists moved, b', t'. split; [exact Hrec|]. split; [exact Hg'|].
    split; [eapply keeps_trans; [exact Hk1|]; eapply keeps_trans; [exact Hk2|exact Hk']|].
    destruct d as [|d'].
    + (* the last move: the loop returns at once *)
      destruct (Hfirst eq_refl) as (Hi1 & Hi2 & Hheld & Hmig).
      cbn [Nat.eqb] in *. cbn [cuckoopath_move_loop ret] in Hrec.
      inversion Hrec; subst moved b' t'.
      split; [exact Hi1|]. split; [exact Hi2|]. intros _ _.
      split.
      * unfold from_. change (Z.of_nat 0) with 0. rewrite Hcell.
        fold from_. destruct (decide _) as [_|Hn]; [reflexivity|]. destruct Hn. auto.
      * split; [exact Hheld|].
        destruct Hmig as [Hm1 Hm2].
        split; apply (keeps_migrated t1 t2 _ Hk2); assumption.
    + cbn [Nat.eqb] in *. split; [exact H1|]. split; [exact H2|]. intros Hmv _.
      apply Hpost; [exact Hmv|lia].
Qed.

Lemma cuckoopath_move_spec hp (path : list CuckooRecord) d b t :
  params_ok -> good t -> hashpower t = hp -> 0 <= d -> path_ok hp path d ->
  exists moved b' t',
    cuckoopath_move normal_mode hp path d b t = (Ret (moved, b'), t') /\
    good t' /\ keeps t t' /\ tb_i1 b' = tb_i1 b /\ tb_i2 b' = tb_i2 b /\
    (moved = true ->
     cell t' (cr_bucket (path_at path 0)) (cr_slot (path_at path 0)) = None /\
     held b' /\ stripes_migrated t' (tb_i1 b) (tb_i2 b)).
Proof.
  intros Hpar Hgood Hhp Hd Hok. unfold cuckoopath_move.
  destruct (d =? 0) eqn:Hd0.
  - destruct (lock_two_normal hp (tb_i1 b) (tb_i2 b) t Hhp)
      as (b2 & t1 & Hrun & Hm & H1 & H2 & Hheld & Hmig).
    destruct (good_migr t t1 Hpar Hgood Hm) as (Hg1 & Hk1).
    unfold bind at 1. rewrite Hrun. unfold bind at 1, get_table at 1.
    destruct (occupied (get_bucket t1 (cr_bucket (path_at path 0)))
                       (cr_slot (path_at path 0))) eqn:Hocc; cbn [negb].
    + exists false, (tb_unlock b2), t1. split; [reflexivity|]. split; [exact Hg1|].
      split; [exact Hk1|]. cbn [tb_unlock tb_i1 tb_i2].
      split; [exact H1|]. split; [exact H2|]. discriminate.
    + exists true, b2, t1. split; [reflexivity|]. split; [exact Hg1|].
      split; [exact Hk1|]. split; [exact H1|]. split; [exact H2|]. intros _.
      split; [apply occupied_false_iff; exact Hocc|].
      split; [unfold held; rewrite H1, H2; exact Hheld|].
      destruct Hgood as [Hwf Hlazy]. apply Hmig; assumption.
  - apply Z.eqb_neq in Hd0.
    destruct (cuckoopath_move_loop_spec hp path (Z.to_nat d) Hpar b t Hgood Hhp)
      as (moved & b' & t' & Hrun & Hg' & Hk' & H1 & H2 & Hpost).
    { rewrite Z2Nat.id by lia. exact Hok. }
    exists moved, b', t'. split; [exact Hrun|]. split; [exact Hg'|]. split; [exact Hk'|].
    split; [exact H1|]. split; [exact H2|]. intros Hmv. apply Hpost; [exact Hmv|lia].
Qed.

End PathMove.

(** ** Finding the slot of an insert *)

Section InsertSite.
Context {params : Params}.

Lemma try_find_insert_loop_read (b : bucket) acc p key slots :
  try_read_from_bucket_loop b p key slots
  = if fst (try_find_insert_bucket_loop b acc p key slots) then -1
    else snd (try_find_insert_bucket_loop b acc p key slots).
Proof.
  revert acc. induction slots as [|i rest IH]; intros acc;
    cbn [try_read_from_bucket_loop try_find_insert_bucket_loop].
  - reflexivity.
  - destruct (slot_at b i) as [sl|]; [|apply IH].
    destruct (negb is_simple && negb (p =? s_partial sl)); [apply IH|].
    destruct (key_eq (s_key sl) key); [reflexivity|apply IH].
Qed.

Lemma try_find_insert_bucket_read_true (b : bucket) p key r :
  try_find_insert_bucket b p key = (true, r) ->
  try_read_from_bucket b p key = -1 /\
  (r = -1 \/ (0 <= r < slot_per_bucket /\ slot_at b r = None)).
Proof.
  intros H. split.
  - unfold try_read_from_bucket. rewrite (try_find_insert_loop_read b (-1)).
    unfold try_find_insert_bucket in H. rewrite H. reflexivity.
  - destruct (try_find_insert_bucket_true b p key r H) as [[-> _]|(Hr & Hocc & _)]; [auto|].
    right. split; [exact Hr|]. apply occupied_false_iff. exact Hocc.
Qed.

Lemma try_find_insert_bucket_read_false (b : bucket) p key r :
  try_find_insert_bucket b p key = (false, r) ->
  try_read_from_bucket b p key = r /\ r <> -1.
Proof.
  intros H. split.
  - unfold try_read_from_bucket. rewrite (try_find_insert_loop_read b (-1)).
    unfold try_find_insert_bucket in H. rewrite H. reflexivity.
  - unfold try_find_insert_bucket in H.
    destruct (try_find_insert_bucket_loop_false _ _ _ _ _ _ H) as [Hin _].
    apply elem_of_zseq in Hin. lia.
Qed.

Lemma run_cuckoo_loop_spec hp n :
  params_ok -> 0 <= hp < 64 ->
  forall (path : list CuckooRecord) b ib islot t,
  good t -> hashpower t = hp -> length path = Z.to_nat MAX_BFS_PATH_LEN ->
  buckets_in hp b ->
  wp (run_cuckoo_loop normal_mode n hp path b ib islot)
     (fun o t' =>
        match o with
        | Ret (done, b', ib', islot') =>
            good t' /\ keeps t t' /\ tb_i1 b' = tb_i1 b /\ tb_i2 b' = tb_i2 b /\
            (done = true ->
             in_table hp ib' islot' /\ (ib' = tb_i1 b \/ ib' = tb_i2 b) /\
             cell t' ib' islot' = None /\ held b' /\
             stripes_migrated t' (tb_i1 b) (tb_i2 b))
        | Throw _ => False
        | OutOfFuel => True
        end) t.
Proof.
  intros Hpar Hhp. induction n as [|n IH]; intros path b ib islot t Hgood Ht Hlen Hb.
  - exact I.
  - cbn [run_cuckoo_loop].
    destruct Hb as [Hi1 Hi2].
    destruct (cuckoopath_search_normal hp path (tb_i1 b) (tb_i2 b) t Hpar Ht Hhp Hlen Hi1 Hi2)
      as (d & path' & t1 & Hrun & Hm & Hlen' & Hd).
    apply wp_bind. eapply wp_eq; [exact Hrun|]. cbv beta iota.
    destruct (good_migr t t1 Hpar Hgood Hm) as (Hg1 & Hk1).
    destruct (d <? 0) eqn:Hneg.
    + apply wp_ret. split; [exact Hg1|]. split; [exact Hk1|].
      split; [reflexivity|]. split; [reflexivity|]. discriminate.
    + apply Z.ltb_ge in Hneg. destruct Hd as [Hd|(Hd & Hok & H0)]; [lia|].
      assert (Ht1 : hashpower t1 = hp) by (rewrite (keeps_hashpower _ _ Hk1); exact Ht).
      destruct (cuckoopath_move_spec hp path' d b t1 Hpar Hg1 Ht1 ltac:(lia) Hok)
        as (moved & b' & t2 & Hmove & Hg2 & Hk2 & H1 & H2 & Hpost).
      apply wp_bind. eapply wp_eq; [exact Hmove|]. cbv beta iota. destruct moved.
      * apply wp_ret. split; [exact Hg2|].
        split; [eapply keeps_trans; eauto|]. split; [exact H1|]. split; [exact H2|].
        intros _. destruct (Hpost eq_refl) as (Hcell & Hheld & Hmig).
        split; [apply Hok; lia|]. split; [exact H0|]. auto.
      * assert (Ht2 : hashpower t2 = hp) by (rewrite (keeps_hashpower _ _ Hk2); exact Ht1).
        eapply wp_mono.
        { apply (IH path' b' ib islot t2 Hg2 Ht2 Hlen').
          unfold buckets_in. rewrite H1, H2. split; assumption. }
        intros [[[[done b''] ib'] islot']|e|] t3; [|auto|auto].
        intros (Hg3 & Hk3 & H1' & H2' & Hpost').
        split; [exact Hg3|].
        split; [eapply keeps_trans; [exact Hk1|]; eapply keeps_trans; eauto|].
        split; [congruence|]. split; [congruence|].
        rewrite H1, H2 in Hpost'. exact Hpost'.
Qed.

Lemma wp_catch {A} (m h : M A) (Q : outcome A -> table -> Prop) t :
  wp m (fun o t' => match o with
                    | Throw _ => False
                    | _ => Q o t'
                    end) t ->
  wp (catch_hashpower_changed m h) Q t.
Proof.
  unfold wp, catch_hashpower_changed. destruct (m t) as [[a|e|] t']; cbn [fst snd]; tauto.
Qed.

Lemma run_cuckoo_spec fuel b ib islot t :
  params_ok -> good t -> buckets_in (hashpower t) b ->
  wp (run_cuckoo normal_mode fuel b ib islot)
     (fun o t' =>
        match o with
        | Ret (st, b', ib', islot') =>
            good t' /\ keeps t t' /\ tb_i1 b' = tb_i1 b /\ tb_i2 b' = tb_i2 b /\
            (st = ok \/ st = failure) /\
            (st = ok ->
             in_table (hashpower t) ib' islot' /\ (ib' = tb_i1 b \/ ib' = tb_i2 b) /\
             cell t' ib' islot' = None /\ held b' /\
             stripes_migrated t' (tb_i1 b) (tb_i2 b))
        | Throw _ => False
        | OutOfFuel => True
        end) t.
Proof.
  intros Hpar Hgood Hb. pose proof Hgood as [Hwf _].
  pose proof (params_ok_hashpower Hpar) as Hmax.
  assert (Hhp : 0 <= hashpower t < 64) by (destruct Hwf as (H & _); lia).
  unfold run_cuckoo. apply wp_bind, wp_get_table. apply wp_catch. apply wp_bind.
  eapply wp_mono.
  { apply (run_cuckoo_loop_spec (hashpower t) fuel Hpar Hhp cuckoo_path_new (tb_unlock b)
             ib islot t Hgood eq_refl).
    - unfold cuckoo_path_new. rewrite length_replicate. reflexivity.
    - exact Hb. }
  intros [[[[done b'] ib'] islot']|e|] t'; [|auto|auto].
  intros (Hg & Hk & H1 & H2 & Hpost). apply wp_ret.
  split; [exact Hg|]. split; [exact Hk|]. split; [exact H1|]. split; [exact H2|].
  destruct done.
  - split; [auto|]. intros _. apply Hpost. reflexivity.
  - split; [auto|]. discriminate.
Qed.


Lemma cuckoo_find_first key p i1 i2 t :
  try_read_from_bucket (get_bucket t i1) p key <> -1 ->
  cuckoo_find key p i1 i2 t = mk_pos i1 (try_read_from_bucket (get_bucket t i1) p key) ok.
Proof.
  intros H. unfold cuckoo_find. apply Z.eqb_neq in H. rewrite H. reflexivity.
Qed.

Lemma cuckoo_find_second key p i1 i2 t :
  try_read_from_bucket (get_bucket t i1) p key = -1 ->
  try_read_from_bucket (get_bucket t i2) p key <> -1 ->
  cuckoo_find key p i1 i2 t = mk_pos i2 (try_read_from_bucket (get_bucket t i2) p key) ok.
Proof.
  intros H1 H2. unfold cuckoo_find. rewrite H1. apply Z.eqb_neq in H2. rewrite H2.
  reflexivity.
Qed.

Lemma cuckoo_find_status key p i1 i2 t :
  (pos_status (cuckoo_find key p i1 i2 t) = ok /\
   cuckoo_find key p i1 i2 t
   = mk_pos (pos_index (cuckoo_find key p i1 i2 t)) (pos_slot (cuckoo_find key p i1 i2 t)) ok)
  \/
  (pos_status (cuckoo_find key p i1 i2 t) = failure_key_not_found /\
   try_read_from_bucket (get_bucket t i1) p key = -1 /\
   try_read_from_bucket (get_bucket t i2) p key = -1).
Proof.
  unfold cuckoo_find.
  destruct (try_read_from_bucket (get_bucket t i1) p key =? -1) eqn:H1; cbn [negb].
  - destruct (try_read_from_bucket (get_bucket t i2) p key =? -1) eqn:H2; cbn [negb].
    + right. apply Z.eqb_eq in H1, H2. auto.
    + left. split; reflexivity.
  - left. split; reflexivity.
Qed.

Lemma cuckoo_insert_spec fuel hv b key t :
  params_ok -> good t -> buckets_in (hashpower t) b -> held b ->
  stripes_migrated t (tb_i1 b) (tb_i2 b) ->
  wp (cuckoo_insert normal_mode fuel hv b key)
     (fun o t' =>
        match o with
        | Ret (pos, b') =>
            good t' /\ keeps t t' /\ tb_i1 b' = tb_i1 b /\ tb_i2 b' = tb_i2 b /\
            site hv key t' b' pos
        | Throw _ => False
        | OutOfFuel => True
        end) t.
Proof.
  intros Hpar Hgood Hb Hheld Hmig. unfold cuckoo_insert.
  apply wp_bind, wp_get_table.
  destruct (try_find_insert_bucket (get_bucket t (tb_i1 b)) (hv_partial hv) key)
    as [r1 res1] eqn:H1.
  destruct r1; cbn [negb].
  2:{ apply wp_ret. split; [exact Hgood|]. split; [apply keeps_refl|].
      split; [reflexivity|]. split; [reflexivity|].
      destruct (try_find_insert_bucket_read_false _ _ _ _ H1) as [Hr Hne].
      unfold site, duplicate_site. cbn [pos_status pos_index pos_slot].
      split; [|auto]. rewrite cuckoo_find_first by (rewrite Hr; exact Hne).
      rewrite Hr. reflexivity. }
  destruct (try_find_insert_bucket_read_true _ _ _ _ H1) as [Hr1 Hres1].
  destruct (try_find_insert_bucket (get_bucket t (tb_i2 b)) (hv_partial hv) key)
    as [r2 res2] eqn:H2.
  destruct r2; cbn [negb].
  2:{ apply wp_ret. split; [exact Hgood|]. split; [apply keeps_refl|].
      split; [reflexivity|]. split; [reflexivity|].
      destruct (try_find_insert_bucket_read_false _ _ _ _ H2) as [Hr Hne].
      unfold site, duplicate_site. cbn [pos_status pos_index pos_slot].
      split; [|auto]. rewrite cuckoo_find_second by (rewrite ?Hr; assumption).
      rewrite Hr. reflexivity. }
  destruct (try_find_insert_bucket_read_true _ _ _ _ H2) as [Hr2 Hres2].
  destruct Hb as [Hi1 Hi2].
  destruct (res1 =? -1) eqn:E1; cbn [negb].
  2:{ apply Z.eqb_neq in E1. destruct Hres1 as [?|[Hrange Hnone]]; [lia|].
      apply wp_ret. split; [exact Hgood|]. split; [apply keeps_refl|].
      split; [reflexivity|]. split; [reflexivity|].
      unfold site, insert_site, in_table. cbn [pos_status pos_index pos_slot].
      repeat split; try tauto; try lia; try assumption; destruct Hmig; assumption. }
  destruct (res2 =? -1) eqn:E2; cbn [negb].
  2:{ apply Z.eqb_neq in E2. destruct Hres2 as [?|[Hrange Hnone]]; [lia|].
      apply wp_ret. split; [exact Hgood|]. split; [apply keeps_refl|].
      split; [reflexivity|]. split; [reflexivity|].
      unfold site, insert_site, in_table. cbn [pos_status pos_index pos_slot].
      repeat split; try tauto; try lia; try assumption; destruct Hmig; assumption. }
  apply wp_bind. eapply wp_mono; [apply (run_cuckoo_spec fuel b 0 0 t Hpar Hgood)|].
  { split; assumption. }
  intros [[[[st b'] ib'] islot']|e|] t'; [|auto|auto].
  intros (Hg & Hk & Hb1 & Hb2 & Hst & Hpost).
  destruct Hst as [->| ->].
  - destruct (Hpost eq_refl) as (Hin & Hib & Hcell & Hheld' & Hmig').
    apply wp_bind, wp_get_table.
    destruct (cuckoo_find_status key (hv_partial hv) (tb_i1 b') (tb_i2 b') t')
      as [[Hs Heta]|[Hs [Hn1 Hn2]]]; rewrite Hs; cbn [status_eqb].
    + apply wp_ret. split; [exact Hg|]. split; [exact Hk|].
      split; [exact Hb1|]. split; [exact Hb2|].
      unfold site, duplicate_site. cbn [pos_status pos_index pos_slot].
      split; [exact Heta|]. rewrite Hb1, Hb2. auto.
    + apply wp_ret. split; [exact Hg|]. split; [exact Hk|].
      split; [exact Hb1|]. split; [exact Hb2|].
      unfold site, insert_site. cbn [pos_status pos_index pos_slot].
      rewrite (keeps_hashpower _ _ Hk). rewrite Hb1, Hb2 in *. auto 10.
  - apply wp_ret. split; [exact Hg|]. split; [exact Hk|].
    split; [exact Hb1|]. split; [exact Hb2|]. exact I.
Qed.

End InsertSite.

(** ** Doubling the table *)

Section Doubling.
Context {params : Params}.

Lemma same_policy_refl t : same_policy t t.
Proof. unfold same_policy. auto. Qed.

Lemma carries_refl t : carries t t.
Proof. split; [apply same_policy_refl|]. split; [reflexivity|]. split; reflexivity. Qed.

Lemma carries_trans t1 t2 t3 : carries t1 t2 -> carries t2 t3 -> carries t1 t3.
Proof.
  intros (Hp1 & Hc1 & Ho1 & Hs1) (Hp2 & Hc2 & Ho2 & Hs2).
  split; [eapply same_policy_trans; eauto|]. split; [congruence|]. split; [congruence|].
  intros x. rewrite Hs2. apply Hs1.
Qed.

Lemma keeps_carries t t' : keeps t t' -> carries t t'.
Proof. intros (_ & Hp & _ & Hc & Ho & Hs & _). split; [|split; [|split]]; assumption. Qed.

Lemma rehash_with_workers_eq t :
  rehash_with_workers t = take_stripes (zseq (length (locks_ t))) t.
Proof. reflexivity. Qed.

Lemma rehash_all_spec t :
  params_ok -> good t ->
  good (rehash_all (hashpower t) t) /\ keeps t (rehash_all (hashpower t) t) /\
  forall l, migrated (rehash_all (hashpower t) t) l.
Proof.
  intros Hpar Hgood. unfold rehash_all.
  destruct (hashpower t >? kMaxNumLocksPow) eqn:Hbig.
  - rewrite rehash_with_workers_eq.
    destruct (good_migr t _ Hpar Hgood (take_stripes_migr (zseq (length (locks_ t))) t))
      as (Hg & Hk).
    split; [exact Hg|]. split; [exact Hk|]. intros l.
    destruct Hgood as [Hwf Hlazy].
    destruct (decide (0 <= l < Z.of_nat (length (locks_ t)))) as [Hin|Hout].
    + apply take_stripes_migrated; auto. left. apply elem_of_zseq. exact Hin.
    + apply migrated_out_of_range.
      destruct Hk as (_ & _ & Hlen & _). rewrite Hlen. lia.
  - split; [exact Hgood|]. split; [apply keeps_refl|].
    destruct Hgood as [(_ & _ & _ & _ & Hmig) _]. apply Hmig.
    rewrite Z.gtb_ltb in Hbig. apply Z.ltb_ge in Hbig. exact Hbig.
Qed.

Lemma occupied_in_empty_bucket : occupied_in empty_bucket = 0.
Proof.
  unfold occupied_in, empty_bucket. rewrite zsum_replicate. cbn [slot_count]. lia.
Qed.

Lemma cell_app_old t t' X i s :
  buckets_ t' = buckets_ t ++ X -> (Z.to_nat i < length (buckets_ t))%nat ->
  cell t' i s = cell t i s.
Proof.
  intros Hb Hlt. unfold cell, get_bucket. rewrite Hb.
  rewrite lookup_app_l by exact Hlt. reflexivity.
Qed.

Lemma cell_app_new t t' n i s :
  buckets_ t' = buckets_ t ++ replicate n empty_bucket ->
  (i < 0 \/ (length (buckets_ t) <= Z.to_nat i)%nat) ->
  cell t' i s = None.
Proof.
  intros Hb Hge. unfold cell, get_bucket.
  destruct (i <? 0) eqn:Hneg; [apply slot_at_empty_bucket|].
  apply Z.ltb_ge in Hneg. rewrite Hb.
  rewrite lookup_app_r by lia.
  destruct (replicate n empty_bucket !! _) as [b0|] eqn:Hl; cbn [default].
  - apply lookup_replicate in Hl. destruct Hl as [-> _]. apply slot_at_empty_bucket.
  - apply slot_at_empty_bucket.
Qed.

Lemma occupied_slots_app t t' n :
  buckets_ t' = buckets_ t ++ replicate n empty_bucket ->
  occupied_slots t' = occupied_slots t.
Proof.
  intros Hb. unfold occupied_slots. rewrite Hb, zsum_app, zsum_replicate.
  rewrite occupied_in_empty_bucket. lia.
Qed.

Lemma stored_app m t t' n :
  shape m t -> buckets_ t' = buckets_ t ++ replicate n empty_bucket ->
  forall x, stored t' x <-> stored t x.
Proof.
  intros Hshape Hb x. pose proof Hshape as [Hlen _]. split; intros (i & s & Hx); exists i, s.
  - destruct (decide (0 <= i /\ (Z.to_nat i < length (buckets_ t))%nat)) as [[Hi Hlt]|Hout].
    + rewrite <- (cell_app_old t t' _ i s Hb Hlt). exact Hx.
    + rewrite (cell_app_new t t' n i s Hb) in Hx by lia. discriminate.
  - destruct (decide (0 <= i /\ (Z.to_nat i < length (buckets_ t))%nat)) as [[Hi Hlt]|Hout].
    + rewrite (cell_app_old t t' _ i s Hb Hlt). exact Hx.
    + rewrite (cell_None_out_of_range m t i s Hshape) in Hx by lia. discriminate.
Qed.

Lemma shape_app m t t' n :
  shape m t -> buckets_ t' = buckets_ t ++ replicate n empty_bucket ->
  shape (m + n) t'.
Proof.
  intros [Hlen Hall] Hb. split.
  - rewrite Hb, length_app, length_replicate, Hlen. reflexivity.
  - rewrite Hb. apply Forall_app. split; [exact Hall|].
    apply Forall_replicate. unfold empty_bucket. apply length_replicate.
Qed.

(** An update of a stripe that keeps the flag keeps every flag. *)
Lemma migrated_update_lock_keep l f t l' :
  (forall lk, is_migrated (f lk) = is_migrated lk) ->
  (migrated (update_lock l f t) l' <-> migrated t l').
Proof.
  intros Hf. unfold migrated, get_lock, update_lock.
  destruct (l <? 0); [reflexivity|]. cbn [locks_ set_locks].
  destruct (l' <? 0); [reflexivity|].
  destruct (decide (Z.to_nat l' = Z.to_nat l)) as [->|Hne].
  - rewrite list_lookup_alter_eq. destruct (locks_ t !! Z.to_nat l); cbn; [rewrite Hf|]; reflexivity.
  - rewrite list_lookup_alter_ne by congruence. reflexivity.
Qed.


Lemma counters_sum_incr l t :
  0 <= l -> (Z.to_nat l < length (locks_ t))%nat ->
  counters_sum (incr_elem_counter l t) = counters_sum t + 1.
Proof.
  intros Hl Hlt. unfold incr_elem_counter.
  rewrite counters_sum_update_lock by assumption. cbn [elem_counter]. lia.
Qed.

Lemma counters_sum_decr l t :
  0 <= l -> (Z.to_nat l < length (locks_ t))%nat ->
  counters_sum (decr_elem_counter l t) = counters_sum t - 1.
Proof.
  intros Hl Hlt. unfold decr_elem_counter.
  rewrite counters_sum_update_lock by assumption. cbn [elem_counter]. lia.
Qed.

(** The eager migration of [cuckoo_fast_double], over the buckets of a
    sorted list. *)
Lemma fast_double_fold hp :
  0 <= hp < 16 ->
  forall l, StronglySorted Z.lt l -> (forall i, i ∈ l -> 0 <= i < 2 ^ hp) ->
  forall t,
  shape (Z.to_nat (2 ^ (hp + 1))) t -> hashpower t = hp + 1 ->
  length (locks_ t) = Z.to_nat (2 ^ (hp + 1)) -> (forall k, migrated t k) ->
  (forall i s, i ∈ l -> cell t (2 ^ hp + i) s = None) ->
  let t' := fold_left
              (fun t old_bucket_ind =>
                 move_bucket hp old_bucket_ind old_bucket_ind
                   (hashsize hp + old_bucket_ind)
                   (fun old_bucket_slot t =>
                      incr_elem_counter (hashsize hp + old_bucket_ind)
                        (decr_elem_counter old_bucket_ind
                           (eraseKV old_bucket_ind old_bucket_slot t)))
                   t) l t in
  shape (Z.to_nat (2 ^ (hp + 1))) t' /\ hashpower t' = hp + 1 /\ same_policy t t' /\
  length (locks_ t') = length (locks_ t) /\ counters_sum t' = counters_sum t /\
  (forall k, migrated t' k) /\ occupied_slots t' = occupied_slots t /\
  (forall x, stored t' x <-> stored t x).
Proof.
  intros Hhp. rewrite (hashsize_small hp) by lia.
  assert (Hpow : 2 ^ (hp + 1) = 2 * 2 ^ hp) by (rewrite Z.pow_add_r by lia; lia).
  assert (Hpos : 0 < 2 ^ hp) by (apply Z.pow_pos_nonneg; lia).
  induction 1 as [|i rest Hsorted IH Hlt]; intros Hrange t Hshape Ht Hlocks Hmig Hempty.
  - cbn [fold_left]. split; [exact Hshape|]. split; [exact Ht|].
    split; [apply same_policy_refl|]. repeat split; auto.
  - cbn [fold_left]. rewrite Forall_forall in Hlt.
    pose proof (Hrange i ltac:(apply elem_of_cons; auto)) as Hi.
    set (after := fun old_bucket_slot t0 =>
                    incr_elem_counter (2 ^ hp + i)
                      (decr_elem_counter i (eraseKV i old_bucket_slot t0))).
    set (t1 := move_bucket hp i i (2 ^ hp + i) after t).
    (* the buckets *)
    destruct (move_bucket_loop_spec (Z.to_nat (2 ^ (hp + 1))) hp i (2 ^ hp + i) after
                ltac:(lia) ltac:(lia) ltac:(lia) ltac:(lia) ltac:(lia)) with
      (slots := zseq SLOT_PER_BUCKET) (k := 0) (t := t)
      as (Hshape1 & Hocc1 & Hst1 & Hframe1).
    { intros s t0. unfold after, incr_elem_counter, decr_elem_counter.
      destruct (update_lock_fields (2 ^ hp + i)
                  (fun lk => mk_seqlock (is_migrated lk) (elem_counter lk + 1))
                  (update_lock i (fun lk => mk_seqlock (is_migrated lk) (elem_counter lk - 1))
                     (eraseKV i s t0))) as (_ & -> & _).
      destruct (update_lock_fields i
                  (fun lk => mk_seqlock (is_migrated lk) (elem_counter lk - 1))
                  (eraseKV i s t0)) as (_ & -> & _).
      reflexivity. }
    { apply zseq_sorted. }
    { intros j Hj. apply elem_of_zseq in Hj. unfold slot_per_bucket. lia. }
    { lia. }
    { exact Hshape. }
    { intros s _. apply Hempty. apply elem_of_cons. auto. }
    fold (move_bucket hp i i (2 ^ hp + i) after t) in Hshape1, Hocc1, Hst1, Hframe1.
    fold t1 in Hshape1, Hocc1, Hst1, Hframe1.
    (* the stripes *)
    assert (HP : hashpower t1 = hp + 1 /\ same_policy t t1 /\
                 length (locks_ t1) = length (locks_ t) /\
                 counters_sum t1 = counters_sum t /\ (forall k, migrated t1 k)).
    { unfold t1, move_bucket.
      apply (move_bucket_loop_invariant
               (fun t0 => hashpower t0 = hp + 1 /\ same_policy t t0 /\
                          length (locks_ t0) = length (locks_ t) /\
                          counters_sum t0 = counters_sum t /\ (forall k, migrated t0 k))).
      - intros j s c t0 (H1 & H2 & H3 & H4 & H5).
        destruct (update_slot_fields j s c t0) as (E1 & E2 & E3).
        split; [congruence|]. split; [eapply same_policy_trans; eauto|].
        split; [congruence|]. split; [rewrite counters_sum_update_slot; exact H4|].
        intros k. apply migrated_update_slot. apply H5.
      - intros s t0 (H1 & H2 & H3 & H4 & H5). unfold after, eraseKV.
        set (t2 := update_slot i s None t0).
        assert (HP2 : hashpower t2 = hp + 1 /\ same_policy t t2 /\
                      length (locks_ t2) = length (locks_ t) /\
                      counters_sum t2 = counters_sum t /\ (forall k, migrated t2 k)).
        { destruct (update_slot_fields i s None t0) as (E1 & E2 & E3). fold t2 in E1, E2, E3.
          split; [congruence|]. split; [eapply same_policy_trans; eauto|].
          split; [congruence|].
          split; [unfold t2; rewrite counters_sum_update_slot; exact H4|].
          intros k. apply migrated_update_slot. apply H5. }
        clearbody t2. destruct HP2 as (H1' & H2' & H3' & H4' & H5').
        set (t3 := decr_elem_counter i t2).
        destruct (update_lock_fields i
                    (fun lk => mk_seqlock (is_migrated lk) (elem_counter lk - 1)) t2)
          as (E1 & E2 & E3). fold (decr_elem_counter i t2) in E1, E2, E3. fold t3 in E1, E2, E3.
        assert (Hl3 : length (locks_ t3) = length (locks_ t)).
        { unfold t3, decr_elem_counter. rewrite length_locks_update_lock. exact H3'. }
        destruct (update_lock_fields (2 ^ hp + i)
                    (fun lk => mk_seqlock (is_migrated lk) (elem_counter lk + 1)) t3)
          as (F1 & F2 & F3). fold (incr_elem_counter (2 ^ hp + i) t3) in F1, F2, F3.
        split; [congruence|].
        split; [eapply same_policy_trans; [exact H2'|];
                eapply same_policy_trans; [exact E3|exact F3]|].
        split; [unfold incr_elem_counter; rewrite length_locks_update_lock; exact Hl3|].
        split.
        + rewrite counters_sum_incr by (rewrite ?Hl3, ?Hlocks; lia).
          unfold t3. rewrite counters_sum_decr by (rewrite ?H3', ?Hlocks; lia). lia.
        + intros k. unfold incr_elem_counter. apply migrated_update_lock_keep; [reflexivity|].
          unfold t3, decr_elem_counter. apply migrated_update_lock_keep; [reflexivity|].
          apply H5'.
      - split; [exact Ht|]. split; [apply same_policy_refl|]. auto. }
    destruct HP as (Ht1 & Hpol1 & Hlen1 & Hc1 & Hmig1).
    destruct (IH ltac:(intros j Hj; apply Hrange, elem_of_cons; auto) t1 Hshape1 Ht1
                 ltac:(congruence) Hmig1)
      as (Hshape' & Ht' & Hpol' & Hlen' & Hc' & Hmig' & Hocc' & Hst').
    { intros j s Hj. pose proof (Hlt j Hj) as Hij.
      pose proof (Hrange j ltac:(apply elem_of_cons; auto)) as Hjr.
      rewrite Hframe1 by lia. apply Hempty. apply elem_of_cons. auto. }
    split; [exact Hshape'|]. split; [exact Ht'|].
    split; [eapply same_policy_trans; eauto|]. split; [congruence|].
    split; [congruence|]. split; [exact Hmig'|]. split; [congruence|].
    intros x. rewrite Hst'. apply Hst1.
Qed.


Lemma maybe_resize_locks_spec t :
  hashpower (maybe_resize_locks t) = hashpower t /\
  buckets_ (maybe_resize_locks t) = buckets_ t /\
  same_policy t (maybe_resize_locks t) /\
  locks_ (maybe_resize_locks t)
  = if hashpower t >=? kMaxNumLocksPow then locks_ t
    else locks_ t ++ replicate (length (locks_ t)) (mk_seqlock true 0).
Proof.
  unfold maybe_resize_locks. destruct (hashpower t >=? kMaxNumLocksPow).
  - split; [reflexivity|]. split; [reflexivity|]. split; [apply same_policy_refl|reflexivity].
  - split; [reflexivity|]. split; [reflexivity|]. split; [|reflexivity].
    unfold same_policy. auto.
Qed.

Lemma double_size_cases t :
  0 <= hashpower t < 63 ->
  (exists e, double_size t = (Throw e, t)) \/
  (hashpower t + 1 <= alloc_max_hashpower /\
   exists t', double_size t = (Ret tt, t') /\
              hashpower t' = hashpower t + 1 /\
              buckets_ t' = buckets_ t ++ replicate (Z.to_nat (2 ^ hashpower t)) empty_bucket /\
              locks_ t' = locks_ t /\ same_policy t t').
Proof.
  intros Hhp. unfold double_size.
  destruct (hashpower t + 1 >? alloc_max_hashpower) eqn:Hbig.
  - left. eauto.
  - right. rewrite Z.gtb_ltb in Hbig. apply Z.ltb_ge in Hbig. split; [exact Hbig|].
    eexists. split; [reflexivity|]. split; [reflexivity|].
    split; [|split; [reflexivity|unfold same_policy; auto]].
    cbn [buckets_ set_hashpower set_buckets]. unfold bucket_count.
    rewrite hashsize_small by lia. reflexivity.
Qed.

Lemma all_migrated_app t t' n :
  locks_ t' = locks_ t ++ replicate n (mk_seqlock true 0) ->
  (forall l, migrated t l) -> forall l, migrated t' l.
Proof.
  intros Hl Hall l. specialize (Hall l). unfold migrated, get_lock in *. rewrite Hl.
  destruct (l <? 0); [reflexivity|].
  destruct (decide (Z.to_nat l < length (locks_ t))%nat) as [Hlt|Hge].
  - rewrite lookup_app_l by exact Hlt. exact Hall.
  - rewrite lookup_app_r by lia.
    destruct (replicate n _ !! _) as [lk|] eqn:Hlk; cbn [default]; [|reflexivity].
    apply lookup_replicate in Hlk. destruct Hlk as [-> _]. reflexivity.
Qed.

Lemma check_resize_validity_cases auto t new_hp :
  (exists e, check_resize_validity auto (hashpower t) new_hp t = (Throw e, t)) \/
  check_resize_validity auto (hashpower t) new_hp t = (Ret ok, t).
Proof.
  unfold check_resize_validity.
  destruct (negb (maximum_hashpower t =? NO_MAXIMUM_HASHPOWER) && (new_hp >? maximum_hashpower t));
    [left; eauto|].
  destruct (auto && double_lt (load_factor t) (minimum_load_factor t)); [left; eauto|].
  rewrite Z.eqb_refl. right. reflexivity.
Qed.

Lemma pow2_succ hp : 0 <= hp -> 2 ^ (hp + 1) = 2 * 2 ^ hp.
Proof. intros H. rewrite Z.pow_add_r by lia. lia. Qed.

Lemma cuckoo_fast_double_spec auto t :
  params_ok -> good t ->
  wp (cuckoo_fast_double normal_mode auto (hashpower t))
     (fun o t' =>
        match o with
        | Ret st => st = ok /\ good t' /\ carries t t' /\ hashpower t' = hashpower t + 1
        | _ => True
        end) t.
Proof.
  intros Hpar Hgood. pose proof Hgood as [Hwf Hlazy].
  pose proof (params_ok_hashpower Hpar) as Hmax.
  assert (Hhp : 0 <= hashpower t < 63) by (destruct Hwf as (H & _); lia).
  set (hp := hashpower t) in *.
  assert (Hpos : 0 < 2 ^ hp) by (apply Z.pow_pos_nonneg; lia).
  unfold cuckoo_fast_double. rewrite (wrap64_small (hp + 1)) by lia.
  apply wp_bind.
  destruct (check_resize_validity_cases auto t (hp + 1)) as [[e He]|Hok];
    [eapply wp_eq; [exact He|exact I]|].
  eapply wp_eq; [exact Hok|]. cbn [status_eqb negb].
  apply wp_bind, wp_modify.
  destruct (rehash_all_spec t Hpar Hgood) as (Hg1 & Hk1 & Hmig1). fold hp in Hg1, Hk1, Hmig1.
  set (t1 := rehash_all hp t) in *.
  assert (Ht1 : hashpower t1 = hp) by apply (keeps_hashpower _ _ Hk1).
  apply wp_bind, wp_modify.
  destruct (maybe_resize_locks_spec t1) as (Ht2 & Hb2 & Hp2 & Hl2).
  set (t2 := maybe_resize_locks t1) in *. rewrite Ht1 in Ht2, Hl2.
  apply wp_bind.
  destruct (double_size_cases t2 ltac:(rewrite Ht2; exact Hhp))
    as [[e He]|(Halloc & t3 & Hd & Ht3 & Hb3 & Hl3 & Hp3)];
    [eapply wp_eq; [exact He|exact I]|].
  eapply wp_eq; [exact Hd|]. rewrite Ht2 in Halloc, Ht3, Hb3. rewrite Hb2 in Hb3.
  destruct Hg1 as [Hwf1 Hlazy1]. pose proof (wf_shape t1 Hwf1) as Hshape1.
  rewrite Ht1 in Hshape1.
  pose proof (shape_app _ t1 t3 _ Hshape1 Hb3) as Hshape3.
  assert (Hsz : (Z.to_nat (2 ^ hp) + Z.to_nat (2 ^ hp))%nat = Z.to_nat (2 ^ (hp + 1))).
  { rewrite pow2_succ by lia. lia. }
  rewrite Hsz in Hshape3.
  assert (Hlen1 : length (buckets_ t1) = Z.to_nat (2 ^ hp)) by (destruct Hshape1; assumption).
  assert (Hnew : forall i s, 2 ^ hp <= i -> cell t3 i s = None).
  { intros i s Hi. apply (cell_app_new t1 t3 _ i s Hb3). right. rewrite Hlen1. lia. }
  assert (Hlocks1 : length (locks_ t1) = Z.to_nat (2 ^ Z.min hp kMaxNumLocksPow)).
  { destruct Hwf1 as (_ & _ & _ & H & _). rewrite Ht1 in H. exact H. }
  assert (Hcar13 : same_policy t1 t3 /\ occupied_slots t3 = occupied_slots t1 /\
                   (forall x, stored t3 x <-> stored t1 x)).
  { split; [eapply same_policy_trans; eauto|].
    split; [apply (occupied_slots_app t1 t3 _ Hb3)|apply (stored_app _ t1 t3 _ Hshape1 Hb3)]. }
  destruct Hcar13 as (Hp13 & Ho13 & Hs13).
  pose proof (keeps_carries _ _ Hk1) as Hc01.
  destruct (hp <? kMaxNumLocksPow) eqn:Hsmall.
  - (* fewer buckets than stripes: the pairs are moved at once *)
    apply Z.ltb_lt in Hsmall. unfold kMaxNumLocksPow in Hsmall.
    assert (Hge : (hp >=? kMaxNumLocksPow) = false).
    { unfold kMaxNumLocksPow. rewrite Z.geb_leb. apply Z.leb_gt. lia. }
    rewrite Hge in Hl2. rewrite Z.min_l in Hlocks1 by (unfold kMaxNumLocksPow; lia).
    assert (Hlocks3 : length (locks_ t3) = Z.to_nat (2 ^ (hp + 1))).
    { rewrite Hl3, Hl2, length_app, length_replicate, Hlocks1. exact Hsz. }
    assert (Hmig3 : forall l, migrated t3 l).
    { apply (all_migrated_app t1 t3 (length (locks_ t1))); [congruence|exact Hmig1]. }
    assert (Hcs3 : counters_sum t3 = counters_sum t1).
    { unfold counters_sum. rewrite Hl3, Hl2, zsum_app, zsum_replicate. cbn [elem_counter]. lia. }
    apply wp_bind, wp_modify. apply wp_ret.
    destruct (fast_double_fold hp ltac:(lia) (zseq (Z.to_nat (hashsize hp)))
                (zseq_sorted _)) with (t := t3)
      as (Hshape4 & Ht4 & Hp4 & Hlen4 & Hcs4 & Hmig4 & Ho4 & Hs4); try assumption.
    { intros i Hi. apply elem_of_zseq in Hi. rewrite hashsize_small in Hi by lia. lia. }
    { intros i s Hi. apply elem_of_zseq in Hi. apply Hnew. lia. }
    fold (fast_double_migrate hp t3) in Hshape4, Ht4, Hp4, Hlen4, Hcs4, Hmig4, Ho4, Hs4.
    split; [reflexivity|]. split; [split|split].
    + destruct Hshape4 as [Hlb Hall]. unfold wf. rewrite Ht4.
      split; [lia|]. split; [exact Hlb|]. split; [exact Hall|].
      split; [|intros _; exact Hmig4].
      rewrite Hlen4, Hlocks3. rewrite Z.min_l by (unfold kMaxNumLocksPow; lia). reflexivity.
    + intros j _ Hun. destruct Hun. apply Hmig4.
    + split; [|split; [|split]].
      * destruct Hc01 as (Hp01 & _).
        eapply same_policy_trans; [exact Hp01|].
        eapply same_policy_trans; [exact Hp13|exact Hp4].
      * destruct Hc01 as (_ & Hc & _). congruence.
      * destruct Hc01 as (_ & _ & Ho & _). congruence.
      * destruct Hc01 as (_ & _ & _ & Hs). intros x. rewrite Hs4, Hs13. apply Hs.
    + exact Ht4.
  - (* lazy migration: every stripe is marked *)
    apply Z.ltb_ge in Hsmall. unfold kMaxNumLocksPow in Hsmall.
    assert (Hge : (hp >=? kMaxNumLocksPow) = true).
    { unfold kMaxNumLocksPow. rewrite Z.geb_leb. apply Z.leb_le. lia. }
    rewrite Hge in Hl2.
    apply wp_bind. apply wp_bind, wp_modify. apply wp_ret. apply wp_ret.
    set (t4 := set_locks t3 ((fun lk => mk_seqlock false (elem_counter lk)) <$> locks_ t3)).
    assert (Hb4 : buckets_ t4 = buckets_ t3) by reflexivity.
    assert (Ht4 : hashpower t4 = hp + 1) by exact Ht3.
    split; [reflexivity|]. split; [split|split].
    + destruct Hshape3 as [Hlb Hall]. unfold wf. rewrite Ht4, Hb4.
      split; [lia|]. split; [exact Hlb|]. split; [exact Hall|]. split.
      * unfold t4. cbn [locks_ set_locks]. rewrite length_fmap, Hl3, Hl2, Hlocks1.
        rewrite !Z.min_r by (unfold kMaxNumLocksPow; lia). reflexivity.
      * unfold kMaxNumLocksPow. intros Hle. lia.
    + intros j Hj _ s. rewrite Ht4 in Hj.
      replace (hp + 1 - 1) with hp in Hj by lia.
      rewrite (cell_buckets_eq t3 t4 j s Hb4). apply Hnew. lia.
    + split; [|split; [|split]].
      * destruct Hc01 as (Hp01 & _).
        eapply same_policy_trans; [exact Hp01|].
        eapply same_policy_trans; [exact Hp13|]. unfold same_policy. auto.
      * destruct Hc01 as (_ & Hc & _). rewrite <- Hc. unfold counters_sum, t4.
        cbn [locks_ set_locks]. rewrite zsum_fmap. cbn [elem_counter].
        rewrite Hl3, Hl2. reflexivity.
      * destruct Hc01 as (_ & _ & Ho & _).
        rewrite (occupied_slots_buckets_eq t3 t4 Hb4). congruence.
      * destruct Hc01 as (_ & _ & _ & Hs). intros x.
        rewrite (stored_buckets_eq t3 t4 x Hb4), Hs13. apply Hs.
    + exact Ht4.
Qed.

End Doubling.

(** ** The loop of an insert *)

Section InsertLoop.
Context {params : Params}.

Lemma index_hash_range hp h : 0 <= hp < 64 -> 0 <= index_hash hp h < 2 ^ hp.
Proof.
  intros Hhp. unfold index_hash. rewrite hashmask_ones by lia.
  rewrite Z.min_l by lia. apply land_ones_range. lia.
Qed.

Lemma good_hashpower t : params_ok -> good t -> 0 <= hashpower t < 63.
Proof.
  intros Hpar [(H & _) _]. pose proof (params_ok_hashpower Hpar). lia.
Qed.

Lemma aligned_buckets_in hv t b :
  0 <= hashpower t < 63 -> aligned hv t b -> buckets_in (hashpower t) b.
Proof.
  intros Hhp [H1 H2]. split.
  - rewrite H1. apply index_hash_range. lia.
  - rewrite H2. pose proof (alt_index_range (hashpower t) (hv_partial hv) (tb_i1 b)) as H.
    rewrite Z.min_l in H by lia. apply H. lia.
Qed.

Lemma snapshot_spec n hv t :
  params_ok -> good t ->
  exists b t',
    snapshot_and_lock_two normal_mode (S n) hv t = (Ret b, t') /\
    good t' /\ keeps t t' /\ migr t t' /\ aligned hv t' b /\ held b /\
    stripes_migrated t' (tb_i1 b) (tb_i2 b).
Proof.
  intros Hpar Hgood.
  destruct (snapshot_and_lock_two_normal n hv t) as (b & t' & Hrun & Hm & H1 & H2 & Hl & Hmig).
  destruct (good_migr t t' Hpar Hgood Hm) as (Hg & Hk).
  exists b, t'. split; [exact Hrun|]. split; [exact Hg|]. split; [exact Hk|].
  split; [exact Hm|].
  split; [unfold aligned; rewrite (keeps_hashpower _ _ Hk); auto|].
  split; [exact Hl|]. destruct Hgood. auto.
Qed.

Lemma wp_snapshot fuel hv t (Q : outcome TwoBuckets -> table -> Prop) :
  params_ok -> good t ->
  (forall b t', good t' -> keeps t t' -> aligned hv t' b -> held b ->
                stripes_migrated t' (tb_i1 b) (tb_i2 b) -> Q (Ret b) t') ->
  Q OutOfFuel t ->
  wp (snapshot_and_lock_two normal_mode fuel hv) Q t.
Proof.
  intros Hpar Hgood HQ Hout. destruct fuel as [|n]; [exact Hout|].
  destruct (snapshot_spec n hv t Hpar Hgood) as (b & t' & Hrun & Hg & Hk & _ & Ha & Hh & Hm).
  eapply wp_eq; [exact Hrun|]. auto.
Qed.

Lemma cuckoo_insert_loop_spec n fuel hv key :
  params_ok ->
  forall b t,
  good t -> aligned hv t b -> held b -> stripes_migrated t (tb_i1 b) (tb_i2 b) ->
  wp (cuckoo_insert_loop normal_mode n fuel hv b key)
     (fun o t' =>
        match o with
        | Ret (pos, b') =>
            good t' /\ carries t t' /\ aligned hv t' b' /\
            ((pos_status pos = ok /\ insert_site hv key t' b' pos) \/
             (pos_status pos = failure_key_duplicated /\ duplicate_site hv key t' b' pos))
        | _ => True
        end) t.
Proof.
  intros Hpar. induction n as [|n IH]; intros b t Hgood Hal Hheld Hmig.
  - exact I.
  - cbn [cuckoo_insert_loop]. apply wp_bind, wp_get_table. apply wp_bind.
    pose proof (good_hashpower t Hpar Hgood) as Hhp.
    eapply wp_mono;
      [apply (cuckoo_insert_spec fuel hv b key t Hpar Hgood
                (aligned_buckets_in hv t b Hhp Hal) Hheld Hmig)|].
    intros [[pos b1]|e|] t1; [|auto|auto].
    intros (Hg1 & Hk1 & H1 & H2 & Hsite).
    pose proof (keeps_hashpower _ _ Hk1) as Ht1.
    assert (Hal1 : aligned hv t1 b1).
    { unfold aligned. rewrite Ht1, H1, H2. exact Hal. }
    unfold site in Hsite.
    destruct (pos_status pos) eqn:Hst; try (destruct Hsite; fail).
    + apply wp_ret. split; [exact Hg1|]. split; [apply keeps_carries; exact Hk1|].
      split; [exact Hal1|]. left. auto.
    + apply wp_ret. split; [exact Hg1|]. split; [apply keeps_carries; exact Hk1|].
      split; [exact Hal1|]. right. auto.
    + apply wp_bind. rewrite <- Ht1.
      eapply wp_mono; [apply (cuckoo_fast_double_spec true t1 Hpar Hg1)|].
      intros [st|e|] t2; [|auto|auto].
      intros (_ & Hg2 & Hc2 & Ht2).
      apply wp_bind. apply wp_snapshot; [exact Hpar|exact Hg2| |exact I].
      intros b3 t3 Hg3 Hk3 Hal3 Hheld3 Hmig3.
      eapply wp_mono; [apply (IH b3 t3 Hg3 Hal3 Hheld3 Hmig3)|].
      intros [[pos' b']|e|] t'; [|auto|auto].
      intros (Hg' & Hc' & Hal' & Hpost).
      split; [exact Hg'|]. split; [|auto].
      eapply carries_trans; [apply keeps_carries; exact Hk1|].
      eapply carries_trans; [exact Hc2|].
      eapply carries_trans; [apply keeps_carries; exact Hk3|exact Hc'].
Qed.

End InsertLoop.

(** ** Writing a slot and counting it *)

Section Effects.
Context {params : Params}.

Lemma lock_ind_in_range t i :
  wf t -> 0 <= i < 2 ^ hashpower t ->
  0 <= lock_ind i /\ (Z.to_nat (lock_ind i) < length (locks_ t))%nat.
Proof.
  intros (Hhp & _ & _ & Hlocks & _) Hi. pose proof (lock_ind_range i) as Hr.
  split; [lia|]. rewrite Hlocks.
  destruct (Z.le_gt_cases (hashpower t) kMaxNumLocksPow) as [Hle|Hgt].
  - rewrite Z.min_l by lia. rewrite lock_ind_small.
    + apply Z2Nat.inj_lt; lia.
    + split; [lia|]. eapply Z.lt_le_trans; [apply Hi|].
      apply Z.pow_le_mono_r; [lia|exact Hle].
  - rewrite Z.min_r by lia. unfold kMaxNumLocksPow. apply Z2Nat.inj_lt; lia.
Qed.

Lemma held_in_range t b :
  wf t -> buckets_in (hashpower t) b -> held b ->
  exists l, lock1 b = Some l /\ 0 <= l /\ (Z.to_nat l < length (locks_ t))%nat.
Proof.
  intros Hwf [H1 H2] (l & Hl & Hcase). exists l. split; [exact Hl|].
  destruct Hcase as [-> | ->]; apply lock_ind_in_range; assumption.
Qed.

(** Writing [c] into a slot of the table. *)
Lemma write_spec t i s c :
  good t -> in_table (hashpower t) i s ->
  (c = None \/ is_Some (cell t i s) \/ migrated t (lock_ind i)) ->
  good (update_slot i s c t) /\
  hashpower (update_slot i s c t) = hashpower t /\
  same_policy t (update_slot i s c t) /\
  locks_ (update_slot i s c t) = locks_ t /\
  occupied_slots (update_slot i s c t)
  = occupied_slots t - slot_count (cell t i s) + slot_count c /\
  (forall j r, cell (update_slot i s c t) j r
               = if decide (j = i /\ r = s) then c else cell t j r).
Proof.
  intros [Hwf Hlazy] Hin Hc. pose proof (wf_valid_slot t i s Hwf Hin) as Hv.
  destruct (update_slot_fields i s c t) as (Ehp & Elocks & Epol).
  assert (Hcell : forall j r, cell (update_slot i s c t) j r
                              = if decide (j = i /\ r = s) then c else cell t j r).
  { intros j r. destruct (decide (j = i /\ r = s)) as [[-> ->]|Hne].
    - apply cell_update_slot_eq. exact Hv.
    - apply cell_update_slot_ne. destruct (decide (j = i)); [right; intros ->; tauto|auto]. }
  split; [split|].
  - apply wf_update_slot. exact Hwf.
  - intros j Hj Hun r. rewrite Hcell. rewrite Ehp in Hj.
    assert (Hun' : ~ migrated t (lock_ind j)).
    { intros Hm. apply Hun. apply migrated_update_slot. exact Hm. }
    destruct (decide (j = i /\ r = s)) as [[-> ->]|Hne]; [|apply Hlazy; assumption].
    destruct Hc as [->|[[x Hx]|Hm]]; [reflexivity| |tauto].
    rewrite (Hlazy i Hj Hun' s) in Hx. discriminate.
  - split; [exact Ehp|]. split; [exact Epol|]. split; [exact Elocks|].
    split; [apply occupied_slots_update_slot; exact Hv|exact Hcell].
Qed.

(** Changing the counter of a stripe. *)
Lemma count_spec t l f :
  good t -> 0 <= l -> (Z.to_nat l < length (locks_ t))%nat ->
  (forall lk, is_migrated (f lk) = is_migrated lk) ->
  good (update_lock l f t) /\
  hashpower (update_lock l f t) = hashpower t /\
  same_policy t (update_lock l f t) /\
  buckets_ (update_lock l f t) = buckets_ t /\
  counters_sum (update_lock l f t)
  = counters_sum t - elem_counter (get_lock t l) + elem_counter (f (get_lock t l)) /\
  (forall k, migrated (update_lock l f t) k <-> migrated t k).
Proof.
  intros [Hwf Hlazy] Hl Hlt Hf.
  destruct (update_lock_fields l f t) as (Ehp & Eb & Epol).
  pose proof (fun k => migrated_update_lock_keep l f t k Hf) as Hmig.
  split; [split|].
  - destruct Hwf as (Hhp & Hlen & Hall & Hlocks & Hm). unfold wf.
    rewrite Ehp, Eb, length_locks_update_lock.
    split; [exact Hhp|]. split; [exact Hlen|]. split; [exact Hall|].
    split; [exact Hlocks|]. intros Hle k. apply Hmig. auto.
  - intros j Hj Hun r. rewrite Ehp in Hj. rewrite cell_update_lock.
    apply Hlazy; [exact Hj|]. intros Hm. apply Hun. apply Hmig. exact Hm.
  - split; [exact Ehp|]. split; [exact Epol|]. split; [exact Eb|].
    split; [apply counters_sum_update_lock; assumption|exact Hmig].
Qed.

(** The scans only look at the tag and the key of a slot. *)
Lemma try_read_from_bucket_loop_ext (b b' : bucket) p key slots :
  (forall j, j ∈ slots ->
             match slot_at b j, slot_at b' j with
             | Some x, Some y => s_partial x = s_partial y /\ s_key x = s_key y
             | None, None => True
             | _, _ => False
             end) ->
  try_read_from_bucket_loop b' p key slots = try_read_from_bucket_loop b p key slots.
Proof.
  induction slots as [|i rest IH]; intros Hsame; cbn [try_read_from_bucket_loop].
  - reflexivity.
  - pose proof (Hsame i ltac:(apply elem_of_cons; auto)) as Hi.
    assert (Hrec : try_read_from_bucket_loop b' p key rest
                   = try_read_from_bucket_loop b p key rest).
    { apply IH. intros j Hj. apply Hsame. apply elem_of_cons. auto. }
    destruct (slot_at b i) as [x|], (slot_at b' i) as [y|]; try contradiction.
    + destruct Hi as [-> ->]. rewrite Hrec. reflexivity.
    + exact Hrec.
Qed.

(** A matching pair written into a bucket without a match is what the
    scan reports. *)
Lemma try_read_from_bucket_loop_new (b b' : bucket) p key s sl slots :
  (forall j x, j ∈ slots -> slot_at b j = Some x -> key_matches p key x = false) ->
  (forall j, j <> s -> slot_at b' j = slot_at b j) ->
  slot_at b' s = Some sl -> key_matches p key sl = true -> s ∈ slots ->
  try_read_from_bucket_loop b' p key slots = s.
Proof.
  intros Hno Hsame Hs Hm. induction slots as [|i rest IH]; intros Hin.
  - apply elem_of_nil in Hin. destruct Hin.
  - cbn [try_read_from_bucket_loop]. destruct (decide (i = s)) as [->|Hne].
    + rewrite Hs. unfold key_matches in Hm. apply andb_true_iff in Hm. destruct Hm as [Hm1 Hm2].
      apply negb_true_iff in Hm1. rewrite Hm1, Hm2. reflexivity.
    + apply elem_of_cons in Hin. destruct Hin as [Heq|Hin]; [congruence|].
      assert (Hrec : try_read_from_bucket_loop b' p key rest = s).
      { apply IH; [|exact Hin]. intros j x Hj. apply Hno. apply elem_of_cons. auto. }
      rewrite (Hsame i Hne). destruct (slot_at b i) as [x|] eqn:Hx; [|exact Hrec].
      pose proof (Hno i x ltac:(apply elem_of_cons; auto) Hx) as Hnm.
      unfold key_matches in Hnm.
      destruct (negb is_simple && negb (p =? s_partial x)); [exact Hrec|].
      cbn [negb andb] in Hnm. rewrite Hnm. exact Hrec.
Qed.


Lemma found_at_read n key t pi ps sl :
  found_at key t pi ps sl -> read_value (S n) key t = (Ret (Some (s_mapped sl)), t).
Proof.
  intros (Hmig & Hfind & Hcell & _). rewrite read_value_migrated by exact Hmig.
  unfold read_result. rewrite Hfind. cbn [pos_status status_eqb].
  unfold mapped_at. cbn [pos_index pos_slot]. unfold cell in Hcell. rewrite Hcell. reflexivity.
Qed.

Lemma cuckoo_find_ok key p i1 i2 t pi ps :
  cuckoo_find key p i1 i2 t = mk_pos pi ps ok ->
  (pi = i1 \/ pi = i2) /\ 0 <= ps < slot_per_bucket /\
  exists sl, cell t pi ps = Some sl /\ key_matches p key sl = true.
Proof.
  unfold cuckoo_find.
  destruct (try_read_from_bucket (get_bucket t i1) p key =? -1) eqn:H1; cbn [negb].
  - destruct (try_read_from_bucket (get_bucket t i2) p key =? -1) eqn:H2; cbn [negb].
    + discriminate.
    + intros H. inversion H; subst. apply Z.eqb_neq in H2.
      destruct (try_read_from_bucket_found _ _ _ H2) as (Hr & sl & Hsl & Hm). eauto 10.
  - intros H. inversion H; subst. apply Z.eqb_neq in H1.
    destruct (try_read_from_bucket_found _ _ _ H1) as (Hr & sl & Hsl & Hm). eauto 10.
Qed.

Lemma duplicate_site_found key t b pos :
  0 <= hashpower t < 63 -> aligned (hashed_key key) t b ->
  duplicate_site (hashed_key key) key t b pos ->
  exists sl, found_at key t (pos_index pos) (pos_slot pos) sl /\
             key_eq (s_key sl) key = true.
Proof.
  intros Hhp Hal (Hfind & _ & Hmig).
  destruct (cuckoo_find_ok _ _ _ _ _ _ _ Hfind) as (Hpi & Hps & sl & Hcell & Hm).
  pose proof (aligned_buckets_in _ t b Hhp Hal) as [Hi1 Hi2].
  destruct Hal as [H1 H2].
  exists sl. split; [|eapply key_matches_key_eq; exact Hm].
  unfold found_at. cbv zeta. rewrite <- H1, <- H2.
  split; [exact Hmig|]. split; [exact Hfind|]. split; [exact Hcell|].
  split; [destruct Hpi as [-> | ->]; assumption|exact Hps].
Qed.

(** The effect of [add_to_bucket] on an empty slot. *)
Lemma put_spec t pi ps p key val l :
  good t -> in_table (hashpower t) pi ps -> cell t pi ps = None ->
  migrated t (lock_ind pi) -> 0 <= l -> (Z.to_nat l < length (locks_ t))%nat ->
  let t' := incr_elem_counter l (setKV pi ps p key val t) in
  good t' /\ hashpower t' = hashpower t /\ same_policy t t' /\
  counters_sum t' = counters_sum t + 1 /\ occupied_slots t' = occupied_slots t + 1 /\
  (forall j r, cell t' j r = if decide (j = pi /\ r = ps) then Some (mk_slot p key val)
                             else cell t j r) /\
  (forall k, migrated t' k <-> migrated t k).
Proof.
  intros Hgood Hin Hcell Hmig Hl Hlt. unfold setKV, incr_elem_counter.
  destruct (write_spec t pi ps (Some (mk_slot p key val)) Hgood Hin ltac:(auto))
    as (Hg1 & Hhp1 & Hp1 & Hl1 & Ho1 & Hc1).
  set (t1 := update_slot pi ps (Some (mk_slot p key val)) t) in *.
  destruct (count_spec t1 l (fun lk => mk_seqlock (is_migrated lk) (elem_counter lk + 1))
              Hg1 Hl ltac:(rewrite Hl1; exact Hlt) ltac:(reflexivity))
    as (Hg2 & Hhp2 & Hp2 & Hb2 & Hcs2 & Hm2).
  split; [exact Hg2|]. split; [congruence|]. split; [eapply same_policy_trans; eauto|].
  split.
  - rewrite Hcs2. cbn [elem_counter]. unfold t1. rewrite counters_sum_update_slot. lia.
  - split; [|split].
    + rewrite (occupied_slots_buckets_eq _ _ Hb2), Ho1, Hcell. cbn [slot_count]. lia.
    + intros j r. rewrite (cell_buckets_eq _ _ j r Hb2). apply Hc1.
    + intros k. rewrite Hm2. unfold t1. apply migrated_update_slot.
Qed.

(** The effect of the functor of [uprase_fn] or [erase_fn] on an
    occupied slot: the mapped value is written and, if [erase] is set, the
    pair is deleted. *)
Lemma modify_spec t pi ps sl v' (erase : bool) l :
  good t -> in_table (hashpower t) pi ps -> cell t pi ps = Some sl ->
  0 <= l -> (Z.to_nat l < length (locks_ t))%nat ->
  let t1 := set_mapped pi ps v' t in
  let t' := if erase then decr_elem_counter l (eraseKV pi ps t1) else t1 in
  good t' /\ hashpower t' = hashpower t /\ same_policy t t' /\
  counters_sum t' = counters_sum t - (if erase then 1 else 0) /\
  occupied_slots t' = occupied_slots t - (if erase then 1 else 0) /\
  (forall j r, cell t' j r
               = if decide (j = pi /\ r = ps)
                 then (if erase then None else Some (mk_slot (s_partial sl) (s_key sl) v'))
                 else cell t j r) /\
  (forall k, migrated t' k <-> migrated t k).
Proof.
  intros Hgood Hin Hcell Hl Hlt. unfold set_mapped. unfold cell in Hcell. rewrite Hcell.
  fold (cell t pi ps) in Hcell.
  destruct (write_spec t pi ps (Some (mk_slot (s_partial sl) (s_key sl) v')) Hgood Hin
              ltac:(right; left; rewrite Hcell; eauto))
    as (Hg1 & Hhp1 & Hp1 & Hl1 & Ho1 & Hc1).
  set (t1 := update_slot pi ps (Some (mk_slot (s_partial sl) (s_key sl) v')) t) in *.
  assert (Hm1 : forall k, migrated t1 k <-> migrated t k).
  { intros k. unfold t1. apply migrated_update_slot. }
  rewrite Hcell in Ho1. cbn [slot_count] in Ho1.
  destruct erase; cbv zeta.
  - unfold eraseKV, decr_elem_counter.
    destruct (write_spec t1 pi ps None Hg1 ltac:(rewrite Hhp1; exact Hin) ltac:(auto))
      as (Hg2 & Hhp2 & Hp2 & Hl2 & Ho2 & Hc2).
    set (t2 := update_slot pi ps None t1) in *.
    destruct (count_spec t2 l (fun lk => mk_seqlock (is_migrated lk) (elem_counter lk - 1))
                Hg2 Hl ltac:(rewrite Hl2, Hl1; exact Hlt) ltac:(reflexivity))
      as (Hg3 & Hhp3 & Hp3 & Hb3 & Hcs3 & Hm3).
    split; [exact Hg3|]. split; [congruence|].
    split; [eapply same_policy_trans; [exact Hp1|]; eapply same_policy_trans; eauto|].
    split.
    + rewrite Hcs3. cbn [elem_counter]. unfold t2, t1. rewrite !counters_sum_update_slot. lia.
    + split; [|split].
      * rewrite (occupied_slots_buckets_eq _ _ Hb3), Ho2, Hc1.
        destruct (decide (pi = pi /\ ps = ps)); [|tauto]. cbn [slot_count]. lia.
      * intros j r. rewrite (cell_buckets_eq _ _ j r Hb3), Hc2.
        destruct (decide (j = pi /\ r = ps)); [reflexivity|]. rewrite Hc1.
        destruct (decide (j = pi /\ r = ps)); [tauto|reflexivity].
      * intros k. rewrite Hm3. unfold t2. rewrite migrated_update_slot. apply Hm1.
  - split; [exact Hg1|]. split; [exact Hhp1|]. split; [exact Hp1|].
    split; [unfold t1; rewrite counters_sum_update_slot; lia|].
    split; [lia|]. split; [exact Hc1|exact Hm1].
Qed.

End Effects.

(** ** The operations that write *)

Section Writers.
Context {params : Params}.

Lemma key_matches_new p key val :
  key_eq key key = true -> key_matches p key (mk_slot p key val) = true.
Proof.
  intros H. unfold key_matches. cbn [s_partial s_key]. rewrite Z.eqb_refl, H.
  destruct is_simple; reflexivity.
Qed.

Lemma try_read_same_cells t t' i p key :
  (forall j, cell t' i j = cell t i j) ->
  try_read_from_bucket (get_bucket t' i) p key = try_read_from_bucket (get_bucket t i) p key.
Proof.
  intros Hsame. unfold try_read_from_bucket. apply try_read_from_bucket_loop_ext.
  intros j _. specialize (Hsame j). unfold cell in Hsame. rewrite Hsame.
  destruct (slot_at (get_bucket t i) j); auto.
Qed.

Lemma try_read_new_cell t t' i s p key sl :
  try_read_from_bucket (get_bucket t i) p key = -1 ->
  (forall j, j <> s -> cell t' i j = cell t i j) ->
  cell t' i s = Some sl -> key_matches p key sl = true -> 0 <= s < slot_per_bucket ->
  try_read_from_bucket (get_bucket t' i) p key = s.
Proof.
  intros Hno Hsame Hs Hm Hr. unfold try_read_from_bucket.
  apply (try_read_from_bucket_loop_new (get_bucket t i) (get_bucket t' i) p key s sl).
  - intros j x Hj Hx. apply elem_of_zseq in Hj.
    apply (proj1 (try_read_from_bucket_none _ _ _) Hno j x Hx Hj).
  - exact Hsame.
  - exact Hs.
  - exact Hm.
  - apply elem_of_zseq. exact Hr.
Qed.

(** After [add_to_bucket] at the slot [cuckoo_insert] chose, the key is
    found there. *)
Lemma put_found key t b pos l val :
  good t -> 0 <= hashpower t < 63 ->
  aligned (hashed_key key) t b -> insert_site (hashed_key key) key t b pos ->
  key_eq key key = true -> 0 <= l -> (Z.to_nat l < length (locks_ t))%nat ->
  found_at key
    (incr_elem_counter l
       (setKV (pos_index pos) (pos_slot pos) (hv_partial (hashed_key key)) key val t))
    (pos_index pos) (pos_slot pos) (mk_slot (hv_partial (hashed_key key)) key val).
Proof.
  intros Hgood Hhp Hal (Hin & Hpi & Hcell & Hn1 & Hn2 & _ & Hmig) Hrefl Hl Hlt.
  assert (Hmpi : migrated t (lock_ind (pos_index pos))).
  { destruct Hmig as [Hm1 Hm2]. destruct Hpi as [-> | ->]; assumption. }
  destruct (put_spec t (pos_index pos) (pos_slot pos) (hv_partial (hashed_key key)) key val l
              Hgood Hin Hcell Hmpi Hl Hlt) as (Hg' & Hhp' & _ & _ & _ & Hc' & Hm').
  set (t' := incr_elem_counter l _) in *.
  destruct Hal as [H1 H2]. unfold found_at. cbv zeta. rewrite Hhp', <- H1, <- H2.
  pose proof (key_matches_new (hv_partial (hashed_key key)) key val Hrefl) as Hnew.
  assert (Hat : cell t' (pos_index pos) (pos_slot pos)
                = Some (mk_slot (hv_partial (hashed_key key)) key val)).
  { rewrite Hc'. destruct (decide _); [reflexivity|tauto]. }
  assert (Hother : forall i j, j <> pos_slot pos -> cell t' i j = cell t i j).
  { intros i j Hj. rewrite Hc'. destruct (decide _) as [[_ ?]|]; [contradiction|reflexivity]. }
  split; [destruct Hmig; split; apply Hm'; assumption|].
  split; [|split; [exact Hat|exact Hin]].
  destruct Hin as [_ Hps].
  destruct (decide (pos_index pos = tb_i1 b)) as [E1|N1].
  - rewrite E1 in *.
    pose proof (try_read_new_cell t t' (tb_i1 b) (pos_slot pos) _ key _ Hn1
                  (Hother (tb_i1 b)) Hat Hnew Hps) as Hr.
    rewrite cuckoo_find_first by (rewrite Hr; lia). rewrite Hr. reflexivity.
  - destruct Hpi as [?|E2]; [contradiction|]. rewrite E2 in *.
    assert (Hr1 : try_read_from_bucket (get_bucket t' (tb_i1 b))
                    (hv_partial (hashed_key key)) key = -1).
    { rewrite (try_read_same_cells t t'); [exact Hn1|].
      intros j. rewrite Hc'. destruct (decide _) as [[? _]|]; [congruence|reflexivity]. }
    pose proof (try_read_new_cell t t' (tb_i2 b) (pos_slot pos) _ key _ Hn2
                  (Hother (tb_i2 b)) Hat Hnew Hps) as Hr.
    rewrite cuckoo_find_second; [rewrite Hr; reflexivity|exact Hr1|rewrite Hr; lia].
Qed.

Lemma inv_good t : inv t -> good t.
Proof. intros (Hwf & Hlazy & _). split; assumption. Qed.

Lemma carries_stored t t' x : carries t t' -> (stored t' x <-> stored t x).
Proof. intros (_ & _ & _ & H). apply H. Qed.

(** [uprase_fn] on a table that satisfies the invariant. *)
Lemma uprase_fn_spec fuel key fn val t :
  params_ok -> inv t ->
  wp (uprase_fn fuel key fn val)
     (fun o t' =>
        match o with
        | Ret true =>
            inv t' /\ same_policy t t' /\ occupied_slots t' = occupied_slots t + 1 /\
            (key_eq key key = true ->
             exists pi ps, found_at key t' pi ps
                             (mk_slot (hv_partial (hashed_key key)) key val)) /\
            (forall x, stored t x -> stored t' x) /\
            stored t' (mk_slot (hv_partial (hashed_key key)) key val)
        | Ret false =>
            inv t' /\ same_policy t t' /\
            exists sl, stored t sl /\ key_eq (s_key sl) key = true /\
                       occupied_slots t' = occupied_slots t
                                           - (if snd (fn (s_mapped sl)) then 1 else 0)
        | _ => True
        end) t.
Proof.
  intros Hpar Hinv. pose proof (inv_good t Hinv) as Hgood. destruct Hinv as (_ & _ & Hsum).
  unfold uprase_fn. apply wp_bind. apply wp_snapshot; [exact Hpar|exact Hgood| |exact I].
  intros b0 t0 Hg0 Hk0 Hal0 Hheld0 Hmig0.
  apply wp_bind.
  eapply wp_mono;
    [apply (cuckoo_insert_loop_spec fuel fuel (hashed_key key) key Hpar b0 t0 Hg0 Hal0
              Hheld0 Hmig0)|].
  intros [[pos b1]|e|] t1; [|auto|auto].
  intros (Hg1 & Hc1 & Hal1 & Hcase).
  pose proof (carries_trans _ _ _ (keeps_carries _ _ Hk0) Hc1) as Hc.
  pose proof (good_hashpower t1 Hpar Hg1) as Hhp1.
  pose proof (aligned_buckets_in _ t1 b1 Hhp1 Hal1) as Hb1.
  pose proof Hg1 as [Hwf1 _].
  destruct Hcase as [[Hst Hsite]|[Hst Hsite]]; rewrite Hst; cbn [status_eqb].
  - (* a new pair *)
    pose proof Hsite as (Hin & Hpi & Hcell & _ & _ & Hheld & Hmig).
    destruct (held_in_range t1 b1 Hwf1 Hb1 Hheld) as (l & Hl1 & Hl & Hlt).
    rewrite Hl1. unfold add_to_bucket.
    apply wp_bind. apply wp_bind, wp_modify. apply wp_modify. apply wp_ret.
    assert (Hmpi : migrated t1 (lock_ind (pos_index pos))).
    { destruct Hmig as [Hm1 Hm2]. destruct Hpi as [-> | ->]; assumption. }
    destruct (put_spec t1 (pos_index pos) (pos_slot pos) (hv_partial (hashed_key key)) key
                val l Hg1 Hin Hcell Hmpi Hl Hlt)
      as (Hg' & Hhp' & Hp' & Hcs' & Ho' & Hc' & Hm').
    destruct Hc as (Hpol & Hcs & Hocc & Hst').
    destruct Hg' as [Hwf' Hlazy'].
    split; [split; [exact Hwf'|split; [exact Hlazy'|lia]]|].
    split; [eapply same_policy_trans; eauto|]. split; [lia|].
    split; [intros Hrefl; exists (pos_index pos), (pos_slot pos);
            apply (put_found key t1 b1 pos l val Hg1 Hhp1 Hal1 Hsite Hrefl Hl Hlt)|].
    split.
    + intros x Hx. apply Hst' in Hx. destruct Hx as (i & j & Hx). exists i, j.
      rewrite Hc'. destruct (decide _) as [[-> ->]|]; [congruence|exact Hx].
    + exists (pos_index pos), (pos_slot pos). rewrite Hc'.
      destruct (decide _); [reflexivity|tauto].
  - (* the key is there *)
    destruct (duplicate_site_found key t1 b1 pos Hhp1 Hal1 Hsite)
      as (sl & (_ & _ & Hcell & Hin) & Heq).
    destruct Hsite as (_ & Hheld & _).
    destruct (held_in_range t1 b1 Hwf1 Hb1 Hheld) as (l & Hl1 & Hl & Hlt).
    apply wp_bind, wp_get_table.
    unfold mapped_at. pose proof Hcell as Hcell'. unfold cell in Hcell'. rewrite Hcell'.
    cbn [fmap option_fmap option_map].
    destruct (fn (s_mapped sl)) as [v' erase] eqn:Hfn.
    destruct (modify_spec t1 (pos_index pos) (pos_slot pos) sl v' erase l Hg1 Hin Hcell
                Hl Hlt) as (Hg' & Hhp' & Hp' & Hcs' & Ho' & _).
    cbv zeta in Hg', Hhp', Hp', Hcs', Ho'.
    apply wp_bind, wp_modify. apply wp_bind.
    destruct Hc as (Hpol & Hcs & Hocc & Hst').
    assert (Hfinal : forall t',
               good t' -> same_policy t1 t' ->
               counters_sum t' = counters_sum t1 - (if erase then 1 else 0) ->
               occupied_slots t' = occupied_slots t1 - (if erase then 1 else 0) ->
               inv t' /\ same_policy t t' /\
               exists sl0, stored t sl0 /\ key_eq (s_key sl0) key = true /\
                           occupied_slots t' = occupied_slots t
                                               - (if snd (fn (s_mapped sl0)) then 1 else 0)).
    { intros t' [Hwf' Hlazy'] Hpt Hct Hot.
      split; [split; [exact Hwf'|split; [exact Hlazy'|lia]]|].
      split; [eapply same_policy_trans; eauto|].
      exists sl. split; [apply Hst'; exists (pos_index pos), (pos_slot pos); exact Hcell|].
      split; [exact Heq|]. rewrite Hfn. cbn [snd]. lia. }
    destruct erase.
    + rewrite Hl1. unfold del_from_bucket.
      apply wp_bind, wp_modify. apply wp_modify. apply wp_ret. apply Hfinal; assumption.
    + apply wp_ret. apply wp_ret. apply Hfinal; assumption.
Qed.

End Writers.

(** ** Every operation keeps the invariant *)

Section Preservation.
Context {params : Params}.

Lemma inv_same_data t t' : same_data t t' -> inv t -> inv t'.
Proof.
  intros (Hhp & Hb & Hl) ((H1 & H2 & H3 & H4 & H5) & Hlazy & Hsum).
  assert (Hmig : forall l, migrated t' l <-> migrated t l).
  { intros l. unfold migrated, get_lock. rewrite Hl. reflexivity. }
  split; [|split].
  - unfold wf. rewrite Hhp, Hb, Hl. repeat split; try assumption; try lia.
    intros Hle l. apply Hmig. auto.
  - intros j Hj Hun s. rewrite Hhp in Hj. rewrite (cell_buckets_eq t t' j s Hb).
    apply Hlazy; [exact Hj|]. intros Hm. apply Hun. apply Hmig. exact Hm.
  - unfold counters_sum. rewrite Hl. rewrite (occupied_slots_buckets_eq t t' Hb). exact Hsum.
Qed.

(** One round of [read_value]. *)
Lemma read_value_step n key t :
  read_value (S n) key t
  = let hv := hashed_key key in
    let i1 := index_hash (hashpower t) (hv_hash hv) in
    let i2 := alt_index (hashpower t) (hv_partial hv) i1 in
    if is_migrated (get_lock t (lock_ind i1)) then
      if (lock_ind i1 =? lock_ind i2) || is_migrated (get_lock t (lock_ind i2))
      then (Ret (read_result key t), t)
      else read_value n key (lock_and_rehash (lock_ind i2) t)
    else read_value n key (lock_and_rehash (lock_ind i1) t).
Proof.
  cbv zeta. cbn [read_value]. unfold bind at 1, get_table at 1.
  unfold bind at 1. rewrite read_and_rehash_eq.
  destruct (is_migrated (get_lock t (lock_ind _))) eqn:Hm1.
  - unfold bind at 1, get_table at 1. rewrite Z.eqb_refl. cbn [negb orb].
    rewrite bool_decide_eq_false_2 by discriminate. cbn [orb].
    destruct (lock_ind _ =? lock_ind _) eqn:Heq; cbn [negb orb].
    + unfold bind at 1, ret at 1. rewrite bool_decide_eq_false_2 by discriminate.
      reflexivity.
    + unfold bind at 1. rewrite read_and_rehash_eq.
      destruct (is_migrated (get_lock t (lock_ind (alt_index _ _ _)))) eqn:Hm2.
      * rewrite bool_decide_eq_false_2 by discriminate. reflexivity.
      * rewrite bool_decide_eq_true_2 by reflexivity. reflexivity.
  - unfold bind at 1, get_table at 1.
    rewrite bool_decide_eq_true_2 by reflexivity. reflexivity.
Qed.

Lemma read_value_migr n key :
  forall t, migr t (snd (read_value n key t)).
Proof.
  induction n as [|n IH]; intros t.
  - apply migr_refl.
  - rewrite read_value_step. cbv zeta.
    destruct (is_migrated (get_lock t (lock_ind _))).
    + destruct (_ || _); [apply migr_refl|]. eapply migr_step. apply IH.
    + eapply migr_step. apply IH.
Qed.

Lemma read_value_inv n key t : params_ok -> inv t -> inv (snd (read_value n key t)).
Proof. intros Hpar Hinv. apply (migr_inv t _ Hpar (read_value_migr n key t) Hinv). Qed.


Lemma keeps_same_policy t t' : keeps t t' -> same_policy t t'.
Proof. intros (_ & H & _). exact H. Qed.

Lemma read_value_keeps_inv fuel key t :
  params_ok -> inv t -> wp (read_value fuel key) (keeps_inv t) t.
Proof.
  intros Hpar Hinv. pose proof (read_value_migr fuel key t) as Hm.
  destruct (migr_inv t _ Hpar Hm Hinv) as [Hinv' Hk].
  unfold wp. destruct (read_value fuel key t) as [[v|e|] t']; cbn [fst snd] in *;
    try exact I.
  split; [assumption|apply keeps_same_policy; assumption].
Qed.

Lemma find_fn_inv {R} fuel key (fn : V -> R) t :
  params_ok -> inv t -> wp (find_fn fuel key fn) (keeps_inv t) t.
Proof.
  intros Hpar Hinv. unfold find_fn. apply wp_bind.
  eapply wp_mono; [apply read_value_keeps_inv; assumption|].
  intros [[v|]|e|] t' Hk; try exact I; apply wp_ret; exact Hk.
Qed.

Lemma find_inv fuel key t :
  params_ok -> inv t -> wp (find fuel key) (keeps_inv t) t.
Proof.
  intros Hpar Hinv. unfold find. apply wp_bind.
  eapply wp_mono; [apply read_value_keeps_inv; assumption|].
  intros [[v|]|e|] t' Hk; try exact I. apply wp_ret. exact Hk.
Qed.

(** [erase_fn] and [update_fn] after the snapshot, when the key is
    found. *)
Lemma modify_found_inv t0 t b key :
  params_ok -> inv t0 -> good t -> keeps t0 t -> aligned (hashed_key key) t b -> held b ->
  forall pos, pos = cuckoo_find key (hv_partial (hashed_key key)) (tb_i1 b) (tb_i2 b) t ->
  pos_status pos = ok ->
  exists sl l,
    cell t (pos_index pos) (pos_slot pos) = Some sl /\ lock1 b = Some l /\
    mapped_at t pos = Some (s_mapped sl) /\
    forall v' (erase : bool),
      let t1 := set_mapped (pos_index pos) (pos_slot pos) v' t in
      let t' := if erase then decr_elem_counter l (eraseKV (pos_index pos) (pos_slot pos) t1)
                else t1 in
      inv t' /\ same_policy t0 t'.
Proof.
  intros Hpar (_ & _ & Hsum) Hgood Hk Hal Hheld pos Hpos Hst.
  pose proof (good_hashpower t Hpar Hgood) as Hhp.
  pose proof (aligned_buckets_in _ t b Hhp Hal) as Hb. pose proof Hgood as [Hwf _].
  destruct (held_in_range t b Hwf Hb Hheld) as (l & Hl1 & Hl & Hlt).
  assert (Heta : cuckoo_find key (hv_partial (hashed_key key)) (tb_i1 b) (tb_i2 b) t
                 = mk_pos (pos_index pos) (pos_slot pos) ok).
  { rewrite <- Hpos. destruct pos as [pi ps st]. cbn in Hst. subst st. reflexivity. }
  destruct (cuckoo_find_ok _ _ _ _ _ _ _ Heta) as (Hpi & Hps & sl & Hcell & _).
  exists sl, l. split; [exact Hcell|]. split; [exact Hl1|].
  split; [unfold mapped_at; unfold cell in Hcell; rewrite Hcell; reflexivity|].
  intros v' erase.
  assert (Hin : in_table (hashpower t) (pos_index pos) (pos_slot pos)).
  { destruct Hb. split; [destruct Hpi as [-> | ->]; assumption|exact Hps]. }
  destruct (modify_spec t (pos_index pos) (pos_slot pos) sl v' erase l Hgood Hin Hcell Hl Hlt)
    as ([Hwf' Hlazy'] & _ & Hp' & Hcs' & Ho' & _).
  cbv zeta in *. destruct Hk as (_ & Hpol & _ & Hc & Ho & _).
  split; [split; [exact Hwf'|split; [exact Hlazy'|lia]]|].
  eapply same_policy_trans; eauto.
Qed.

Lemma status_eqb_ok st : status_eqb st ok = true -> st = ok.
Proof. destruct st; try discriminate. reflexivity. Qed.

Lemma update_fn_inv fuel key fn t :
  params_ok -> inv t -> wp (update_fn fuel key fn) (keeps_inv t) t.
Proof.
  intros Hpar Hinv. pose proof (inv_good t Hinv) as Hgood.
  unfold update_fn. apply wp_bind. apply wp_snapshot; [exact Hpar|exact Hgood| |exact I].
  intros b t0 Hg0 Hk0 Hal0 Hheld0 _. apply wp_bind, wp_get_table.
  destruct (status_eqb (pos_status (cuckoo_find key _ (tb_i1 b) (tb_i2 b) t0)) ok) eqn:Hst.
  - apply status_eqb_ok in Hst.
    destruct (modify_found_inv t t0 b key Hpar Hinv Hg0 Hk0 Hal0 Hheld0 _ eq_refl Hst)
      as (sl & l & Hcell & Hl & Hmap & Hfin).
    rewrite Hmap. apply wp_bind, wp_modify. apply wp_ret.
    apply (Hfin (fn (s_mapped sl)) false).
  - apply wp_ret. split; [|apply keeps_same_policy; exact Hk0].
    destruct Hg0. eapply inv_keeps; eauto.
Qed.

Lemma erase_fn_inv fuel key fn t :
  params_ok -> inv t -> wp (erase_fn fuel key fn) (keeps_inv t) t.
Proof.
  intros Hpar Hinv. pose proof (inv_good t Hinv) as Hgood.
  unfold erase_fn. apply wp_bind. apply wp_snapshot; [exact Hpar|exact Hgood| |exact I].
  intros b t0 Hg0 Hk0 Hal0 Hheld0 _. apply wp_bind, wp_get_table.
  destruct (status_eqb (pos_status (cuckoo_find key _ (tb_i1 b) (tb_i2 b) t0)) ok) eqn:Hst.
  - apply status_eqb_ok in Hst.
    destruct (modify_found_inv t t0 b key Hpar Hinv Hg0 Hk0 Hal0 Hheld0 _ eq_refl Hst)
      as (sl & l & Hcell & Hl & Hmap & Hfin).
    rewrite Hmap. destruct (fn (s_mapped sl)) as [v' erase].
    specialize (Hfin v' erase). cbv zeta in Hfin.
    apply wp_bind, wp_modify. apply wp_bind. destruct erase.
    + rewrite Hl. unfold del_from_bucket. apply wp_bind, wp_modify. apply wp_modify.
      apply wp_ret. exact Hfin.
    + apply wp_ret. apply wp_ret. exact Hfin.
  - apply wp_ret. split; [|apply keeps_same_policy; exact Hk0].
    destruct Hg0. eapply inv_keeps; eauto.
Qed.

Lemma uprase_fn_inv fuel key fn val t :
  params_ok -> inv t -> wp (uprase_fn fuel key fn val) (keeps_inv t) t.
Proof.
  intros Hpar Hinv. eapply wp_mono; [apply uprase_fn_spec; assumption|].
  intros [[|]|e|] t'; try (intros; exact I).
  - intros (H1 & H2 & _). split; assumption.
  - intros (H1 & H2 & _). split; assumption.
Qed.

Lemma wp_drop {A} (m : M A) t :
  wp m (keeps_inv t) t -> wp (let* _ := m in ret tt) (keeps_inv t) t.
Proof.
  intros H. apply wp_bind. eapply wp_mono; [exact H|].
  intros [a|e|] t' Hk; [|exact I|exact I]. apply wp_ret. exact Hk.
Qed.

Lemma wp_fst {A B} (m : M (A * B)) t :
  wp m (keeps_inv t) t -> wp (let* r := m in ret (fst r)) (keeps_inv t) t.
Proof.
  intros H. apply wp_bind. eapply wp_mono; [exact H|].
  intros [a|e|] t' Hk; [|exact I|exact I]. apply wp_ret. exact Hk.
Qed.


Lemma keeps_inv_ret_inv {A} (m : M A) t : wp m (keeps_inv t) t -> wp m ret_inv t.
Proof.
  intros H. eapply wp_mono; [exact H|]. intros [a|e|] t'; [intros [Hi _]; exact Hi|auto|auto].
Qed.

Lemma all_migrated_replicate t n :
  locks_ t = replicate n (mk_seqlock true 0) -> forall l, migrated t l.
Proof.
  intros Hl l. unfold migrated, get_lock. rewrite Hl. destruct (l <? 0); [reflexivity|].
  destruct (replicate n _ !! _) as [lk|] eqn:Hlk; cbn [default]; [|reflexivity].
  apply lookup_replicate in Hlk. destruct Hlk as [-> _]. reflexivity.
Qed.

Lemma new_table_inv n t : params_ok -> new_table n = Ret t -> inv t.
Proof.
  intros Hpar. pose proof (params_ok_hashpower Hpar) as Hmax. unfold new_table.
  pose proof (wrap64_range (reserve_calc n)) as Hr.
  destruct (wrap64 (reserve_calc n) >? alloc_max_hashpower) eqn:Hbig; [discriminate|].
  rewrite Z.gtb_ltb in Hbig. apply Z.ltb_ge in Hbig.
  intros H. inversion H; subst t; clear H.
  set (hp := wrap64 (reserve_calc n)) in *.
  assert (Hmig : forall l, migrated
                   (mk_table hp (replicate (Z.to_nat (hashsize hp)) empty_bucket)
                      (replicate (Z.to_nat (hashsize (Z.min hp kMaxNumLocksPow)))
                         (mk_seqlock true 0))
                      DEFAULT_MINIMUM_LOAD_FACTOR NO_MAXIMUM_HASHPOWER 0) l).
  { eapply all_migrated_replicate. reflexivity. }
  split; [|split].
  - unfold wf. cbn [hashpower hashpower_ buckets_ locks_].
    split; [lia|]. split; [rewrite length_replicate, hashsize_small by lia; reflexivity|].
    split; [apply Forall_replicate; unfold empty_bucket; apply length_replicate|].
    split; [|intros _; exact Hmig].
    rewrite length_replicate, hashsize_small; [reflexivity|].
    unfold kMaxNumLocksPow. lia.
  - intros j _ Hun. destruct Hun. apply Hmig.
  - unfold counters_sum, occupied_slots. cbn [buckets_ locks_].
    rewrite !zsum_replicate, occupied_in_empty_bucket. cbn [elem_counter]. lia.
Qed.

Lemma insert_inv fuel key val t :
  params_ok -> inv t -> wp (insert fuel key val) (keeps_inv t) t.
Proof. intros. unfold insert, upsert. apply uprase_fn_inv; assumption. Qed.

Lemma insert_all_inv fuel kvs :
  params_ok -> forall t, inv t -> wp (insert_all fuel kvs) ret_inv t.
Proof.
  intros Hpar. induction kvs as [|[k v] rest IH]; intros t Hinv; cbn [insert_all].
  - apply wp_ret. exact Hinv.
  - apply wp_bind. eapply wp_mono; [apply insert_inv; assumption|].
    intros [r|e|] t'; [|auto|auto]. intros [Hinv' _]. apply IH. exact Hinv'.
Qed.

Lemma cuckoo_change_capacity_inv mode auto fuel new_hp t :
  params_ok -> inv t ->
  wp (cuckoo_change_capacity mode auto fuel new_hp) (keeps_inv t) t.
Proof.
  intros Hpar Hinv. pose proof (inv_good t Hinv) as Hgood.
  unfold cuckoo_change_capacity. apply wp_bind, wp_get_table. apply wp_bind.
  destruct (check_resize_validity_cases auto t new_hp) as [[e He]|Hok];
    [eapply wp_eq; [exact He|exact I]|].
  eapply wp_eq; [exact Hok|]. cbn [status_eqb negb].
  apply wp_bind, wp_modify. apply wp_bind, wp_get_table.
  destruct (rehash_all_spec t Hpar Hgood) as ([Hwf1 Hlazy1] & Hk1 & _).
  set (t1 := rehash_all (hashpower t) t) in *.
  destruct (new_table _) as [new_map|e|] eqn:Hnew; [|apply wp_throw; exact I|exact I].
  pose proof (new_table_inv _ _ Hpar Hnew) as Hinv0.
  set (nm0 := set_max_num_worker_threads new_map (max_num_worker_threads t1)).
  assert (Hinv1 : inv nm0).
  { apply (inv_same_data new_map); [|exact Hinv0]. repeat split. }
  pose proof (insert_all_inv fuel (live_pairs t1) Hpar nm0 Hinv1) as Hall.
  unfold wp in Hall.
  destruct (insert_all fuel (live_pairs t1) nm0) as [[u|e|] nm]; cbn [fst snd] in Hall;
    [|apply wp_throw; exact I|exact I].
  apply wp_bind, wp_modify. apply wp_ret. split.
  - apply (inv_same_data nm); [|exact Hall]. repeat split.
  - eapply same_policy_trans; [apply keeps_same_policy; exact Hk1|].
    unfold same_policy. auto.
Qed.

Lemma rehash_inv fuel n t : params_ok -> inv t -> wp (rehash fuel n) (keeps_inv t) t.
Proof.
  intros Hpar Hinv. unfold rehash, cuckoo_rehash. apply wp_bind, wp_get_table.
  destruct (n =? hashpower t).
  - apply wp_ret. split; [exact Hinv|apply same_policy_refl].
  - apply wp_bind. eapply wp_mono; [apply cuckoo_change_capacity_inv; assumption|].
    intros [a|e|] t' Hk; [|exact I|exact I]. apply wp_ret. exact Hk.
Qed.

Lemma reserve_inv fuel n t : params_ok -> inv t -> wp (reserve fuel n) (keeps_inv t) t.
Proof.
  intros Hpar Hinv. unfold reserve, cuckoo_reserve. apply wp_bind, wp_get_table.
  destruct (_ =? hashpower t).
  - apply wp_ret. split; [exact Hinv|apply same_policy_refl].
  - apply wp_bind. eapply wp_mono; [apply cuckoo_change_capacity_inv; assumption|].
    intros [a|e|] t' Hk; [|exact I|exact I]. apply wp_ret. exact Hk.
Qed.

Lemma zsum_zero {A} (f : A -> Z) l : (forall x, x ∈ l -> f x = 0) -> zsum f l = 0.
Proof.
  intros H. pose proof (zsum_bounds f l 0 0) as Hb.
  destruct Hb as [H1 H2]; [|lia]. intros x Hx. rewrite (H x Hx). lia.
Qed.

Lemma cuckoo_clear_inv t : inv t -> inv (cuckoo_clear t).
Proof.
  intros ((Hhp & Hlen & Hall & Hlocks & _) & _ & _).
  assert (Hmig : forall l, migrated (cuckoo_clear t) l).
  { intros l. unfold migrated, get_lock, cuckoo_clear. cbn [locks_ set_locks].
    destruct (l <? 0); [reflexivity|]. rewrite list_lookup_fmap.
    destruct (locks_ (clear_buckets t) !! _); reflexivity. }
  split; [|split].
  - unfold wf, cuckoo_clear, clear_buckets.
    cbn [hashpower hashpower_ buckets_ locks_ set_locks set_buckets].
    rewrite !length_fmap. split; [exact Hhp|]. split; [exact Hlen|].
    split; [|split; [exact Hlocks|intros _; exact Hmig]].
    apply Forall_fmap. eapply Forall_impl; [exact Hall|].
    intros b Hb. cbn. rewrite length_fmap. exact Hb.
  - intros j _ Hun. destruct Hun. apply Hmig.
  - unfold counters_sum, occupied_slots, cuckoo_clear, clear_buckets.
    cbn [buckets_ locks_ set_locks set_buckets].
    rewrite !zsum_fmap.
    rewrite (zsum_zero (fun x : seqlock => elem_counter (mk_seqlock true 0)))
      by reflexivity.
    rewrite zsum_zero; [reflexivity|].
    intros b _. unfold occupied_in. rewrite zsum_fmap. apply zsum_zero. reflexivity.
Qed.

Lemma run_operation_inv fuel o t :
  params_ok -> inv t -> wp (run_operation fuel o) ret_inv t.
Proof.
  intros Hpar Hinv. destruct o; cbn [run_operation].
  - apply keeps_inv_ret_inv, wp_drop, find_inv; assumption.
  - apply keeps_inv_ret_inv, wp_drop. unfold find_copy. apply wp_bind.
    eapply wp_mono; [apply find_fn_inv; assumption|].
    intros [a|e|] t' Hk; [|exact I|exact I]. apply wp_ret. exact Hk.
  - apply keeps_inv_ret_inv, wp_drop, find_fn_inv; assumption.
  - apply keeps_inv_ret_inv, wp_drop. unfold contains. apply wp_fst, find_fn_inv; assumption.
  - apply keeps_inv_ret_inv, wp_drop. unfold update. apply update_fn_inv; assumption.
  - apply keeps_inv_ret_inv, wp_drop, update_fn_inv; assumption.
  - apply keeps_inv_ret_inv, wp_drop. unfold erase. apply erase_fn_inv; assumption.
  - apply keeps_inv_ret_inv, wp_drop, erase_fn_inv; assumption.
  - apply keeps_inv_ret_inv, wp_drop, insert_inv; assumption.
  - apply keeps_inv_ret_inv, wp_drop. unfold insert_or_assign, upsert.
    apply uprase_fn_inv; assumption.
  - apply keeps_inv_ret_inv, wp_drop. unfold upsert. apply uprase_fn_inv; assumption.
  - apply keeps_inv_ret_inv, wp_drop, uprase_fn_inv; assumption.
  - apply keeps_inv_ret_inv, wp_drop, rehash_inv; assumption.
  - apply keeps_inv_ret_inv, wp_drop, reserve_inv; assumption.
  - unfold clear. apply wp_modify. apply cuckoo_clear_inv. exact Hinv.
  - unfold minimum_load_factor_set.
    destruct (double_lt mlf double_zero); [apply wp_throw; exact I|].
    destruct (double_lt double_one mlf); [apply wp_throw; exact I|].
    apply wp_modify. apply (inv_same_data t); [|exact Hinv]. repeat split.
  - unfold maximum_hashpower_set, wp. destruct (mhp <? hashpower t); cbn [fst snd]; [exact I|].
    apply (inv_same_data t); [|exact Hinv]. repeat split.
  - apply wp_modify. apply (inv_same_data t); [|exact Hinv]. repeat split.
Qed.

Lemma run_operations_inv fuel ops :
  params_ok -> forall t, inv t -> wp (run_operations fuel ops) ret_inv t.
Proof.
  intros Hpar. induction ops as [|o rest IH]; intros t Hinv; cbn [run_operations].
  - apply wp_ret. exact Hinv.
  - apply wp_bind. eapply wp_mono; [apply run_operation_inv; assumption|].
    intros [a|e|] t' Hk; [|exact I|exact I]. apply IH. exact Hk.
Qed.

(** Under the invariant [size] is the sum of the counters. *)
Lemma inv_size t : params_ok -> inv t -> size t = counters_sum t.
Proof.
  intros (Hpos & _ & Hamax & Hfit) ((Hhp & Hlen & Hall & _) & _ & Hsum).
  apply size_counters_sum. rewrite Hsum. unfold occupied_slots.
  pose proof (zsum_bounds occupied_in (buckets_ t) 0 slot_per_bucket) as Hb.
  rewrite Hlen in Hb. rewrite Z2Nat.id in Hb by (apply Z.pow_nonneg; lia).
  assert (Hpow : 2 ^ hashpower t <= 2 ^ alloc_max_hashpower)
    by (apply Z.pow_le_mono_r; lia).
  assert (Hp0 : 0 < 2 ^ hashpower t) by (apply Z.pow_pos_nonneg; lia).
  destruct Hb as [Hlo Hhi].
  { intros b Hb. rewrite Forall_forall in Hall. specialize (Hall b Hb).
    unfold occupied_in.
    pose proof (zsum_bounds slot_count b 0 1) as Hc. rewrite Hall in Hc.
    unfold slot_per_bucket. destruct Hc as [H1 H2]; [|lia].
    intros c _. destruct c; cbn; lia. }
  nia.
Qed.

End Preservation.

(** ** C2: the counters, the occupied slots and [size] *)

(** C2.  Take the table the constructor builds and run on it any
    sequence of operations of the interface (lookups, updates, erases,
    inserts, upserts, [rehash], [reserve], [clear] and the policy
    setters), each of which returns.  Then the table satisfies the
    invariant, the sum over all stripes of the element counter is the
    number of occupied slots, and [size()] returns that sum.  The
    hypothesis [params_ok] collects the static assertions on the slot
    count and the bound of the allocator. *)
Theorem counters_sum_is_occupied_slots `{params : Params}
        (n : Z) (fuel : nat) (ops : list operation) (t0 t : table) :
  params_ok ->
  new_table n = Ret t0 ->
  run_operations fuel ops t0 = (Ret tt, t) ->
  inv t /\ counters_sum t = occupied_slots t /\ size t = occupied_slots t.
Proof.
  intros Hpar Hnew Hrun.
  pose proof (new_table_inv n t0 Hpar Hnew) as Hinv0.
  pose proof (run_operations_inv fuel ops Hpar t0 Hinv0) as Hwp.
  unfold wp in Hwp. rewrite Hrun in Hwp. cbn [fst snd ret_inv] in Hwp.
  pose proof (inv_size t Hpar Hwp) as Hsize.
  pose proof Hwp as (_ & _ & Hsum).
  split; [exact Hwp|]. split; [exact Hsum|]. congruence.
Qed.

(** The witness: the sample operations on a fresh table. *)
Lemma counters_sum_is_occupied_slots_witness :
  let t := snd (run_operations 10 sample_operations (int_table 8)) in
  counters_sum t = occupied_slots t /\ size t = 5.
Proof.
  cbv zeta.
  destruct (counters_sum_is_occupied_slots (params := int_params) 8 10
              sample_operations (int_table 8)
              (snd (run_operations 10 sample_operations (int_table 8)))
              int_params_ok ltac:(vm_compute; reflexivity) ltac:(vm_compute; reflexivity))
    as (_ & Hsum & Hsize).
  split; [exact Hsum|]. vm_compute. reflexivity.
Defined.

(** ** An upsert of a key that is there *)

Section Present.
Context {params : Params}.

Lemma lock_and_rehash_migrated l t : migrated t l -> lock_and_rehash l t = t.
Proof. unfold migrated, lock_and_rehash. intros ->. reflexivity. Qed.

Lemma lock_two_migrated hp i1 i2 t :
  hashpower t = hp -> stripes_migrated t i1 i2 ->
  exists b, lock_two normal_mode hp i1 i2 t = (Ret b, t) /\ tb_i1 b = i1 /\ tb_i2 b = i2 /\
            exists l, lock1 b = Some l.
Proof.
  intros Hhp [Hm1 Hm2]. unfold lock_two.
  destruct (lock_ind i2 <? lock_ind i1);
    unfold bind, modify, check_hashpower, ret;
    rewrite ?(lock_and_rehash_migrated _ t Hm1), ?(lock_and_rehash_migrated _ t Hm2);
    rewrite Hhp, Z.eqb_refl;
    match goal with |- context [negb ?c] => destruct c end; cbn [negb];
    rewrite ?(lock_and_rehash_migrated _ t Hm1), ?(lock_and_rehash_migrated _ t Hm2);
    eexists; (split; [reflexivity|]); cbn [TwoBuckets_normal tb_i1 tb_i2 lock1]; eauto.
Qed.

Lemma snapshot_migrated n hv t :
  stripes_migrated t (index_hash (hashpower t) (hv_hash hv))
                   (alt_index (hashpower t) (hv_partial hv)
                      (index_hash (hashpower t) (hv_hash hv))) ->
  exists b, snapshot_and_lock_two normal_mode (S n) hv t = (Ret b, t) /\
            tb_i1 b = index_hash (hashpower t) (hv_hash hv) /\
            tb_i2 b = alt_index (hashpower t) (hv_partial hv)
                        (index_hash (hashpower t) (hv_hash hv)) /\
            exists l, lock1 b = Some l.
Proof.
  intros Hmig. cbn [snapshot_and_lock_two].
  unfold bind at 1, get_table at 1, catch_hashpower_changed.
  destruct (lock_two_migrated (hashpower t) _ _ t eq_refl Hmig) as (b & Hrun & H1 & H2 & Hl).
  rewrite Hrun. exists b. auto.
Qed.

Lemma try_find_insert_bucket_read (b : bucket) p key :
  try_read_from_bucket b p key
  = if fst (try_find_insert_bucket b p key) then -1
    else snd (try_find_insert_bucket b p key).
Proof. apply try_find_insert_loop_read. Qed.

Lemma cuckoo_insert_present fuel hv b key t pi ps :
  cuckoo_find key (hv_partial hv) (tb_i1 b) (tb_i2 b) t = mk_pos pi ps ok ->
  cuckoo_insert normal_mode fuel hv b key t
  = (Ret (mk_pos pi ps failure_key_duplicated, b), t).
Proof.
  unfold cuckoo_find, cuckoo_insert. unfold bind at 1, get_table at 1.
  rewrite (try_find_insert_bucket_read (get_bucket t (tb_i1 b))).
  destruct (try_find_insert_bucket (get_bucket t (tb_i1 b)) (hv_partial hv) key)
    as [[|] res1] eqn:H1; cbn [fst snd negb].
  - change (-1 =? -1) with true. cbn [negb].
    rewrite (try_find_insert_bucket_read (get_bucket t (tb_i2 b))).
    destruct (try_find_insert_bucket (get_bucket t (tb_i2 b)) (hv_partial hv) key)
      as [[|] res2] eqn:H2; cbn [fst snd negb].
    + change (-1 =? -1) with true. cbn [negb]. discriminate.
    + destruct (try_find_insert_bucket_read_false _ _ _ _ H2) as [_ Hne].
      apply Z.eqb_neq in Hne. rewrite Hne. cbn [negb].
      intros H. inversion H; subst. reflexivity.
  - destruct (try_find_insert_bucket_read_false _ _ _ _ H1) as [_ Hne].
    apply Z.eqb_neq in Hne. rewrite Hne. cbn [negb].
    intros H. inversion H; subst. reflexivity.
Qed.

(** An upsert of a key that is found only runs the functor. *)
Lemma uprase_fn_present n key (g : V -> V) val t pi ps sl :
  found_at key t pi ps sl ->
  uprase_fn (S n) key (fun v => (g v, false)) val t
  = (Ret false, set_mapped pi ps (g (s_mapped sl)) t).
Proof.
  intros (Hmig & Hfind & Hcell & _).
  destruct (snapshot_migrated n (hashed_key key) t Hmig) as (b & Hsnap & H1 & H2 & _).
  unfold uprase_fn. unfold bind at 1. rewrite Hsnap.
  unfold bind at 1. cbn [cuckoo_insert_loop].
  unfold bind at 1, get_table at 1. unfold bind at 1.
  rewrite (cuckoo_insert_present (S n) (hashed_key key) b key t pi ps)
    by (rewrite H1, H2; exact Hfind).
  cbn [pos_status ret status_eqb].
  unfold bind at 1, get_table at 1. unfold mapped_at. cbn [pos_index pos_slot].
  unfold cell in Hcell. rewrite Hcell. reflexivity.
Qed.

Lemma set_buckets_same t : set_buckets t (buckets_ t) = t.
Proof. destruct t. reflexivity. Qed.

(** Writing back what a slot holds changes nothing. *)
Lemma update_slot_same t i s c :
  0 <= i -> 0 <= s -> cell t i s = Some c -> update_slot i s (Some c) t = t.
Proof.
  intros Hi Hs Hc. unfold update_slot.
  rewrite (proj2 (Z.ltb_ge i 0)) by lia. rewrite (proj2 (Z.ltb_ge s 0)) by lia. cbn [orb].
  transitivity (set_buckets t (buckets_ t)); [|apply set_buckets_same]. f_equal.
  unfold cell, get_bucket, slot_at in Hc.
  rewrite (proj2 (Z.ltb_ge i 0)) in Hc by lia. rewrite (proj2 (Z.ltb_ge s 0)) in Hc by lia.
  destruct (buckets_ t !! Z.to_nat i) as [b|] eqn:Hb.
  - cbn [default] in Hc. unfold id in Hc.
    apply list_eq. intros k. destruct (decide (k = Z.to_nat i)) as [->|Hne].
    + rewrite list_lookup_alter_eq, Hb. cbn. f_equal.
      apply list_insert_id.
      destruct (b !! Z.to_nat s) as [c0|] eqn:Hc0; [|inversion Hc].
      change (c0 = Some c) in Hc. subst c0. reflexivity.
    + rewrite list_lookup_alter_ne by congruence. reflexivity.
  - apply list_eq. intros k. destruct (decide (k = Z.to_nat i)) as [->|Hne].
    + rewrite list_lookup_alter_eq, Hb. reflexivity.
    + rewrite list_lookup_alter_ne by congruence. reflexivity.
Qed.

Lemma set_mapped_same t i s sl :
  0 <= i -> 0 <= s -> cell t i s = Some sl -> set_mapped i s (s_mapped sl) t = t.
Proof.
  intros Hi Hs Hc. unfold set_mapped. pose proof Hc as Hc'. unfold cell in Hc'. rewrite Hc'.
  rewrite kv_slot_eta. apply update_slot_same; assumption.
Qed.

End Present.

(** ** C1: an insert followed by lookups *)

(** C1.  On a table that satisfies the invariant, for a key equal to
    itself: if [insert(key, val)] returns [true], then [find(key)]
    returns [val]; a second [insert(key, val')] returns [false] and leaves
    the table as it is, so that [find(key)] still returns [val]. *)
Theorem insert_find_round_trip `{params : Params}
        (fuel : nat) (key : K) (val val' : V) (t t1 : table) :
  params_ok -> inv t -> key_eq key key = true ->
  insert fuel key val t = (Ret true, t1) ->
  find fuel key t1 = (Ret val, t1) /\
  exists t2, insert fuel key val' t1 = (Ret false, t2) /\ t2 = t1 /\
             find fuel key t2 = (Ret val, t2).
Proof.
  intros Hpar Hinv Hrefl Hrun.
  destruct fuel as [|n]; [discriminate|].
  pose proof (uprase_fn_spec (S n) key (fun v => (v, false)) val t Hpar Hinv) as Hwp.
  unfold wp in Hwp.
  change (insert (S n) key val t) with (uprase_fn (S n) key (fun v => (v, false)) val t) in Hrun.
  rewrite Hrun in Hwp. cbn [fst snd] in Hwp.
  destruct Hwp as (_ & _ & _ & Hfound & _).
  destruct (Hfound Hrefl) as (pi & ps & Hat).
  assert (Hfind : find (S n) key t1 = (Ret val, t1)).
  { unfold find, bind. rewrite (found_at_read n key t1 pi ps _ Hat). reflexivity. }
  split; [exact Hfind|]. exists t1.
  split; [|split; [reflexivity|exact Hfind]].
  pose proof (uprase_fn_present n key (fun v0 => v0) val' t1 pi ps _ Hat) as Hp.
  cbv beta in Hp.
  change (insert (S n) key val' t1) with (uprase_fn (S n) key (fun v => (v, false)) val' t1).
  rewrite Hp.
  destruct Hat as (_ & _ & Hcell & [Hpi Hps]).
  rewrite (set_mapped_same t1 pi ps _ ltac:(lia) ltac:(lia) Hcell). reflexivity.
Qed.

(** The witness: key 9 goes into a table whose bucket for it is full, so
    the insert expands the table first. *)
Lemma insert_find_round_trip_witness :
  let t1 := snd (insert 10 9 90 (int_table_with 8 [(1, 10); (3, 30); (5, 50); (7, 70)])) in
  find 10 9 t1 = (Ret 90, t1) /\
  exists t2, insert 10 9 91 t1 = (Ret false, t2) /\ t2 = t1 /\ find 10 9 t2 = (Ret 90, t2).
Proof.
  cbv zeta.
  assert (Hinv : inv (int_table_with 8 [(1, 10); (3, 30); (5, 50); (7, 70)])).
  { apply inv_check_sound. vm_compute. reflexivity. }
  apply (insert_find_round_trip (params := int_params) 10 9 90 91
           (int_table_with 8 [(1, 10); (3, 30); (5, 50); (7, 70)]) _ int_params_ok Hinv).
  - reflexivity.
  - vm_compute. reflexivity.
Defined.

(** ** C7: [upsert] and [insert_or_assign] *)

(** C7.  [upsert] is the specification's wrapper of [uprase_fn] and
    [insert_or_assign] the specification's instance of [upsert]: the same
    result and the same table in every state.  On a table that satisfies
    the invariant an [upsert] (hence an [insert_or_assign]) that returns
    [true] has added one pair, with the given key and value, and kept the
    others; one that returns [false] has added none, and a pair with an
    equal key was there before. *)
Theorem upsert_refines_uprase_fn `{params : Params}
        (fuel : nat) (key : K) (modifier : V -> V) (val : V) (t t' : table) (r : bool) :
  params_ok -> inv t ->
  upsert fuel key modifier val t = (Ret r, t') ->
  upsert fuel key modifier val = upsert_spec fuel key modifier val /\
  insert_or_assign fuel key val = insert_or_assign_spec fuel key val /\
  inv t' /\
  size t' = size t + (if r then 1 else 0) /\
  if r
  then stored t' (mk_slot (hv_partial (hashed_key key)) key val) /\
       (forall x, stored t x -> stored t' x)
  else exists sl, stored t sl /\ key_eq (s_key sl) key = true.
Proof.
  intros Hpar Hinv Hrun.
  split; [reflexivity|]. split; [reflexivity|].
  pose proof (uprase_fn_spec fuel key (fun v => (modifier v, false)) val t Hpar Hinv) as Hwp.
  unfold wp in Hwp. unfold upsert in Hrun. rewrite Hrun in Hwp. cbn [fst snd] in Hwp.
  pose proof (inv_size t Hpar Hinv) as Hs. pose proof Hinv as (_ & _ & Hsum).
  destruct r.
  - destruct Hwp as (Hinv' & _ & Hocc & _ & Hkeep & Hnew).
    pose proof (inv_size t' Hpar Hinv') as Hs'. pose proof Hinv' as (_ & _ & Hsum').
    split; [exact Hinv'|]. split; [lia|]. split; assumption.
  - destruct Hwp as (Hinv' & _ & sl & Hst & Heq & Hocc). cbn [snd] in Hocc.
    pose proof (inv_size t' Hpar Hinv') as Hs'. pose proof Hinv' as (_ & _ & Hsum').
    split; [exact Hinv'|]. split; [lia|]. exists sl. auto.
Qed.

(** The witness: an upsert of key 5, which is there, and of key 6,
    which is not. *)
Lemma upsert_refines_uprase_fn_witness :
  fst (@upsert int_params 10 5 (fun v => v + 1) 0 (int_table_with 8 [(1, 10); (5, 50)]))
  = Ret false /\
  size (snd (@upsert int_params 10 5 (fun v => v + 1) 0
               (int_table_with 8 [(1, 10); (5, 50)]))) = 2.
Proof.
  assert (Hinv : inv (int_table_with 8 [(1, 10); (5, 50)])).
  { apply inv_check_sound. vm_compute. reflexivity. }
  destruct (@upsert_refines_uprase_fn int_params 10 5 (fun v => v + 1) 0
              (int_table_with 8 [(1, 10); (5, 50)])
              (snd (@upsert int_params 10 5 (fun v => v + 1) 0
                      (int_table_with 8 [(1, 10); (5, 50)])))
              false int_params_ok Hinv ltac:(vm_compute; reflexivity))
    as (_ & _ & _ & Hsize & _).
  split; [vm_compute; reflexivity|]. rewrite Hsize. vm_compute. reflexivity.
Defined.

(** ** The explicit resizes do not read the load-factor floor *)

Section Floor.
Context {params : Params}.
Variable mlf : spec_float.

Local Abbreviation floor t := (set_minimum_load_factor t mlf).













End Floor.

(** ** C6: the load-factor floor *)

Section FloorTest.
Context {params : Params}.



End FloorTest.




(** ** Erasing and updating a key that is found *)

Section FoundOps.
Context {params : Params}.

(** The state of [erase_fn] and [update_fn] once the two buckets are
    locked and searched. *)
Lemma snapshot_find n key t :
  params_ok -> good t ->
  exists b t0,
    snapshot_and_lock_two normal_mode (S n) (hashed_key key) t = (Ret b, t0) /\
    good t0 /\ keeps t t0 /\
    ((exists pi ps sl l,
         cuckoo_find key (hv_partial (hashed_key key)) (tb_i1 b) (tb_i2 b) t0
         = mk_pos pi ps ok /\
         found_at key t0 pi ps sl /\ key_eq (s_key sl) key = true /\
         lock1 b = Some l /\ 0 <= l /\ (Z.to_nat l < length (locks_ t0))%nat) \/
     (cuckoo_find key (hv_partial (hashed_key key)) (tb_i1 b) (tb_i2 b) t0
      = mk_pos 0 0 failure_key_not_found /\
      forall m, read_value (S m) key t0 = (Ret None, t0))).
Proof.
  intros Hpar Hgood.
  destruct (snapshot_spec n (hashed_key key) t Hpar Hgood)
    as (b & t0 & Hsnap & Hg0 & Hk0 & _ & Hal & Hheld & Hmig).
  exists b, t0. split; [exact Hsnap|]. split; [exact Hg0|]. split; [exact Hk0|].
  pose proof (good_hashpower t0 Hpar Hg0) as Hhp.
  pose proof (aligned_buckets_in _ t0 b Hhp Hal) as Hb. pose proof Hg0 as [Hwf0 _].
  destruct (held_in_range t0 b Hwf0 Hb Hheld) as (l & Hl1 & Hl & Hlt).
  pose proof Hal as [H1 H2].
  destruct (cuckoo_find_status key (hv_partial (hashed_key key)) (tb_i1 b) (tb_i2 b) t0)
    as [[Hs Heta]|[Hs [Hn1 Hn2]]].
  - left. destruct (cuckoo_find_ok _ _ _ _ _ _ _ Heta) as (Hpi & Hps & sl & Hcell & Hm).
    eexists _, _, sl, l. split; [exact Heta|].
    split; [|split; [eapply key_matches_key_eq; exact Hm|auto]].
    unfold found_at. cbv zeta. rewrite <- H1, <- H2.
    split; [exact Hmig|]. split; [exact Heta|]. split; [exact Hcell|].
    destruct Hb. split; [destruct Hpi as [-> | ->]; assumption|exact Hps].
  - right.
    assert (Hnf : cuckoo_find key (hv_partial (hashed_key key)) (tb_i1 b) (tb_i2 b) t0
                  = mk_pos 0 0 failure_key_not_found).
    { unfold cuckoo_find. rewrite Hn1, Hn2. reflexivity. }
    split; [exact Hnf|]. intros m. rewrite read_value_migrated.
    + unfold read_result. rewrite <- H1, <- H2, Hnf. reflexivity.
    + rewrite <- H1, <- H2. exact Hmig.
Qed.

(** Writing a mapped value keeps the key findable where it is. *)
Lemma found_at_set_mapped key t pi ps sl v :
  good t -> found_at key t pi ps sl ->
  found_at key (set_mapped pi ps v t) pi ps (mk_slot (s_partial sl) (s_key sl) v).
Proof.
  intros Hgood (Hmig & Hfind & Hcell & Hin).
  unfold set_mapped. pose proof Hcell as Hcell'. unfold cell in Hcell'. rewrite Hcell'.
  destruct (write_spec t pi ps (Some (mk_slot (s_partial sl) (s_key sl) v)) Hgood Hin
              ltac:(right; left; rewrite Hcell; eauto))
    as (_ & Hhp & _ & _ & _ & Hc).
  set (t' := update_slot pi ps _ t) in *.
  assert (Hm : forall k, migrated t' k <-> migrated t k).
  { intros k. unfold t'. apply migrated_update_slot. }
  assert (Hread : forall i, try_read_from_bucket (get_bucket t' i) (hv_partial (hashed_key key)) key
                            = try_read_from_bucket (get_bucket t i) (hv_partial (hashed_key key)) key).
  { intros i. unfold try_read_from_bucket. apply try_read_from_bucket_loop_ext.
    intros j _. fold (cell t i j). fold (cell t' i j). rewrite Hc.
    destruct (decide (i = pi /\ j = ps)) as [[-> ->]|].
    - rewrite Hcell. cbn [s_partial s_key]. auto.
    - destruct (cell t i j); auto. }
  unfold found_at. cbv zeta. rewrite Hhp.
  split; [destruct Hmig; split; apply Hm; assumption|].
  split; [unfold cuckoo_find; rewrite !Hread; exact Hfind|].
  split; [rewrite Hc; destruct (decide _); [reflexivity|tauto]|exact Hin].
Qed.

End FoundOps.

Section FoundOps2.
Context {params : Params}.

Lemma contains_not_found n key t :
  (forall m, read_value (S m) key t = (Ret None, t)) ->
  contains (S n) key t = (Ret false, t).
Proof. intros H. unfold contains, find_fn, bind. rewrite H. reflexivity. Qed.

(** An upsert that finds the key leaves it findable with the modified
    value. *)
Lemma uprase_fn_false_found fuel key (g : V -> V) val t :
  params_ok -> inv t ->
  wp (uprase_fn fuel key (fun v => (g v, false)) val)
     (fun o t' =>
        match o with
        | Ret false =>
            exists pi ps sl, found_at key t' pi ps
                               (mk_slot (s_partial sl) (s_key sl) (g (s_mapped sl)))
        | _ => True
        end) t.
Proof.
  intros Hpar Hinv. pose proof (inv_good t Hinv) as Hgood.
  unfold uprase_fn. apply wp_bind. apply wp_snapshot; [exact Hpar|exact Hgood| |exact I].
  intros b0 t0 Hg0 Hk0 Hal0 Hheld0 Hmig0.
  apply wp_bind.
  eapply wp_mono;
    [apply (cuckoo_insert_loop_spec fuel fuel (hashed_key key) key Hpar b0 t0 Hg0 Hal0
              Hheld0 Hmig0)|].
  intros [[pos b1]|e|] t1; [|auto|auto].
  intros (Hg1 & Hc1 & Hal1 & Hcase).
  pose proof (good_hashpower t1 Hpar Hg1) as Hhp1.
  destruct Hcase as [[Hst Hsite]|[Hst Hsite]]; rewrite Hst; cbn [status_eqb].
  - apply wp_bind. unfold wp at 1.
    destruct (add_to_bucket _ _ _ _ _ _ t1) as [[u|e|] t2]; cbn [fst snd]; exact I.
  - destruct (duplicate_site_found key t1 b1 pos Hhp1 Hal1 Hsite) as (sl & Hat & Heq).
    apply wp_bind, wp_get_table.
    unfold mapped_at. pose proof Hat as (Hm & Hf & Hcell & Hin).
    pose proof Hcell as Hcell'. unfold cell in Hcell'. rewrite Hcell'.
    cbn [fmap option_fmap option_map].
    apply wp_bind, wp_modify. apply wp_bind, wp_ret. apply wp_ret.
    exists (pos_index pos), (pos_slot pos), sl.
    apply found_at_set_mapped; [exact Hg1|exact Hat].
Qed.

End FoundOps2.

(** ** Erase, update and insert-or-assign *)

(** X1.  On a table that satisfies the invariant, an [erase(key)] that
    returns keeps the invariant and the hashpower.  If it returns [true] a
    pair with an equal key was stored, the size decreases by one and every
    other pair stays; if it returns [false] the pairs are the same and a
    following [contains(key)] returns [false]. *)
Theorem erase_removes_one_pair `{params : Params}
        (fuel : nat) (key : K) (t t' : table) (r : bool) :
  params_ok -> inv t ->
  erase fuel key t = (Ret r, t') ->
  inv t' /\ hashpower t' = hashpower t /\
  size t' = size t - (if r then 1 else 0) /\
  (forall x, stored t' x -> stored t x) /\
  if r
  then exists sl, stored t sl /\ key_eq (s_key sl) key = true /\
                  forall x, stored t x -> x <> sl -> stored t' x
  else (forall x, stored t x -> stored t' x) /\
       contains fuel key t' = (Ret false, t').
Proof.
  intros Hpar Hinv Hrun. destruct fuel as [|n]; [discriminate|].
  pose proof (inv_good t Hinv) as Hgood. pose proof Hinv as (_ & _ & Hsum).
  destruct (snapshot_find n key t Hpar Hgood) as (b & t0 & Hsnap & Hg0 & Hk0 & Hcase).
  pose proof Hk0 as (Hhp0 & Hpol0 & _ & Hcs0 & Ho0 & Hst0 & _).
  unfold erase, erase_fn in Hrun. unfold bind at 1 in Hrun. rewrite Hsnap in Hrun.
  unfold bind at 1, get_table at 1 in Hrun.
  destruct Hcase as [(pi & ps & sl & l & Hfind & Hat & Heq & Hl1 & Hl & Hlt)|[Hnf Hread]].
  - rewrite Hfind in Hrun. cbn [pos_status status_eqb] in Hrun.
    destruct Hat as (Hmig & _ & Hcell & Hin).
    unfold mapped_at in Hrun. cbn [pos_index pos_slot] in Hrun.
    pose proof Hcell as Hcell'. unfold cell in Hcell'. rewrite Hcell' in Hrun.
    cbn [fmap option_fmap option_map] in Hrun. rewrite Hl1 in Hrun.
    unfold del_from_bucket, bind, modify, ret in Hrun. inversion Hrun; subst r t'; clear Hrun.
    destruct (modify_spec t0 pi ps sl (s_mapped sl) true l Hg0 Hin Hcell Hl Hlt)
      as ([Hwf' Hlazy'] & Hhp' & _ & Hcs' & Ho' & Hc' & _).
    cbv zeta in *.
    set (t' := decr_elem_counter l (eraseKV pi ps (set_mapped pi ps (s_mapped sl) t0))) in *.
    assert (Hinv' : inv t') by (split; [exact Hwf'|split; [exact Hlazy'|lia]]).
    split; [exact Hinv'|]. split; [congruence|].
    split; [rewrite (inv_size t Hpar Hinv), (inv_size t' Hpar Hinv'); lia|].
    split.
    + intros x (i & s & Hx). rewrite Hc' in Hx. apply Hst0.
      destruct (decide _); [discriminate|]. exists i, s. exact Hx.
    + exists sl. split; [apply Hst0; exists pi, ps; exact Hcell|]. split; [exact Heq|].
      intros x Hx Hne. apply Hst0 in Hx. destruct Hx as (i & s & Hx). exists i, s.
      rewrite Hc'. destruct (decide _) as [[-> ->]|]; [congruence|exact Hx].
  - rewrite Hnf in Hrun. cbn [pos_status status_eqb] in Hrun.
    inversion Hrun; subst r t'; clear Hrun.
    destruct Hg0 as [Hwf0 Hlazy0].
    pose proof (inv_keeps t t0 Hwf0 Hlazy0 Hk0 Hinv) as Hinv0.
    split; [exact Hinv0|]. split; [exact Hhp0|].
    split; [rewrite (inv_size t Hpar Hinv), (inv_size t0 Hpar Hinv0); lia|].
    split; [intros x; apply Hst0|].
    split; [intros x; apply Hst0|apply contains_not_found; exact Hread].
Qed.

(** The witness: key 3 is erased from a table that holds it. *)
Lemma erase_removes_one_pair_witness :
  fst (@erase int_params 5 3 (int_table_with 8 [(1, 10); (3, 30)])) = Ret true /\
  size (snd (@erase int_params 5 3 (int_table_with 8 [(1, 10); (3, 30)]))) = 1.
Proof.
  assert (Hinv : inv (int_table_with 8 [(1, 10); (3, 30)])).
  { apply inv_check_sound. vm_compute. reflexivity. }
  destruct (@erase_removes_one_pair int_params 5 3 (int_table_with 8 [(1, 10); (3, 30)])
              (snd (@erase int_params 5 3 (int_table_with 8 [(1, 10); (3, 30)]))) true
              int_params_ok Hinv ltac:(vm_compute; reflexivity))
    as (_ & _ & Hsize & _).
  split; [vm_compute; reflexivity|]. rewrite Hsize. vm_compute. reflexivity.
Defined.

(** X2.  On a table that satisfies the invariant, an [update(key, val)]
    that returns keeps the invariant, the hashpower and the size.  If it
    returns [true] a following [find(key)] returns [val]; if it returns
    [false] the pairs are the same and a following [contains(key)] returns
    [false]. *)
Theorem update_then_find `{params : Params}
        (fuel : nat) (key : K) (val : V) (t t' : table) (r : bool) :
  params_ok -> inv t ->
  update fuel key val t = (Ret r, t') ->
  inv t' /\ hashpower t' = hashpower t /\ size t' = size t /\
  if r
  then find fuel key t' = (Ret val, t')
  else (forall x, stored t' x <-> stored t x) /\
       contains fuel key t' = (Ret false, t').
Proof.
  intros Hpar Hinv Hrun. destruct fuel as [|n]; [discriminate|].
  pose proof (inv_good t Hinv) as Hgood. pose proof Hinv as (_ & _ & Hsum).
  destruct (snapshot_find n key t Hpar Hgood) as (b & t0 & Hsnap & Hg0 & Hk0 & Hcase).
  pose proof Hk0 as (Hhp0 & Hpol0 & _ & Hcs0 & Ho0 & Hst0 & _).
  unfold update, update_fn in Hrun. unfold bind at 1 in Hrun. rewrite Hsnap in Hrun.
  unfold bind at 1, get_table at 1 in Hrun.
  destruct Hcase as [(pi & ps & sl & l & Hfind & Hat & Heq & Hl1 & Hl & Hlt)|[Hnf Hread]].
  - rewrite Hfind in Hrun. cbn [pos_status status_eqb] in Hrun.
    pose proof Hat as (Hmig & _ & Hcell & Hin).
    unfold mapped_at in Hrun. cbn [pos_index pos_slot] in Hrun.
    pose proof Hcell as Hcell'. unfold cell in Hcell'. rewrite Hcell' in Hrun.
    cbn [fmap option_fmap option_map] in Hrun.
    unfold bind, modify, ret in Hrun. inversion Hrun; subst r t'; clear Hrun.
    destruct (modify_spec t0 pi ps sl val false l Hg0 Hin Hcell Hl Hlt)
      as ([Hwf' Hlazy'] & Hhp' & _ & Hcs' & Ho' & _).
    cbv zeta in *.
    assert (Hinv' : inv (set_mapped pi ps val t0))
      by (split; [exact Hwf'|split; [exact Hlazy'|lia]]).
    split; [exact Hinv'|]. split; [congruence|].
    split; [rewrite (inv_size t Hpar Hinv), (inv_size _ Hpar Hinv'); lia|].
    pose proof (found_at_set_mapped key t0 pi ps sl val Hg0 Hat) as Hat'.
    unfold find, bind. rewrite (found_at_read n key _ pi ps _ Hat'). reflexivity.
  - rewrite Hnf in Hrun. cbn [pos_status status_eqb] in Hrun.
    inversion Hrun; subst r t'; clear Hrun.
    destruct Hg0 as [Hwf0 Hlazy0].
    pose proof (inv_keeps t t0 Hwf0 Hlazy0 Hk0 Hinv) as Hinv0.
    split; [exact Hinv0|]. split; [exact Hhp0|].
    split; [rewrite (inv_size t Hpar Hinv), (inv_size t0 Hpar Hinv0); lia|].
    split; [exact Hst0|apply contains_not_found; exact Hread].
Qed.

(** The witness: the value of key 3 is replaced. *)
Lemma update_then_find_witness :
  fst (@find int_params 5 3
         (snd (@update int_params 5 3 33 (int_table_with 8 [(1, 10); (3, 30)]))))
  = Ret 33.
Proof.
  assert (Hinv : inv (int_table_with 8 [(1, 10); (3, 30)])).
  { apply inv_check_sound. vm_compute. reflexivity. }
  destruct (@update_then_find int_params 5 3 33 (int_table_with 8 [(1, 10); (3, 30)])
              (snd (@update int_params 5 3 33 (int_table_with 8 [(1, 10); (3, 30)]))) true
              int_params_ok Hinv ltac:(vm_compute; reflexivity))
    as (_ & _ & _ & Hfind).
  rewrite Hfind. reflexivity.
Defined.

(** X3.  On a table that satisfies the invariant, for a key equal to
    itself: after an [insert_or_assign(key, val)] that returns, whether it
    inserted the pair or assigned to the one that was there, [find(key)]
    returns [val]. *)
Theorem insert_or_assign_then_find `{params : Params}
        (fuel : nat) (key : K) (val : V) (t t' : table) (r : bool) :
  params_ok -> inv t -> key_eq key key = true ->
  insert_or_assign fuel key val t = (Ret r, t') ->
  find fuel key t' = (Ret val, t').
Proof.
  intros Hpar Hinv Hrefl Hrun. destruct fuel as [|n]; [discriminate|].
  change (insert_or_assign (S n) key val t)
    with (uprase_fn (S n) key (fun v => ((fun _ => val) v, false)) val t) in Hrun.
  destruct r.
  - pose proof (uprase_fn_spec (S n) key (fun v => ((fun _ => val) v, false)) val t
                  Hpar Hinv) as Hwp.
    unfold wp in Hwp. rewrite Hrun in Hwp. cbn [fst snd] in Hwp.
    destruct Hwp as (_ & _ & _ & Hfound & _). destruct (Hfound Hrefl) as (pi & ps & Hat).
    unfold find, bind. rewrite (found_at_read n key t' pi ps _ Hat). reflexivity.
  - pose proof (uprase_fn_false_found (S n) key (fun _ => val) val t Hpar Hinv) as Hwp.
    unfold wp in Hwp. rewrite Hrun in Hwp. cbn [fst snd] in Hwp.
    destruct Hwp as (pi & ps & sl & Hat).
    unfold find, bind. rewrite (found_at_read n key t' pi ps _ Hat). reflexivity.
Qed.

(** The witness: key 3 is assigned, key 4 is inserted. *)
Lemma insert_or_assign_then_find_witness :
  fst (@find int_params 5 3
         (snd (@insert_or_assign int_params 5 3 33 (int_table_with 8 [(1, 10); (3, 30)]))))
  = Ret 33.
Proof.
  assert (Hinv : inv (int_table_with 8 [(1, 10); (3, 30)])).
  { apply inv_check_sound. vm_compute. reflexivity. }
  rewrite (@insert_or_assign_then_find int_params 5 3 33 (int_table_with 8 [(1, 10); (3, 30)])
             (snd (@insert_or_assign int_params 5 3 33 (int_table_with 8 [(1, 10); (3, 30)])))
             false int_params_ok Hinv ltac:(reflexivity) ltac:(vm_compute; reflexivity)).
  reflexivity.
Defined.

Section Emptiness.
Context {params : Params}.

Lemma zsum_nonneg {A} (f : A -> Z) l : (forall y, y ∈ l -> 0 <= f y) -> 0 <= zsum f l.
Proof.
  induction l as [|y l IH]; intros Hnn; [cbn; lia|].
  rewrite zsum_cons.
  assert (0 <= f y) by (apply Hnn; left).
  assert (0 <= zsum f l); [|lia].
  apply IH. intros z Hz. apply Hnn. right. exact Hz.
Qed.

Lemma zsum_elem_le {A} (f : A -> Z) l x :
  (forall y, y ∈ l -> 0 <= f y) -> x ∈ l -> f x <= zsum f l.
Proof.
  induction l as [|y l IH]; intros Hnn Hx; [inversion Hx|].
  rewrite zsum_cons.
  assert (Hl : 0 <= zsum f l).
  { apply zsum_nonneg. intros z Hz. apply Hnn. right. exact Hz. }
  apply elem_of_cons in Hx. destruct Hx as [->|Hx].
  - lia.
  - assert (0 <= f y) by (apply Hnn; left).
    assert (f x <= zsum f l); [|lia].
    apply IH; [|exact Hx]. intros z Hz. apply Hnn. right. exact Hz.
Qed.

Lemma zsum_zero_inv {A} (f : A -> Z) l x :
  (forall y, y ∈ l -> 0 <= f y) -> zsum f l = 0 -> x ∈ l -> f x = 0.
Proof.
  intros Hnn Hz Hx. pose proof (zsum_elem_le f l x Hnn Hx). specialize (Hnn x Hx). lia.
Qed.

Lemma slot_count_nonneg c : 0 <= slot_count c.
Proof. destruct c; cbn; lia. Qed.

Lemma occupied_in_nonneg b : 0 <= occupied_in b.
Proof.
  unfold occupied_in. apply zsum_nonneg. intros; apply slot_count_nonneg.
Qed.

Lemma cell_lookup t i j sl :
  cell t i j = Some sl ->
  exists b, buckets_ t !! Z.to_nat i = Some b /\ b !! Z.to_nat j = Some (Some sl).
Proof.
  unfold cell, get_bucket. intros H.
  assert (Hempty : forall k, slot_at empty_bucket k <> Some sl).
  { intros k. rewrite slot_at_empty_bucket. discriminate. }
  destruct (i <? 0); [destruct (Hempty _ H)|].
  destruct (buckets_ t !! Z.to_nat i) as [b|] eqn:Hb; cbn [default] in H;
    [|destruct (Hempty _ H)].
  exists b. split; [reflexivity|]. unfold slot_at in H.
  destruct (j <? 0); [discriminate|].
  match type of H with mjoin ?x = _ => destruct x as [c|] eqn:Hc end; [|inversion H].
  change (c = Some sl) in H. subst c. exact Hc.
Qed.

Lemma lookup_cell t i j b sl :
  buckets_ t !! i = Some b -> b !! j = Some (Some sl) ->
  cell t (Z.of_nat i) (Z.of_nat j) = Some sl.
Proof.
  intros Hb Hc. unfold cell, get_bucket, slot_at.
  assert (Hi : (Z.of_nat i <? 0) = false) by (apply Z.ltb_ge; lia).
  assert (Hj : (Z.of_nat j <? 0) = false) by (apply Z.ltb_ge; lia).
  rewrite Hi, Hj, !Nat2Z.id, Hb. cbn [default].
  match goal with |- mjoin ?x = _ => replace x with (Some (Some sl)) end. reflexivity.
Qed.

(** The table has no occupied slot iff no pair is stored. *)
Lemma occupied_slots_zero t : occupied_slots t = 0 <-> forall x, ~ stored t x.
Proof.
  split.
  - intros Hz x (i & j & Hc). destruct (cell_lookup t i j x Hc) as (b & Hb & Hs).
    assert (Hbz : occupied_in b = 0).
    { apply (zsum_zero_inv occupied_in (buckets_ t)); [intros; apply occupied_in_nonneg|exact Hz|].
      eapply list_elem_of_lookup_2; exact Hb. }
    assert (Hcz : slot_count (Some x) = 0).
    { apply (zsum_zero_inv slot_count b); [intros; apply slot_count_nonneg|exact Hbz|].
      eapply list_elem_of_lookup_2; exact Hs. }
    discriminate.
  - intros Hno. apply zsum_zero. intros b Hb. apply zsum_zero. intros [sl|] Hs; [|reflexivity].
    exfalso. apply list_elem_of_lookup_1 in Hb, Hs.
    destruct Hb as [i Hb]. destruct Hs as [j Hs].
    apply (Hno sl). exists (Z.of_nat i), (Z.of_nat j). eapply lookup_cell; eauto.
Qed.

Lemma cell_cuckoo_clear t i j : cell (cuckoo_clear t) i j = None.
Proof.
  destruct (cell (cuckoo_clear t) i j) as [sl|] eqn:Hc; [|reflexivity].
  apply cell_lookup in Hc. destruct Hc as (b & Hb & Hs).
  unfold cuckoo_clear, clear_buckets in Hb. cbn [buckets_ set_locks set_buckets] in Hb.
  rewrite list_lookup_fmap in Hb.
  destruct (buckets_ t !! Z.to_nat i) as [b0|]; [|discriminate].
  cbn in Hb. inversion Hb; subst b; clear Hb.
  rewrite list_lookup_fmap in Hs. destruct (b0 !! Z.to_nat j); discriminate.
Qed.

Lemma migrated_cuckoo_clear t l : migrated (cuckoo_clear t) l.
Proof.
  unfold migrated, get_lock, cuckoo_clear. cbn [locks_ set_locks].
  destruct (l <? 0); [reflexivity|]. rewrite list_lookup_fmap.
  destruct (locks_ (clear_buckets t) !! _); reflexivity.
Qed.

Lemma no_pair_absent t key : (forall x, ~ stored t x) -> absent t key.
Proof. intros H sl Hs. destruct (H sl Hs). Qed.

(** The result of [read_value] is what the two candidate buckets hold
    once their stripes are migrated. *)
Lemma read_value_result n key :
  forall t o t', read_value n key t = (Ret o, t') -> o = read_result key t' /\ migr t t'.
Proof.
  induction n as [|n IH]; intros t o t' Hrun; [discriminate|].
  rewrite read_value_step in Hrun. cbv zeta in Hrun.
  destruct (is_migrated (get_lock t (lock_ind _))).
  - destruct (_ || _).
    + inversion Hrun; subst. split; [reflexivity|apply migr_refl].
    + destruct (IH _ _ _ Hrun) as [Ho Hm]. split; [exact Ho|]. eapply migr_step. exact Hm.
  - destruct (IH _ _ _ Hrun) as [Ho Hm]. split; [exact Ho|]. eapply migr_step. exact Hm.
Qed.

Lemma cuckoo_find_cases key p i1 i2 t :
  cuckoo_find key p i1 i2 t = mk_pos 0 0 failure_key_not_found \/
  exists pi ps sl, cuckoo_find key p i1 i2 t = mk_pos pi ps ok /\
                   cell t pi ps = Some sl /\ key_matches p key sl = true.
Proof.
  unfold cuckoo_find.
  destruct (negb (try_read_from_bucket (get_bucket t i1) p key =? -1)) eqn:H1.
  - right. apply negb_true_iff, Z.eqb_neq in H1.
    destruct (try_read_from_bucket_found _ _ _ H1) as (_ & sl & Hs & Hm).
    exists i1, (try_read_from_bucket (get_bucket t i1) p key), sl. auto.
  - destruct (negb (try_read_from_bucket (get_bucket t i2) p key =? -1)) eqn:H2.
    + right. apply negb_true_iff, Z.eqb_neq in H2.
      destruct (try_read_from_bucket_found _ _ _ H2) as (_ & sl & Hs & Hm).
      exists i2, (try_read_from_bucket (get_bucket t i2) p key), sl. auto.
    + left. reflexivity.
Qed.

Lemma read_result_sound key t v :
  read_result key t = Some v ->
  exists sl, stored t sl /\ key_eq (s_key sl) key = true /\ s_mapped sl = v.
Proof.
  unfold read_result.
  destruct (cuckoo_find_cases key (hv_partial (hashed_key key))
              (index_hash (hashpower t) (hv_hash (hashed_key key)))
              (alt_index (hashpower t) (hv_partial (hashed_key key))
                 (index_hash (hashpower t) (hv_hash (hashed_key key)))) t)
    as [Hnf|(pi & ps & sl & Hf & Hc & Hm)].
  - rewrite Hnf. discriminate.
  - rewrite Hf. cbn [pos_status status_eqb]. unfold mapped_at. cbn [pos_index pos_slot].
    unfold cell in Hc. rewrite Hc. cbn. intros H. inversion H; subst v.
    exists sl. split; [exists pi, ps; exact Hc|]. split; [|reflexivity].
    eapply key_matches_key_eq; exact Hm.
Qed.

End Emptiness.

(** ** Lookups, [clear], [empty] and the constructor *)

(** X4.  On a table that satisfies the invariant, a lookup only reports
    what is stored: a value returned by [find(key)] is the value of a
    stored pair with an equal key, the only exception [find] throws is
    [std::out_of_range], and [contains(key)] returns [true] only if such a
    pair is stored.  A lookup that returns leaves the hashpower, the size
    and the stored pairs as they were. *)
Theorem lookup_reports_stored_pairs `{params : Params}
        (fuel : nat) (key : K) (t : table) :
  params_ok -> inv t ->
  (forall v t', find fuel key t = (Ret v, t') ->
     (exists sl, stored t sl /\ key_eq (s_key sl) key = true /\ s_mapped sl = v) /\
     inv t' /\ hashpower t' = hashpower t /\ size t' = size t /\
     forall x, stored t' x <-> stored t x) /\
  (forall e t', find fuel key t = (Throw e, t') -> e = std_out_of_range) /\
  (forall r t', contains fuel key t = (Ret r, t') ->
     (r = true -> exists sl, stored t sl /\ key_eq (s_key sl) key = true) /\
     inv t' /\ hashpower t' = hashpower t /\ size t' = size t /\
     forall x, stored t' x <-> stored t x).
Proof.
  intros Hpar Hinv.
  assert (Hread : forall o t', read_value fuel key t = (Ret o, t') ->
             (forall v, o = Some v ->
                exists sl, stored t sl /\ key_eq (s_key sl) key = true /\ s_mapped sl = v) /\
             inv t' /\ hashpower t' = hashpower t /\ size t' = size t /\
             forall x, stored t' x <-> stored t x).
  { intros o t' Hrun. destruct (read_value_result fuel key t o t' Hrun) as [Ho Hm].
    destruct (migr_inv t t' Hpar Hm Hinv) as [Hinv' Hk].
    pose proof Hk as (Hhp & _ & _ & Hcs & _ & Hst & _).
    split; [|split; [exact Hinv'|split; [exact Hhp|split; [|exact Hst]]]].
    - intros v ->. symmetry in Ho. destruct (read_result_sound key t' v Ho) as (sl & Hs & He & Hv).
      exists sl. split; [apply Hst; exact Hs|auto].
    - rewrite (inv_size t Hpar Hinv), (inv_size t' Hpar Hinv'). exact Hcs. }
  split; [|split].
  - intros v t' Hrun. unfold find, bind in Hrun.
    destruct (read_value fuel key t) as [[[w|]|e|] t1] eqn:Hr; try discriminate.
    inversion Hrun; subst v t'. destruct (Hread _ _ eq_refl) as (Hs & Hrest).
    split; [apply Hs; reflexivity|exact Hrest].
  - intros e t' Hrun. unfold find, bind in Hrun.
    destruct (read_value fuel key t) as [[[w|]|e0|] t1] eqn:Hr; try discriminate.
    + inversion Hrun. reflexivity.
    + exfalso. clear -Hr. revert t Hr. induction fuel as [|n IH]; intros t Hr; [discriminate|].
      rewrite read_value_step in Hr. cbv zeta in Hr.
      destruct (is_migrated (get_lock t (lock_ind _))).
      * destruct (_ || _); [discriminate|]. eapply IH; exact Hr.
      * eapply IH; exact Hr.
  - intros r t' Hrun. unfold contains, find_fn, bind in Hrun.
    destruct (read_value fuel key t) as [[[w|]|e|] t1] eqn:Hr; try discriminate.
    + inversion Hrun; subst r t'. destruct (Hread _ _ eq_refl) as (Hs & Hrest).
      split; [|exact Hrest]. intros _. destruct (Hs w eq_refl) as (sl & H1 & H2 & _). eauto.
    + inversion Hrun; subst r t'. destruct (Hread _ _ eq_refl) as (_ & Hrest).
      split; [discriminate|exact Hrest].
Qed.

(** The witness: key 3 is looked up in a table that holds it. *)
Lemma lookup_reports_stored_pairs_witness :
  exists sl, stored (int_table_with 8 [(1, 10); (3, 30)]) sl /\ s_key sl = 3 /\ s_mapped sl = 30.
Proof.
  assert (Hinv : inv (int_table_with 8 [(1, 10); (3, 30)])).
  { apply inv_check_sound. vm_compute. reflexivity. }
  destruct (@lookup_reports_stored_pairs int_params 5 3 (int_table_with 8 [(1, 10); (3, 30)])
              int_params_ok Hinv) as (Hfind & _).
  destruct (Hfind 30 (snd (@find int_params 5 3 (int_table_with 8 [(1, 10); (3, 30)])))
              ltac:(vm_compute; reflexivity)) as ((sl & Hs & He & Hv) & _).
  exists sl. split; [exact Hs|]. split; [|exact Hv].
  cbn in He. apply Z.eqb_eq in He. exact He.
Defined.

(** X5.  On a table that satisfies the invariant [clear()] returns and
    leaves an empty table: the invariant holds, the size is zero, no pair
    is stored, the hashpower and the policy fields are as before; then
    [find] throws [std::out_of_range] and [contains] returns [false] for
    every key. *)
Theorem clear_empties_the_table `{params : Params} (t : table) :
  params_ok -> inv t ->
  exists t', clear t = (Ret tt, t') /\
    inv t' /\ size t' = 0 /\ (forall x, ~ stored t' x) /\
    hashpower t' = hashpower t /\ same_policy t t' /\
    forall n key, find (S n) key t' = (Throw std_out_of_range, t') /\
                  contains (S n) key t' = (Ret false, t').
Proof.
  intros Hpar Hinv. exists (cuckoo_clear t). split; [reflexivity|].
  pose proof (cuckoo_clear_inv t Hinv) as Hinv'.
  assert (Hno : forall x, ~ stored (cuckoo_clear t) x).
  { intros x (i & j & Hc). rewrite cell_cuckoo_clear in Hc. discriminate. }
  split; [exact Hinv'|]. split.
  { rewrite (inv_size _ Hpar Hinv'). destruct Hinv' as (_ & _ & ->).
    apply occupied_slots_zero. exact Hno. }
  split; [exact Hno|]. split; [reflexivity|]. split; [repeat split|].
  intros n key.
  assert (Hread : forall m, read_value (S m) key (cuckoo_clear t) = (Ret None, cuckoo_clear t)).
  { intros m. rewrite read_value_migrated by (split; apply migrated_cuckoo_clear).
    rewrite read_result_absent by (apply no_pair_absent; exact Hno). reflexivity. }
  split; [|apply contains_not_found; exact Hread].
  unfold find, bind. rewrite Hread. reflexivity.
Qed.

(** The witness: a table with two pairs is cleared. *)
Lemma clear_empties_the_table_witness :
  size (snd (@clear int_params (int_table_with 8 [(1, 10); (3, 30)]))) = 0.
Proof.
  assert (Hinv : inv (int_table_with 8 [(1, 10); (3, 30)])).
  { apply inv_check_sound. vm_compute. reflexivity. }
  destruct (@clear_empties_the_table int_params (int_table_with 8 [(1, 10); (3, 30)])
              int_params_ok Hinv) as (t' & Hrun & _ & Hsize & _).
  rewrite Hrun. exact Hsize.
Defined.

(** X6.  Under the invariant [empty()] is [true] exactly when no pair is
    stored in the table. *)
Theorem empty_iff_no_pair `{params : Params} (t : table) :
  params_ok -> inv t ->
  (empty t = true <-> forall x, ~ stored t x).
Proof.
  intros Hpar Hinv. unfold empty. rewrite Z.eqb_eq, (inv_size t Hpar Hinv).
  destruct Hinv as (_ & _ & ->). apply occupied_slots_zero.
Qed.

(** The witness: a table that was just built. *)
Lemma empty_iff_no_pair_witness : @empty int_params (int_table 8) = true.
Proof.
  apply (@empty_iff_no_pair int_params (int_table 8) int_params_ok).
  - apply inv_check_sound. vm_compute. reflexivity.
  - apply occupied_slots_zero. vm_compute. reflexivity.
Defined.

(** X7.  A table built by the constructor satisfies the invariant and is
    empty: its size is zero and no pair is stored; its hashpower is
    [reserve_calc(n)], the floor of the load factor is the default and no
    maximum hashpower is set.  The constructor fails with [std::bad_alloc]
    exactly when the bucket array is beyond what can be allocated. *)
Theorem new_table_is_empty `{params : Params} (n : Z) :
  params_ok ->
  match new_table n with
  | Ret t =>
      inv t /\ size t = 0 /\ empty t = true /\ (forall x, ~ stored t x) /\
      hashpower t = wrap64 (reserve_calc n) /\
      minimum_load_factor t = DEFAULT_MINIMUM_LOAD_FACTOR /\
      maximum_hashpower t = NO_MAXIMUM_HASHPOWER
  | Throw e => e = std_bad_alloc /\ alloc_max_hashpower < wrap64 (reserve_calc n)
  | OutOfFuel => False
  end.
Proof.
  intros Hpar. destruct (new_table n) as [t|e|] eqn:Hnew.
  - pose proof (new_table_inv n t Hpar Hnew) as Hinv.
    unfold new_table in Hnew.
    destruct (wrap64 (reserve_calc n) >? alloc_max_hashpower); [discriminate|].
    inversion Hnew as [Ht]. rewrite Ht.
    assert (Hno : forall x, ~ stored t x).
    { intros x (i & j & Hc). apply cell_lookup in Hc. destruct Hc as (b & Hb & Hs).
      rewrite <- Ht in Hb. cbn [buckets_] in Hb. apply lookup_replicate in Hb.
      destruct Hb as [-> _]. unfold empty_bucket in Hs. apply lookup_replicate in Hs.
      destruct Hs as [Hs _]. discriminate. }
    assert (Hsize : size t = 0).
    { rewrite (inv_size t Hpar Hinv). destruct Hinv as (_ & _ & ->).
      apply occupied_slots_zero. exact Hno. }
    split; [exact Hinv|]. split; [exact Hsize|].
    split; [unfold empty; rewrite Hsize; reflexivity|]. split; [exact Hno|].
    rewrite <- Ht. repeat split.
  - unfold new_table in Hnew.
    destruct (wrap64 (reserve_calc n) >? alloc_max_hashpower) eqn:Hbig; [|discriminate].
    inversion Hnew. split; [reflexivity|]. rewrite Z.gtb_ltb in Hbig.
    apply Z.ltb_lt in Hbig. exact Hbig.
  - unfold new_table in Hnew.
    destruct (wrap64 (reserve_calc n) >? alloc_max_hashpower); discriminate.
Qed.

(** The witness: the table for eight elements. *)
Lemma new_table_is_empty_witness :
  exists t, @new_table int_params 8 = Ret t /\ size t = 0 /\ hashpower t = 1.
Proof.
  pose proof (@new_table_is_empty int_params 8 int_params_ok) as H.
  destruct (@new_table int_params 8) as [t|e|] eqn:Hnew.
  - exists t. destruct H as (_ & Hs & _ & _ & Hhp & _).
    split; [reflexivity|]. split; [exact Hs|]. rewrite Hhp. vm_compute. reflexivity.
  - vm_compute in Hnew. discriminate.
  - destruct H.
Defined.

Section Growth.
Context {params : Params}.

Lemma wp_conj {A} (m : M A) (Q1 Q2 : outcome A -> table -> Prop) t :
  wp m Q1 t -> wp m Q2 t -> wp m (fun o t' => Q1 o t' /\ Q2 o t') t.
Proof. unfold wp. auto. Qed.

Lemma wp_run {A} (m : M A) t : wp m (fun o t' => m t = (o, t')) t.
Proof. unfold wp. destruct (m t); reflexivity. Qed.

Lemma hashpower_update_slot i s c t : hashpower (update_slot i s c t) = hashpower t.
Proof. unfold update_slot. destruct (_ || _); reflexivity. Qed.

Lemma hashpower_update_lock l f t : hashpower (update_lock l f t) = hashpower t.
Proof. unfold update_lock. destruct (l <? 0); reflexivity. Qed.

Lemma hashpower_set_mapped i s v t : hashpower (set_mapped i s v t) = hashpower t.
Proof.
  unfold set_mapped. destruct (slot_at _ _); [apply hashpower_update_slot|reflexivity].
Qed.

(** A doubling that returns has passed the two tests of
    [check_resize_validity]. *)
Lemma cuckoo_fast_double_ret mode auto hp t st t' :
  cuckoo_fast_double mode auto hp t = (Ret st, t') ->
  (maximum_hashpower t = NO_MAXIMUM_HASHPOWER \/ wrap64 (hp + 1) <= maximum_hashpower t) /\
  (auto = true -> double_lt (load_factor t) (minimum_load_factor t) = false).
Proof.
  unfold cuckoo_fast_double, check_resize_validity. unfold bind at 1.
  destruct (negb (maximum_hashpower t =? NO_MAXIMUM_HASHPOWER)
            && (wrap64 (hp + 1) >? maximum_hashpower t)) eqn:Hcap; [discriminate|].
  destruct (auto && double_lt (load_factor t) (minimum_load_factor t)) eqn:Hlow;
    [discriminate|].
  intros _. split.
  - apply andb_false_iff in Hcap. destruct Hcap as [Hc|Hc].
    + left. apply negb_false_iff, Z.eqb_eq in Hc. exact Hc.
    + right. rewrite Z.gtb_ltb in Hc. apply Z.ltb_ge in Hc. exact Hc.
  - intros ->. exact Hlow.
Qed.

Lemma inv_load_factor t t' :
  params_ok -> inv t -> inv t' -> keeps t t' ->
  load_factor t' = load_factor t /\ minimum_load_factor t' = minimum_load_factor t /\
  maximum_hashpower t' = maximum_hashpower t.
Proof.
  intros Hpar Hinv Hinv' (Hhp & (Hmlf & Hmhp & _) & _ & Hcs & _).
  split; [|split; [exact Hmlf|exact Hmhp]].
  unfold load_factor, capacity, bucket_count.
  rewrite (inv_size t Hpar Hinv), (inv_size t' Hpar Hinv'), Hcs, Hhp. reflexivity.
Qed.

Lemma inv_carries t t' : good t' -> carries t t' -> inv t -> inv t'.
Proof.
  intros [Hwf Hlazy] (_ & Hcs & Ho & _) (_ & _ & Hsum).
  split; [exact Hwf|]. split; [exact Hlazy|]. lia.
Qed.

(** The insert loop never shrinks the table; when it grows it, the cap
    on the hashpower and the floor of the load factor allowed it. *)
Lemma cuckoo_insert_loop_growth n fuel hv key :
  params_ok ->
  forall b t,
  inv t -> aligned hv t b -> held b -> stripes_migrated t (tb_i1 b) (tb_i2 b) ->
  wp (cuckoo_insert_loop normal_mode n fuel hv b key)
     (fun o t' =>
        match o with
        | Ret _ =>
            hashpower t <= hashpower t' /\
            (hashpower t < hashpower t' ->
             (maximum_hashpower t = NO_MAXIMUM_HASHPOWER \/
              hashpower t' <= maximum_hashpower t) /\
             double_lt (load_factor t) (minimum_load_factor t) = false)
        | _ => True
        end) t.
Proof.
  intros Hpar. induction n as [|n IH]; intros b t Hinv Hal Hheld Hmig.
  - exact I.
  - pose proof (inv_good t Hinv) as Hgood.
    cbn [cuckoo_insert_loop]. apply wp_bind, wp_get_table. apply wp_bind.
    pose proof (good_hashpower t Hpar Hgood) as Hhp.
    eapply wp_mono;
      [apply (cuckoo_insert_spec fuel hv b key t Hpar Hgood
                (aligned_buckets_in hv t b Hhp Hal) Hheld Hmig)|].
    intros [[pos b1]|e|] t1; [|auto|auto].
    intros (Hg1 & Hk1 & H1 & H2 & Hsite).
    pose proof (keeps_hashpower _ _ Hk1) as Ht1.
    pose proof Hg1 as [Hwf1 Hlazy1].
    pose proof (inv_keeps t t1 Hwf1 Hlazy1 Hk1 Hinv) as Hinv1.
    destruct (inv_load_factor t t1 Hpar Hinv Hinv1 Hk1) as (Hlf1 & Hmlf1 & Hmhp1).
    unfold site in Hsite.
    destruct (pos_status pos) eqn:Hst; try (destruct Hsite; fail).
    + apply wp_ret. split; lia.
    + apply wp_ret. split; lia.
    + apply wp_bind. rewrite <- Ht1.
      eapply wp_mono;
        [apply wp_conj; [apply (cuckoo_fast_double_spec true t1 Hpar Hg1)|apply wp_run]|].
      intros [st|e|] t2; [|intros; exact I|intros; exact I].
      intros [(_ & Hg2 & Hc2 & Ht2) Hrun].
      destruct (cuckoo_fast_double_ret _ _ _ _ _ _ Hrun) as [Hcap Hfloor].
      specialize (Hfloor eq_refl).
      rewrite wrap64_small in Hcap by lia.
      pose proof (inv_carries t1 t2 Hg2 Hc2 Hinv1) as Hinv2.
      apply wp_bind. apply wp_snapshot; [exact Hpar|exact Hg2| |exact I].
      intros b3 t3 Hg3 Hk3 Hal3 Hheld3 Hmig3.
      pose proof Hg3 as [Hwf3 Hlazy3].
      pose proof (inv_keeps t2 t3 Hwf3 Hlazy3 Hk3 Hinv2) as Hinv3.
      pose proof (keeps_hashpower _ _ Hk3) as Ht3.
      assert (Hmhp3 : maximum_hashpower t3 = maximum_hashpower t).
      { destruct Hk3 as (_ & (_ & Hm3 & _) & _). destruct Hc2 as ((_ & Hm2 & _) & _).
        unfold maximum_hashpower in *. congruence. }
      eapply wp_mono; [apply (IH b3 t3 Hinv3 Hal3 Hheld3 Hmig3)|].
      intros [[pos' b']|e|] t'; [|auto|auto].
      intros (Hle & Hgrow).
      split; [lia|]. intros _. split; [|congruence].
      destruct (Z.eq_dec (hashpower t3) (hashpower t')) as [Heq|Hne].
      * destruct Hcap as [Hc|Hc]; [left; congruence|right]. rewrite <- Hmhp1. lia.
      * destruct Hgrow as [[Hc|Hc] _]; [lia|left; congruence|right; lia].
Qed.

Lemma uprase_fn_growth fuel key fn val t :
  params_ok -> inv t ->
  wp (uprase_fn fuel key fn val)
     (fun o t' =>
        match o with
        | Ret _ =>
            hashpower t <= hashpower t' /\
            (hashpower t < hashpower t' ->
             (maximum_hashpower t = NO_MAXIMUM_HASHPOWER \/
              hashpower t' <= maximum_hashpower t) /\
             double_lt (load_factor t) (minimum_load_factor t) = false)
        | _ => True
        end) t.
Proof.
  intros Hpar Hinv. pose proof (inv_good t Hinv) as Hgood.
  unfold uprase_fn. apply wp_bind. apply wp_snapshot; [exact Hpar|exact Hgood| |exact I].
  intros b0 t0 Hg0 Hk0 Hal0 Hheld0 Hmig0.
  pose proof Hg0 as [Hwf0 Hlazy0].
  pose proof (inv_keeps t t0 Hwf0 Hlazy0 Hk0 Hinv) as Hinv0.
  destruct (inv_load_factor t t0 Hpar Hinv Hinv0 Hk0) as (Hlf0 & Hmlf0 & Hmhp0).
  pose proof (keeps_hashpower _ _ Hk0) as Ht0.
  apply wp_bind.
  eapply wp_mono;
    [apply (cuckoo_insert_loop_growth fuel fuel (hashed_key key) key Hpar b0 t0 Hinv0 Hal0
              Hheld0 Hmig0)|].
  intros [[pos b1]|e|] t1; [|auto|auto].
  rewrite Ht0, Hlf0, Hmlf0, Hmhp0. intros Hpost.
  destruct (status_eqb (pos_status pos) ok).
  - apply wp_bind. unfold add_to_bucket. destruct (lock1 b1); [|exact I].
    apply wp_bind, wp_modify. apply wp_modify. apply wp_ret.
    unfold incr_elem_counter, setKV. rewrite hashpower_update_lock, hashpower_update_slot.
    exact Hpost.
  - apply wp_bind, wp_get_table. destruct (mapped_at t1 pos); [|exact I].
    destruct (fn v) as [v' erase]. apply wp_bind, wp_modify. apply wp_bind.
    destruct erase.
    + unfold del_from_bucket. destruct (lock1 b1); [|exact I].
      apply wp_bind, wp_modify. apply wp_modify. apply wp_ret.
      unfold decr_elem_counter, eraseKV.
      rewrite hashpower_update_lock, hashpower_update_slot, hashpower_set_mapped.
      exact Hpost.
    + apply wp_ret. apply wp_ret. rewrite hashpower_set_mapped. exact Hpost.
Qed.

End Growth.

(** ** Automatic expansion *)

(** X8.  On a table that satisfies the invariant, an [uprase_fn] that
    returns (and so an [insert], [upsert] or [insert_or_assign]) never
    lowers the hashpower and leaves the maximum hashpower as it was.  If it
    raised the hashpower, the new one is within the maximum hashpower, when
    one is set, and the load factor of the table was not below the minimum
    load factor. *)
Theorem uprase_fn_grows_within_limits `{params : Params}
        (fuel : nat) (key : K) (fn : V -> V * bool) (val : V) (t t' : table) (r : bool) :
  params_ok -> inv t ->
  uprase_fn fuel key fn val t = (Ret r, t') ->
  hashpower t <= hashpower t' /\
  maximum_hashpower t' = maximum_hashpower t /\
  (hashpower t < hashpower t' ->
   (maximum_hashpower t = NO_MAXIMUM_HASHPOWER \/ hashpower t' <= maximum_hashpower t) /\
   double_lt (load_factor t) (minimum_load_factor t) = false).
Proof.
  intros Hpar Hinv Hrun.
  assert (Hmhp : maximum_hashpower t' = maximum_hashpower t).
  { pose proof (uprase_fn_spec fuel key fn val t Hpar Hinv) as Hwp.
    unfold wp in Hwp. rewrite Hrun in Hwp. cbn [fst snd] in Hwp.
    destruct r; destruct Hwp as (_ & (_ & H & _) & _); exact H. }
  pose proof (wp_inv _ _ _ _ _ (uprase_fn_growth fuel key fn val t Hpar Hinv) Hrun)
    as [Hle Hgrow].
  split; [exact Hle|]. split; [exact Hmhp|exact Hgrow].
Qed.

(** The witness: the fifth key of a full bucket doubles a table of two
    buckets. *)
Lemma uprase_fn_grows_within_limits_witness :
  hashpower (int_table_with 8 [(1, 10); (3, 30); (5, 50); (7, 70)])
  <= hashpower (snd (@insert int_params 8 9 90
                       (int_table_with 8 [(1, 10); (3, 30); (5, 50); (7, 70)]))).
Proof.
  assert (Hinv : inv (int_table_with 8 [(1, 10); (3, 30); (5, 50); (7, 70)])).
  { apply inv_check_sound. vm_compute. reflexivity. }
  destruct (@uprase_fn_grows_within_limits int_params 8 9 (fun v => (v, false)) 90
              (int_table_with 8 [(1, 10); (3, 30); (5, 50); (7, 70)])
              (snd (@insert int_params 8 9 90
                      (int_table_with 8 [(1, 10); (3, 30); (5, 50); (7, 70)])))
              true int_params_ok Hinv ltac:(vm_compute; reflexivity)) as (Hle & _).
  exact Hle.
Defined.

Section Splitting.

Lemma land_ones_succ x k :
  0 <= k ->
  Z.land x (Z.ones (k + 1)) = Z.land x (Z.ones k) + (if Z.testbit x k then 2 ^ k else 0).
Proof.
  intros Hk. rewrite !Z.land_ones by lia.
  assert (Hpos : 0 < 2 ^ k) by (apply Z.pow_pos_nonneg; lia).
  rewrite Z.pow_add_r, Z.pow_1_r by lia.
  rewrite Z.rem_mul_r by lia.
  rewrite <- Z.testbit_spec' by lia.
  destruct (Z.testbit x k); cbn [Z.b2z]; lia.
Qed.

Lemma land_ones_low_bits x y k :
  0 <= k ->
  (forall n, 0 <= n < k -> Z.testbit x n = Z.testbit y n) ->
  Z.land x (Z.ones k) = Z.land y (Z.ones k).
Proof.
  intros Hk Hbits. apply Z.bits_inj'. intros n Hn. rewrite !Z.land_spec.
  destruct (Z_lt_le_dec n k).
  - rewrite Hbits by lia. reflexivity.
  - rewrite Z.ones_spec_high by lia. rewrite !andb_false_r. reflexivity.
Qed.

Lemma index_hash_succ hp h :
  0 <= hp < 63 ->
  index_hash (hp + 1) h = index_hash hp h + (if Z.testbit h hp then hashsize hp else 0).
Proof.
  intros Hhp. unfold index_hash. rewrite !hashmask_ones by lia.
  rewrite !Z.min_l by lia. rewrite hashsize_small by lia. apply land_ones_succ. lia.
Qed.

Lemma alt_index_succ hp p i i' :
  0 <= hp < 63 ->
  (forall n, 0 <= n < hp -> Z.testbit i' n = Z.testbit i n) ->
  alt_index (hp + 1) p i'
  = alt_index hp p i
    + (if Z.testbit (Z.lxor i' (wrap64 (wrap64 (p + 1) * murmur_c))) hp
       then hashsize hp else 0).
Proof.
  intros Hhp Hbits. unfold alt_index. rewrite !hashmask_ones by lia.
  rewrite !Z.min_l by lia. rewrite hashsize_small by lia.
  rewrite land_ones_succ by lia. f_equal.
  apply land_ones_low_bits; [lia|]. intros n Hn. rewrite !Z.lxor_spec.
  rewrite Hbits by lia. reflexivity.
Qed.

Lemma index_hash_low_bits hp h n :
  0 <= hp < 63 -> 0 <= n < hp ->
  Z.testbit (index_hash (hp + 1) h) n = Z.testbit (index_hash hp h) n.
Proof.
  intros Hhp Hn. unfold index_hash. rewrite !hashmask_ones by lia.
  rewrite !Z.min_l by lia. rewrite !Z.land_spec.
  rewrite !Z.ones_spec_low by lia. reflexivity.
Qed.

End Splitting.

Section Doubling2.
Context {params : Params}.

Lemma rehash_with_workers_spec t :
  params_ok -> good t ->
  good (rehash_with_workers t) /\ keeps t (rehash_with_workers t) /\
  forall l, migrated (rehash_with_workers t) l.
Proof.
  intros Hpar Hgood. rewrite rehash_with_workers_eq.
  destruct (good_migr t _ Hpar Hgood (take_stripes_migr (zseq (length (locks_ t))) t))
    as (Hg & Hk).
  split; [exact Hg|]. split; [exact Hk|]. intros l.
  destruct Hgood as [Hwf Hlazy].
  destruct (decide (0 <= l < Z.of_nat (length (locks_ t)))) as [Hin|Hout].
  - apply take_stripes_migrated; auto. left. apply elem_of_zseq. exact Hin.
  - apply migrated_out_of_range.
    destruct Hk as (_ & _ & Hlen & _). rewrite Hlen. lia.
Qed.

(** In [locked_table_mode] the doubling of a table with at least as many
    buckets as stripes ends with the migration of every stripe. *)
Lemma cuckoo_fast_double_locked auto hp t :
  cuckoo_fast_double locked_table_mode auto hp t
  = match cuckoo_fast_double normal_mode auto hp t with
    | (Ret st, t') =>
        if status_eqb st ok && negb (hp <? kMaxNumLocksPow)
        then (Ret st, rehash_with_workers t')
        else (Ret st, t')
    | r => r
    end.
Proof.
  unfold cuckoo_fast_double, bind, modify, ret.
  destruct (check_resize_validity auto hp (wrap64 (hp + 1)) t) as [[st|e|] t1];
    [|reflexivity|reflexivity].
  destruct st; cbn [status_eqb negb andb]; try reflexivity.
  destruct (double_size (maybe_resize_locks (rehash_all hp t1))) as [[u|e|] t3];
    [|reflexivity|reflexivity].
  destruct (hp <? kMaxNumLocksPow); reflexivity.
Qed.

Lemma cuckoo_fast_double_spec_mode mode auto t :
  params_ok -> good t ->
  wp (cuckoo_fast_double mode auto (hashpower t))
     (fun o t' =>
        match o with
        | Ret st =>
            st = ok /\ good t' /\ carries t t' /\ hashpower t' = hashpower t + 1 /\
            (mode = locked_table_mode -> forall l, migrated t' l)
        | _ => True
        end) t.
Proof.
  intros Hpar Hgood.
  pose proof (cuckoo_fast_double_spec auto t Hpar Hgood) as Hn.
  destruct mode.
  - unfold wp in *. rewrite cuckoo_fast_double_locked.
    destruct (cuckoo_fast_double normal_mode auto (hashpower t) t) as [[st|e|] t1];
      cbn [fst snd] in *; try exact I.
    destruct Hn as (-> & Hg1 & Hc1 & Ht1). cbn [status_eqb andb].
    destruct (hashpower t <? kMaxNumLocksPow) eqn:Hsmall; cbn [negb fst snd].
    + split; [reflexivity|]. split; [exact Hg1|]. split; [exact Hc1|].
      split; [exact Ht1|]. intros _.
      destruct Hg1 as [(_ & _ & _ & _ & Hmig) _]. apply Hmig.
      apply Z.ltb_lt in Hsmall. lia.
    + destruct (rehash_with_workers_spec t1 Hpar Hg1) as (Hg2 & Hk2 & Hmig2).
      split; [reflexivity|]. split; [exact Hg2|].
      split; [eapply carries_trans; [exact Hc1|apply keeps_carries; exact Hk2]|].
      split; [rewrite (keeps_hashpower _ _ Hk2); exact Ht1|]. intros _. exact Hmig2.
  - eapply wp_mono; [exact Hn|]. intros [st|e|] t'; try (intros; exact I).
    intros (H1 & H2 & H3 & H4).
    split; [exact H1|split; [exact H2|split; [exact H3|split; [exact H4|]]]].
    intros Hm. discriminate Hm.
Qed.

Lemma bucket_count_succ t t' :
  0 <= hashpower t < 63 -> hashpower t' = hashpower t + 1 ->
  bucket_count t' = 2 * bucket_count t.
Proof.
  intros Hhp Heq. unfold bucket_count. rewrite Heq, !hashsize_small by lia.
  rewrite Z.pow_add_r by lia. lia.
Qed.

End Doubling2.

(** ** Doubling and migration *)

(** X9.  On a table that satisfies the invariant, a [cuckoo_fast_double]
    called with the current hashpower that returns has doubled the table:
    the status is [ok], the hashpower is one more and the number of buckets
    twice what it was, while the invariant, the size, the stored pairs and
    the policy fields are kept; in [locked_table_mode] every stripe is
    migrated afterwards.  Called with a stale hashpower it returns
    [failure_under_expansion] and leaves the table as it is. *)
Theorem cuckoo_fast_double_doubles `{params : Params}
        (mode : table_mode) (auto : bool) (t : table) :
  params_ok -> inv t ->
  (forall st t', cuckoo_fast_double mode auto (hashpower t) t = (Ret st, t') ->
     st = ok /\ inv t' /\ hashpower t' = hashpower t + 1 /\
     bucket_count t' = 2 * bucket_count t /\ size t' = size t /\
     (forall x, stored t' x <-> stored t x) /\ same_policy t t' /\
     (mode = locked_table_mode -> forall l, migrated t' l)) /\
  (forall hp st t', hp <> hashpower t ->
     cuckoo_fast_double mode auto hp t = (Ret st, t') ->
     st = failure_under_expansion /\ t' = t).
Proof.
  intros Hpar Hinv. pose proof (inv_good t Hinv) as Hgood. split.
  - intros st t' Hrun.
    pose proof (wp_inv _ _ _ _ _ (cuckoo_fast_double_spec_mode mode auto t Hpar Hgood) Hrun)
      as (Hst & Hg & Hc & Hhp & Hmig).
    pose proof (inv_carries t t' Hg Hc Hinv) as Hinv'.
    split; [exact Hst|]. split; [exact Hinv'|]. split; [exact Hhp|].
    split; [apply bucket_count_succ; [apply good_hashpower; assumption|exact Hhp]|].
    destruct Hc as (Hpol & Hcs & _ & Hstored).
    split; [rewrite (inv_size t Hpar Hinv), (inv_size t' Hpar Hinv'); exact Hcs|].
    split; [exact Hstored|]. split; [exact Hpol|exact Hmig].
  - intros hp st t' Hne Hrun. unfold cuckoo_fast_double, check_resize_validity in Hrun.
    unfold bind at 1 in Hrun.
    destruct (negb (maximum_hashpower t =? NO_MAXIMUM_HASHPOWER)
              && (wrap64 (hp + 1) >? maximum_hashpower t)); [discriminate|].
    destruct (auto && double_lt (load_factor t) (minimum_load_factor t)); [discriminate|].
    assert (Hstale : (hashpower t =? hp) = false) by (apply Z.eqb_neq; congruence).
    rewrite Hstale in Hrun. cbn [negb status_eqb] in Hrun.
    inversion Hrun. split; reflexivity.
Qed.

(** The witness: a table of two buckets is doubled. *)
Lemma cuckoo_fast_double_doubles_witness :
  bucket_count (snd (@cuckoo_fast_double int_params normal_mode false 1
                       (int_table_with 8 [(1, 10); (3, 30)]))) = 4.
Proof.
  assert (Hinv : inv (int_table_with 8 [(1, 10); (3, 30)])).
  { apply inv_check_sound. vm_compute. reflexivity. }
  destruct (@cuckoo_fast_double_doubles int_params normal_mode false
              (int_table_with 8 [(1, 10); (3, 30)]) int_params_ok Hinv) as (Hd & _).
  destruct (Hd ok (snd (@cuckoo_fast_double int_params normal_mode false 1
                          (int_table_with 8 [(1, 10); (3, 30)])))
              ltac:(vm_compute; reflexivity)) as (_ & _ & _ & Hbc & _).
  rewrite Hbc. vm_compute. reflexivity.
Defined.


(** X11.  When the hashpower goes from [hp] to [hp + 1], the bucket of a
    hash value is either the one it had or that one plus [hashsize(hp)],
    and so is the alternate bucket for every tag: a pair either stays in
    its bucket or moves to the bucket [hashsize(hp)] further. *)
Theorem buckets_split_on_doubling (hp h p : Z) :
  0 <= hp < 63 ->
  (index_hash (hp + 1) h = index_hash hp h \/
   index_hash (hp + 1) h = index_hash hp h + hashsize hp) /\
  (alt_index (hp + 1) p (index_hash (hp + 1) h) = alt_index hp p (index_hash hp h) \/
   alt_index (hp + 1) p (index_hash (hp + 1) h)
   = alt_index hp p (index_hash hp h) + hashsize hp).
Proof.
  intros Hhp. split.
  - rewrite index_hash_succ by exact Hhp. destruct (Z.testbit h hp); [right|left]; lia.
  - rewrite (alt_index_succ hp p (index_hash hp h)); [|exact Hhp|].
    + destruct (Z.testbit _ hp); [right|left]; lia.
    + intros n Hn. apply index_hash_low_bits; assumption.
Qed.

(** The witness: the hash value 13 at hashpowers 2 and 3. *)
Lemma buckets_split_on_doubling_witness :
  index_hash 3 13 = index_hash 2 13 + hashsize 2.
Proof.
  destruct (buckets_split_on_doubling 2 13 0 ltac:(lia)) as [[H|H] _].
  - vm_compute in H. discriminate.
  - exact H.
Defined.

Section Expansion.
Context {params : Params}.

Lemma wrap_i32_small z : - 2 ^ 31 <= z < 2 ^ 31 -> wrap_i32 z = z.
Proof. intros H. unfold wrap_i32. rewrite Z.mod_small; lia. Qed.

(** A manual doubling throws only for the cap on the hashpower, before
    it changes anything, or for the allocation. *)
Lemma cuckoo_fast_double_throw mode hp t e t' :
  cuckoo_fast_double mode false hp t = (Throw e, t') ->
  (e = maximum_hashpower_exceeded (wrap64 (hp + 1)) /\ t' = t /\
   maximum_hashpower t <> NO_MAXIMUM_HASHPOWER /\ maximum_hashpower t < wrap64 (hp + 1)) \/
  e = std_bad_alloc.
Proof.
  unfold cuckoo_fast_double, check_resize_validity, bind, modify, ret.
  destruct (negb (maximum_hashpower t =? NO_MAXIMUM_HASHPOWER)
            && (wrap64 (hp + 1) >? maximum_hashpower t)) eqn:Hcap.
  - intros H. inversion H; subst. left. apply andb_true_iff in Hcap. destruct Hcap as [H1 H2].
    apply negb_true_iff, Z.eqb_neq in H1. rewrite Z.gtb_ltb in H2. apply Z.ltb_lt in H2. auto.
  - cbn [andb]. destruct (negb (hashpower t =? hp)); cbn [status_eqb negb]; [discriminate|].
    unfold double_size.
    destruct (hashpower _ + 1 >? alloc_max_hashpower).
    + intros H. inversion H. right. reflexivity.
    + destruct (hp <? kMaxNumLocksPow); [discriminate|]. destruct mode; discriminate.
Qed.

Lemma same_policy_maximum_hashpower t t' :
  same_policy t t' -> maximum_hashpower t' = maximum_hashpower t.
Proof. intros (_ & H & _). exact H. Qed.

Lemma cuckoo_expand_simple_loop_spec n new_hp :
  params_ok ->
  forall t, good t ->
  wp (cuckoo_expand_simple_loop false n (hashpower t) new_hp) (expanded new_hp n t) t.
Proof.
  intros Hpar. induction n as [|n IH]; intros t Hgood.
  - pose proof (good_hashpower t Hpar Hgood) as Hhp.
    cbn [cuckoo_expand_simple_loop]. rewrite wrap64_small by lia.
    destruct (hashpower t <? new_hp) eqn:Hlt.
    + apply Z.ltb_lt in Hlt. unfold wp, out_of_fuel, expanded. cbn [fst snd]. lia.
    + apply Z.ltb_ge in Hlt. apply wp_ret. unfold expanded.
      split; [reflexivity|]. split; [exact Hgood|]. split; [apply carries_refl|].
      split; [lia|]. split; [intros Hc; lia|reflexivity].
  - pose proof (good_hashpower t Hpar Hgood) as Hhp.
    cbn [cuckoo_expand_simple_loop]. rewrite wrap64_small by lia.
    destruct (hashpower t <? new_hp) eqn:Hlt.
    + apply Z.ltb_lt in Hlt. apply wp_bind.
      eapply wp_mono;
        [apply wp_conj;
         [apply (cuckoo_fast_double_spec_mode locked_table_mode false t Hpar Hgood)
         |apply wp_run]|].
      intros [st|e|] t2 [Hspec Hrun].
      * destruct Hspec as (-> & Hg2 & Hc2 & Ht2 & Hmig2). cbn [status_eqb negb].
        destruct (cuckoo_fast_double_ret _ _ _ _ _ _ Hrun) as [Hcap _].
        rewrite wrap64_small in Hcap by lia.
        rewrite wrap_i32_small by lia. rewrite <- Ht2.
        eapply wp_mono; [apply (IH t2 Hg2)|].
        pose proof (same_policy_maximum_hashpower _ _ (proj1 Hc2)) as Hm2.
        intros [st|e|] t'; unfold expanded.
        -- intros (Hst & Hg' & Hc' & Ht' & Hmig' & Hsame).
           split; [exact Hst|]. split; [exact Hg'|].
           split; [eapply carries_trans; eauto|]. split; [lia|].
           split; [|intros Hc; lia].
           intros _. destruct (Z_lt_le_dec (hashpower t2) new_hp) as [Hl|Hl].
           ++ apply Hmig'. exact Hl.
           ++ rewrite (Hsame Hl). apply Hmig2. reflexivity.
        -- intros [->|(He & Hg' & Hc' & Hlt' & Ht' & Hno)]; [left; reflexivity|right].
           rewrite Hm2 in Ht', Hno.
           split; [exact He|]. split; [exact Hg'|].
           split; [eapply carries_trans; eauto|]. split; [exact Hlt'|].
           split; [|exact Hno]. destruct Hcap as [Hc|Hc]; [contradiction|lia].
        -- intros Hf. lia.
      * destruct (cuckoo_fast_double_throw _ _ _ _ _ Hrun)
          as [(He & -> & Hno & Hlow)|He]; [right|left; exact He].
        rewrite wrap64_small in He, Hlow by lia.
        split; [exact He|]. split; [exact Hgood|]. split; [apply carries_refl|].
        split; [exact Hlt|]. split; [lia|exact Hno].
      * unfold cuckoo_fast_double, check_resize_validity, bind, modify, ret in Hrun.
        exfalso. revert Hrun.
        destruct (_ && (_ >? _)); [discriminate|]. cbn [andb].
        destruct (negb (hashpower t =? hashpower t)); cbn [status_eqb negb]; [discriminate|].
        unfold double_size. destruct (hashpower _ + 1 >? alloc_max_hashpower); [discriminate|].
        destruct (hashpower t <? kMaxNumLocksPow); discriminate.
    + apply Z.ltb_ge in Hlt. apply wp_ret. unfold expanded.
      split; [reflexivity|]. split; [exact Hgood|]. split; [apply carries_refl|].
      split; [lia|]. split; [intros Hc; lia|reflexivity].
Qed.

End Expansion.

Section Expansion2.
Context {params : Params}.

Lemma cuckoo_expand_simple_spec mode fuel new_hp t :
  params_ok -> good t ->
  wp (cuckoo_expand_simple mode false fuel new_hp) (expanded new_hp fuel t) t.
Proof.
  intros Hpar Hgood. pose proof (good_hashpower t Hpar Hgood) as Hhp.
  unfold cuckoo_expand_simple. apply wp_bind, wp_get_table.
  rewrite wrap_i32_small by lia. apply cuckoo_expand_simple_loop_spec; assumption.
Qed.

Lemma carries_inv_size t t' :
  params_ok -> inv t -> good t' -> carries t t' ->
  inv t' /\ size t' = size t /\ (forall x, stored t' x <-> stored t x) /\ same_policy t t'.
Proof.
  intros Hpar Hinv Hg Hc. pose proof (inv_carries t t' Hg Hc Hinv) as Hinv'.
  destruct Hc as (Hpol & Hcs & _ & Hst).
  split; [exact Hinv'|].
  split; [rewrite (inv_size t Hpar Hinv), (inv_size t' Hpar Hinv'); exact Hcs|].
  split; [exact Hst|exact Hpol].
Qed.

End Expansion2.

(** ** Expansion in place *)

(** X12.  On a table that satisfies the invariant, [rehash_concurrent(n)]
    returns [false] and changes nothing when [n] is at most the
    hashpower; otherwise a call that returns gives [true] and has raised
    the hashpower to [n] by doublings, with every stripe migrated, keeping
    the invariant, the size, the stored pairs and the policy fields.  It
    throws only [std::bad_alloc] or [maximum_hashpower_exceeded]; in the
    second case the table is left expanded up to the maximum hashpower,
    with its pairs.  With as much fuel as there are doublings the loop
    ends.  [reserve_concurrent(n)] is [rehash_concurrent] of
    [reserve_calc(n)]. *)
Theorem rehash_concurrent_expands `{params : Params} (fuel : nat) (n : Z) (t : table) :
  params_ok -> inv t ->
  (n <= hashpower t -> rehash_concurrent fuel n t = (Ret false, t)) /\
  (wrap64 (reserve_calc n) <= hashpower t -> reserve_concurrent fuel n t = (Ret false, t)) /\
  (forall r t', rehash_concurrent fuel n t = (Ret r, t') ->
     inv t' /\ size t' = size t /\ (forall x, stored t' x <-> stored t x) /\
     same_policy t t' /\
     if r then hashpower t < n /\ hashpower t' = n /\ forall l, migrated t' l
     else n <= hashpower t /\ t' = t) /\
  (forall e t', rehash_concurrent fuel n t = (Throw e, t') ->
     e = std_bad_alloc \/
     (e = maximum_hashpower_exceeded (hashpower t' + 1) /\
      inv t' /\ size t' = size t /\ (forall x, stored t' x <-> stored t x) /\
      hashpower t' < n /\ hashpower t' = Z.max (hashpower t) (maximum_hashpower t))) /\
  ((Z.to_nat (n - hashpower t) <= fuel)%nat ->
   fst (rehash_concurrent fuel n t) <> OutOfFuel) /\
  (forall m, reserve_concurrent fuel m t = rehash_concurrent fuel (wrap64 (reserve_calc m)) t).
Proof.
  intros Hpar Hinv. pose proof (inv_good t Hinv) as Hgood.
  pose proof (cuckoo_expand_simple_spec normal_mode fuel n t Hpar Hgood) as Hwp.
  unfold wp in Hwp.
  unfold rehash_concurrent, cuckoo_rehash_concurrent.
  split; [|split].
  { intros Hle. unfold bind, get_table. apply Z.leb_le in Hle. rewrite Hle. reflexivity. }
  { intros Hle. unfold reserve_concurrent, cuckoo_reserve_concurrent, bind, get_table.
    apply Z.leb_le in Hle. rewrite Hle. reflexivity. }
  unfold bind at 1 3 5, get_table. split; [|split; [|split]].
  - intros r t' Hrun. destruct (n <=? hashpower t) eqn:Hle.
    + inversion Hrun; subst r t'. apply Z.leb_le in Hle.
      split; [exact Hinv|]. split; [reflexivity|]. split; [reflexivity|].
      split; [apply same_policy_refl|]. split; [exact Hle|reflexivity].
    + apply Z.leb_gt in Hle. unfold bind, ret in Hrun.
      destruct (cuckoo_expand_simple normal_mode false fuel n t) as [[st|e|] t1];
        cbn [fst snd] in Hwp; try discriminate.
      inversion Hrun; subst r t'. destruct Hwp as (-> & Hg & Hc & Hhp & Hmig & _).
      destruct (carries_inv_size t t1 Hpar Hinv Hg Hc) as (H1 & H2 & H3 & H4).
      split; [exact H1|]. split; [exact H2|]. split; [exact H3|]. split; [exact H4|].
      cbn [status_eqb]. split; [exact Hle|]. split; [lia|]. apply Hmig. exact Hle.
  - intros e t' Hrun. destruct (n <=? hashpower t) eqn:Hle; [discriminate|].
    unfold bind, ret in Hrun.
    destruct (cuckoo_expand_simple normal_mode false fuel n t) as [[st|e0|] t1];
      cbn [fst snd] in Hwp; try discriminate.
    inversion Hrun; subst e0 t'.
    destruct Hwp as [He|(He & Hg & Hc & Hlt & Hhp & _)]; [left; exact He|right].
    destruct (carries_inv_size t t1 Hpar Hinv Hg Hc) as (H1 & H2 & H3 & _).
    auto 10.
  - intros Hfuel. destruct (n <=? hashpower t) eqn:Hle; [discriminate|].
    unfold bind, ret.
    destruct (cuckoo_expand_simple normal_mode false fuel n t) as [[st|e0|] t1];
      cbn [fst snd] in *; try discriminate.
    exfalso. unfold expanded in Hwp. lia.
  - intros m. reflexivity.
Qed.

(** The witness: a table of two buckets is expanded to sixteen; asked for
    the hashpower it has, the call returns [false] and leaves it. *)
Lemma rehash_concurrent_expands_witness :
  hashpower (snd (@rehash_concurrent int_params 3 4 (int_table_with 8 [(1, 10); (3, 30)])))
  = 4 /\
  @rehash_concurrent int_params 3 1 (int_table_with 8 [(1, 10); (3, 30)])
  = (Ret false, int_table_with 8 [(1, 10); (3, 30)]).
Proof.
  assert (Hinv : inv (int_table_with 8 [(1, 10); (3, 30)])).
  { apply inv_check_sound. vm_compute. reflexivity. }
  destruct (@rehash_concurrent_expands int_params 3 4 (int_table_with 8 [(1, 10); (3, 30)])
              int_params_ok Hinv) as (_ & _ & Hret & _).
  destruct (Hret true
              (snd (@rehash_concurrent int_params 3 4 (int_table_with 8 [(1, 10); (3, 30)])))
              ltac:(vm_compute; reflexivity)) as (_ & _ & _ & _ & _ & Hhp & _).
  destruct (@rehash_concurrent_expands int_params 3 1 (int_table_with 8 [(1, 10); (3, 30)])
              int_params_ok Hinv) as (Hearly & _).
  split; [exact Hhp|]. apply Hearly. vm_compute. intros H. discriminate H.
Defined.

Section Caps.
Context {params : Params}.

Lemma insert_all_capped fuel mhp kvs :
  params_ok -> mhp <> NO_MAXIMUM_HASHPOWER ->
  forall t, inv t -> maximum_hashpower t = mhp -> hashpower t <= mhp ->
  wp (insert_all fuel kvs)
     (fun o t' =>
        match o with
        | Ret _ => inv t' /\ maximum_hashpower t' = mhp /\
                   hashpower t <= hashpower t' <= mhp
        | _ => True
        end) t.
Proof.
  intros Hpar Hno. induction kvs as [|[k v] rest IH]; intros t Hinv Hm Hle;
    cbn [insert_all].
  - apply wp_ret. split; [exact Hinv|]. split; [exact Hm|]. lia.
  - apply wp_bind.
    eapply wp_mono;
      [apply wp_conj; [apply (insert_inv fuel k v t Hpar Hinv)
                      |apply (uprase_fn_growth fuel k (fun v => (v, false)) v t Hpar Hinv)]|].
    intros [r|e|] t1; [|intros; exact I|intros; exact I].
    intros [[Hinv1 (_ & Hm1 & _)] [Hle1 Hgrow]].
    assert (Hm1' : maximum_hashpower t1 = mhp) by (unfold maximum_hashpower in *; congruence).
    assert (Hcap1 : hashpower t1 <= mhp).
    { destruct (Z.eq_dec (hashpower t) (hashpower t1)) as [Heq|Hne]; [lia|].
      destruct Hgrow as [[Hc|Hc] _]; [lia|congruence|lia]. }
    eapply wp_mono; [apply (IH t1 Hinv1 Hm1' Hcap1)|].
    intros [u|e|] t'; [|auto|auto]. intros (H1 & H2 & H3).
    split; [exact H1|]. split; [exact H2|]. lia.
Qed.

End Caps.

(** ** The cap on the hashpower and the cuckoo displacement *)

(** X13.  [maximum_hashpower(mhp)] throws [std::invalid_argument] and
    changes nothing when [mhp] is below the hashpower.  Once it has set a
    maximum on a table that satisfies the invariant, no sequence of
    inserts that returns takes the hashpower above it: the hashpower only
    grows, stays at most [mhp], and the setting is kept. *)
Theorem maximum_hashpower_caps_inserts `{params : Params}
        (fuel : nat) (mhp : Z) (kvs : list (K * V)) (t : table) :
  params_ok -> inv t -> mhp <> NO_MAXIMUM_HASHPOWER ->
  (mhp < hashpower t -> maximum_hashpower_set mhp t = (Throw std_invalid_argument, t)) /\
  (hashpower t <= mhp ->
   exists t1, maximum_hashpower_set mhp t = (Ret tt, t1) /\
              maximum_hashpower t1 = mhp /\ same_data t t1 /\
              forall u t', insert_all fuel kvs t1 = (Ret u, t') ->
                           inv t' /\ maximum_hashpower t' = mhp /\
                           hashpower t <= hashpower t' <= mhp).
Proof.
  intros Hpar Hinv Hno. unfold maximum_hashpower_set. split.
  - intros Hlt. apply Z.ltb_lt in Hlt. rewrite Hlt. reflexivity.
  - intros Hle. assert (Hge : (mhp <? hashpower t) = false) by (apply Z.ltb_ge; exact Hle).
    rewrite Hge. exists (set_maximum_hashpower t mhp).
    split; [reflexivity|]. split; [reflexivity|]. split; [repeat split|].
    intros u t' Hrun.
    assert (Hinv1 : inv (set_maximum_hashpower t mhp)).
    { apply (inv_same_data t); [|exact Hinv]. repeat split. }
    exact (wp_inv _ _ _ _ _
             (insert_all_capped fuel mhp kvs Hpar Hno (set_maximum_hashpower t mhp) Hinv1
                eq_refl Hle) Hrun).
Qed.

(** The witness: with the maximum hashpower 2, five colliding keys still
    fit a table that starts with two buckets. *)
Lemma maximum_hashpower_caps_inserts_witness :
  hashpower (snd (@insert_all int_params 8 [(1, 10); (3, 30); (5, 50); (7, 70); (9, 90)]
                    (snd (@maximum_hashpower_set int_params 2 (int_table 8))))) <= 2.
Proof.
  assert (Hinv : inv (int_table 8)).
  { apply inv_check_sound. vm_compute. reflexivity. }
  destruct (@maximum_hashpower_caps_inserts int_params 8 2
              [(1, 10); (3, 30); (5, 50); (7, 70); (9, 90)] (int_table 8)
              int_params_ok Hinv ltac:(vm_compute; discriminate)) as (_ & Hset).
  destruct (Hset ltac:(vm_compute; discriminate)) as (t1 & Hrun & _ & _ & Hins).
  rewrite Hrun. cbn [snd].
  destruct (Hins tt (snd (@insert_all int_params 8
                            [(1, 10); (3, 30); (5, 50); (7, 70); (9, 90)] t1)))
    as (_ & _ & Hle).
  - inversion Hrun; subst t1. vm_compute. reflexivity.
  - lia.
Defined.


Section Candidates.
Context {params : Params}.

Lemma hashed_key_eq k k' : eq_ok -> key_eq k k' = true -> hashed_key k = hashed_key k'.
Proof.
  intros (_ & _ & _ & Hh) He. unfold hashed_key. rewrite (Hh k k' He). reflexivity.
Qed.

Lemma candidate_eq hp k k' i :
  eq_ok -> key_eq k k' = true -> candidate hp k i -> candidate hp k' i.
Proof. intros Hok He. unfold candidate. rewrite (hashed_key_eq k k' Hok He). auto. Qed.

Lemma alt_index_back hp p i :
  0 <= hp < 64 -> 0 <= i < 2 ^ hp -> alt_index hp p (alt_index hp p i) = i.
Proof.
  intros Hhp Hi. unfold alt_index. rewrite hashmask_ones by lia.
  rewrite Z.min_l by lia.
  set (m := wrap64 (wrap64 (p + 1) * murmur_c)).
  apply Z.bits_inj'. intros n Hn.
  rewrite !Z.land_spec, !Z.lxor_spec, !Z.land_spec, !Z.lxor_spec.
  destruct (Z_lt_le_dec n hp) as [Hlt|Hge].
  - rewrite Z.ones_spec_low by lia. rewrite !andb_true_r.
    rewrite xorb_assoc, xorb_nilpotent, xorb_false_r. reflexivity.
  - rewrite Z.ones_spec_high by lia. rewrite andb_false_r.
    symmetry. apply (testbit_above n hp); lia.
Qed.

Lemma candidate_range hp key i : 0 <= hp < 64 -> candidate hp key i -> 0 <= i < 2 ^ hp.
Proof.
  intros Hhp [->| ->].
  - apply index_hash_range. exact Hhp.
  - pose proof (alt_index_range hp (hv_partial (hashed_key key))
                  (index_hash hp (hv_hash (hashed_key key))) ltac:(lia)) as H.
    rewrite Z.min_l in H by lia. exact H.
Qed.

Lemma candidate_alt hp key i :
  0 <= hp < 64 -> candidate hp key i ->
  candidate hp key (alt_index hp (hv_partial (hashed_key key)) i).
Proof.
  intros Hhp [->| ->].
  - right. reflexivity.
  - left. apply alt_index_back; [exact Hhp|]. apply index_hash_range. exact Hhp.
Qed.

(** The test of [move_bucket] sends a pair to the new bucket exactly
    when that is a candidate bucket of its key at the new hashpower, and
    otherwise its bucket still is one. *)
Lemma need_to_move_candidate hp key bi :
  0 <= hp < 63 -> 0 <= bi < 2 ^ hp -> candidate hp key bi ->
  if need_to_move_elem (hashed_key key) hp (hp + 1) bi (wrap64 (bi + hashsize hp))
  then candidate (hp + 1) key (bi + 2 ^ hp)
  else candidate (hp + 1) key bi.
Proof.
  intros Hhp Hbi Hc. unfold need_to_move_elem.
  assert (Hpow : 0 < 2 ^ hp) by (apply Z.pow_pos_nonneg; lia).
  assert (Hpow' : 2 ^ hp < 2 ^ 63) by (apply Z.pow_lt_mono_r; lia).
  rewrite hashsize_small by lia. rewrite wrap64_small by lia.
  set (h := hv_hash (hashed_key key)) in *. set (p := hv_partial (hashed_key key)) in *.
  pose proof (index_hash_succ hp h Hhp) as Hi.
  pose proof (alt_index_succ hp p (index_hash hp h) (index_hash (hp + 1) h) Hhp
                (fun n Hn => index_hash_low_bits hp h n Hhp Hn)) as Ha.
  rewrite hashsize_small in Hi, Ha by lia.
  pose proof (index_hash_range hp h ltac:(lia)) as Hir.
  pose proof (alt_index_range hp p (index_hash hp h) ltac:(lia)) as Har.
  rewrite Z.min_l in Har by lia.
  unfold candidate in *. fold h p in Hc |- *.
  set (I := index_hash hp h) in *. set (A := alt_index hp p I) in *.
  set (I' := index_hash (hp + 1) h) in *. set (A' := alt_index (hp + 1) p I') in *.
  cbv zeta. fold I A I' A'.
  set (bh := Z.testbit h hp) in *.
  set (ba := Z.testbit (Z.lxor I' (wrap64 (wrap64 (p + 1) * murmur_c))) hp) in *.
  clearbody I A I' A' bh ba. clear h p.
  destruct ((bi =? I) && (I' =? bi + 2 ^ hp)) eqn:H1; cbn [orb].
  - apply andb_true_iff in H1. destruct H1 as [_ H1]. apply Z.eqb_eq in H1. left. lia.
  - destruct ((bi =? A) && (A' =? bi + 2 ^ hp)) eqn:H2.
    + apply andb_true_iff in H2. destruct H2 as [_ H2]. apply Z.eqb_eq in H2. right. lia.
    + apply andb_false_iff in H1, H2.
      destruct Hc as [Hc|Hc].
      * left. destruct H1 as [H1|H1]; [apply Z.eqb_neq in H1; lia|].
        apply Z.eqb_neq in H1. destruct bh; lia.
      * right. destruct H2 as [H2|H2]; [apply Z.eqb_neq in H2; lia|].
        apply Z.eqb_neq in H2. destruct ba; lia.
Qed.

(** A candidate bucket at the hashpower below shares its stripe with a
    candidate bucket at the hashpower, once there are more buckets than
    stripes. *)
Lemma candidate_pred_stripe hp key i :
  17 <= hp < 64 -> candidate (hp - 1) key i ->
  lock_ind i = lock_ind (index_hash hp (hv_hash (hashed_key key))) \/
  lock_ind i = lock_ind (alt_index hp (hv_partial (hashed_key key))
                           (index_hash hp (hv_hash (hashed_key key)))).
Proof.
  intros Hhp Hc.
  set (h := hv_hash (hashed_key key)) in *. set (p := hv_partial (hashed_key key)) in *.
  assert (Hq : 0 <= hp - 1 < 63) by lia.
  pose proof (index_hash_succ (hp - 1) h Hq) as Hi.
  pose proof (alt_index_succ (hp - 1) p (index_hash (hp - 1) h) (index_hash (hp - 1 + 1) h) Hq
                (fun n Hn => index_hash_low_bits (hp - 1) h n Hq Hn)) as Ha.
  replace (hp - 1 + 1) with hp in Hi, Ha by lia.
  rewrite hashsize_small in Hi, Ha by lia.
  unfold candidate in Hc. fold h p in Hc. fold h p. clearbody h p.
  destruct Hc as [->| ->]; [left|right].
  - rewrite Hi. destruct (Z.testbit h (hp - 1)).
    + rewrite lock_ind_add_half by lia. reflexivity.
    + rewrite Z.add_0_r. reflexivity.
  - rewrite Ha. match goal with |- context [if ?b then _ else _] => destruct b end.
    + rewrite lock_ind_add_half by lia. reflexivity.
    + rewrite Z.add_0_r. reflexivity.
Qed.

End Candidates.

Section Steps.
Context {params : Params}.

(** Uniqueness across the elementary changes of a table. *)
Lemma unique_move t t' fb fs tb ts sl :
  unique t -> cell t fb fs = Some sl -> cell t tb ts = None ->
  (forall i s, cell t' i s = if decide (i = tb /\ s = ts) then Some sl
                             else if decide (i = fb /\ s = fs) then None
                             else cell t i s) ->
  unique t'.
Proof.
  intros Hu Hf Ht Hc i s x i' s' x' Hx Hx' He.
  rewrite Hc in Hx, Hx'.
  destruct (decide (i = tb /\ s = ts)) as [[-> ->]|Hn1];
    destruct (decide (i' = tb /\ s' = ts)) as [[-> ->]|Hn2]; [auto| | |].
  - inversion Hx; subst x.
    destruct (decide (i' = fb /\ s' = fs)) as [_|Hn3]; [discriminate|].
    destruct (Hu fb fs sl i' s' x' Hf Hx' He) as [<- <-]. destruct Hn3. auto.
  - inversion Hx'; subst x'.
    destruct (decide (i = fb /\ s = fs)) as [_|Hn3]; [discriminate|].
    destruct (Hu i s x fb fs sl Hx Hf He) as [-> ->]. destruct Hn3. auto.
  - destruct (decide (i = fb /\ s = fs)); [discriminate|].
    destruct (decide (i' = fb /\ s' = fs)); [discriminate|].
    eapply Hu; eauto.
Qed.

Lemma unique_sub t t' :
  unique t ->
  (forall i s x, cell t' i s = Some x ->
                 exists y, cell t i s = Some y /\ s_key y = s_key x) ->
  unique t'.
Proof.
  intros Hu Hc i s x i' s' x' Hx Hx' He.
  destruct (Hc _ _ _ Hx) as (y & Hy & Hk). destruct (Hc _ _ _ Hx') as (y' & Hy' & Hk').
  apply (Hu i s y i' s' y' Hy Hy'). rewrite Hk, Hk'. exact He.
Qed.

Lemma unique_put t t' pi ps sl :
  eq_ok -> unique t -> absent t (s_key sl) ->
  (forall i s, cell t' i s = if decide (i = pi /\ s = ps) then Some sl else cell t i s) ->
  unique t'.
Proof.
  intros (_ & Hsym & _) Hu Ha Hc i s x i' s' x' Hx Hx' He.
  rewrite Hc in Hx, Hx'.
  destruct (decide (i = pi /\ s = ps)) as [[-> ->]|Hn1];
    destruct (decide (i' = pi /\ s' = ps)) as [[-> ->]|Hn2]; [auto| | |].
  - inversion Hx; subst x. apply Hsym in He.
    rewrite (Ha x' (ex_intro _ i' (ex_intro _ s' Hx'))) in He. discriminate.
  - inversion Hx'; subst x'.
    rewrite (Ha x (ex_intro _ i (ex_intro _ s Hx))) in He. discriminate.
  - eapply Hu; eauto.
Qed.

(** Placement across the elementary changes. *)
Lemma placed_with_sub eff eff' t t' :
  placed_with eff t ->
  (forall i s x, cell t' i s = Some x ->
                 exists y, cell t i s = Some y /\ s_key y = s_key x /\
                           s_partial y = s_partial x /\ eff' i s = eff i s) ->
  placed_with eff' t'.
Proof.
  intros Hp Hc i s x Hx. destruct (Hc _ _ _ Hx) as (y & Hy & Hk & Hq & He).
  destruct (Hp _ _ _ Hy) as [Ht Hcand]. unfold tagged in *.
  rewrite He, <- Hk, <- Hq. auto.
Qed.

Lemma level_eq t t' i :
  hashpower t' = hashpower t ->
  (migrated t' (lock_ind i) <-> migrated t (lock_ind i)) ->
  level t' i = level t i.
Proof.
  unfold level, migrated. intros -> Hm.
  destruct (is_migrated (get_lock t' (lock_ind i)));
    destruct (is_migrated (get_lock t (lock_ind i))); try reflexivity.
  - destruct Hm as [Hm _]. specialize (Hm eq_refl). discriminate.
  - destruct Hm as [_ Hm]. specialize (Hm eq_refl). discriminate.
Qed.

Lemma level_migrated t i : migrated t (lock_ind i) -> level t i = hashpower t.
Proof. unfold level, migrated. intros ->. reflexivity. Qed.

Lemma level_unmigrated t i : ~ migrated t (lock_ind i) -> level t i = hashpower t - 1.
Proof.
  unfold level, migrated. destruct (is_migrated _); [intros H; destruct H; reflexivity|].
  reflexivity.
Qed.

End Steps.

Section MigrationSound.
Context {params : Params}.

Lemma placed_with_ext eff eff' t t' :
  placed_with eff t ->
  (forall i s, cell t' i s = cell t i s) ->
  (forall i s sl, cell t i s = Some sl -> eff' i s = eff i s) ->
  placed_with eff' t'.
Proof.
  intros Hp Hc He i s sl Hsl. rewrite Hc in Hsl.
  destruct (Hp _ _ _ Hsl) as [Ht Hcand]. rewrite (He _ _ _ Hsl). auto.
Qed.

Lemma unique_ext t t' : unique t -> (forall i s, cell t' i s = cell t i s) -> unique t'.
Proof.
  intros Hu Hc i s x i' s' x' Hx Hx'. rewrite Hc in Hx, Hx'. eapply Hu; eauto.
Qed.

(** [move_bucket] leaves every pair of the old bucket in a candidate
    bucket of its key at the new hashpower. *)
Lemma move_bucket_loop_sound n old_hp bi nb after_set :
  0 <= old_hp < 63 -> 0 <= bi < 2 ^ old_hp -> nb = bi + 2 ^ old_hp ->
  (Z.to_nat nb < n)%nat ->
  (forall s t, buckets_ (after_set s t) = buckets_ (eraseKV bi s t)) ->
  forall slots, StronglySorted Z.lt slots ->
  forall k t (eff eff' : Z -> Z -> Z),
  (forall j, j ∈ slots -> k <= j < slot_per_bucket) -> 0 <= k ->
  shape n t -> (forall s, k <= s -> cell t nb s = None) ->
  placed_with eff t ->
  (forall j, j ∈ slots -> eff bi j = old_hp) ->
  (forall s, eff nb s = old_hp + 1 /\ eff' nb s = old_hp + 1) ->
  (forall j, j ∈ slots -> eff' bi j = old_hp + 1) ->
  (forall i s sl, cell t i s = Some sl -> i <> nb -> (i <> bi \/ s ∉ slots) ->
                  eff' i s = eff i s) ->
  placed_with eff' (move_bucket_loop old_hp bi bi nb after_set k slots t) /\
  (unique t -> unique (move_bucket_loop old_hp bi bi nb after_set k slots t)).
Proof.
  intros Hhp Hbi Hnb Hnbn Hafter.
  assert (Hpow : 0 < 2 ^ old_hp) by (apply Z.pow_pos_nonneg; lia).
  assert (Hpow' : 2 ^ old_hp < 2 ^ 63) by (apply Z.pow_lt_mono_r; lia).
  assert (Hne : nb <> bi) by lia.
  assert (Hbin : (Z.to_nat bi < n)%nat) by lia.
  induction 1 as [|j rest Hsorted IH Hlt];
    intros k t eff eff' Hrange Hk Hshape Hempty Hp E1 E2 E3 E4; cbn [move_bucket_loop].
  - split; [|auto]. intros i s sl Hsl. destruct (Hp _ _ _ Hsl) as [Ht Hc].
    split; [exact Ht|]. destruct (Z.eq_dec i nb) as [->|Hi].
    + destruct (E2 s) as [H1 H2]. rewrite H2, <- H1. exact Hc.
    + rewrite (E4 i s sl Hsl Hi); [exact Hc|]. right. apply not_elem_of_nil.
  - rewrite Forall_forall in Hlt.
    assert (Hj : k <= j < slot_per_bucket) by (apply Hrange, elem_of_cons; auto).
    assert (Hrest : forall k', k' <= j + 1 -> forall j', j' ∈ rest -> k' <= j' < slot_per_bucket).
    { intros k' Hk' j' Hj'. specialize (Hlt _ Hj').
      specialize (Hrange j' ltac:(apply elem_of_cons; auto)). lia. }
    assert (Hjrest : j ∉ rest).
    { intros Hin. specialize (Hlt _ Hin). lia. }
    set (eff_mid := fun i s => if decide (i = bi /\ s = j) then old_hp + 1 else eff i s).
    assert (M1 : forall j', j' ∈ rest -> eff_mid bi j' = old_hp).
    { intros j' Hj'. unfold eff_mid. rewrite decide_False.
      - apply E1. apply elem_of_cons. auto.
      - intros [_ ->]. contradiction. }
    assert (M2 : forall s, eff_mid nb s = old_hp + 1 /\ eff' nb s = old_hp + 1).
    { intros s. unfold eff_mid. rewrite decide_False by (intros [? _]; lia). apply E2. }
    assert (M3 : forall j', j' ∈ rest -> eff' bi j' = old_hp + 1).
    { intros j' Hj'. apply E3. apply elem_of_cons. auto. }
    assert (M4 : forall t2,
               (forall i s sl, cell t2 i s = Some sl -> i <> nb -> ~ (i = bi /\ s = j) ->
                               cell t i s = Some sl) ->
               forall i s sl, cell t2 i s = Some sl -> i <> nb -> (i <> bi \/ s ∉ rest) ->
                              eff' i s = eff_mid i s).
    { intros t2 Hback i s sl Hsl Hi Hor. unfold eff_mid.
      destruct (decide (i = bi /\ s = j)) as [[-> ->]|Hn].
      - apply E3. apply elem_of_cons. auto.
      - apply (E4 i s sl); [apply Hback; assumption|exact Hi|].
        destruct Hor as [Hor|Hor]; [left; exact Hor|].
        destruct (Z.eq_dec i bi) as [->|Hib]; [right|left; exact Hib].
        intros Hin. apply elem_of_cons in Hin. destruct Hin as [->|Hin]; [|contradiction].
        apply Hn. auto. }
    fold (cell t bi j). destruct (cell t bi j) as [sl|] eqn:Hsl.
    2:{ apply (IH k t eff_mid eff'); auto.
        - apply Hrest. lia.
        - intros i s x Hx. destruct (Hp _ _ _ Hx) as [Ht Hc]. split; [exact Ht|].
          unfold eff_mid. rewrite decide_False; [exact Hc|].
          intros [-> ->]. congruence.
        - apply (M4 t). auto. }
    destruct (Hp _ _ _ Hsl) as [Htag Hcand]. rewrite (E1 j) in Hcand by (apply elem_of_cons; auto).
    pose proof (need_to_move_candidate old_hp (s_key sl) bi Hhp Hbi Hcand) as Hmove.
    replace (wrap64 (bi + hashsize old_hp)) with nb in Hmove
      by (rewrite hashsize_small by lia; rewrite wrap64_small by lia; lia).
    replace (wrap64 (bi + hashsize old_hp)) with nb
      by (rewrite hashsize_small by lia; rewrite wrap64_small by lia; lia).
    destruct (need_to_move_elem _ _ _ _ _).
    2:{ apply (IH k t eff_mid eff'); auto.
        - apply Hrest. lia.
        - intros i s x Hx. destruct (Hp _ _ _ Hx) as [Ht Hc]. split; [exact Ht|].
          unfold eff_mid. destruct (decide (i = bi /\ s = j)) as [[-> ->]|Hn]; [|exact Hc].
          assert (x = sl) by congruence. subst x. exact Hmove.
        - apply (M4 t). auto. }
    match goal with
    | |- context [move_bucket_loop _ _ _ _ _ _ _ ?t2] => set (t2' := t2)
    end.
    destruct (move_one n bi nb j k sl t t2' Hshape ltac:(lia) Hbin ltac:(lia) Hnbn Hne
                ltac:(lia) ltac:(lia) Hsl (Hempty k ltac:(lia)) (Hafter _ _))
      as (Hshape2 & _ & _ & Hcells2).
    destruct (IH (k + 1) t2' eff_mid eff') as [Hp' Hu']; auto.
    + apply Hrest. lia.
    + lia.
    + intros s Hs. rewrite Hcells2. rewrite decide_False by lia.
      rewrite decide_False by (intros [? ?]; lia). apply Hempty. lia.
    + intros i s x Hx. rewrite Hcells2 in Hx.
      destruct (decide (i = nb /\ s = k)) as [[-> ->]|Hn1].
      * inversion Hx; subst x. split; [exact Htag|].
        destruct (M2 k) as [-> _]. rewrite Hnb. exact Hmove.
      * destruct (decide (i = bi /\ s = j)) as [_|Hn2]; [discriminate|].
        destruct (Hp _ _ _ Hx) as [Ht Hc]. split; [exact Ht|].
        unfold eff_mid. rewrite decide_False by exact Hn2. exact Hc.
    + apply (M4 t2'). intros i s x Hx Hi Hn. rewrite Hcells2 in Hx.
      rewrite decide_False in Hx by (intros [? _]; contradiction).
      rewrite decide_False in Hx by exact Hn. exact Hx.
    + split; [exact Hp'|]. intros Hu. apply Hu'.
      apply (unique_move t t2' bi j nb k sl Hu Hsl (Hempty k ltac:(lia)) Hcells2).
Qed.

Lemma stripe_stride bi j :
  lock_ind j = lock_ind bi -> bi < j -> bi + 2 ^ 16 <= j.
Proof.
  rewrite !lock_ind_mod. intros Heq Hlt.
  pose proof (Z.div_mod j (2 ^ 16) ltac:(lia)) as Hj.
  pose proof (Z.div_mod bi (2 ^ 16) ltac:(lia)) as Hb.
  change (2 ^ 16) with 65536 in *. lia.
Qed.

Lemma stripe_least l j : 0 <= l < 2 ^ 16 -> 0 <= j -> lock_ind j = l -> l <= j.
Proof.
  rewrite lock_ind_mod. intros Hl Hj Heq.
  pose proof (Z.div_mod j (2 ^ 16) ltac:(lia)) as Hd.
  pose proof (Z.div_pos j (2 ^ 16) Hj ltac:(lia)) as Hq.
  change (2 ^ 16) with 65536 in *. lia.
Qed.

Lemma shape_cell_range n t i s sl :
  shape n t -> cell t i s = Some sl ->
  0 <= i /\ (Z.to_nat i < n)%nat /\ 0 <= s < slot_per_bucket.
Proof.
  intros Hshape Hsl.
  destruct (Z_lt_le_dec i 0) as [Hi|Hi];
    [rewrite (cell_None_out_of_range n t i s Hshape) in Hsl by auto; discriminate|].
  destruct (le_lt_dec n (Z.to_nat i)) as [Hn|Hn];
    [rewrite (cell_None_out_of_range n t i s Hshape) in Hsl by auto; discriminate|].
  destruct (Z_lt_le_dec s 0) as [Hs|Hs];
    [rewrite (cell_None_out_of_range n t i s Hshape) in Hsl by auto; discriminate|].
  destruct (Z_lt_le_dec s slot_per_bucket) as [Hs'|Hs'];
    [lia|rewrite (cell_None_out_of_range n t i s Hshape) in Hsl by auto; discriminate].
Qed.

(** The migration of a stripe: when the loop is over, every pair of the
    stripe is placed at the hashpower of the table. *)
Lemma migrate_lock_loop_sound hp l :
  17 <= hp < 63 -> 0 <= l < 2 ^ 16 ->
  forall m bucket_ind t (eff eff' : Z -> Z -> Z),
  hashpower t = hp -> shape (Z.to_nat (2 ^ hp)) t ->
  0 <= bucket_ind -> lock_ind bucket_ind = l ->
  (forall j, bucket_ind <= j < 2 ^ (hp - 1) -> lock_ind j = l ->
             forall s, cell t (j + 2 ^ (hp - 1)) s = None) ->
  2 ^ (hp - 1) <= bucket_ind + Z.of_nat m * 2 ^ 16 ->
  placed_with eff t ->
  (forall j s, 0 <= j -> lock_ind j = l ->
               if decide (bucket_ind <= j < 2 ^ (hp - 1)) then eff j s = hp - 1
               else eff j s = hp) ->
  (forall j s, lock_ind j = l -> eff' j s = hp) ->
  (forall j s, lock_ind j <> l -> eff' j s = eff j s) ->
  placed_with eff' (migrate_lock_loop m bucket_ind t) /\
  (unique t -> unique (migrate_lock_loop m bucket_ind t)).
Proof.
  intros Hhp Hl.
  assert (Hpow : 0 < 2 ^ (hp - 1)) by (apply Z.pow_pos_nonneg; lia).
  pose proof (pow2_half hp ltac:(lia)) as Hhalf.
  assert (Hdone : forall bucket_ind t (eff eff' : Z -> Z -> Z),
             shape (Z.to_nat (2 ^ hp)) t -> 2 ^ (hp - 1) <= bucket_ind ->
             placed_with eff t ->
             (forall j s, 0 <= j -> lock_ind j = l ->
                          if decide (bucket_ind <= j < 2 ^ (hp - 1)) then eff j s = hp - 1
                          else eff j s = hp) ->
             (forall j s, lock_ind j = l -> eff' j s = hp) ->
             (forall j s, lock_ind j <> l -> eff' j s = eff j s) ->
             placed_with eff' t).
  { intros bucket_ind t eff eff' Hshape Hge Hp Hpre Hpost1 Hpost2.
    apply (placed_with_ext eff eff' t t Hp); [reflexivity|].
    intros i s sl Hsl. destruct (shape_cell_range _ _ _ _ _ Hshape Hsl) as (Hi & _ & _).
    destruct (Z.eq_dec (lock_ind i) l) as [Heq|Hneq]; [|apply Hpost2; exact Hneq].
    rewrite (Hpost1 i s Heq). specialize (Hpre i s Hi Heq).
    rewrite decide_False in Hpre by lia. symmetry. exact Hpre. }
  induction m as [|m IH];
    intros bucket_ind t eff eff' Hhpt Hshape Hbi Hlock Hempty Hfuel Hp Hpre Hpost1 Hpost2;
    cbn [migrate_lock_loop].
  - split; [|auto]. apply (Hdone bucket_ind t eff eff'); auto. lia.
  - unfold bucket_count. rewrite Hhpt, hashsize_small by lia.
    rewrite shiftr_pow2 by lia. rewrite hashsize_small by lia.
    destruct (bucket_ind <? 2 ^ (hp - 1)) eqn:Hlt.
    2:{ apply Z.ltb_ge in Hlt. split; [|auto]. apply (Hdone bucket_ind t eff eff'); auto. }
    apply Z.ltb_lt in Hlt.
    rewrite wrap64_small
      by (assert (2 ^ hp < 2 ^ 64) by (apply Z.pow_lt_mono_r; lia); lia).
    set (nb := bucket_ind + 2 ^ (hp - 1)).
    set (after := fun old_bucket_slot : Z => eraseKV bucket_ind old_bucket_slot).
    assert (Hrest : same_rest t (move_bucket (hp - 1) bucket_ind bucket_ind nb after t)).
    { unfold move_bucket. apply (move_bucket_loop_invariant (same_rest t)).
      - intros. apply same_rest_update_slot. assumption.
      - intros. unfold after, eraseKV. apply same_rest_update_slot. assumption.
      - apply same_rest_refl. }
    assert (Hslots : forall j, j ∈ zseq SLOT_PER_BUCKET -> 0 <= j < slot_per_bucket).
    { intros j Hj. apply elem_of_zseq in Hj. unfold slot_per_bucket. lia. }
    destruct (move_bucket_loop_spec (Z.to_nat (2 ^ hp)) (hp - 1) bucket_ind nb after
                ltac:(lia) ltac:(lia) ltac:(unfold nb; lia) ltac:(unfold nb; lia)
                ltac:(unfold nb; lia) ltac:(reflexivity)
                (zseq SLOT_PER_BUCKET) (zseq_sorted _) 0 t Hslots ltac:(lia) Hshape)
      as (Hshape1 & _ & _ & Hframe1).
    { intros s _. apply Hempty; [lia|exact Hlock]. }
    set (eff_mid := fun i s => if decide (i = bucket_ind) then hp else eff i s).
    assert (Hnbl : lock_ind nb = l).
    { unfold nb. rewrite lock_ind_add_half by lia. exact Hlock. }
    destruct (move_bucket_loop_sound (Z.to_nat (2 ^ hp)) (hp - 1) bucket_ind nb after
                ltac:(lia) ltac:(lia) ltac:(reflexivity) ltac:(unfold nb; lia)
                ltac:(reflexivity)
                (zseq SLOT_PER_BUCKET) (zseq_sorted _) 0 t eff eff_mid Hslots ltac:(lia) Hshape)
      as [Hp1 Hu1].
    + intros s _. apply Hempty; [lia|exact Hlock].
    + exact Hp.
    + intros j _. specialize (Hpre bucket_ind j Hbi Hlock).
      rewrite decide_True in Hpre by lia. exact Hpre.
    + intros s. unfold eff_mid. rewrite decide_False by (unfold nb; lia).
      specialize (Hpre nb s ltac:(unfold nb; lia) Hnbl).
      rewrite decide_False in Hpre by (unfold nb; lia). split; lia.
    + intros j _. unfold eff_mid. rewrite decide_True by reflexivity. lia.
    + intros i s sl Hsl Hi Hor. unfold eff_mid.
      destruct (decide (i = bucket_ind)) as [->|Hn]; [|reflexivity].
      destruct Hor as [Hor|Hor]; [contradiction|].
      destruct (shape_cell_range _ _ _ _ _ Hshape Hsl) as (_ & _ & Hs).
      destruct Hor. apply elem_of_zseq. unfold slot_per_bucket in Hs. lia.
    + fold (move_bucket (hp - 1) bucket_ind bucket_ind nb after t) in *.
      set (t1 := move_bucket (hp - 1) bucket_ind bucket_ind nb after t) in *.
      destruct Hrest as (Hhp1 & Hlocks1 & Hpol1).
      destruct (IH (bucket_ind + kMaxNumLocks) t1 eff_mid eff') as [Hp' Hu']; auto.
      * congruence.
      * change kMaxNumLocks with 65536. lia.
      * rewrite lock_ind_add_stride. exact Hlock.
      * intros j Hj Hjl s. rewrite Hframe1.
        -- apply Hempty; [|exact Hjl]. change kMaxNumLocks with 65536 in Hj. lia.
        -- change kMaxNumLocks with 65536 in Hj. lia.
        -- unfold nb. change kMaxNumLocks with 65536 in Hj. lia.
      * change kMaxNumLocks with 65536. change (2 ^ 16) with 65536 in Hfuel. lia.
      * intros j s Hj Hjl. unfold eff_mid. specialize (Hpre j s Hj Hjl).
        change kMaxNumLocks with (2 ^ 16).
        destruct (decide (j = bucket_ind)) as [->|Hn].
        -- rewrite decide_False by lia. reflexivity.
        -- destruct (decide (bucket_ind + 2 ^ 16 <= j < 2 ^ (hp - 1))) as [Hin|Hout].
           ++ rewrite decide_True in Hpre by lia. exact Hpre.
           ++ destruct (decide (bucket_ind <= j < 2 ^ (hp - 1))) as [Hin'|]; [|exact Hpre].
              exfalso. apply Hout.
              pose proof (stripe_stride bucket_ind j ltac:(congruence) ltac:(lia)). lia.
      * intros j s Hjl. unfold eff_mid. rewrite decide_False by congruence.
        apply Hpost2. exact Hjl.
Qed.

(** Taking a stripe keeps the placement and the uniqueness of the
    keys. *)
Lemma lock_and_rehash_sound l t :
  params_ok -> good t -> placed t -> unique t ->
  placed (lock_and_rehash l t) /\ unique (lock_and_rehash l t).
Proof.
  intros Hpar [Hwf Hlazy] Hp Hu. unfold lock_and_rehash.
  destruct (is_migrated (get_lock t l)) eqn:Hmig; [auto|].
  pose proof (params_ok_hashpower Hpar) as Hmax.
  pose proof Hwf as (Hhp & Hlenb & Hall & Hlenl & Hsmall).
  assert (Hbig : 17 <= hashpower t).
  { destruct (Z_lt_le_dec (hashpower t) 17) as [Hlt|]; [exfalso|assumption].
    specialize (Hsmall ltac:(unfold kMaxNumLocksPow; lia) l).
    unfold migrated in Hsmall. congruence. }
  assert (Hnl : length (locks_ t) = Z.to_nat (2 ^ 16)).
  { rewrite Hlenl. rewrite Z.min_r by (unfold kMaxNumLocksPow; lia). reflexivity. }
  assert (Hl : 0 <= l < 2 ^ 16).
  { destruct (Z_lt_le_dec l 0) as [Hneg|Hl0].
    - pose proof (migrated_out_of_range t l ltac:(left; exact Hneg)) as H.
      unfold migrated in H. congruence.
    - destruct (Z_lt_le_dec l (2 ^ 16)) as [|Hge]; [lia|].
      pose proof (migrated_out_of_range t l ltac:(right; lia)) as H.
      unfold migrated in H. congruence. }
  assert (Hpow : 0 < 2 ^ (hashpower t - 1)) by (apply Z.pow_pos_nonneg; lia).
  pose proof (pow2_half (hashpower t) ltac:(lia)) as Hhalf.
  set (hp := hashpower t) in *.
  destruct (migrate_lock_loop_spec hp l ltac:(lia) Hl
              (Z.to_nat (Z.shiftr (bucket_count t) 1 / kMaxNumLocks) + 1) l t
              eq_refl (wf_shape t Hwf) ltac:(lia) (lock_ind_small l Hl))
    as (Hshape1 & (Hhp1 & Hlocks1 & Hpol1) & _ & _ & Hframe1).
  { intros j Hj Hjl s. apply Hlazy; [fold hp; lia|].
    rewrite lock_ind_add_half by lia. rewrite Hjl. unfold migrated. congruence. }
  set (eff0 := fun (i s : Z) =>
                 if decide (lock_ind i = l /\ 2 ^ (hp - 1) <= i) then hp else level t i).
  set (t' := set_migrated l true (migrate_lock l t)).
  assert (Hcell' : forall i s, cell t' i s = cell (migrate_lock l t) i s).
  { intros i s. apply cell_update_lock. }
  assert (Hlen1 : (Z.to_nat l < length (locks_ (migrate_lock l t)))%nat).
  { unfold migrate_lock. rewrite Hlocks1, Hnl. lia. }
  assert (Hmig' : migrated t' l) by (apply migrated_set_migrated_eq; [lia|exact Hlen1]).
  assert (Hother : forall l', l' <> l -> (migrated t' l' <-> migrated t l')).
  { intros l' Hne. unfold t', set_migrated. rewrite migrated_update_lock_ne by exact Hne.
    unfold migrated, get_lock, migrate_lock. rewrite Hlocks1. reflexivity. }
  assert (Hhp' : hashpower t' = hp).
  { unfold t', set_migrated. rewrite hashpower_update_lock. exact Hhp1. }
  destruct (migrate_lock_loop_sound hp l ltac:(lia) Hl
              (Z.to_nat (Z.shiftr (bucket_count t) 1 / kMaxNumLocks) + 1) l t
              eff0 (fun i _ => level t' i)
              eq_refl (wf_shape t Hwf) ltac:(lia) (lock_ind_small l Hl)) as [Hp1 Hu1].
  - intros j Hj Hjl s. apply Hlazy; [fold hp; lia|].
    rewrite lock_ind_add_half by lia. rewrite Hjl. unfold migrated. congruence.
  - unfold bucket_count. fold hp. rewrite hashsize_small by lia.
    rewrite shiftr_pow2 by lia. change kMaxNumLocks with (2 ^ 16).
    rewrite Nat2Z.inj_add, Z2Nat.id by (apply Z.div_pos; lia).
    pose proof (Z.div_mod (2 ^ (hp - 1)) (2 ^ 16) ltac:(lia)) as Hd.
    pose proof (Z.mod_pos_bound (2 ^ (hp - 1)) (2 ^ 16) ltac:(lia)) as Hm.
    change (2 ^ 16) with 65536 in *. lia.
  - intros i s sl Hsl. destruct (Hp _ _ _ Hsl) as [Ht Hc]. split; [exact Ht|].
    unfold eff0. destruct (decide _) as [[Hil Hi]|_]; [|exact Hc].
    exfalso. destruct (shape_cell_range _ _ _ _ _ (wf_shape t Hwf) Hsl) as (_ & Hin & _).
    rewrite (Hlazy i) in Hsl; [discriminate| |].
    + fold hp. split; [lia|].
      apply Z2Nat.inj_lt; [lia|apply Z.pow_nonneg; lia|exact Hin].
    + rewrite Hil. unfold migrated. congruence.
  - intros j s Hj Hjl. unfold eff0.
    pose proof (stripe_least l j Hl Hj Hjl) as Hle.
    destruct (decide (l <= j < 2 ^ (hp - 1))) as [Hin|Hout].
    + rewrite decide_False by lia. apply level_unmigrated.
      rewrite Hjl. unfold migrated. congruence.
    + rewrite decide_True by lia. reflexivity.
  - intros j s Hjl. rewrite level_migrated by (rewrite Hjl; exact Hmig'). exact Hhp'.
  - intros j s Hjl. unfold eff0. rewrite decide_False by tauto.
    apply level_eq; [exact Hhp'|]. apply Hother. exact Hjl.
  - fold (migrate_lock l t) in Hp1, Hu1. split.
    + apply (placed_with_ext _ _ (migrate_lock l t) t' Hp1 Hcell'). reflexivity.
    + apply (unique_ext (migrate_lock l t) t' (Hu1 Hu) Hcell').
Qed.

Lemma migr_sound t t' :
  params_ok -> migr t t' -> good t -> placed t -> unique t -> placed t' /\ unique t'.
Proof.
  intros Hpar. induction 1 as [t|t l t' Hm IH]; intros Hg Hp Hu; [auto|].
  destruct (lock_and_rehash_sound l t Hpar Hg Hp Hu) as [Hp1 Hu1].
  destruct (good_migr t _ Hpar Hg (migr_one l t)) as [Hg1 _].
  apply IH; assumption.
Qed.

End MigrationSound.

Section DoublingSound.
Context {params : Params}.

Lemma level_all_migrated t i : (forall l, migrated t l) -> level t i = hashpower t.
Proof. intros H. apply level_migrated. apply H. Qed.

Lemma fast_double_fold_sound hp :
  0 <= hp < 16 ->
  forall l, StronglySorted Z.lt l -> (forall i, i ∈ l -> 0 <= i < 2 ^ hp) ->
  forall t (eff eff' : Z -> Z -> Z),
  shape (Z.to_nat (2 ^ (hp + 1))) t ->
  (forall i s, i ∈ l -> cell t (2 ^ hp + i) s = None) ->
  placed_with eff t ->
  (forall i s, i ∈ l -> eff i s = hp) ->
  (forall i s, 2 ^ hp <= i -> eff i s = hp + 1) ->
  (forall i s, i ∈ l -> eff' i s = hp + 1) ->
  (forall i s, i ∉ l -> eff' i s = eff i s) ->
  let t' := fold_left
              (fun t old_bucket_ind =>
                 move_bucket hp old_bucket_ind old_bucket_ind
                   (hashsize hp + old_bucket_ind)
                   (fun old_bucket_slot t =>
                      incr_elem_counter (hashsize hp + old_bucket_ind)
                        (decr_elem_counter old_bucket_ind
                           (eraseKV old_bucket_ind old_bucket_slot t)))
                   t) l t in
  placed_with eff' t' /\ (unique t -> unique t').
Proof.
  intros Hhp. rewrite (hashsize_small hp) by lia.
  assert (Hpow : 2 ^ (hp + 1) = 2 * 2 ^ hp) by (rewrite Z.pow_add_r by lia; lia).
  assert (Hpos : 0 < 2 ^ hp) by (apply Z.pow_pos_nonneg; lia).
  induction 1 as [|i rest Hsorted IH Hlt];
    intros Hrange t eff eff' Hshape Hempty Hp E1 E2 E3 E4.
  - cbn [fold_left]. split; [|auto].
    apply (placed_with_ext eff eff' t t Hp); [reflexivity|].
    intros j s sl _. apply E4. apply not_elem_of_nil.
  - cbn [fold_left]. rewrite Forall_forall in Hlt.
    pose proof (Hrange i ltac:(apply elem_of_cons; auto)) as Hi.
    set (after := fun old_bucket_slot t0 =>
                    incr_elem_counter (2 ^ hp + i)
                      (decr_elem_counter i (eraseKV i old_bucket_slot t0))).
    set (t1 := move_bucket hp i i (2 ^ hp + i) after t).
    assert (Hafter : forall s t0, buckets_ (after s t0) = buckets_ (eraseKV i s t0)).
    { intros s t0. unfold after, incr_elem_counter, decr_elem_counter.
      destruct (update_lock_fields (2 ^ hp + i)
                  (fun lk => mk_seqlock (is_migrated lk) (elem_counter lk + 1))
                  (update_lock i (fun lk => mk_seqlock (is_migrated lk) (elem_counter lk - 1))
                     (eraseKV i s t0))) as (_ & -> & _).
      destruct (update_lock_fields i
                  (fun lk => mk_seqlock (is_migrated lk) (elem_counter lk - 1))
                  (eraseKV i s t0)) as (_ & -> & _).
      reflexivity. }
    assert (Hslots : forall j, j ∈ zseq SLOT_PER_BUCKET -> 0 <= j < slot_per_bucket).
    { intros j Hj. apply elem_of_zseq in Hj. unfold slot_per_bucket. lia. }
    destruct (move_bucket_loop_spec (Z.to_nat (2 ^ (hp + 1))) hp i (2 ^ hp + i) after
                ltac:(lia) ltac:(lia) ltac:(lia) ltac:(lia) ltac:(lia) Hafter
                (zseq SLOT_PER_BUCKET) (zseq_sorted _) 0 t Hslots ltac:(lia) Hshape)
      as (Hshape1 & _ & _ & Hframe1).
    { intros s _. apply Hempty. apply elem_of_cons. auto. }
    set (eff_mid := fun j s => if decide (j = i) then hp + 1 else eff j s).
    destruct (move_bucket_loop_sound (Z.to_nat (2 ^ (hp + 1))) hp i (2 ^ hp + i) after
                ltac:(lia) ltac:(lia) ltac:(lia) ltac:(lia) Hafter
                (zseq SLOT_PER_BUCKET) (zseq_sorted _) 0 t eff eff_mid Hslots ltac:(lia) Hshape)
      as [Hp1 Hu1].
    + intros s _. apply Hempty. apply elem_of_cons. auto.
    + exact Hp.
    + intros j _. apply E1. apply elem_of_cons. auto.
    + intros s. unfold eff_mid. rewrite decide_False by lia.
      rewrite E2 by lia. auto.
    + intros j _. unfold eff_mid. rewrite decide_True by reflexivity. reflexivity.
    + intros j s sl Hsl Hj Hor. unfold eff_mid.
      destruct (decide (j = i)) as [->|Hn]; [|reflexivity].
      destruct Hor as [Hor|Hor]; [contradiction|].
      destruct (shape_cell_range _ _ _ _ _ Hshape Hsl) as (_ & _ & Hs).
      destruct Hor. apply elem_of_zseq. unfold slot_per_bucket in Hs. lia.
    + fold (move_bucket hp i i (2 ^ hp + i) after t) in Hshape1, Hframe1, Hp1, Hu1.
      fold t1 in Hshape1, Hframe1, Hp1, Hu1.
      destruct (IH ltac:(intros j Hj; apply Hrange, elem_of_cons; auto) t1 eff_mid eff'
                  Hshape1) as [Hp' Hu'].
      * intros j s Hj. pose proof (Hlt j Hj) as Hij.
        pose proof (Hrange j ltac:(apply elem_of_cons; auto)) as Hjr.
        rewrite Hframe1 by lia. apply Hempty. apply elem_of_cons. auto.
      * exact Hp1.
      * intros j s Hj. unfold eff_mid. pose proof (Hlt j Hj).
        rewrite decide_False by lia. apply E1. apply elem_of_cons. auto.
      * intros j s Hj. unfold eff_mid. rewrite decide_False by lia. apply E2. exact Hj.
      * intros j s Hj. apply E3. apply elem_of_cons. auto.
      * intros j s Hj. unfold eff_mid. destruct (decide (j = i)) as [->|Hn].
        -- apply E3. apply elem_of_cons. auto.
        -- apply E4. intros Hin. apply elem_of_cons in Hin. destruct Hin; auto.
      * split; [exact Hp'|]. intros Hu. apply Hu'. apply Hu1. exact Hu.
Qed.

Lemma rehash_all_migr hp t : migr t (rehash_all hp t).
Proof.
  unfold rehash_all. destruct (hp >? kMaxNumLocksPow); [|apply migr_refl].
  rewrite rehash_with_workers_eq. apply take_stripes_migr.
Qed.

(** Doubling the table keeps the placement and the uniqueness of the
    keys. *)
Lemma cuckoo_fast_double_sound_normal auto t :
  params_ok -> good t -> placed t -> unique t ->
  wp (cuckoo_fast_double normal_mode auto (hashpower t))
     (fun o t' =>
        match o with
        | Ret st => placed t' /\ unique t'
        | _ => True
        end) t.
Proof.
  intros Hpar Hgood Hplaced Hunique. pose proof Hgood as [Hwf Hlazy].
  pose proof (params_ok_hashpower Hpar) as Hmax.
  assert (Hhp : 0 <= hashpower t < 63) by (destruct Hwf as (H & _); lia).
  set (hp := hashpower t) in *.
  assert (Hpos : 0 < 2 ^ hp) by (apply Z.pow_pos_nonneg; lia).
  unfold cuckoo_fast_double. rewrite (wrap64_small (hp + 1)) by lia.
  apply wp_bind.
  destruct (check_resize_validity_cases auto t (hp + 1)) as [[e He]|Hok];
    [eapply wp_eq; [exact He|exact I]|].
  eapply wp_eq; [exact Hok|]. cbn [status_eqb negb].
  apply wp_bind, wp_modify.
  destruct (rehash_all_spec t Hpar Hgood) as (Hg1 & Hk1 & Hmig1). fold hp in Hg1, Hk1, Hmig1.
  destruct (migr_sound t _ Hpar (rehash_all_migr hp t) Hgood Hplaced Hunique) as [Hp1 Hu1].
  set (t1 := rehash_all hp t) in *.
  assert (Ht1 : hashpower t1 = hp) by apply (keeps_hashpower _ _ Hk1).
  apply wp_bind, wp_modify.
  destruct (maybe_resize_locks_spec t1) as (Ht2 & Hb2 & Hp2 & Hl2).
  set (t2 := maybe_resize_locks t1) in *. rewrite Ht1 in Ht2, Hl2.
  apply wp_bind.
  destruct (double_size_cases t2 ltac:(rewrite Ht2; exact Hhp))
    as [[e He]|(Halloc & t3 & Hd & Ht3 & Hb3 & Hl3 & Hp3)];
    [eapply wp_eq; [exact He|exact I]|].
  eapply wp_eq; [exact Hd|]. rewrite Ht2 in Halloc, Ht3, Hb3. rewrite Hb2 in Hb3.
  destruct Hg1 as [Hwf1 Hlazy1]. pose proof (wf_shape t1 Hwf1) as Hshape1.
  rewrite Ht1 in Hshape1.
  pose proof (shape_app _ t1 t3 _ Hshape1 Hb3) as Hshape3.
  assert (Hsz : (Z.to_nat (2 ^ hp) + Z.to_nat (2 ^ hp))%nat = Z.to_nat (2 ^ (hp + 1))).
  { rewrite pow2_succ by lia. lia. }
  rewrite Hsz in Hshape3.
  assert (Hlen1 : length (buckets_ t1) = Z.to_nat (2 ^ hp)) by (destruct Hshape1; assumption).
  assert (Hnew : forall i s, 2 ^ hp <= i -> cell t3 i s = None).
  { intros i s Hi. apply (cell_app_new t1 t3 _ i s Hb3). right. rewrite Hlen1. lia. }
  assert (Hcell3 : forall i s, cell t3 i s = cell t1 i s).
  { intros i s. destruct (Z_lt_le_dec i 0) as [Hneg|Hi0].
    - rewrite (cell_app_new t1 t3 _ i s Hb3) by (left; exact Hneg).
      symmetry. apply (cell_None_out_of_range _ t1 i s Hshape1). auto.
    - destruct (Z_lt_le_dec i (2 ^ hp)) as [Hlt|Hge].
      + apply (cell_app_old t1 t3 _ i s Hb3). rewrite Hlen1. lia.
      + rewrite Hnew by exact Hge. symmetry.
        apply (cell_None_out_of_range _ t1 i s Hshape1). right. left. lia. }
  assert (Hu3 : unique t3) by (apply (unique_ext t1 t3 Hu1 Hcell3)).
  assert (Hlevel1 : forall i, level t1 i = hp).
  { intros i. rewrite level_all_migrated by exact Hmig1. exact Ht1. }
  assert (Hlocks1 : length (locks_ t1) = Z.to_nat (2 ^ Z.min hp kMaxNumLocksPow)).
  { destruct Hwf1 as (_ & _ & _ & H & _). rewrite Ht1 in H. exact H. }
  destruct (hp <? kMaxNumLocksPow) eqn:Hsmall.
  - (* the pairs are moved at once *)
    apply Z.ltb_lt in Hsmall. unfold kMaxNumLocksPow in Hsmall.
    assert (Hge : (hp >=? kMaxNumLocksPow) = false).
    { unfold kMaxNumLocksPow. rewrite Z.geb_leb. apply Z.leb_gt. lia. }
    rewrite Hge in Hl2. rewrite Z.min_l in Hlocks1 by (unfold kMaxNumLocksPow; lia).
    assert (Hlocks3 : length (locks_ t3) = Z.to_nat (2 ^ (hp + 1))).
    { rewrite Hl3, Hl2, length_app, length_replicate, Hlocks1. exact Hsz. }
    assert (Hmig3 : forall l, migrated t3 l).
    { apply (all_migrated_app t1 t3 (length (locks_ t1))); [congruence|exact Hmig1]. }
    apply wp_bind, wp_modify. apply wp_ret.
    assert (Hrange : forall i, i ∈ zseq (Z.to_nat (hashsize hp)) -> 0 <= i < 2 ^ hp).
    { intros i Hi. apply elem_of_zseq in Hi. rewrite hashsize_small in Hi by lia. lia. }
    destruct (fast_double_fold hp ltac:(lia) (zseq (Z.to_nat (hashsize hp)))
                (zseq_sorted _) Hrange t3 Hshape3 Ht3 Hlocks3 Hmig3)
      as (_ & Ht4 & _ & _ & _ & Hmig4 & _ & _).
    { intros i s Hi. apply Hnew. specialize (Hrange i Hi). lia. }
    set (eff := fun (i s : Z) => if decide (0 <= i < 2 ^ hp) then hp else hp + 1).
    destruct (fast_double_fold_sound hp ltac:(lia) (zseq (Z.to_nat (hashsize hp)))
                (zseq_sorted _) Hrange t3 eff
                (fun i _ => level (fast_double_migrate hp t3) i) Hshape3) as [Hp4 Hu4].
    + intros i s Hi. apply Hnew. specialize (Hrange i Hi). lia.
    + intros i s sl Hsl. rewrite Hcell3 in Hsl.
      destruct (Hp1 _ _ _ Hsl) as [Htag Hc]. rewrite Hlevel1 in Hc.
      split; [exact Htag|]. unfold eff.
      destruct (shape_cell_range _ _ _ _ _ Hshape1 Hsl) as (Hi0 & Hin & _).
      rewrite decide_True by lia. exact Hc.
    + intros i s Hi. unfold eff. rewrite decide_True by (apply Hrange; exact Hi). reflexivity.
    + intros i s Hi. unfold eff. rewrite decide_False by lia. reflexivity.
    + intros i s _. rewrite level_all_migrated by exact Hmig4. exact Ht4.
    + intros i s Hi. rewrite level_all_migrated by exact Hmig4.
      unfold eff. rewrite decide_False; [exact Ht4|].
      intros Hr. apply Hi. apply elem_of_zseq. rewrite hashsize_small by lia. lia.
    + fold (fast_double_migrate hp t3) in Hp4, Hu4. split; [exact Hp4|apply Hu4; exact Hu3].
  - (* lazy migration *)
    apply Z.ltb_ge in Hsmall. unfold kMaxNumLocksPow in Hsmall.
    assert (Hge : (hp >=? kMaxNumLocksPow) = true).
    { unfold kMaxNumLocksPow. rewrite Z.geb_leb. apply Z.leb_le. lia. }
    rewrite Hge in Hl2.
    apply wp_bind. apply wp_bind, wp_modify. apply wp_ret. apply wp_ret.
    set (t4 := set_locks t3 ((fun lk => mk_seqlock false (elem_counter lk)) <$> locks_ t3)).
    assert (Hb4 : buckets_ t4 = buckets_ t3) by reflexivity.
    assert (Ht4 : hashpower t4 = hp + 1) by exact Ht3.
    assert (Hlevel4 : forall i, level t4 i = hp).
    { intros i. unfold level. rewrite Ht4.
      assert (Hm : is_migrated (get_lock t4 (lock_ind i)) = false).
      { unfold get_lock, t4. cbn [locks_ set_locks].
        pose proof (lock_ind_range i) as Hr.
        assert (Hneg : (lock_ind i <? 0) = false) by (apply Z.ltb_ge; lia).
        rewrite Hneg, list_lookup_fmap.
        destruct (lookup_lt_is_Some_2 (locks_ t3) (Z.to_nat (lock_ind i))) as [lk Hlk].
        - rewrite Hl3, Hl2, Hlocks1. rewrite Z.min_r by (unfold kMaxNumLocksPow; lia).
          unfold kMaxNumLocksPow. lia.
        - rewrite Hlk. reflexivity. }
      rewrite Hm. lia. }
    split.
    + intros i s sl Hsl. rewrite (cell_buckets_eq t3 t4 i s Hb4), Hcell3 in Hsl.
      destruct (Hp1 _ _ _ Hsl) as [Htag Hc]. rewrite Hlevel1 in Hc.
      rewrite Hlevel4. auto.
    + apply (unique_ext t3 t4 Hu3). intros i s. apply cell_buckets_eq. exact Hb4.
Qed.

Lemma cuckoo_fast_double_sound mode auto t :
  params_ok -> good t -> placed t -> unique t ->
  wp (cuckoo_fast_double mode auto (hashpower t))
     (fun o t' =>
        match o with
        | Ret st => placed t' /\ unique t'
        | _ => True
        end) t.
Proof.
  intros Hpar Hgood Hp Hu.
  pose proof (cuckoo_fast_double_sound_normal auto t Hpar Hgood Hp Hu) as Hn.
  destruct mode; [|exact Hn].
  pose proof (cuckoo_fast_double_spec auto t Hpar Hgood) as Hs.
  unfold wp in *. rewrite cuckoo_fast_double_locked.
  destruct (cuckoo_fast_double normal_mode auto (hashpower t) t) as [[st|e|] t1];
    cbn [fst snd] in *; try exact I.
  destruct Hs as (-> & Hg1 & _). destruct Hn as [Hp1 Hu1]. cbn [status_eqb andb].
  destruct (negb (hashpower t <? kMaxNumLocksPow)); cbn [fst snd]; [|auto].
  rewrite rehash_with_workers_eq.
  apply (migr_sound t1 _ Hpar (take_stripes_migr _ t1) Hg1 Hp1 Hu1).
Qed.

End DoublingSound.

Section PathSound.
Context {params : Params}.

Lemma fill_path_linked mode hp D n :
  forall a (p : list CuckooRecord) t d p' t',
  (1 <= a)%nat -> D = Z.of_nat (a + n) - 1 -> (Z.to_nat (D + 1) <= length p)%nat ->
  path_linked hp p (Z.of_nat a - 1) ->
  hv_partial (cr_hv (path_at p (Z.of_nat a - 1)))
  = partial_key (hv_hash (cr_hv (path_at p (Z.of_nat a - 1)))) ->
  fill_path mode hp (Z.of_nat <$> seq a n) D p t = (Ret (d, p'), t') ->
  path_linked hp p' d.
Proof.
  induction n as [|n IH]; intros a p t d p' t' Ha HD Hlen Hlink Hhv Hrun.
  - cbn in Hrun. inversion Hrun; subst d p' t'.
    intros k Hk. apply Hlink. lia.
  - cbn [seq fmap list_fmap fill_path] in Hrun.
    set (prev := path_at p (Z.of_nat a - 1)) in *.
    set (cb := alt_index hp (hv_partial (cr_hv prev)) (cr_bucket prev)) in *.
    set (p1 := path_set_bucket p (Z.of_nat a) cb) in *.
    assert (Hp1_eq : cr_bucket (path_at p1 (Z.of_nat a)) = cb).
    { unfold p1, path_set_bucket. rewrite path_at_alter_eq by lia. reflexivity. }
    assert (Hp1_ne : forall k, 0 <= k -> k <> Z.of_nat a -> path_at p1 k = path_at p k).
    { intros k Hk Hne. unfold p1, path_set_bucket. apply path_at_alter_ne; lia. }
    assert (Hlink1 : path_linked hp p1 (Z.of_nat a)).
    { intros k Hk. destruct (Z.eq_dec k (Z.of_nat a)) as [->|Hne].
      - rewrite (Hp1_ne (Z.of_nat a - 1)) by lia. fold prev. rewrite Hp1_eq. auto.
      - rewrite (Hp1_ne k), (Hp1_ne (k - 1)) by lia. apply Hlink. lia. }
    unfold bind at 1 in Hrun.
    destruct (lock_one mode hp cb t) as [[x|e|] t1]; try discriminate.
    unfold bind at 1, get_table at 1 in Hrun.
    destruct (slot_at (get_bucket t1 cb) (cr_slot (path_at p1 (Z.of_nat a)))) as [s|].
    + set (p2 := path_set_hv p1 (Z.of_nat a) (hashed_key (s_key s))) in *.
      assert (Hlen1 : length p1 = length p).
      { unfold p1, path_set_bucket. apply length_alter. }
      assert (Hp2_eq : cr_hv (path_at p2 (Z.of_nat a)) = hashed_key (s_key s)).
      { unfold p2, path_set_hv. rewrite path_at_alter_eq by lia. reflexivity. }
      assert (Hp2_b : forall k, cr_bucket (path_at p2 k) = cr_bucket (path_at p1 k)).
      { intros k. unfold p2, path_set_hv. apply path_at_alter_field. reflexivity. }
      assert (Hp2_ne : forall k, 0 <= k -> k <> Z.of_nat a -> path_at p2 k = path_at p1 k).
      { intros k Hk Hne. unfold p2, path_set_hv. apply path_at_alter_ne; lia. }
      apply (IH (S a) p2 t1 d p' t'); try lia.
      * unfold p2, path_set_hv. rewrite length_alter, Hlen1. lia.
      * replace (Z.of_nat (S a) - 1) with (Z.of_nat a) by lia.
        intros k Hk. rewrite Hp2_b, (Hp2_ne (k - 1)) by lia. apply Hlink1. exact Hk.
      * replace (Z.of_nat (S a) - 1) with (Z.of_nat a) by lia.
        rewrite Hp2_eq. reflexivity.
      * exact Hrun.
    + inversion Hrun; subst d p' t'. exact Hlink1.
Qed.

Lemma cuckoopath_search_linked hp (p : list CuckooRecord) i1 i2 t d p' t' :
  params_ok -> hashpower t = hp ->
  length p = Z.to_nat MAX_BFS_PATH_LEN ->
  cuckoopath_search normal_mode hp p i1 i2 t = (Ret (d, p'), t') ->
  path_linked hp p' d.
Proof.
  intros Hpar Hhp Hlen Hrun. unfold cuckoopath_search in Hrun.
  destruct (slot_search_normal hp i1 i2 t Hpar Hhp) as (x & t1 & Hs & _ & Hd).
  unfold bind at 1 in Hrun. rewrite Hs in Hrun.
  destruct (depth x =? -1) eqn:Hneg.
  { inversion Hrun; subst. intros k Hk. lia. }
  apply Z.eqb_neq in Hneg. destruct Hd as [Hd|Hd]; [contradiction|].
  destruct (decode_slots (Z.to_nat (depth x + 1)) (depth x) (pathcode x) p)
    as [code p0] eqn:Hdec.
  destruct Hpar as (Hpos & _).
  destruct (decode_slots_spec Hpos (Z.to_nat (depth x + 1)) (depth x) (pathcode x) p
              ltac:(lia) ltac:(rewrite Hlen; unfold MAX_BFS_PATH_LEN in *; lia))
    as (Hlen0 & _ & _).
  rewrite Hdec in Hlen0. cbn [snd] in Hlen0.
  set (p1 := path_set_bucket p0 0 (if code =? 0 then i1 else i2)) in *.
  unfold bind at 1 in Hrun.
  destruct (lock_one normal_mode hp (if code =? 0 then i1 else i2) t1) as [[u|e|] t2];
    try discriminate.
  unfold bind at 1, get_table at 1 in Hrun.
  destruct (slot_at _ _) as [s|].
  - rewrite zseq_succ in Hrun.
    apply (fill_path_linked normal_mode hp (depth x) (Z.to_nat (depth x)) 1
             (path_set_hv p1 0 (hashed_key (s_key s))) t2 d p' t'); try lia.
    + unfold path_set_hv, p1, path_set_bucket. rewrite !length_alter, Hlen0, Hlen.
      unfold MAX_BFS_PATH_LEN in *. lia.
    + intros k Hk. lia.
    + change (Z.of_nat 1 - 1) with 0. unfold path_set_hv.
      change 0%nat with (Z.to_nat 0).
      rewrite path_at_alter_eq; [reflexivity|lia|].
      unfold p1, path_set_bucket. rewrite length_alter, Hlen0, Hlen.
      unfold MAX_BFS_PATH_LEN. lia.
    + exact Hrun.
  - inversion Hrun; subst. intros k Hk. lia.
Qed.

Lemma level_update_slot i s c t j : level (update_slot i s c t) j = level t j.
Proof.
  unfold level. rewrite get_lock_update_slot, hashpower_update_slot. reflexivity.
Qed.

(** One displacement along the path. *)
Lemma move_sound hp t fb fs tb ts sl :
  0 <= hp < 64 -> good t -> hashpower t = hp -> placed t -> unique t ->
  in_table hp fb fs -> in_table hp tb ts ->
  cell t fb fs = Some sl -> cell t tb ts = None ->
  migrated t (lock_ind fb) -> migrated t (lock_ind tb) ->
  tb = alt_index hp (hv_partial (hashed_key (s_key sl))) fb ->
  let t' := eraseKV fb fs (setKV tb ts (s_partial sl) (s_key sl) (s_mapped sl) t) in
  placed t' /\ unique t'.
Proof.
  intros Hhp Hgood Ht Hp Hu Hfrom Hto Hsl Hnone Hmf Hmt Halt. cbv zeta.
  rewrite <- Ht in Hfrom, Hto.
  destruct (move_cell t fb fs tb ts sl Hgood Hfrom Hto Hsl Hnone Hmt) as (_ & _ & Hcell).
  cbv zeta in Hcell.
  set (t' := eraseKV fb fs (setKV tb ts (s_partial sl) (s_key sl) (s_mapped sl) t)) in *.
  assert (Hcell' : forall i s, cell t' i s = if decide (i = tb /\ s = ts) then Some sl
                                            else if decide (i = fb /\ s = fs) then None
                                            else cell t i s).
  { intros i s. rewrite Hcell.
    destruct (decide (i = fb /\ s = fs)) as [[E1 E2]|Hn1];
      destruct (decide (i = tb /\ s = ts)) as [[E3 E4]|Hn2]; try reflexivity.
    subst. congruence. }
  assert (Hlevel : forall j, level t' j = level t j).
  { intros j. unfold t', eraseKV, setKV. rewrite !level_update_slot. reflexivity. }
  split.
  - intros i s x Hx. rewrite Hlevel. rewrite Hcell' in Hx.
    destruct (decide (i = tb /\ s = ts)) as [[-> ->]|Hn1].
    + inversion Hx; subst x. destruct (Hp _ _ _ Hsl) as [Htag Hc].
      split; [exact Htag|].
      rewrite level_migrated in Hc by exact Hmf.
      rewrite level_migrated by exact Hmt. rewrite Ht in *.
      rewrite Halt. apply candidate_alt; assumption.
    + destruct (decide (i = fb /\ s = fs)); [discriminate|]. exact (Hp _ _ _ Hx).
  - apply (unique_move t t' fb fs tb ts sl Hu Hsl Hnone Hcell').
Qed.

Lemma cuckoopath_move_loop_sound hp (path : list CuckooRecord) d :
  params_ok -> 0 <= hp < 64 ->
  forall b t moved b' t',
  good t -> hashpower t = hp -> path_ok hp path (Z.of_nat d) ->
  path_linked hp path (Z.of_nat d) ->
  (cr_bucket (path_at path 0) = tb_i1 b \/ cr_bucket (path_at path 0) = tb_i2 b) ->
  placed t -> unique t ->
  cuckoopath_move_loop normal_mode hp path d b t = (Ret (moved, b'), t') ->
  placed t' /\ unique t'.
Proof.
  intros Hpar Hhpr. induction d as [|d IH];
    intros b t moved b' t' Hgood Hhp Hok Hlink Hfirst Hp Hu Hrun.
  - cbn in Hrun. inversion Hrun; subst. auto.
  - cbn [cuckoopath_move_loop] in Hrun.
    set (from_ := path_at path (Z.of_nat d)) in *.
    set (to_ := path_at path (Z.of_nat (S d))) in *.
    pose proof (Hok (Z.of_nat d) ltac:(lia)) as Hfrom. fold from_ in Hfrom.
    pose proof (Hok (Z.of_nat (S d)) ltac:(lia)) as Hto. fold to_ in Hto.
    destruct (Hlink (Z.of_nat (S d)) ltac:(lia)) as [Hhv Hbucket].
    replace (Z.of_nat (S d) - 1) with (Z.of_nat d) in Hhv, Hbucket by lia.
    fold from_ to_ in Hhv, Hbucket.
    assert (Hlock : exists twob t1,
               (if Nat.eqb (S d) 1
                then let* r := lock_three normal_mode hp
                                 (tb_i1 b, tb_i2 b, cr_bucket to_) in ret (fst r)
                else lock_two normal_mode hp (cr_bucket from_) (cr_bucket to_)) t
               = (Ret twob, t1) /\
               migr t t1 /\ migrated t1 (lock_ind (cr_bucket to_)) /\
               migrated t1 (lock_ind (cr_bucket from_)) /\
               (d <> 0%nat -> (if Nat.eqb (S d) 1 then twob else b) = b)).
    { destruct d as [|d'].
      - cbn [Nat.eqb].
        destruct (lock_three_normal hp (tb_i1 b) (tb_i2 b) (cr_bucket to_) t Hhp)
          as (b3 & e & ls & Hrun3 & H1 & H2 & Hl1 & Hin1 & Hin2 & Hin3).
        destruct Hgood as [Hwf Hlazy].
        exists b3, (take_stripes ls t). unfold bind. rewrite Hrun3. cbn [fst ret].
        split; [reflexivity|]. split; [apply take_stripes_migr|].
        split; [apply take_stripes_migrated; auto|].
        split; [|intros Hd; destruct Hd; reflexivity].
        unfold from_. change (Z.of_nat 0) with 0.
        destruct Hfirst as [-> | ->]; apply take_stripes_migrated; auto.
      - cbn [Nat.eqb].
        destruct (lock_two_normal hp (cr_bucket from_) (cr_bucket to_) t Hhp)
          as (b2 & t1 & Hrun2 & Hm & _ & _ & _ & Hmig).
        destruct Hgood as [Hwf Hlazy]. destruct (Hmig Hpar Hwf Hlazy) as [Hmf Hmto].
        exists b2, t1. split; [exact Hrun2|]. split; [exact Hm|].
        split; [exact Hmto|]. split; [exact Hmf|]. reflexivity. }
    destruct Hlock as (twob & t1 & Hrun1 & Hm1 & Hmto & Hmfrom & Hb).
    unfold bind at 1 in Hrun. rewrite Hrun1 in Hrun.
    unfold bind at 1, get_table at 1 in Hrun.
    destruct (good_migr t t1 Hpar Hgood Hm1) as (Hg1 & Hk1).
    destruct (migr_sound t t1 Hpar Hm1 Hgood Hp Hu) as [Hp1 Hu1].
    assert (Hhp1 : hashpower t1 = hp) by (rewrite (keeps_hashpower _ _ Hk1); exact Hhp).
    destruct (slot_at (get_bucket t1 (cr_bucket from_)) (cr_slot from_)) as [s|] eqn:Hs.
    2:{ inversion Hrun; subst. auto. }
    destruct (occupied (get_bucket t1 (cr_bucket to_)) (cr_slot to_) ||
              negb (hashed_key_only_hash (s_key s) =? hv_hash (cr_hv from_))) eqn:Hbad.
    { inversion Hrun; subst. auto. }
    apply orb_false_iff in Hbad. destruct Hbad as [Hocc Hhash].
    apply occupied_false_iff in Hocc. apply negb_false_iff, Z.eqb_eq in Hhash.
    unfold bind at 1, modify at 1 in Hrun. unfold bind at 1, modify at 1 in Hrun.
    assert (Halt : cr_bucket to_
                   = alt_index hp (hv_partial (hashed_key (s_key s))) (cr_bucket from_)).
    { rewrite Hbucket, Hhv, <- Hhash. reflexivity. }
    destruct (move_sound hp t1 (cr_bucket from_) (cr_slot from_) (cr_bucket to_) (cr_slot to_)
                s Hhpr Hg1 Hhp1 Hp1 Hu1 Hfrom Hto Hs Hocc Hmfrom Hmto Halt) as [Hp2 Hu2].
    rewrite <- Hhp1 in Hfrom, Hto.
    destruct (move_cell t1 (cr_bucket from_) (cr_slot from_) (cr_bucket to_) (cr_slot to_) s
                Hg1 Hfrom Hto Hs Hocc Hmto) as (Hg2 & Hk2 & _).
    cbv zeta in Hp2, Hu2, Hg2, Hk2.
    set (t2 := eraseKV (cr_bucket from_) (cr_slot from_)
                 (setKV (cr_bucket to_) (cr_slot to_) (s_partial s) (s_key s) (s_mapped s) t1))
      in *.
    assert (Hhp2 : hashpower t2 = hp) by (rewrite (keeps_hashpower _ _ Hk2); exact Hhp1).
    destruct d as [|d'].
    + cbn [Nat.eqb cuckoopath_move_loop ret] in Hrun. inversion Hrun; subst. auto.
    + rewrite (Hb ltac:(lia)) in Hrun.
      apply (IH b t2 moved b' t' Hg2 Hhp2); auto.
      * intros k Hk. apply Hok. lia.
      * intros k Hk. apply Hlink. lia.
Qed.

Lemma cuckoopath_move_sound hp (path : list CuckooRecord) d b t moved b' t' :
  params_ok -> 0 <= hp < 64 -> good t -> hashpower t = hp -> 0 <= d ->
  path_ok hp path d -> path_linked hp path d ->
  (cr_bucket (path_at path 0) = tb_i1 b \/ cr_bucket (path_at path 0) = tb_i2 b) ->
  placed t -> unique t ->
  cuckoopath_move normal_mode hp path d b t = (Ret (moved, b'), t') ->
  placed t' /\ unique t'.
Proof.
  intros Hpar Hhpr Hgood Hhp Hd Hok Hlink Hfirst Hp Hu Hrun. unfold cuckoopath_move in Hrun.
  destruct (d =? 0) eqn:Hd0.
  - destruct (lock_two_normal hp (tb_i1 b) (tb_i2 b) t Hhp)
      as (b2 & t1 & Hrun2 & Hm & _).
    unfold bind at 1 in Hrun. rewrite Hrun2 in Hrun.
    unfold bind at 1, get_table at 1 in Hrun.
    destruct (migr_sound t t1 Hpar Hm Hgood Hp Hu) as [Hp1 Hu1].
    destruct (negb _); inversion Hrun; subst; auto.
  - apply (cuckoopath_move_loop_sound hp path (Z.to_nat d) Hpar Hhpr b t moved b' t');
      auto; rewrite Z2Nat.id by lia; assumption.
Qed.

Lemma run_cuckoo_loop_sound hp n :
  params_ok -> 0 <= hp < 64 ->
  forall (path : list CuckooRecord) b ib islot t,
  good t -> hashpower t = hp -> length path = Z.to_nat MAX_BFS_PATH_LEN ->
  buckets_in hp b -> placed t -> unique t ->
  wp (run_cuckoo_loop normal_mode n hp path b ib islot)
     (fun o t' =>
        match o with
        | Ret _ => placed t' /\ unique t'
        | _ => True
        end) t.
Proof.
  intros Hpar Hhp. induction n as [|n IH]; intros path b ib islot t Hgood Ht Hlen Hb Hp Hu.
  - exact I.
  - cbn [run_cuckoo_loop].
    destruct Hb as [Hi1 Hi2].
    destruct (cuckoopath_search_normal hp path (tb_i1 b) (tb_i2 b) t Hpar Ht Hhp Hlen Hi1 Hi2)
      as (d & path' & t1 & Hrun & Hm & Hlen' & Hd).
    pose proof (cuckoopath_search_linked hp path _ _ t d path' t1 Hpar Ht Hlen Hrun) as Hlink.
    apply wp_bind. eapply wp_eq; [exact Hrun|]. cbv beta iota.
    destruct (good_migr t t1 Hpar Hgood Hm) as (Hg1 & Hk1).
    destruct (migr_sound t t1 Hpar Hm Hgood Hp Hu) as [Hp1 Hu1].
    destruct (d <? 0) eqn:Hneg.
    + apply wp_ret. auto.
    + apply Z.ltb_ge in Hneg. destruct Hd as [Hd|(Hd & Hok & H0)]; [lia|].
      assert (Ht1 : hashpower t1 = hp) by (rewrite (keeps_hashpower _ _ Hk1); exact Ht).
      destruct (cuckoopath_move_spec hp path' d b t1 Hpar Hg1 Ht1 ltac:(lia) Hok)
        as (moved & b' & t2 & Hmove & Hg2 & Hk2 & H1 & H2 & Hpost).
      destruct (cuckoopath_move_sound hp path' d b t1 moved b' t2 Hpar Hhp Hg1 Ht1
                  ltac:(lia) Hok Hlink H0 Hp1 Hu1 Hmove) as [Hp2 Hu2].
      apply wp_bind. eapply wp_eq; [exact Hmove|]. cbv beta iota. destruct moved.
      * apply wp_ret. auto.
      * assert (Ht2 : hashpower t2 = hp) by (rewrite (keeps_hashpower _ _ Hk2); exact Ht1).
        apply (IH path' b' ib islot t2 Hg2 Ht2 Hlen'); auto.
        unfold buckets_in. rewrite H1, H2. split; assumption.
Qed.

Lemma wp_catch_any {A} (m h : M A) (Q : outcome A -> table -> Prop) t :
  wp m (fun o t' => match o with
                    | Throw hashpower_changed => wp h Q t'
                    | _ => Q o t'
                    end) t ->
  wp (catch_hashpower_changed m h) Q t.
Proof.
  unfold wp, catch_hashpower_changed. destruct (m t) as [[a|e|] t']; cbn [fst snd]; auto.
  destruct e; auto.
Qed.

Lemma run_cuckoo_sound fuel b ib islot t :
  params_ok -> good t -> buckets_in (hashpower t) b -> placed t -> unique t ->
  wp (run_cuckoo normal_mode fuel b ib islot)
     (fun o t' =>
        match o with
        | Ret _ => placed t' /\ unique t'
        | _ => True
        end) t.
Proof.
  intros Hpar Hgood Hb Hp Hu. pose proof Hgood as [Hwf _].
  pose proof (params_ok_hashpower Hpar) as Hmax.
  assert (Hhp : 0 <= hashpower t < 64) by (destruct Hwf as (H & _); lia).
  unfold run_cuckoo. apply wp_bind, wp_get_table.
  pose proof (run_cuckoo_loop_spec (hashpower t) fuel Hpar Hhp cuckoo_path_new (tb_unlock b)
                ib islot t Hgood eq_refl
                ltac:(unfold cuckoo_path_new; rewrite length_replicate; reflexivity) Hb)
    as Hold.
  pose proof (run_cuckoo_loop_sound (hashpower t) fuel Hpar Hhp cuckoo_path_new (tb_unlock b)
                ib islot t Hgood eq_refl
                ltac:(unfold cuckoo_path_new; rewrite length_replicate; reflexivity) Hb Hp Hu)
    as Hnew.
  apply wp_catch_any. apply wp_bind.
  eapply wp_mono; [apply (wp_conj _ _ _ _ Hold Hnew)|].
  intros [[[[done b'] ib'] islot']|e|] t' [H1 H2]; [|destruct H1|exact I].
  apply wp_ret. exact H2.
Qed.

Lemma cuckoo_insert_sound fuel hv b key t :
  params_ok -> good t -> buckets_in (hashpower t) b -> placed t -> unique t ->
  wp (cuckoo_insert normal_mode fuel hv b key)
     (fun o t' =>
        match o with
        | Ret _ => placed t' /\ unique t'
        | _ => True
        end) t.
Proof.
  intros Hpar Hgood Hb Hp Hu. unfold cuckoo_insert.
  apply wp_bind, wp_get_table.
  destruct (try_find_insert_bucket (get_bucket t (tb_i1 b)) (hv_partial hv) key)
    as [r1 res1].
  destruct r1; cbn [negb]; [|apply wp_ret; auto].
  destruct (try_find_insert_bucket (get_bucket t (tb_i2 b)) (hv_partial hv) key)
    as [r2 res2].
  destruct r2; cbn [negb]; [|apply wp_ret; auto].
  destruct (negb (res1 =? -1)); [apply wp_ret; auto|].
  destruct (negb (res2 =? -1)); [apply wp_ret; auto|].
  apply wp_bind.
  eapply wp_mono; [apply (run_cuckoo_sound fuel b 0 0 t Hpar Hgood Hb Hp Hu)|].
  intros [[[[st b'] ib'] islot']|e|] t'; [|auto|auto].
  intros Hs. destruct st; try (apply wp_ret; exact Hs).
  apply wp_bind, wp_get_table. destruct (status_eqb _ ok); apply wp_ret; exact Hs.
Qed.

Lemma cuckoo_insert_loop_sound n fuel hv key :
  params_ok ->
  forall b t,
  good t -> aligned hv t b -> held b -> stripes_migrated t (tb_i1 b) (tb_i2 b) ->
  placed t -> unique t ->
  wp (cuckoo_insert_loop normal_mode n fuel hv b key)
     (fun o t' =>
        match o with
        | Ret _ => placed t' /\ unique t'
        | _ => True
        end) t.
Proof.
  intros Hpar. induction n as [|n IH]; intros b t Hgood Hal Hheld Hmig Hp Hu.
  - exact I.
  - cbn [cuckoo_insert_loop]. apply wp_bind, wp_get_table. apply wp_bind.
    pose proof (good_hashpower t Hpar Hgood) as Hhp.
    pose proof (aligned_buckets_in hv t b Hhp Hal) as Hb.
    eapply wp_mono;
      [apply (wp_conj _ _ _ _ (cuckoo_insert_spec fuel hv b key t Hpar Hgood Hb Hheld Hmig)
                (cuckoo_insert_sound fuel hv b key t Hpar Hgood Hb Hp Hu))|].
    intros [[pos b1]|e|] t1; [|intros; exact I|intros; exact I].
    intros [(Hg1 & Hk1 & H1 & H2 & Hsite) [Hp1 Hu1]].
    pose proof (keeps_hashpower _ _ Hk1) as Ht1.
    unfold site in Hsite.
    destruct (pos_status pos) eqn:Hst; try (destruct Hsite; fail).
    + apply wp_ret. auto.
    + apply wp_ret. auto.
    + apply wp_bind. rewrite <- Ht1.
      eapply wp_mono;
        [apply (wp_conj _ _ _ _ (cuckoo_fast_double_spec true t1 Hpar Hg1)
                  (cuckoo_fast_double_sound normal_mode true t1 Hpar Hg1 Hp1 Hu1))|].
      intros [st|e|] t2; [|intros; exact I|intros; exact I].
      intros [(_ & Hg2 & Hc2 & Ht2) [Hp2 Hu2]].
      apply wp_bind.
      destruct fuel as [|f]; [exact I|].
      destruct (snapshot_spec f hv t2 Hpar Hg2)
        as (b3 & t3 & Hrun3 & Hg3 & Hk3 & Hm3 & Hal3 & Hheld3 & Hmig3).
      eapply wp_eq; [exact Hrun3|].
      destruct (migr_sound t2 t3 Hpar Hm3 Hg2 Hp2 Hu2) as [Hp3 Hu3].
      apply (IH b3 t3 Hg3 Hal3 Hheld3 Hmig3 Hp3 Hu3).
Qed.

End PathSound.

Section MapSound.
Context {params : Params}.

Lemma key_matches_placed key sl :
  eq_ok -> tagged sl -> key_eq (s_key sl) key = true ->
  key_matches (hv_partial (hashed_key key)) key sl = true.
Proof.
  intros Hok Htag He. unfold key_matches. rewrite He, andb_true_r.
  unfold tagged in Htag. rewrite Htag, (hashed_key_eq _ _ Hok He), Z.eqb_refl.
  cbn [negb]. rewrite andb_false_r. reflexivity.
Qed.

(** A stored pair whose key equals [key] sits in one of the two buckets
    of [key] once their stripes are migrated. *)
Lemma stored_in_candidates key t i s sl :
  params_ok -> eq_ok -> good t -> placed t ->
  stripes_migrated t (index_hash (hashpower t) (hv_hash (hashed_key key)))
    (alt_index (hashpower t) (hv_partial (hashed_key key))
       (index_hash (hashpower t) (hv_hash (hashed_key key)))) ->
  cell t i s = Some sl -> key_eq (s_key sl) key = true ->
  tagged sl /\ candidate (hashpower t) key i.
Proof.
  intros Hpar Hok Hgood Hp [Hm1 Hm2] Hsl He.
  destruct (Hp _ _ _ Hsl) as [Htag Hc]. split; [exact Htag|].
  apply (candidate_eq _ _ key _ Hok He) in Hc.
  destruct (is_migrated (get_lock t (lock_ind i))) eqn:Hmi.
  - rewrite level_migrated in Hc by exact Hmi. exact Hc.
  - exfalso. assert (Hnm : ~ migrated t (lock_ind i)) by (unfold migrated; congruence).
    rewrite level_unmigrated in Hc by exact Hnm.
    pose proof (good_hashpower t Hpar Hgood) as Hhp.
    destruct Hgood as [(_ & _ & _ & _ & Hsmall) _].
    assert (Hbig : 17 <= hashpower t).
    { destruct (Z_lt_le_dec (hashpower t) 17) as [Hlt|]; [exfalso|assumption].
      apply Hnm. apply Hsmall. unfold kMaxNumLocksPow. lia. }
    destruct (candidate_pred_stripe (hashpower t) key i ltac:(lia) Hc) as [Hl|Hl];
      apply Hnm; rewrite Hl; assumption.
Qed.

(** If neither bucket of [key] holds a match, no slot of the table holds
    a key equal to [key]. *)
Lemma not_found_absent key t :
  params_ok -> eq_ok -> good t -> placed t ->
  stripes_migrated t (index_hash (hashpower t) (hv_hash (hashed_key key)))
    (alt_index (hashpower t) (hv_partial (hashed_key key))
       (index_hash (hashpower t) (hv_hash (hashed_key key)))) ->
  try_read_from_bucket
    (get_bucket t (index_hash (hashpower t) (hv_hash (hashed_key key))))
    (hv_partial (hashed_key key)) key = -1 ->
  try_read_from_bucket
    (get_bucket t (alt_index (hashpower t) (hv_partial (hashed_key key))
                     (index_hash (hashpower t) (hv_hash (hashed_key key)))))
    (hv_partial (hashed_key key)) key = -1 ->
  absent t key.
Proof.
  intros Hpar Hok Hgood Hp Hmig H1 H2 sl (i & s & Hsl).
  destruct (key_eq (s_key sl) key) eqn:He; [exfalso|reflexivity].
  destruct (stored_in_candidates key t i s sl Hpar Hok Hgood Hp Hmig Hsl He) as [Htag Hc].
  pose proof (key_matches_placed key sl Hok Htag He) as Hm.
  destruct Hgood as [Hwf _].
  destruct (shape_cell_range _ _ _ _ _ (wf_shape t Hwf) Hsl) as (_ & _ & Hs).
  rewrite try_read_from_bucket_none in H1, H2.
  destruct Hc as [-> | ->].
  - rewrite (H1 s sl Hsl Hs) in Hm. discriminate.
  - rewrite (H2 s sl Hsl Hs) in Hm. discriminate.
Qed.

Lemma eq_ok_trans_r k1 k2 key :
  eq_ok -> key_eq k1 key = true -> key_eq k2 key = true -> key_eq k1 k2 = true.
Proof.
  intros (_ & Hsym & Htrans & _) H1 H2. apply (Htrans k1 key k2 H1). apply Hsym. exact H2.
Qed.

(** The lookup of a stored key finds its pair. *)
Lemma stored_found key t i s sl :
  params_ok -> eq_ok -> good t -> placed t -> unique t ->
  stripes_migrated t (index_hash (hashpower t) (hv_hash (hashed_key key)))
    (alt_index (hashpower t) (hv_partial (hashed_key key))
       (index_hash (hashpower t) (hv_hash (hashed_key key)))) ->
  cell t i s = Some sl -> key_eq (s_key sl) key = true ->
  cuckoo_find key (hv_partial (hashed_key key))
    (index_hash (hashpower t) (hv_hash (hashed_key key)))
    (alt_index (hashpower t) (hv_partial (hashed_key key))
       (index_hash (hashpower t) (hv_hash (hashed_key key)))) t
  = mk_pos i s ok.
Proof.
  intros Hpar Hok Hgood Hp Hu Hmig Hsl He.
  match goal with
  | |- cuckoo_find ?k ?p ?a ?b ?t = _ =>
      destruct (cuckoo_find_status k p a b t) as [[Hs Heta]|[Hs [Hn1 Hn2]]]
  end.
  - destruct (cuckoo_find_ok _ _ _ _ _ _ _ Heta) as (_ & _ & sl' & Hcell & Hm).
    apply key_matches_key_eq in Hm.
    destruct (Hu _ _ _ _ _ _ Hcell Hsl (eq_ok_trans_r _ _ key Hok Hm He)) as [E1 E2].
    rewrite Heta, E1, E2. reflexivity.
  - exfalso.
    pose proof (not_found_absent key t Hpar Hok Hgood Hp Hmig Hn1 Hn2 sl
                  (ex_intro _ i (ex_intro _ s Hsl))) as Ha.
    congruence.
Qed.

Lemma level_update_lock l f t j :
  (forall lk, is_migrated (f lk) = is_migrated lk) ->
  level (update_lock l f t) j = level t j.
Proof.
  intros Hf. unfold level. rewrite hashpower_update_lock.
  destruct (Z.eq_dec (lock_ind j) l) as [Heq|Hne].
  - unfold get_lock, update_lock. rewrite Heq. destruct (l <? 0) eqn:Hneg; [reflexivity|].
    cbn [locks_ set_locks]. rewrite list_lookup_alter.
    destruct (locks_ t !! Z.to_nat l); cbn; rewrite decide_True by reflexivity; cbn;
      rewrite ?Hf; reflexivity.
  - rewrite get_lock_update_lock_ne by exact Hne. reflexivity.
Qed.

Lemma level_set_mapped i s v t j : level (set_mapped i s v t) j = level t j.
Proof.
  unfold set_mapped. destruct (slot_at _ _); [apply level_update_slot|reflexivity].
Qed.

(** Writing a pair with a new key into an empty slot of one of its
    buckets. *)
Lemma put_sound key val t pi ps l :
  params_ok -> eq_ok -> good t -> placed t -> unique t -> absent t key ->
  in_table (hashpower t) pi ps -> cell t pi ps = None ->
  migrated t (lock_ind pi) -> candidate (hashpower t) key pi ->
  0 <= l -> (Z.to_nat l < length (locks_ t))%nat ->
  placed (incr_elem_counter l (setKV pi ps (hv_partial (hashed_key key)) key val t)) /\
  unique (incr_elem_counter l (setKV pi ps (hv_partial (hashed_key key)) key val t)).
Proof.
  intros Hpar Hok Hgood Hp Hu Ha Hin Hnone Hmig Hc Hl Hlt.
  destruct (put_spec t pi ps (hv_partial (hashed_key key)) key val l Hgood Hin Hnone Hmig
              Hl Hlt) as (_ & _ & _ & _ & _ & Hcell & _).
  cbv zeta in Hcell.
  set (t' := incr_elem_counter l (setKV pi ps (hv_partial (hashed_key key)) key val t)) in *.
  assert (Hlevel : forall j, level t' j = level t j).
  { intros j. unfold t', incr_elem_counter, setKV.
    rewrite level_update_lock by reflexivity. apply level_update_slot. }
  split.
  - intros i s x Hx. rewrite Hlevel. rewrite Hcell in Hx.
    destruct (decide (i = pi /\ s = ps)) as [[-> ->]|Hn]; [|exact (Hp _ _ _ Hx)].
    inversion Hx; subst x. split; [reflexivity|]. cbn [s_key].
    rewrite level_migrated by exact Hmig. exact Hc.
  - apply (unique_put t t' pi ps (mk_slot (hv_partial (hashed_key key)) key val) Hok Hu);
      [exact Ha|exact Hcell].
Qed.

(** Writing the value of a pair, and erasing it or not. *)
Lemma modify_sound t pi ps sl v' (erase : bool) l :
  good t -> placed t -> unique t ->
  in_table (hashpower t) pi ps -> cell t pi ps = Some sl ->
  0 <= l -> (Z.to_nat l < length (locks_ t))%nat ->
  let t1 := set_mapped pi ps v' t in
  let t' := if erase then decr_elem_counter l (eraseKV pi ps t1) else t1 in
  placed t' /\ unique t' /\
  (erase = true -> forall x, stored t' x -> key_eq (s_key x) (s_key sl) = false).
Proof.
  intros Hgood Hp Hu Hin Hsl Hl Hlt. cbv zeta.
  destruct (modify_spec t pi ps sl v' erase l Hgood Hin Hsl Hl Hlt)
    as (_ & _ & _ & _ & _ & Hcell & _).
  cbv zeta in Hcell.
  set (t' := if erase then decr_elem_counter l (eraseKV pi ps (set_mapped pi ps v' t))
             else set_mapped pi ps v' t) in *.
  assert (Hlevel : forall j, level t' j = level t j).
  { intros j. unfold t'. destruct erase.
    - unfold decr_elem_counter, eraseKV. rewrite level_update_lock by reflexivity.
      rewrite level_update_slot. apply level_set_mapped.
    - apply level_set_mapped. }
  assert (Hback : forall i s x, cell t' i s = Some x ->
             exists y, cell t i s = Some y /\ s_key y = s_key x /\
                       s_partial y = s_partial x).
  { intros i s x Hx. rewrite Hcell in Hx.
    destruct (decide (i = pi /\ s = ps)) as [[-> ->]|Hn]; [|eauto].
    destruct erase; [discriminate|]. inversion Hx; subst x. eauto. }
  split; [|split].
  - intros i s x Hx. rewrite Hlevel. destruct (Hback _ _ _ Hx) as (y & Hy & Hk & Hq).
    destruct (Hp _ _ _ Hy) as [Ht Hc]. unfold tagged in *. rewrite <- Hk, <- Hq. auto.
  - apply (unique_sub t t' Hu). intros i s x Hx.
    destruct (Hback _ _ _ Hx) as (y & Hy & Hk & _). eauto.
  - intros -> x (i & s & Hx). rewrite Hcell in Hx.
    destruct (decide (i = pi /\ s = ps)) as [_|Hn]; [discriminate|].
    destruct (key_eq (s_key x) (s_key sl)) eqn:He; [exfalso|reflexivity].
    destruct (Hu _ _ _ _ _ _ Hx Hsl He) as [-> ->]. apply Hn. auto.
Qed.

Lemma aligned_candidates hv key t b :
  hv = hashed_key key -> aligned hv t b ->
  candidate (hashpower t) key (tb_i1 b) /\ candidate (hashpower t) key (tb_i2 b).
Proof.
  intros -> [H1 H2]. split; [left; exact H1|right; rewrite H2, H1; reflexivity].
Qed.

Lemma uprase_fn_sound fuel key fn val t :
  params_ok -> eq_ok -> inv t -> placed t -> unique t ->
  wp (uprase_fn fuel key fn val)
     (fun o t' =>
        match o with
        | Ret r => placed t' /\ unique t' /\ (r = true -> absent t key)
        | _ => True
        end) t.
Proof.
  intros Hpar Hok Hinv Hp Hu. pose proof (inv_good t Hinv) as Hgood.
  unfold uprase_fn. apply wp_bind.
  destruct fuel as [|f]; [exact I|].
  destruct (snapshot_spec f (hashed_key key) t Hpar Hgood)
    as (b0 & t0 & Hrun0 & Hg0 & Hk0 & Hm0 & Hal0 & Hheld0 & Hmig0).
  eapply wp_eq; [exact Hrun0|].
  destruct (migr_sound t t0 Hpar Hm0 Hgood Hp Hu) as [Hp0 Hu0].
  apply wp_bind.
  eapply wp_mono;
    [apply (wp_conj _ _ _ _
              (cuckoo_insert_loop_spec (S f) (S f) (hashed_key key) key Hpar b0 t0 Hg0 Hal0
                 Hheld0 Hmig0)
              (cuckoo_insert_loop_sound (S f) (S f) (hashed_key key) key Hpar b0 t0 Hg0 Hal0
                 Hheld0 Hmig0 Hp0 Hu0))|].
  intros [[pos b1]|e|] t1; [|intros; exact I|intros; exact I].
  intros [(Hg1 & Hc1 & Hal1 & Hcase) [Hp1 Hu1]].
  pose proof (carries_trans _ _ _ (keeps_carries _ _ Hk0) Hc1) as Hc.
  pose proof (good_hashpower t1 Hpar Hg1) as Hhp1.
  pose proof (aligned_buckets_in _ t1 b1 Hhp1 Hal1) as Hb1.
  pose proof Hg1 as [Hwf1 _].
  destruct (aligned_candidates _ key t1 b1 eq_refl Hal1) as [Hc1' Hc2'].
  pose proof Hal1 as [Ha1 Ha2].
  destruct Hcase as [[Hst Hsite]|[Hst Hsite]]; rewrite Hst; cbn [status_eqb].
  - pose proof Hsite as (Hin & Hpi & Hcell & Hr1 & Hr2 & Hheld & Hmig).
    destruct (held_in_range t1 b1 Hwf1 Hb1 Hheld) as (l & Hl1 & Hl & Hlt).
    rewrite Hl1. unfold add_to_bucket.
    apply wp_bind. apply wp_bind, wp_modify. apply wp_modify. apply wp_ret.
    assert (Hmpi : migrated t1 (lock_ind (pos_index pos))).
    { destruct Hmig as [Hm1 Hm2]. destruct Hpi as [-> | ->]; assumption. }
    assert (Habs1 : absent t1 key).
    { rewrite Ha2, Ha1 in Hr2, Hmig. rewrite Ha1 in Hr1.
      apply (not_found_absent key t1 Hpar Hok Hg1 Hp1); assumption. }
    assert (Hcand : candidate (hashpower t1) key (pos_index pos)).
    { destruct Hpi as [-> | ->]; assumption. }
    destruct (put_sound key val t1 (pos_index pos) (pos_slot pos) l Hpar Hok Hg1 Hp1 Hu1
                Habs1 Hin Hcell Hmpi Hcand Hl Hlt) as [Hp' Hu'].
    split; [exact Hp'|]. split; [exact Hu'|]. intros _ x Hx.
    apply Habs1. destruct Hc as (_ & _ & _ & Hst'). apply Hst'. exact Hx.
  - destruct (duplicate_site_found key t1 b1 pos Hhp1 Hal1 Hsite)
      as (sl & (_ & _ & Hcell & Hin) & Heq).
    destruct Hsite as (_ & Hheld & _).
    destruct (held_in_range t1 b1 Hwf1 Hb1 Hheld) as (l & Hl1 & Hl & Hlt).
    apply wp_bind, wp_get_table.
    unfold mapped_at. pose proof Hcell as Hcell'. unfold cell in Hcell'. rewrite Hcell'.
    cbn [fmap option_fmap option_map].
    destruct (fn (s_mapped sl)) as [v' erase] eqn:Hfn.
    destruct (modify_sound t1 (pos_index pos) (pos_slot pos) sl v' erase l Hg1 Hp1 Hu1 Hin
                Hcell Hl Hlt) as (Hp' & Hu' & _).
    cbv zeta in Hp', Hu'.
    apply wp_bind, wp_modify. apply wp_bind. destruct erase.
    + rewrite Hl1. unfold del_from_bucket.
      apply wp_bind, wp_modify. apply wp_modify. apply wp_ret.
      split; [exact Hp'|]. split; [exact Hu'|]. discriminate.
    + apply wp_ret. apply wp_ret. split; [exact Hp'|]. split; [exact Hu'|]. discriminate.
Qed.

(** [erase_fn] and [update_fn]: the table after the snapshot, and what
    the functions do to it. *)
Lemma erase_fn_sound fuel key fn t :
  params_ok -> eq_ok -> inv t -> placed t -> unique t ->
  wp (erase_fn fuel key fn)
     (fun o t' =>
        match o with
        | Ret r => placed t' /\ unique t' /\
                   (r = false -> absent t key) /\
                   (r = true -> exists sl, stored t sl /\ key_eq (s_key sl) key = true /\
                                           (snd (fn (s_mapped sl)) = true -> absent t' key))
        | _ => True
        end) t.
Proof.
  intros Hpar Hok Hinv Hp Hu. pose proof (inv_good t Hinv) as Hgood.
  unfold erase_fn. apply wp_bind.
  destruct fuel as [|f]; [exact I|].
  destruct (snapshot_spec f (hashed_key key) t Hpar Hgood)
    as (b0 & t0 & Hrun0 & Hg0 & Hk0 & Hm0 & Hal0 & Hheld0 & Hmig0).
  eapply wp_eq; [exact Hrun0|].
  destruct (migr_sound t t0 Hpar Hm0 Hgood Hp Hu) as [Hp0 Hu0].
  pose proof Hk0 as (_ & _ & _ & _ & _ & Hst0 & _).
  pose proof (good_hashpower t0 Hpar Hg0) as Hhp0.
  pose proof (aligned_buckets_in _ t0 b0 Hhp0 Hal0) as Hb0.
  pose proof Hg0 as [Hwf0 _]. pose proof Hal0 as [Ha1 Ha2].
  destruct (held_in_range t0 b0 Hwf0 Hb0 Hheld0) as (l & Hl1 & Hl & Hlt).
  apply wp_bind, wp_get_table.
  destruct (cuckoo_find_status key (hv_partial (hashed_key key)) (tb_i1 b0) (tb_i2 b0) t0)
    as [[Hs Heta]|[Hs [Hn1 Hn2]]].
  - rewrite Hs. cbn [status_eqb].
    destruct (cuckoo_find_ok _ _ _ _ _ _ _ Heta) as (Hpi & Hps & sl & Hcell & Hmatch).
    set (pos := cuckoo_find key (hv_partial (hashed_key key)) (tb_i1 b0) (tb_i2 b0) t0) in *.
    apply key_matches_key_eq in Hmatch.
    unfold mapped_at. pose proof Hcell as Hcell'. unfold cell in Hcell'. rewrite Hcell'.
    cbn [fmap option_fmap option_map].
    assert (Hin : in_table (hashpower t0) (pos_index pos) (pos_slot pos)).
    { destruct Hb0. split; [destruct Hpi as [-> | ->]; assumption|exact Hps]. }
    destruct (fn (s_mapped sl)) as [v' erase] eqn:Hfn.
    destruct (modify_sound t0 _ _ sl v' erase l Hg0 Hp0 Hu0 Hin Hcell Hl Hlt)
      as (Hp' & Hu' & Hgone).
    cbv zeta in Hp', Hu', Hgone.
    assert (Hpost : forall t',
               t' = (if erase
                     then decr_elem_counter l
                            (eraseKV (pos_index pos) (pos_slot pos)
                               (set_mapped (pos_index pos) (pos_slot pos) v' t0))
                     else set_mapped (pos_index pos) (pos_slot pos) v' t0) ->
               placed t' /\ unique t' /\ (true = false -> absent t key) /\
               (true = true -> exists sl0, stored t sl0 /\ key_eq (s_key sl0) key = true /\
                                 (snd (fn (s_mapped sl0)) = true -> absent t' key))).
    { intros t' ->. split; [exact Hp'|]. split; [exact Hu'|]. split; [discriminate|].
      intros _. exists sl. split; [apply Hst0; eexists _, _; exact Hcell|].
      split; [exact Hmatch|]. rewrite Hfn. cbn [snd]. intros ->. intros x Hx.
      specialize (Hgone eq_refl x Hx).
      destruct (key_eq (s_key x) key) eqn:He; [|reflexivity].
      rewrite (eq_ok_trans_r _ _ key Hok He Hmatch) in Hgone. discriminate. }
    apply wp_bind, wp_modify. apply wp_bind. destruct erase.
    + rewrite Hl1. unfold del_from_bucket.
      apply wp_bind, wp_modify. apply wp_modify. apply wp_ret.
      apply Hpost. reflexivity.
    + apply wp_ret. apply wp_ret. apply Hpost. reflexivity.
  - rewrite Hs. cbn [status_eqb]. apply wp_ret.
    split; [exact Hp0|]. split; [exact Hu0|]. split; [|discriminate].
    intros _ x Hx. apply Hst0 in Hx. revert x Hx.
    rewrite Ha2, Ha1 in Hn2, Hmig0. rewrite Ha1 in Hn1.
    apply (not_found_absent key t0 Hpar Hok Hg0 Hp0); assumption.
Qed.

Lemma update_fn_sound fuel key fn t :
  params_ok -> eq_ok -> inv t -> placed t -> unique t ->
  wp (update_fn fuel key fn)
     (fun o t' =>
        match o with
        | Ret r => placed t' /\ unique t' /\ (r = false -> absent t key)
        | _ => True
        end) t.
Proof.
  intros Hpar Hok Hinv Hp Hu. pose proof (inv_good t Hinv) as Hgood.
  unfold update_fn. apply wp_bind.
  destruct fuel as [|f]; [exact I|].
  destruct (snapshot_spec f (hashed_key key) t Hpar Hgood)
    as (b0 & t0 & Hrun0 & Hg0 & Hk0 & Hm0 & Hal0 & Hheld0 & Hmig0).
  eapply wp_eq; [exact Hrun0|].
  destruct (migr_sound t t0 Hpar Hm0 Hgood Hp Hu) as [Hp0 Hu0].
  pose proof Hk0 as (_ & _ & _ & _ & _ & Hst0 & _).
  pose proof (good_hashpower t0 Hpar Hg0) as Hhp0.
  pose proof (aligned_buckets_in _ t0 b0 Hhp0 Hal0) as Hb0.
  pose proof Hg0 as [Hwf0 _]. pose proof Hal0 as [Ha1 Ha2].
  destruct (held_in_range t0 b0 Hwf0 Hb0 Hheld0) as (l & Hl1 & Hl & Hlt).
  apply wp_bind, wp_get_table.
  destruct (cuckoo_find_status key (hv_partial (hashed_key key)) (tb_i1 b0) (tb_i2 b0) t0)
    as [[Hs Heta]|[Hs [Hn1 Hn2]]].
  - rewrite Hs. cbn [status_eqb].
    destruct (cuckoo_find_ok _ _ _ _ _ _ _ Heta) as (Hpi & Hps & sl & Hcell & Hmatch).
    set (pos := cuckoo_find key (hv_partial (hashed_key key)) (tb_i1 b0) (tb_i2 b0) t0) in *.
    unfold mapped_at. pose proof Hcell as Hcell'. unfold cell in Hcell'. rewrite Hcell'.
    cbn [fmap option_fmap option_map].
    assert (Hin : in_table (hashpower t0) (pos_index pos) (pos_slot pos)).
    { destruct Hb0. split; [destruct Hpi as [-> | ->]; assumption|exact Hps]. }
    destruct (modify_sound t0 _ _ sl (fn (s_mapped sl)) false l Hg0 Hp0 Hu0 Hin Hcell Hl Hlt)
      as (Hp' & Hu' & _).
    apply wp_bind, wp_modify. apply wp_ret.
    split; [exact Hp'|]. split; [exact Hu'|]. discriminate.
  - rewrite Hs. cbn [status_eqb]. apply wp_ret.
    split; [exact Hp0|]. split; [exact Hu0|].
    intros _ x Hx. apply Hst0 in Hx. revert x Hx.
    rewrite Ha2, Ha1 in Hn2, Hmig0. rewrite Ha1 in Hn1.
    apply (not_found_absent key t0 Hpar Hok Hg0 Hp0); assumption.
Qed.

(** The table [read_value] returns in has the stripes of the key
    migrated. *)
Lemma read_value_stripes n key :
  forall t o t', read_value n key t = (Ret o, t') ->
  stripes_migrated t' (index_hash (hashpower t') (hv_hash (hashed_key key)))
    (alt_index (hashpower t') (hv_partial (hashed_key key))
       (index_hash (hashpower t') (hv_hash (hashed_key key)))).
Proof.
  induction n as [|n IH]; intros t o t' Hrun; [discriminate|].
  rewrite read_value_step in Hrun. cbv zeta in Hrun.
  destruct (is_migrated (get_lock t (lock_ind _))) eqn:Hm1.
  - destruct (_ || _) eqn:Hm2.
    + inversion Hrun; subst. split; [exact Hm1|].
      apply orb_true_iff in Hm2. destruct Hm2 as [Heq|Hm2]; [|exact Hm2].
      apply Z.eqb_eq in Heq. unfold migrated. rewrite <- Heq. exact Hm1.
    + eapply IH; exact Hrun.
  - eapply IH; exact Hrun.
Qed.

End MapSound.

Section Lists.

Lemma FOP_app_intro {A} (R : A -> A -> Prop) (l1 l2 : list A) :
  ForallOrdPairs R l1 -> ForallOrdPairs R l2 ->
  (forall x y, x ∈ l1 -> y ∈ l2 -> R x y) ->
  ForallOrdPairs R (l1 ++ l2).
Proof.
  induction 1 as [|a l1 Ha H1 IH]; intros H2 Hx; [exact H2|].
  cbn [app]. constructor.
  - apply Forall_app. split; [exact Ha|].
    apply Forall_forall. intros y Hy. apply Hx; [left|exact Hy].
  - apply IH; [exact H2|]. intros x y Hx1 Hy. apply Hx; [right; exact Hx1|exact Hy].
Qed.

Lemma FOP_omap {A B} (R : B -> B -> Prop) (f : A -> option B) (l : list A) :
  NoDup l ->
  (forall j j' x y, j ∈ l -> j' ∈ l -> j <> j' -> f j = Some x -> f j' = Some y -> R x y) ->
  ForallOrdPairs R (omap f l).
Proof.
  induction 1 as [|j l Hj Hnd IH]; intros HR; [constructor|].
  assert (Hrest : ForallOrdPairs R (omap f l)).
  { apply IH. intros a b x y Ha Hb. apply HR; right; assumption. }
  cbn [omap list_omap]. destruct (f j) as [x|] eqn:Hx; [|exact Hrest].
  constructor; [|exact Hrest].
  apply Forall_forall. intros y Hy. apply list_elem_of_omap in Hy.
  destruct Hy as (j' & Hj' & Hy).
  apply (HR j j' x y); [left|right; exact Hj'| |exact Hx|exact Hy].
  intros ->. contradiction.
Qed.

Lemma FOP_flat_map {A B} (R : B -> B -> Prop) (g : A -> list B) (l : list A) :
  NoDup l ->
  (forall i, i ∈ l -> ForallOrdPairs R (g i)) ->
  (forall i i' x y, i ∈ l -> i' ∈ l -> i <> i' -> x ∈ g i -> y ∈ g i' -> R x y) ->
  ForallOrdPairs R (flat_map g l).
Proof.
  induction 1 as [|i l Hi Hnd IH]; intros Hin HR; [constructor|].
  cbn [flat_map]. apply FOP_app_intro.
  - apply Hin. left.
  - apply IH.
    + intros a Ha. apply Hin. right. exact Ha.
    + intros a b x y Ha Hb. apply HR; right; assumption.
  - intros x y Hx Hy. apply list_elem_of_In, in_flat_map in Hy.
    destruct Hy as (i' & Hi' & Hy). apply list_elem_of_In in Hi', Hy.
    apply (HR i i' x y); [left|right; exact Hi'| |exact Hx|exact Hy].
    intros ->. contradiction.
Qed.

Lemma NoDup_zseq n : NoDup (zseq n).
Proof.
  unfold zseq. apply NoDup_fmap_2; [|apply NoDup_seq].
  intros a b H. lia.
Qed.

End Lists.

Section Capacity.
Context {params : Params}.

Lemma placed_same_data t t' : same_data t t' -> placed t -> placed t'.
Proof.
  intros (Hhp & Hb & Hl) Hp i s sl Hsl.
  rewrite (cell_buckets_eq t t' i s Hb) in Hsl. destruct (Hp _ _ _ Hsl) as [Ht Hc].
  split; [exact Ht|]. unfold level in *. unfold get_lock in *. rewrite Hl, Hhp. exact Hc.
Qed.

Lemma unique_same_data t t' : same_data t t' -> unique t -> unique t'.
Proof.
  intros (_ & Hb & _) Hu. apply (unique_ext t t' Hu). intros i s.
  apply cell_buckets_eq. exact Hb.
Qed.

Lemma sound_same_data t t' : same_data t t' -> sound t -> sound t'.
Proof.
  intros Hd (Hinv & Hp & Hu). split; [apply (inv_same_data t); assumption|].
  split; [apply (placed_same_data t)|apply (unique_same_data t)]; assumption.
Qed.

Lemma empty_sound t : (forall x, ~ stored t x) -> placed t /\ unique t.
Proof.
  intros Hno. split.
  - intros i s sl Hsl. destruct (Hno sl). eexists _, _. exact Hsl.
  - intros i s sl i' s' sl' Hsl. destruct (Hno sl). eexists _, _. exact Hsl.
Qed.

Lemma new_table_no_pair n t : new_table n = Ret t -> forall x, ~ stored t x.
Proof.
  unfold new_table. destruct (_ >? _); [discriminate|]. intros H. inversion H as [Ht].
  intros x (i & j & Hc). apply cell_lookup in Hc. destruct Hc as (b & Hb & Hs).
  cbn [buckets_] in Hb. apply lookup_replicate in Hb.
  destruct Hb as [-> _]. unfold empty_bucket in Hs. apply lookup_replicate in Hs.
  destruct Hs as [Hs _]. discriminate.
Qed.

Lemma new_table_sound n t : params_ok -> new_table n = Ret t -> sound t.
Proof.
  intros Hpar Hnew. split; [apply (new_table_inv n t Hpar Hnew)|].
  apply empty_sound. apply (new_table_no_pair n t Hnew).
Qed.

Lemma cuckoo_clear_sound t : inv t -> sound (cuckoo_clear t).
Proof.
  intros Hinv. split; [apply cuckoo_clear_inv; exact Hinv|].
  apply empty_sound. intros x (i & j & Hc). rewrite cell_cuckoo_clear in Hc. discriminate.
Qed.

(** What an [insert] stores. *)
Lemma insert_stored fuel key val t :
  params_ok -> inv t ->
  wp (insert fuel key val)
     (fun o t' =>
        match o with
        | Ret true =>
            forall x, stored t' x <->
                      stored t x \/ x = mk_slot (hv_partial (hashed_key key)) key val
        | Ret false =>
            (exists sl, stored t sl /\ key_eq (s_key sl) key = true) /\
            forall x, stored t' x <-> stored t x
        | _ => True
        end) t.
Proof.
  intros Hpar Hinv. pose proof (inv_good t Hinv) as Hgood.
  unfold insert, upsert, uprase_fn. apply wp_bind.
  apply wp_snapshot; [exact Hpar|exact Hgood| |exact I].
  intros b0 t0 Hg0 Hk0 Hal0 Hheld0 Hmig0.
  apply wp_bind.
  eapply wp_mono;
    [apply (cuckoo_insert_loop_spec fuel fuel (hashed_key key) key Hpar b0 t0 Hg0 Hal0
              Hheld0 Hmig0)|].
  intros [[pos b1]|e|] t1; [|auto|auto].
  intros (Hg1 & Hc1 & Hal1 & Hcase).
  pose proof (carries_trans _ _ _ (keeps_carries _ _ Hk0) Hc1) as (_ & _ & _ & Hst).
  pose proof (good_hashpower t1 Hpar Hg1) as Hhp1.
  pose proof (aligned_buckets_in _ t1 b1 Hhp1 Hal1) as Hb1.
  pose proof Hg1 as [Hwf1 _].
  destruct Hcase as [[Hs Hsite]|[Hs Hsite]]; rewrite Hs; cbn [status_eqb].
  - pose proof Hsite as (Hin & Hpi & Hcell & _ & _ & Hheld & Hmig).
    destruct (held_in_range t1 b1 Hwf1 Hb1 Hheld) as (l & Hl1 & Hl & Hlt).
    rewrite Hl1. unfold add_to_bucket.
    apply wp_bind. apply wp_bind, wp_modify. apply wp_modify. apply wp_ret.
    assert (Hmpi : migrated t1 (lock_ind (pos_index pos))).
    { destruct Hmig as [Hm1 Hm2]. destruct Hpi as [-> | ->]; assumption. }
    destruct (put_spec t1 (pos_index pos) (pos_slot pos) (hv_partial (hashed_key key)) key
                val l Hg1 Hin Hcell Hmpi Hl Hlt) as (_ & _ & _ & _ & _ & Hc' & _).
    cbv zeta in Hc'. intros x. split.
    + intros (i & j & Hx). rewrite Hc' in Hx.
      destruct (decide _); [right; congruence|left; apply Hst; eexists _, _; exact Hx].
    + intros [Hx| ->].
      * apply Hst in Hx. destruct Hx as (i & j & Hx). exists i, j. rewrite Hc'.
        destruct (decide _) as [[-> ->]|]; [congruence|exact Hx].
      * exists (pos_index pos), (pos_slot pos). rewrite Hc'.
        destruct (decide _); [reflexivity|tauto].
  - destruct (duplicate_site_found key t1 b1 pos Hhp1 Hal1 Hsite)
      as (sl & (_ & _ & Hcell & Hin) & Heq).
    apply wp_bind, wp_get_table.
    unfold mapped_at. pose proof Hcell as Hcell'. unfold cell in Hcell'. rewrite Hcell'.
    cbn [fmap option_fmap option_map].
    apply wp_bind, wp_modify. apply wp_bind, wp_ret. apply wp_ret.
    destruct Hin as [Hi0 Hs0].
    rewrite (set_mapped_same t1 (pos_index pos) (pos_slot pos) sl ltac:(lia) ltac:(lia) Hcell).
    split; [|exact Hst].
    exists sl. split; [apply Hst; eexists _, _; exact Hcell|exact Heq].
Qed.

Lemma insert_sound fuel key val t :
  params_ok -> eq_ok -> sound t ->
  wp (insert fuel key val)
     (fun o t' => match o with Ret _ => sound t' | _ => True end) t.
Proof.
  intros Hpar Hok (Hinv & Hp & Hu).
  eapply wp_mono;
    [apply (wp_conj _ _ _ _ (insert_inv fuel key val t Hpar Hinv)
              (uprase_fn_sound fuel key (fun v => (v, false)) val t Hpar Hok Hinv Hp Hu))|].
  intros [r|e|] t'; [|auto|auto]. intros [[Hinv' _] (Hp' & Hu' & _)].
  split; [exact Hinv'|]. auto.
Qed.

(** Inserting pairs with pairwise different keys that the table does
    not hold: the table then holds them, and what it held. *)
Lemma insert_all_keeps fuel kvs :
  params_ok -> eq_ok ->
  forall t, sound t -> distinct_keys kvs ->
  (forall k v, (k, v) ∈ kvs -> absent t k) ->
  wp (insert_all fuel kvs)
     (fun o t' =>
        match o with
        | Ret _ => sound t' /\
                   forall k v, holds t' k v <-> holds t k v \/ (k, v) ∈ kvs
        | _ => True
        end) t.
Proof.
  intros Hpar Hok. induction kvs as [|[k v] rest IH]; intros t Hs Hd Habs;
    cbn [insert_all].
  - apply wp_ret. split; [exact Hs|]. intros k v. split; [auto|].
    intros [H|H]; [exact H|]. inversion H.
  - inversion Hd as [|a l Hhead Htail]; subst.
    pose proof Hs as (Hinv & Hp & Hu).
    apply wp_bind.
    eapply wp_mono;
      [apply (wp_conj _ _ _ _ (insert_sound fuel k v t Hpar Hok Hs)
                (insert_stored fuel k v t Hpar Hinv))|].
    intros [r|e|] t1; [|intros; exact I|intros; exact I].
    intros [Hs1 Hst1]. destruct r.
    2:{ destruct Hst1 as [(sl & Hsl & He) _]. exfalso.
        rewrite (Habs k v ltac:(left) sl Hsl) in He. discriminate. }
    assert (Habs1 : forall k' v', (k', v') ∈ rest -> absent t1 k').
    { intros k' v' Hin x Hx. apply Hst1 in Hx. destruct Hx as [Hx| ->].
      - apply (Habs k' v'); [right; exact Hin|exact Hx].
      - cbn [s_key]. rewrite Forall_forall in Hhead.
        apply (Hhead (k', v')). exact Hin. }
    eapply wp_mono; [apply (IH t1 Hs1 Htail Habs1)|].
    intros [u|e|] t'; [|auto|auto]. intros [Hs' Hh'].
    split; [exact Hs'|]. intros k' v'. rewrite Hh'. unfold holds. split.
    + intros [(sl & Hsl & Hk & Hv)|Hin]; [|right; right; exact Hin].
      apply Hst1 in Hsl. destruct Hsl as [Hsl| ->]; [left; eauto|].
      right. cbn in Hk, Hv. subst. left.
    + intros [(sl & Hsl & Hk & Hv)|Hin].
      * left. exists sl. split; [apply Hst1; left; exact Hsl|auto].
      * apply elem_of_cons in Hin. destruct Hin as [Heq|Hin]; [|right; exact Hin].
        inversion Heq; subst. left. eexists. split; [apply Hst1; right; reflexivity|].
        split; reflexivity.
Qed.

(** The live pairs of a table are the pairs it holds, and their keys
    are pairwise different when the keys of the table are. *)
Lemma elem_of_live_pairs t k v :
  params_ok -> good t -> ((k, v) ∈ live_pairs t <-> holds t k v).
Proof.
  intros Hpar Hgood. pose proof (good_hashpower t Hpar Hgood) as Hhp.
  destruct Hgood as [Hwf _]. pose proof (wf_shape t Hwf) as Hshape.
  unfold live_pairs, holds. rewrite hashsize_small by lia. split.
  - intros Hin. apply list_elem_of_In, in_flat_map in Hin.
    destruct Hin as (i & _ & Hin). apply list_elem_of_In, list_elem_of_omap in Hin.
    destruct Hin as (j & _ & Hj).
    destruct (slot_at (get_bucket t i) j) as [sl|] eqn:Hsl; [|discriminate].
    cbn in Hj. inversion Hj; subst. exists sl. split; [exists i, j; exact Hsl|auto].
  - intros (sl & (i & j & Hsl) & <- & <-).
    destruct (shape_cell_range _ _ _ _ _ Hshape Hsl) as (Hi & Hin & Hj).
    apply list_elem_of_In, in_flat_map. exists i. split.
    + apply list_elem_of_In, elem_of_zseq. lia.
    + apply list_elem_of_In, list_elem_of_omap. exists j. split.
      * apply elem_of_zseq. unfold slot_per_bucket in Hj. lia.
      * unfold cell in Hsl. rewrite Hsl. reflexivity.
Qed.

Lemma live_pairs_distinct t : unique t -> distinct_keys (live_pairs t).
Proof.
  intros Hu. unfold distinct_keys, live_pairs.
  apply FOP_flat_map; [apply NoDup_zseq| |].
  - intros i _. apply FOP_omap; [apply NoDup_zseq|].
    intros j j' x y _ _ Hne Hx Hy.
    destruct (slot_at (get_bucket t i) j) as [sl|] eqn:Hsl; [|discriminate].
    destruct (slot_at (get_bucket t i) j') as [sl'|] eqn:Hsl'; [|discriminate].
    cbn in Hx, Hy. inversion Hx; inversion Hy; subst. cbn [fst].
    destruct (key_eq (s_key sl) (s_key sl')) eqn:He; [exfalso|reflexivity].
    destruct (Hu i j sl i j' sl' Hsl Hsl' He) as [_ Hj]. contradiction.
  - intros i i' x y _ _ Hne Hx Hy.
    apply list_elem_of_omap in Hx, Hy.
    destruct Hx as (j & _ & Hx). destruct Hy as (j' & _ & Hy).
    destruct (slot_at (get_bucket t i) j) as [sl|] eqn:Hsl; [|discriminate].
    destruct (slot_at (get_bucket t i') j') as [sl'|] eqn:Hsl'; [|discriminate].
    cbn in Hx, Hy. inversion Hx; inversion Hy; subst. cbn [fst].
    destruct (key_eq (s_key sl) (s_key sl')) eqn:He; [exfalso|reflexivity].
    destruct (Hu i j sl i' j' sl' Hsl Hsl' He) as [Hi _]. contradiction.
Qed.

Lemma holds_stored_iff t t' :
  (forall x, stored t' x <-> stored t x) -> forall k v, holds t' k v <-> holds t k v.
Proof.
  intros H k v. unfold holds. split; intros (sl & Hsl & Hk); exists sl;
    (split; [apply H; exact Hsl|exact Hk]).
Qed.

(** [cuckoo_change_capacity] rebuilds the table with the pairs it
    held. *)
Lemma cuckoo_change_capacity_sound mode auto fuel new_hp t :
  params_ok -> eq_ok -> sound t ->
  wp (cuckoo_change_capacity mode auto fuel new_hp)
     (fun o t' =>
        match o with
        | Ret st => sound t' /\ forall k v, holds t' k v <-> holds t k v
        | _ => True
        end) t.
Proof.
  intros Hpar Hok (Hinv & Hp & Hu). pose proof (inv_good t Hinv) as Hgood.
  unfold cuckoo_change_capacity. apply wp_bind, wp_get_table. apply wp_bind.
  unfold wp at 1, check_resize_validity.
  destruct (negb (maximum_hashpower t =? NO_MAXIMUM_HASHPOWER)
            && (new_hp >? maximum_hashpower t)); cbn [fst snd]; [exact I|].
  destruct (auto && double_lt (load_factor t) (minimum_load_factor t)); cbn [fst snd];
    [exact I|].
  rewrite Z.eqb_refl. cbn [negb fst snd status_eqb].
  apply wp_bind, wp_modify. apply wp_bind, wp_get_table.
  destruct (rehash_all_spec t Hpar Hgood) as (Hg1 & Hk1 & _).
  destruct (migr_sound t _ Hpar (rehash_all_migr (hashpower t) t) Hgood Hp Hu) as [Hp1 Hu1].
  set (t1 := rehash_all (hashpower t) t) in *.
  destruct (new_table _) as [new_map|e|] eqn:Hnew; [|apply wp_throw; exact I|exact I].
  pose proof (new_table_sound _ _ Hpar Hnew) as Hs0.
  pose proof (new_table_no_pair _ _ Hnew) as Hno0.
  set (nm0 := set_max_num_worker_threads new_map (max_num_worker_threads t1)).
  assert (Hs1 : sound nm0).
  { apply (sound_same_data new_map); [|exact Hs0]. repeat split. }
  assert (Hno1 : forall x, ~ stored nm0 x).
  { intros x Hx. apply (Hno0 x). apply (stored_buckets_eq new_map nm0 x); [reflexivity|exact Hx]. }
  pose proof (insert_all_keeps fuel (live_pairs t1) Hpar Hok nm0 Hs1
                (live_pairs_distinct t1 Hu1)
                ltac:(intros k v _ x Hx; destruct (Hno1 x Hx))) as Hall.
  unfold wp in Hall.
  destruct (insert_all fuel (live_pairs t1) nm0) as [[u|e|] nm]; cbn [fst snd] in Hall;
    [|apply wp_throw; exact I|exact I].
  destruct Hall as [Hsn Hhn].
  apply wp_bind, wp_modify. apply wp_ret. split.
  - apply (sound_same_data nm); [|exact Hsn]. repeat split.
  - intros k v.
    rewrite (holds_stored_iff nm _ ltac:(intros x; apply stored_buckets_eq; reflexivity) k v).
    rewrite Hhn. rewrite (elem_of_live_pairs t1 k v Hpar Hg1).
    destruct Hk1 as (_ & _ & _ & _ & _ & Hst1 & _).
    rewrite (holds_stored_iff t t1 Hst1 k v). split; [|auto].
    intros [(sl & Hsl & _)|H]; [destruct (Hno1 sl Hsl)|exact H].
Qed.

End Capacity.

Section Checks2.
Context {params : Params}.

Lemma inv_check_migrated t : inv_check t = true -> forall l, migrated t l.
Proof.
  unfold inv_check. rewrite !andb_true_iff.
  intros [[_ H6] _]. apply all_migrated. exact H6.
Qed.

Lemma sound_check_sound t : sound_check t = true -> sound t.
Proof.
  unfold sound_check. cbv zeta. rewrite andb_true_iff. intros [Hic Hall].
  pose proof (inv_check_sound t Hic) as Hinv.
  pose proof (inv_check_migrated t Hic) as Hmig.
  pose proof Hinv as (Hwf & _ & _). pose proof (wf_shape t Hwf) as Hshape.
  assert (Hhp : 0 <= hashpower t) by (destruct Hwf as (H & _); lia).
  assert (Hcells : forall i j sl, cell t i j = Some sl ->
             i ∈ zseq (Z.to_nat (2 ^ hashpower t)) /\ j ∈ zseq SLOT_PER_BUCKET).
  { intros i j sl Hsl. destruct (shape_cell_range _ _ _ _ _ Hshape Hsl) as (Hi & Hin & Hj).
    split; apply elem_of_zseq; [lia|unfold slot_per_bucket in Hj; lia]. }
  rewrite forallb_forall in Hall.
  assert (Hone : forall i j sl, cell t i j = Some sl ->
             s_partial sl = hv_partial (hashed_key (s_key sl)) /\
             candidate (hashpower t) (s_key sl) i /\
             forall i' j' sl', cell t i' j' = Some sl' ->
                               key_eq (s_key sl) (s_key sl') = true -> i = i' /\ j = j').
  { intros i j sl Hsl. destruct (Hcells _ _ _ Hsl) as [Hi Hj].
    specialize (Hall i ltac:(apply list_elem_of_In; exact Hi)).
    rewrite forallb_forall in Hall.
    specialize (Hall j ltac:(apply list_elem_of_In; exact Hj)).
    rewrite Hsl in Hall. rewrite !andb_true_iff in Hall.
    destruct Hall as [[Htag Hc] Hu].
    split; [apply Z.eqb_eq; exact Htag|]. split.
    - apply orb_true_iff in Hc. destruct Hc as [Hc|Hc]; apply Z.eqb_eq in Hc;
        [left|right]; exact Hc.
    - intros i' j' sl' Hsl' He. destruct (Hcells _ _ _ Hsl') as [Hi' Hj'].
      rewrite forallb_forall in Hu.
      specialize (Hu i' ltac:(apply list_elem_of_In; exact Hi')).
      rewrite forallb_forall in Hu.
      specialize (Hu j' ltac:(apply list_elem_of_In; exact Hj')).
      rewrite Hsl', He in Hu. cbn [negb orb] in Hu.
      apply andb_true_iff in Hu. destruct Hu as [H1 H2].
      apply Z.eqb_eq in H1, H2. auto. }
  split; [exact Hinv|]. split.
  - intros i j sl Hsl. destruct (Hone _ _ _ Hsl) as (Htag & Hc & _).
    split; [exact Htag|]. rewrite level_migrated by apply Hmig. exact Hc.
  - intros i j sl i' j' sl' Hsl Hsl' He.
    destruct (Hone _ _ _ Hsl) as (_ & _ & Hu). apply (Hu i' j' sl' Hsl' He).
Qed.

End Checks2.

Lemma int_eq_ok : @eq_ok int_params.
Proof.
  split; [|split; [|split]]; cbn.
  - intros k. apply Z.eqb_refl.
  - intros k k' H. apply Z.eqb_eq in H. subst. apply Z.eqb_refl.
  - intros k1 k2 k3 H1 H2. apply Z.eqb_eq in H1, H2. subst. apply Z.eqb_refl.
  - intros k k' H. apply Z.eqb_eq in H. subst. reflexivity.
Qed.

Section Maps.
Context {params : Params}.

Lemma sound_migr t t' : params_ok -> migr t t' -> sound t -> sound t' /\ keeps t t'.
Proof.
  intros Hpar Hm (Hinv & Hp & Hu).
  destruct (migr_inv t t' Hpar Hm Hinv) as [Hinv' Hk].
  destruct (migr_sound t t' Hpar Hm (inv_good t Hinv) Hp Hu) as [Hp' Hu'].
  split; [split; [exact Hinv'|split; assumption]|exact Hk].
Qed.

(** What a lookup reads in a sound table. *)
Lemma read_value_sound n key t :
  params_ok -> eq_ok -> sound t ->
  exists t', read_value (3 + n) key t = (Ret (read_result key t'), t') /\
             sound t' /\ keeps t t' /\
             ((exists sl, stored t sl /\ key_eq (s_key sl) key = true /\
                          read_result key t' = Some (s_mapped sl)) \/
              (absent t key /\ read_result key t' = None)).
Proof.
  intros Hpar Hok Hs. pose proof Hs as (Hinv & Hp & Hu).
  pose proof Hinv as (Hwf & Hlazy & _).
  destruct (read_value_total n key t Hpar Hwf Hlazy) as (t' & Hrun & Hm).
  destruct (sound_migr t t' Hpar Hm Hs) as [Hs' Hk].
  pose proof (read_value_stripes _ key t _ t' Hrun) as Hmig.
  exists t'. split; [exact Hrun|]. split; [exact Hs'|]. split; [exact Hk|].
  destruct Hs' as (Hinv' & Hp' & Hu'). pose proof (inv_good t' Hinv') as Hg'.
  pose proof Hk as (_ & _ & _ & _ & _ & Hst & _).
  unfold read_result.
  match goal with
  | |- context [cuckoo_find ?k ?p ?a ?b ?t] =>
      destruct (cuckoo_find_status k p a b t) as [[Hst1 Heta]|[Hst1 [Hn1 Hn2]]]
  end.
  - left. destruct (cuckoo_find_ok _ _ _ _ _ _ _ Heta) as (_ & _ & sl & Hcell & Hmatch).
    exists sl. split; [apply Hst; eexists _, _; exact Hcell|].
    split; [eapply key_matches_key_eq; exact Hmatch|].
    rewrite Hst1. cbn [status_eqb]. unfold mapped_at. unfold cell in Hcell.
    rewrite Hcell. reflexivity.
  - right. split.
    + intros x Hx. apply Hst in Hx. revert x Hx.
      apply (not_found_absent key t' Hpar Hok Hg' Hp' Hmig Hn1 Hn2).
    + rewrite Hst1. reflexivity.
Qed.

Lemma find_of_stored n key t sl :
  params_ok -> eq_ok -> sound t -> stored t sl -> key_eq (s_key sl) key = true ->
  exists t', read_value (3 + n) key t = (Ret (Some (s_mapped sl)), t') /\
             sound t' /\ keeps t t'.
Proof.
  intros Hpar Hok Hs Hsl He.
  destruct (read_value_sound n key t Hpar Hok Hs) as (t' & Hrun & Hs' & Hk & Hcase).
  exists t'. split; [|auto]. rewrite Hrun.
  destruct Hcase as [(sl' & Hsl' & He' & Hr)|[Ha _]].
  - rewrite Hr. destruct Hs as (_ & _ & Hu).
    destruct Hsl as (i & j & Hc). destruct Hsl' as (i' & j' & Hc').
    destruct (Hu _ _ _ _ _ _ Hc Hc' (eq_ok_trans_r _ _ key Hok He He')) as [-> ->].
    congruence.
  - rewrite (Ha sl Hsl) in He. discriminate.
Qed.

(** The result of [find] depends only on the pairs the table holds. *)
Lemma find_same_pairs n key t1 t2 :
  params_ok -> eq_ok -> sound t1 -> sound t2 ->
  (forall x, key_eq (s_key x) key = true ->
             ((exists y, stored t1 y /\ s_key y = s_key x /\ s_mapped y = s_mapped x) <->
              (exists y, stored t2 y /\ s_key y = s_key x /\ s_mapped y = s_mapped x))) ->
  fst (find (3 + n) key t1) = fst (find (3 + n) key t2).
Proof.
  intros Hpar Hok Hs1 Hs2 Hsame.
  assert (Hone : forall ta tb, sound ta -> sound tb ->
             (forall x, key_eq (s_key x) key = true ->
                        (exists y, stored ta y /\ s_key y = s_key x /\
                                   s_mapped y = s_mapped x) ->
                        exists y, stored tb y /\ s_key y = s_key x /\
                                  s_mapped y = s_mapped x) ->
             forall sl, stored ta sl -> key_eq (s_key sl) key = true ->
                        fst (find (3 + n) key ta) = Ret (s_mapped sl) /\
                        fst (find (3 + n) key tb) = Ret (s_mapped sl)).
  { intros ta tb Hsa Hsb Hab sl Hsl He.
    destruct (find_of_stored n key ta sl Hpar Hok Hsa Hsl He) as (ta' & Hra & _).
    destruct (Hab sl He (ex_intro _ sl (conj Hsl (conj eq_refl eq_refl))))
      as (y & Hy & Hky & Hvy).
    destruct (find_of_stored n key tb y Hpar Hok Hsb Hy ltac:(rewrite Hky; exact He))
      as (tb' & Hrb & _).
    unfold find, bind. rewrite Hra, Hrb, Hvy. auto. }
  destruct (read_value_sound n key t1 Hpar Hok Hs1) as (t1' & Hr1 & _ & _ & Hc1).
  destruct (read_value_sound n key t2 Hpar Hok Hs2) as (t2' & Hr2 & _ & _ & Hc2).
  destruct Hc1 as [(sl & Hsl & He & _)|[Ha1 Hn1]].
  - destruct (Hone t1 t2 Hs1 Hs2 ltac:(intros x Hx; apply (proj1 (Hsame x Hx))) sl Hsl He)
      as [-> ->]. reflexivity.
  - destruct Hc2 as [(sl & Hsl & He & _)|[Ha2 Hn2]].
    + destruct (Hone t2 t1 Hs2 Hs1 ltac:(intros x Hx; apply (proj2 (Hsame x Hx))) sl Hsl He)
        as [-> ->]. reflexivity.
    + unfold find, bind. rewrite Hr1, Hr2, Hn1, Hn2. reflexivity.
Qed.

(** What [erase] does to the stored pairs. *)
Lemma erase_frame fuel key t r t' :
  params_ok -> inv t ->
  erase fuel key t = (Ret r, t') ->
  (forall x, stored t' x -> stored t x) /\
  (forall x, stored t x -> key_eq (s_key x) key = false -> stored t' x).
Proof.
  intros Hpar Hinv Hrun. destruct fuel as [|n]; [discriminate|].
  pose proof (inv_good t Hinv) as Hgood.
  destruct (snapshot_find n key t Hpar Hgood) as (b & t0 & Hsnap & Hg0 & Hk0 & Hcase).
  pose proof Hk0 as (_ & _ & _ & _ & _ & Hst0 & _).
  unfold erase, erase_fn in Hrun. unfold bind at 1 in Hrun. rewrite Hsnap in Hrun.
  unfold bind at 1, get_table at 1 in Hrun.
  destruct Hcase as [(pi & ps & sl & l & Hfind & Hat & Heq & Hl1 & Hl & Hlt)|[Hnf Hread]].
  - rewrite Hfind in Hrun. cbn [pos_status status_eqb] in Hrun.
    destruct Hat as (Hmig & _ & Hcell & Hin).
    unfold mapped_at in Hrun. cbn [pos_index pos_slot] in Hrun.
    pose proof Hcell as Hcell'. unfold cell in Hcell'. rewrite Hcell' in Hrun.
    cbn [fmap option_fmap option_map] in Hrun. rewrite Hl1 in Hrun.
    unfold del_from_bucket, bind, modify, ret in Hrun. inversion Hrun; subst r t'; clear Hrun.
    destruct (modify_spec t0 pi ps sl (s_mapped sl) true l Hg0 Hin Hcell Hl Hlt)
      as (_ & _ & _ & _ & _ & Hc' & _).
    cbv zeta in Hc'. split.
    + intros x (i & s & Hx). rewrite Hc' in Hx. apply Hst0.
      destruct (decide _); [discriminate|]. exists i, s. exact Hx.
    + intros x Hx Hne. apply Hst0 in Hx. destruct Hx as (i & s & Hx). exists i, s.
      rewrite Hc'. destruct (decide _) as [[-> ->]|]; [congruence|exact Hx].
  - rewrite Hnf in Hrun. cbn [pos_status status_eqb] in Hrun.
    inversion Hrun; subst r t'; clear Hrun.
    split; intros x Hx; [|intros _]; apply Hst0; exact Hx.
Qed.

(** Every operation keeps the table sound. *)
Lemma read_value_keeps_sound fuel key t :
  params_ok -> sound t ->
  wp (read_value fuel key) (fun o t' => match o with Ret _ => sound t' | _ => True end) t.
Proof.
  intros Hpar Hs. pose proof (read_value_migr fuel key t) as Hm.
  destruct (sound_migr t _ Hpar Hm Hs) as [Hs' _].
  unfold wp. destruct (read_value fuel key t) as [[v|e|] t']; cbn [fst snd] in *;
    try exact I. exact Hs'.
Qed.

Lemma find_fn_sound {R} fuel key (fn : V -> R) t :
  params_ok -> sound t ->
  wp (find_fn fuel key fn) (fun o t' => match o with Ret _ => sound t' | _ => True end) t.
Proof.
  intros Hpar Hs. unfold find_fn. apply wp_bind.
  eapply wp_mono; [apply read_value_keeps_sound; assumption|].
  intros [[v|]|e|] t' Hk; try exact I; apply wp_ret; exact Hk.
Qed.

Lemma uprase_sound fuel key fn val t :
  params_ok -> eq_ok -> sound t ->
  wp (uprase_fn fuel key fn val)
     (fun o t' => match o with Ret _ => sound t' | _ => True end) t.
Proof.
  intros Hpar Hok (Hinv & Hp & Hu).
  eapply wp_mono;
    [apply (wp_conj _ _ _ _ (uprase_fn_inv fuel key fn val t Hpar Hinv)
              (uprase_fn_sound fuel key fn val t Hpar Hok Hinv Hp Hu))|].
  intros [r|e|] t'; [|auto|auto]. intros [[Hinv' _] (Hp' & Hu' & _)].
  split; [exact Hinv'|]. auto.
Qed.

Lemma erase_sound fuel key fn t :
  params_ok -> eq_ok -> sound t ->
  wp (erase_fn fuel key fn)
     (fun o t' => match o with Ret _ => sound t' | _ => True end) t.
Proof.
  intros Hpar Hok (Hinv & Hp & Hu).
  eapply wp_mono;
    [apply (wp_conj _ _ _ _ (erase_fn_inv fuel key fn t Hpar Hinv)
              (erase_fn_sound fuel key fn t Hpar Hok Hinv Hp Hu))|].
  intros [r|e|] t'; [|auto|auto]. intros [[Hinv' _] (Hp' & Hu' & _)].
  split; [exact Hinv'|]. auto.
Qed.

Lemma update_sound fuel key fn t :
  params_ok -> eq_ok -> sound t ->
  wp (update_fn fuel key fn)
     (fun o t' => match o with Ret _ => sound t' | _ => True end) t.
Proof.
  intros Hpar Hok (Hinv & Hp & Hu).
  eapply wp_mono;
    [apply (wp_conj _ _ _ _ (update_fn_inv fuel key fn t Hpar Hinv)
              (update_fn_sound fuel key fn t Hpar Hok Hinv Hp Hu))|].
  intros [r|e|] t'; [|auto|auto]. intros [[Hinv' _] (Hp' & Hu' & _)].
  split; [exact Hinv'|]. auto.
Qed.

Lemma rehash_sound fuel n t :
  params_ok -> eq_ok -> sound t ->
  wp (rehash fuel n)
     (fun o t' =>
        match o with
        | Ret _ => sound t' /\ forall k v, holds t' k v <-> holds t k v
        | _ => True
        end) t.
Proof.
  intros Hpar Hok Hs. unfold rehash, cuckoo_rehash. apply wp_bind, wp_get_table.
  destruct (n =? hashpower t).
  - apply wp_ret. split; [exact Hs|]. reflexivity.
  - apply wp_bind. eapply wp_mono; [apply cuckoo_change_capacity_sound; assumption|].
    intros [a|e|] t' Hk; [|exact I|exact I]. apply wp_ret. exact Hk.
Qed.

Lemma reserve_sound fuel n t :
  params_ok -> eq_ok -> sound t ->
  wp (reserve fuel n)
     (fun o t' =>
        match o with
        | Ret _ => sound t' /\ forall k v, holds t' k v <-> holds t k v
        | _ => True
        end) t.
Proof.
  intros Hpar Hok Hs. unfold reserve, cuckoo_reserve. apply wp_bind, wp_get_table.
  destruct (_ =? hashpower t).
  - apply wp_ret. split; [exact Hs|]. reflexivity.
  - apply wp_bind. eapply wp_mono; [apply cuckoo_change_capacity_sound; assumption|].
    intros [a|e|] t' Hk; [|exact I|exact I]. apply wp_ret. exact Hk.
Qed.

Lemma wp_drop_sound {A} (m : M A) t :
  wp m (fun o t' => match o with Ret _ => sound t' | _ => True end) t ->
  wp (let* _ := m in ret tt)
     (fun o t' => match o with Ret _ => sound t' | _ => True end) t.
Proof.
  intros H. apply wp_bind. eapply wp_mono; [exact H|].
  intros [a|e|] t' Hk; [|exact I|exact I]. apply wp_ret. exact Hk.
Qed.

Lemma run_operation_sound fuel o t :
  params_ok -> eq_ok -> sound t ->
  wp (run_operation fuel o)
     (fun o t' => match o with Ret _ => sound t' | _ => True end) t.
Proof.
  intros Hpar Hok Hs. destruct o; cbn [run_operation].
  - apply wp_drop_sound. unfold find. apply wp_bind.
    eapply wp_mono; [apply read_value_keeps_sound; assumption|].
    intros [[v|]|e|] t' Hk; try exact I. apply wp_ret. exact Hk.
  - apply wp_drop_sound. unfold find_copy. apply wp_bind.
    eapply wp_mono; [apply find_fn_sound; assumption|].
    intros [a|e|] t' Hk; [|exact I|exact I]. apply wp_ret. exact Hk.
  - apply wp_drop_sound, find_fn_sound; assumption.
  - apply wp_drop_sound. unfold contains. apply wp_bind.
    eapply wp_mono; [apply find_fn_sound; assumption|].
    intros [a|e|] t' Hk; [|exact I|exact I]. apply wp_ret. exact Hk.
  - apply wp_drop_sound. unfold update. apply update_sound; assumption.
  - apply wp_drop_sound, update_sound; assumption.
  - apply wp_drop_sound. unfold erase. apply erase_sound; assumption.
  - apply wp_drop_sound, erase_sound; assumption.
  - apply wp_drop_sound. unfold insert, upsert. apply uprase_sound; assumption.
  - apply wp_drop_sound. unfold insert_or_assign, upsert. apply uprase_sound; assumption.
  - apply wp_drop_sound. unfold upsert. apply uprase_sound; assumption.
  - apply wp_drop_sound, uprase_sound; assumption.
  - apply wp_drop_sound. eapply wp_mono; [apply rehash_sound; assumption|].
    intros [a|e|] t' Hk; [|exact I|exact I]. apply Hk.
  - apply wp_drop_sound. eapply wp_mono; [apply reserve_sound; assumption|].
    intros [a|e|] t' Hk; [|exact I|exact I]. apply Hk.
  - unfold clear. apply wp_modify. apply cuckoo_clear_sound. apply Hs.
  - unfold minimum_load_factor_set.
    destruct (double_lt mlf double_zero); [apply wp_throw; exact I|].
    destruct (double_lt double_one mlf); [apply wp_throw; exact I|].
    apply wp_modify. apply (sound_same_data t); [|exact Hs]. repeat split.
  - unfold maximum_hashpower_set, wp. destruct (mhp <? hashpower t); cbn [fst snd]; [exact I|].
    apply (sound_same_data t); [|exact Hs]. repeat split.
  - apply wp_modify. apply (sound_same_data t); [|exact Hs]. repeat split.
Qed.

Lemma run_operations_sound fuel ops :
  params_ok -> eq_ok -> forall t, sound t ->
  wp (run_operations fuel ops)
     (fun o t' => match o with Ret _ => sound t' | _ => True end) t.
Proof.
  intros Hpar Hok. induction ops as [|o rest IH]; intros t Hs; cbn [run_operations].
  - apply wp_ret. exact Hs.
  - apply wp_bind. eapply wp_mono; [apply run_operation_sound; assumption|].
    intros [a|e|] t' Hk; [|exact I|exact I]. apply IH. exact Hk.
Qed.

End Maps.

Section Frames.
Context {params : Params}.

Lemma fuel_three (fuel : nat) : (3 <= fuel)%nat -> fuel = (3 + (fuel - 3))%nat.
Proof. lia. Qed.

Lemma key_eq_other x key key' :
  eq_ok -> key_eq x key' = true -> key_eq key' key = false -> key_eq x key = false.
Proof.
  intros (_ & Hsym & Htrans & _) H1 H2.
  destruct (key_eq x key) eqn:He; [|reflexivity].
  rewrite (Htrans key' x key (Hsym _ _ H1) He) in H2. discriminate.
Qed.

Lemma lookup_stored n key t sl :
  params_ok -> eq_ok -> sound t -> stored t sl -> key_eq (s_key sl) key = true ->
  fst (find (3 + n) key t) = Ret (s_mapped sl) /\
  fst (contains (3 + n) key t) = Ret true /\
  sound (snd (find (3 + n) key t)).
Proof.
  intros Hpar Hok Hs Hsl He.
  destruct (find_of_stored n key t sl Hpar Hok Hs Hsl He) as (t' & Hr & Hs' & _).
  unfold find, contains, find_fn, bind. rewrite Hr. cbn [fst snd ret]. auto.
Qed.

Lemma lookup_absent n key t :
  params_ok -> eq_ok -> sound t -> absent t key ->
  fst (find (3 + n) key t) = Throw std_out_of_range /\
  fst (contains (3 + n) key t) = Ret false /\
  sound (snd (find (3 + n) key t)).
Proof.
  intros Hpar Hok Hs Ha.
  destruct (read_value_sound n key t Hpar Hok Hs) as (t' & Hr & Hs' & _ & Hcase).
  destruct Hcase as [(sl & Hsl & He & _)|[_ Hn]].
  - rewrite (Ha sl Hsl) in He. discriminate.
  - unfold find, contains, find_fn, bind. rewrite Hr, Hn. cbn [fst snd ret throw]. auto.
Qed.

(** What [update] does to the stored pairs. *)
Lemma update_frame fuel key val t r t' :
  params_ok -> inv t ->
  update fuel key val t = (Ret r, t') ->
  (r = true -> exists sl, stored t sl /\ key_eq (s_key sl) key = true /\
                          stored t' (mk_slot (s_partial sl) (s_key sl) val)) /\
  (forall x, key_eq (s_key x) key = false -> (stored t' x <-> stored t x)).
Proof.
  intros Hpar Hinv Hrun. destruct fuel as [|n]; [discriminate|].
  pose proof (inv_good t Hinv) as Hgood.
  destruct (snapshot_find n key t Hpar Hgood) as (b & t0 & Hsnap & Hg0 & Hk0 & Hcase).
  pose proof Hk0 as (_ & _ & _ & _ & _ & Hst0 & _).
  unfold update, update_fn in Hrun. unfold bind at 1 in Hrun. rewrite Hsnap in Hrun.
  unfold bind at 1, get_table at 1 in Hrun.
  destruct Hcase as [(pi & ps & sl & l & Hfind & Hat & Heq & Hl1 & Hl & Hlt)|[Hnf Hread]].
  - rewrite Hfind in Hrun. cbn [pos_status status_eqb] in Hrun.
    pose proof Hat as (Hmig & _ & Hcell & Hin).
    unfold mapped_at in Hrun. cbn [pos_index pos_slot] in Hrun.
    pose proof Hcell as Hcell'. unfold cell in Hcell'. rewrite Hcell' in Hrun.
    cbn [fmap option_fmap option_map] in Hrun.
    unfold bind, modify, ret in Hrun. inversion Hrun; subst r t'; clear Hrun.
    destruct (modify_spec t0 pi ps sl val false l Hg0 Hin Hcell Hl Hlt)
      as (_ & _ & _ & _ & _ & Hc' & _).
    cbv zeta in Hc'. split.
    + intros _. exists sl. split; [apply Hst0; exists pi, ps; exact Hcell|].
      split; [exact Heq|]. exists pi, ps. rewrite Hc'.
      rewrite decide_True by (split; reflexivity). reflexivity.
    + intros x Hne. split.
      * intros (i & s & Hx). rewrite Hc' in Hx. apply Hst0.
        destruct (decide _).
        -- inversion Hx; subst x. cbn [s_key] in Hne. congruence.
        -- exists i, s. exact Hx.
      * intros Hx. apply Hst0 in Hx. destruct Hx as (i & s & Hx). exists i, s.
        rewrite Hc'. destruct (decide _) as [[-> ->]|]; [congruence|exact Hx].
  - rewrite Hnf in Hrun. cbn [pos_status status_eqb] in Hrun.
    inversion Hrun; subst r t'; clear Hrun.
    split; [discriminate|]. intros x _. apply Hst0.
Qed.

(** Pairs that agree for the keys equal to [key'] give the same lookup. *)
Lemma find_frame n key key' t t' :
  params_ok -> eq_ok -> sound t -> sound t' -> key_eq key' key = false ->
  (forall x, key_eq (s_key x) key = false -> (stored t' x <-> stored t x)) ->
  fst (find (3 + n) key' t') = fst (find (3 + n) key' t).
Proof.
  intros Hpar Hok Hs Hs' Hne Hfr.
  apply find_same_pairs; try assumption.
  intros x Hx.
  split; intros (y & Hy & Hky & Hvy); exists y; (split; [|auto]);
    apply Hfr; try exact Hy; rewrite Hky; apply (key_eq_other _ key key' Hok Hx Hne).
Qed.

End Frames.

(** X15.  In a sound table (the invariant, every pair in a candidate
    bucket of its key, no key stored twice) a lookup with fuel for three
    rounds is exact: [find] of a key equal to a stored one returns the
    value of that pair and [contains] returns [true]; [find] of a key that
    no slot holds throws [std::out_of_range] and [contains] returns
    [false].  The table stays sound. *)
Theorem lookup_is_exact `{params : Params} (fuel : nat) (key : K) (t : table) :
  params_ok -> eq_ok -> sound t -> (3 <= fuel)%nat ->
  (forall sl, stored t sl -> key_eq (s_key sl) key = true ->
              fst (find fuel key t) = Ret (s_mapped sl) /\
              fst (contains fuel key t) = Ret true) /\
  (absent t key ->
   fst (find fuel key t) = Throw std_out_of_range /\
   fst (contains fuel key t) = Ret false) /\
  sound (snd (find fuel key t)).
Proof.
  intros Hpar Hok Hs Hfuel. rewrite (fuel_three fuel Hfuel).
  split; [|split].
  - intros sl Hsl He.
    destruct (lookup_stored (fuel - 3) key t sl Hpar Hok Hs Hsl He) as (H1 & H2 & _). auto.
  - intros Ha. destruct (lookup_absent (fuel - 3) key t Hpar Hok Hs Ha) as (H1 & H2 & _). auto.
  - unfold find, bind.
    destruct (read_value_sound (fuel - 3) key t Hpar Hok Hs) as (t' & Hr & Hs' & _).
    rewrite Hr. destruct (read_result key t'); exact Hs'.
Qed.
Lemma lookup_is_exact_witness :
  fst (@find int_params 5 3 (int_table_with 8 [(1, 10); (3, 30)])) = Ret 30 /\
  fst (@contains int_params 5 3 (int_table_with 8 [(1, 10); (3, 30)])) = Ret true.
Proof.
  assert (Hs : sound (int_table_with 8 [(1, 10); (3, 30)])).
  { apply sound_check_sound. vm_compute. reflexivity. }
  destruct (@lookup_is_exact int_params 5 3 (int_table_with 8 [(1, 10); (3, 30)])
              int_params_ok int_eq_ok Hs ltac:(lia)) as (Hfound & _ & _).
  apply (Hfound (@mk_slot int_params 3 3 30)).
  - exists 1, 2. vm_compute. reflexivity.
  - reflexivity.
Defined.

(** X16.  On a sound table an [erase(key)] that returns leaves the table
    sound with no slot holding a key equal to [key]; it returns [true]
    exactly when such a key was stored; the pairs of the other keys are
    the same; afterwards [contains(key)] returns [false]. *)
Theorem erase_makes_absent `{params : Params}
        (fuel : nat) (key : K) (t t' : table) (r : bool) :
  params_ok -> eq_ok -> sound t -> (3 <= fuel)%nat ->
  erase fuel key t = (Ret r, t') ->
  sound t' /\ absent t' key /\
  (r = true <-> exists sl, stored t sl /\ key_eq (s_key sl) key = true) /\
  (forall x, key_eq (s_key x) key = false -> (stored t' x <-> stored t x)) /\
  fst (contains fuel key t') = Ret false.
Proof.
  intros Hpar Hok Hs Hfuel Hrun. pose proof Hs as (Hinv & Hp & Hu).
  pose proof (erase_sound fuel key (fun v => (v, true)) t Hpar Hok Hs) as H1.
  pose proof (erase_fn_sound fuel key (fun v => (v, true)) t Hpar Hok Hinv Hp Hu) as H2.
  unfold wp in H1, H2. unfold erase in Hrun. rewrite Hrun in H1, H2.
  cbn [fst snd] in H1, H2. destruct H2 as (_ & _ & Hfalse & Htrue).
  fold (erase fuel key) in Hrun.
  destruct (erase_frame fuel key t r t' Hpar Hinv Hrun) as [Hsub Hkeep].
  assert (Habs : absent t' key).
  { destruct r.
    - destruct (Htrue eq_refl) as (sl & _ & _ & Ha). apply Ha. reflexivity.
    - intros x Hx. apply (Hfalse eq_refl). apply Hsub. exact Hx. }
  split; [exact H1|]. split; [exact Habs|]. split; [|split].
  - split.
    + intros Hr. destruct (Htrue Hr) as (sl & Hsl & He & _). eauto.
    + intros (sl & Hsl & He). destruct r; [reflexivity|].
      rewrite (Hfalse eq_refl sl Hsl) in He. discriminate.
  - intros x Hne. split; [apply Hsub|]. intros Hx. apply Hkeep; assumption.
  - rewrite (fuel_three fuel Hfuel).
    destruct (lookup_absent (fuel - 3) key t' Hpar Hok H1 Habs) as (_ & Hc & _). exact Hc.
Qed.
Lemma erase_makes_absent_witness :
  fst (@contains int_params 5 3
         (snd (@erase int_params 5 3 (int_table_with 8 [(1, 10); (3, 30)])))) = Ret false.
Proof.
  assert (Hs : sound (int_table_with 8 [(1, 10); (3, 30)])).
  { apply sound_check_sound. vm_compute. reflexivity. }
  destruct (@erase_makes_absent int_params 5 3 (int_table_with 8 [(1, 10); (3, 30)])
              (snd (@erase int_params 5 3 (int_table_with 8 [(1, 10); (3, 30)]))) true
              int_params_ok int_eq_ok Hs ltac:(lia) ltac:(vm_compute; reflexivity))
    as (_ & _ & _ & _ & Hc).
  exact Hc.
Defined.

(** X17.  On a sound table an [insert(key, val)] that returns leaves the
    table sound and returns [true] exactly when no slot held a key equal
    to [key].  If it returns [true] the table holds the old pairs and
    [(key, val)], and [find(key)] returns [val]; if it returns [false] the
    pairs are the same, so [find(key)] still returns the old value. *)
Theorem insert_true_iff_absent `{params : Params}
        (fuel : nat) (key : K) (val : V) (t t' : table) (r : bool) :
  params_ok -> eq_ok -> sound t -> (3 <= fuel)%nat ->
  insert fuel key val t = (Ret r, t') ->
  sound t' /\
  (r = true <-> absent t key) /\
  (if r
   then (forall k v, holds t' k v <-> holds t k v \/ (k = key /\ v = val)) /\
        fst (find fuel key t') = Ret val
   else (forall x, stored t' x <-> stored t x) /\
        exists sl, stored t sl /\ key_eq (s_key sl) key = true /\
                   fst (find fuel key t') = Ret (s_mapped sl)).
Proof.
  intros Hpar Hok Hs Hfuel Hrun. pose proof Hs as (Hinv & Hp & Hu).
  pose proof (insert_sound fuel key val t Hpar Hok Hs) as H1.
  pose proof (insert_stored fuel key val t Hpar Hinv) as H2.
  pose proof (uprase_fn_sound fuel key (fun v => (v, false)) val t Hpar Hok Hinv Hp Hu) as H3.
  unfold wp in H1, H2, H3. rewrite Hrun in H1, H2. unfold insert, upsert in Hrun.
  rewrite Hrun in H3. cbn [fst snd] in H1, H2, H3. destruct H3 as (_ & _ & Habs).
  split; [exact H1|]. pose proof Hok as (Hrefl & _).
  destruct r.
  - split; [split; [exact Habs|reflexivity]|]. split.
    + intros k v. split.
      * intros (sl & Hsl & Hk & Hv). apply H2 in Hsl. destruct Hsl as [Hsl| ->].
        -- left. exists sl. auto.
        -- right. cbn [s_key s_mapped] in Hk, Hv. auto.
      * intros [(sl & Hsl & Hk & Hv)|[-> ->]].
        -- exists sl. split; [apply H2; left; exact Hsl|auto].
        -- exists (mk_slot (hv_partial (hashed_key key)) key val).
           split; [apply H2; right; reflexivity|auto].
    + rewrite (fuel_three fuel Hfuel).
      destruct (lookup_stored (fuel - 3) key t'
                  (mk_slot (hv_partial (hashed_key key)) key val) Hpar Hok H1
                  ltac:(apply H2; right; reflexivity) (Hrefl key)) as (Hf & _).
      exact Hf.
  - destruct H2 as [(sl & Hsl & He) Hsame]. split.
    + split; [discriminate|]. intros Ha. rewrite (Ha sl Hsl) in He. discriminate.
    + split; [exact Hsame|]. exists sl. split; [exact Hsl|]. split; [exact He|].
      rewrite (fuel_three fuel Hfuel).
      destruct (lookup_stored (fuel - 3) key t' sl Hpar Hok H1
                  ltac:(apply Hsame; exact Hsl) He) as (Hf & _).
      exact Hf.
Qed.
Lemma insert_true_iff_absent_witness :
  fst (@find int_params 5 3
         (snd (@insert int_params 5 3 77 (int_table_with 8 [(1, 10); (3, 30)])))) = Ret 30.
Proof.
  assert (Hs : sound (int_table_with 8 [(1, 10); (3, 30)])).
  { apply sound_check_sound. vm_compute. reflexivity. }
  destruct (@insert_true_iff_absent int_params 5 3 77 (int_table_with 8 [(1, 10); (3, 30)])
              (snd (@insert int_params 5 3 77 (int_table_with 8 [(1, 10); (3, 30)]))) false
              int_params_ok int_eq_ok Hs ltac:(lia) ltac:(vm_compute; reflexivity))
    as (_ & _ & _ & sl & Hsl & He & Hf).
  rewrite Hf. f_equal.
  destruct Hsl as (i & j & Hc). apply Z.eqb_eq in He.
  assert (Hin : In (Some sl) (concat (buckets_ (int_table_with 8 [(1, 10); (3, 30)])))).
  { apply cell_lookup in Hc. destruct Hc as (b & Hb & Hj).
    apply in_concat. exists b. split; apply list_elem_of_In;
      eapply list_elem_of_lookup_2; eassumption. }
  vm_compute in Hin. cbn in He.
  destruct Hin as [H|[H|[H|[H|[H|[H|[H|[H|[]]]]]]]]]; try discriminate H;
    inversion H; subst sl; cbn in He; try reflexivity; discriminate He.
Defined.

(** X18.  On a sound table an [update(key, val)] that returns leaves the
    table sound and returns [true] exactly when a key equal to [key] was
    stored; that pair keeps its stored key and tag and gets [val]; the
    pairs of the other keys are the same. *)
Theorem update_true_iff_stored `{params : Params}
        (fuel : nat) (key : K) (val : V) (t t' : table) (r : bool) :
  params_ok -> eq_ok -> sound t ->
  update fuel key val t = (Ret r, t') ->
  sound t' /\
  (r = true <-> exists sl, stored t sl /\ key_eq (s_key sl) key = true) /\
  (forall sl, stored t sl -> key_eq (s_key sl) key = true ->
              stored t' (mk_slot (s_partial sl) (s_key sl) val)) /\
  (forall x, key_eq (s_key x) key = false -> (stored t' x <-> stored t x)).
Proof.
  intros Hpar Hok Hs Hrun. pose proof Hs as (Hinv & Hp & Hu).
  pose proof (update_sound fuel key (fun _ => val) t Hpar Hok Hs) as H1.
  pose proof (update_fn_sound fuel key (fun _ => val) t Hpar Hok Hinv Hp Hu) as H2.
  unfold wp in H1, H2. unfold update in Hrun. rewrite Hrun in H1, H2.
  cbn [fst snd] in H1, H2. destruct H2 as (_ & _ & Hfalse).
  fold (update fuel key val) in Hrun.
  destruct (update_frame fuel key val t r t' Hpar Hinv Hrun) as [Htrue Hfr].
  assert (Hiff : r = true <-> exists sl, stored t sl /\ key_eq (s_key sl) key = true).
  { split.
    - intros Hr. destruct (Htrue Hr) as (sl & Hsl & He & _). eauto.
    - intros (sl & Hsl & He). destruct r; [reflexivity|].
      rewrite (Hfalse eq_refl sl Hsl) in He. discriminate. }
  split; [exact H1|]. split; [exact Hiff|]. split; [|exact Hfr].
  intros sl Hsl He.
  destruct (Htrue (proj2 Hiff (ex_intro _ sl (conj Hsl He)))) as (sl0 & Hsl0 & He0 & Hst).
  destruct Hsl as (i & j & Hc). destruct Hsl0 as (i0 & j0 & Hc0).
  destruct (Hu _ _ _ _ _ _ Hc Hc0 (eq_ok_trans_r _ _ key Hok He He0)) as [-> ->].
  assert (sl = sl0) by congruence. subst sl0. exact Hst.
Qed.
Lemma update_true_iff_stored_witness :
  stored (snd (@update int_params 5 3 77 (int_table_with 8 [(1, 10); (3, 30)])))
         (@mk_slot int_params 3 3 77).
Proof.
  assert (Hs : sound (int_table_with 8 [(1, 10); (3, 30)])).
  { apply sound_check_sound. vm_compute. reflexivity. }
  destruct (@update_true_iff_stored int_params 5 3 77 (int_table_with 8 [(1, 10); (3, 30)])
              (snd (@update int_params 5 3 77 (int_table_with 8 [(1, 10); (3, 30)]))) true
              int_params_ok int_eq_ok Hs ltac:(vm_compute; reflexivity))
    as (_ & _ & Hst & _).
  apply (Hst (@mk_slot int_params 3 3 30)).
  - exists 1, 2. vm_compute. reflexivity.
  - reflexivity.
Defined.

(** X19.  Every table that a constructor call and a sequence of
    operations produce is sound: it satisfies the invariant, every pair
    has the tag of its key and sits in one of the two candidate buckets of
    its key (at the hashpower of its stripe), and no two slots hold equal
    keys. *)
Theorem reachable_tables_are_sound `{params : Params}
        (fuel : nat) (n : Z) (ops : list operation) (t t' : table) :
  params_ok -> eq_ok ->
  new_table n = Ret t ->
  run_operations fuel ops t = (Ret tt, t') ->
  sound t'.
Proof.
  intros Hpar Hok Hnew Hrun.
  pose proof (run_operations_sound fuel ops Hpar Hok t (new_table_sound n t Hpar Hnew)) as H.
  unfold wp in H. rewrite Hrun in H. exact H.
Qed.
Lemma reachable_tables_are_sound_witness :
  sound (snd (@run_operations int_params 8
                [@op_insert int_params 1 10; @op_insert int_params 9 90; @op_erase int_params 1;
                 @op_rehash int_params 3; @op_update int_params 9 91]
                (int_table 8))).
Proof.
  apply (@reachable_tables_are_sound int_params 8 8
           [@op_insert int_params 1 10; @op_insert int_params 9 90; @op_erase int_params 1;
                 @op_rehash int_params 3; @op_update int_params 9 91]
           (int_table 8) _ int_params_ok int_eq_ok).
  - vm_compute. reflexivity.
  - vm_compute. reflexivity.
Defined.

(** X20.  On a sound table a [rehash(n)] or a [reserve(n)] that returns
    leaves the table sound and holding exactly the pairs it held, and
    every later [find] returns what it would have returned before. *)
Theorem rehash_keeps_the_pairs `{params : Params}
        (fuel : nat) (n : Z) (t t' : table) (r : bool) :
  params_ok -> eq_ok -> sound t -> (3 <= fuel)%nat ->
  rehash fuel n t = (Ret r, t') \/ reserve fuel n t = (Ret r, t') ->
  sound t' /\
  (forall k v, holds t' k v <-> holds t k v) /\
  forall key, fst (find fuel key t') = fst (find fuel key t).
Proof.
  intros Hpar Hok Hs Hfuel Hrun.
  assert (H : sound t' /\ forall k v, holds t' k v <-> holds t k v).
  { destruct Hrun as [Hrun|Hrun].
    - pose proof (rehash_sound fuel n t Hpar Hok Hs) as H. unfold wp in H.
      rewrite Hrun in H. exact H.
    - pose proof (reserve_sound fuel n t Hpar Hok Hs) as H. unfold wp in H.
      rewrite Hrun in H. exact H. }
  destruct H as [Hs' Hh]. split; [exact Hs'|]. split; [exact Hh|].
  intros key. rewrite (fuel_three fuel Hfuel).
  apply find_same_pairs; try assumption.
  intros x _. apply (Hh (s_key x) (s_mapped x)).
Qed.
Lemma rehash_keeps_the_pairs_witness :
  fst (@find int_params 10 3
         (snd (@rehash int_params 10 3 (int_table_with 8 [(1, 10); (3, 30)]))))
  = fst (@find int_params 10 3 (int_table_with 8 [(1, 10); (3, 30)])).
Proof.
  assert (Hs : sound (int_table_with 8 [(1, 10); (3, 30)])).
  { apply sound_check_sound. vm_compute. reflexivity. }
  destruct (@rehash_keeps_the_pairs int_params 10 3 (int_table_with 8 [(1, 10); (3, 30)])
              (snd (@rehash int_params 10 3 (int_table_with 8 [(1, 10); (3, 30)]))) true
              int_params_ok int_eq_ok Hs ltac:(lia)
              ltac:(left; vm_compute; reflexivity))
    as (_ & _ & Hf).
  apply Hf.
Defined.

(** X21.  On a sound table an [insert], an [erase] or an [update] of
    [key] that returns does not change what [find] returns for a key
    different from [key]. *)
Theorem writes_leave_other_keys `{params : Params}
        (fuel : nat) (key key' : K) (val : V) (t : table) :
  params_ok -> eq_ok -> sound t -> (3 <= fuel)%nat ->
  key_eq key' key = false ->
  (forall r t', insert fuel key val t = (Ret r, t') ->
                fst (find fuel key' t') = fst (find fuel key' t)) /\
  (forall r t', erase fuel key t = (Ret r, t') ->
                fst (find fuel key' t') = fst (find fuel key' t)) /\
  (forall r t', update fuel key val t = (Ret r, t') ->
                fst (find fuel key' t') = fst (find fuel key' t)).
Proof.
  intros Hpar Hok Hs Hfuel Hne. pose proof Hs as (Hinv & Hp & Hu).
  rewrite (fuel_three fuel Hfuel). set (f := (3 + (fuel - 3))%nat).
  pose proof Hok as (_ & Hsym & _).
  split; [|split]; intros r t' Hrun.
  - pose proof (insert_sound f key val t Hpar Hok Hs) as H1.
    pose proof (insert_stored f key val t Hpar Hinv) as H2.
    unfold wp in H1, H2. rewrite Hrun in H1, H2. cbn [fst snd] in H1, H2.
    apply (find_frame _ key key' t t' Hpar Hok Hs H1 Hne).
    intros x Hx. destruct r.
    + rewrite H2. split; [|auto]. intros [H| ->]; [exact H|].
      cbn [s_key] in Hx. pose proof Hok as (Hrefl & _). rewrite Hrefl in Hx. discriminate.
    + apply H2.
  - pose proof (erase_sound f key (fun v => (v, true)) t Hpar Hok Hs) as H1.
    unfold wp in H1. unfold erase in Hrun. rewrite Hrun in H1. cbn [fst snd] in H1.
    fold (erase f key) in Hrun.
    destruct (erase_frame f key t r t' Hpar Hinv Hrun) as [Hsub Hkeep].
    apply (find_frame _ key key' t t' Hpar Hok Hs H1 Hne).
    intros x Hx. split; [apply Hsub|]. intros H. apply Hkeep; assumption.
  - pose proof (update_sound f key (fun _ => val) t Hpar Hok Hs) as H1.
    unfold wp in H1. unfold update in Hrun. rewrite Hrun in H1. cbn [fst snd] in H1.
    fold (update f key val) in Hrun.
    destruct (update_frame f key val t r t' Hpar Hinv Hrun) as [_ Hfr].
    apply (find_frame _ key key' t t' Hpar Hok Hs H1 Hne). exact Hfr.
Qed.
Lemma writes_leave_other_keys_witness :
  fst (@find int_params 5 1
         (snd (@erase int_params 5 3 (int_table_with 8 [(1, 10); (3, 30)]))))
  = fst (@find int_params 5 1 (int_table_with 8 [(1, 10); (3, 30)])).
Proof.
  assert (Hs : sound (int_table_with 8 [(1, 10); (3, 30)])).
  { apply sound_check_sound. vm_compute. reflexivity. }
  destruct (@writes_leave_other_keys int_params 5 3 1 0 (int_table_with 8 [(1, 10); (3, 30)])
              int_params_ok int_eq_ok Hs ltac:(lia) ltac:(reflexivity))
    as (_ & He & _).
  apply (He true). vm_compute. reflexivity.
Defined.

(** X22.  A table that the range constructor builds from pairs with
    pairwise different keys is sound and holds exactly the pairs of the
    range. *)
Theorem range_constructor_holds_the_range `{params : Params}
        (fuel : nat) (n : Z) (kvs : list (K * V)) (t : table) :
  params_ok -> eq_ok -> distinct_keys kvs ->
  new_table_range fuel kvs n = Ret t ->
  sound t /\ forall k v, holds t k v <-> (k, v) ∈ kvs.
Proof.
  intros Hpar Hok Hd Hrun. unfold new_table_range in Hrun.
  destruct (new_table n) as [t0|e|] eqn:Hnew; try discriminate.
  pose proof (new_table_sound n t0 Hpar Hnew) as Hs0.
  pose proof (new_table_no_pair n t0 Hnew) as Hno.
  pose proof (insert_all_keeps fuel kvs Hpar Hok t0 Hs0 Hd
                ltac:(intros k v _ x Hx; destruct (Hno x Hx))) as H.
  unfold wp in H. destruct (insert_all fuel kvs t0) as [[u|e|] t1]; try discriminate.
  inversion Hrun; subst t1. cbn [fst snd] in H. destruct H as [Hs Hh].
  split; [exact Hs|]. intros k v. rewrite Hh. split; [|auto].
  intros [(sl & Hsl & _)|H]; [destruct (Hno sl Hsl)|exact H].
Qed.
Lemma range_constructor_holds_the_range_witness :
  holds (int_table_with 8 [(1, 10); (3, 30)]) 3 30.
Proof.
  destruct (@range_constructor_holds_the_range int_params 10 8 [(1, 10); (3, 30)]
              (int_table_with 8 [(1, 10); (3, 30)]) int_params_ok int_eq_ok
              ltac:(repeat constructor) ltac:(vm_compute; reflexivity))
    as [_ Hh].
  apply Hh. apply list_elem_of_In. right. left. reflexivity.
Defined.

Section Uprase.
Context {params : Params}.

(** What [uprase_fn] does to the stored pairs. *)
Lemma uprase_fn_stored fuel key fn val t :
  params_ok -> eq_ok -> inv t -> placed t -> unique t ->
  wp (uprase_fn fuel key fn val)
     (fun o t' =>
        match o with
        | Ret true =>
            forall x, stored t' x <->
                      stored t x \/ x = mk_slot (hv_partial (hashed_key key)) key val
        | Ret false =>
            exists sl, stored t sl /\ key_eq (s_key sl) key = true /\
              (forall x, key_eq (s_key x) key = false -> (stored t' x <-> stored t x)) /\
              (if snd (fn (s_mapped sl)) then absent t' key
               else stored t' (mk_slot (s_partial sl) (s_key sl) (fst (fn (s_mapped sl)))))
        | _ => True
        end) t.
Proof.
  intros Hpar Hok Hinv Hp Hu. pose proof (inv_good t Hinv) as Hgood.
  unfold uprase_fn. apply wp_bind.
  destruct fuel as [|f]; [exact I|].
  destruct (snapshot_spec f (hashed_key key) t Hpar Hgood)
    as (b0 & t0 & Hrun0 & Hg0 & Hk0 & Hm0 & Hal0 & Hheld0 & Hmig0).
  eapply wp_eq; [exact Hrun0|].
  destruct (migr_sound t t0 Hpar Hm0 Hgood Hp Hu) as [Hp0 Hu0].
  apply wp_bind.
  eapply wp_mono;
    [apply (wp_conj _ _ _ _
              (cuckoo_insert_loop_spec (S f) (S f) (hashed_key key) key Hpar b0 t0 Hg0 Hal0
                 Hheld0 Hmig0)
              (cuckoo_insert_loop_sound (S f) (S f) (hashed_key key) key Hpar b0 t0 Hg0 Hal0
                 Hheld0 Hmig0 Hp0 Hu0))|].
  intros [[pos b1]|e|] t1; [|intros; exact I|intros; exact I].
  intros [(Hg1 & Hc1 & Hal1 & Hcase) [Hp1 Hu1]].
  pose proof (carries_trans _ _ _ (keeps_carries _ _ Hk0) Hc1) as (_ & _ & _ & Hst).
  pose proof (good_hashpower t1 Hpar Hg1) as Hhp1.
  pose proof (aligned_buckets_in _ t1 b1 Hhp1 Hal1) as Hb1.
  pose proof Hg1 as [Hwf1 _].
  destruct Hcase as [[Hs Hsite]|[Hs Hsite]]; rewrite Hs; cbn [status_eqb].
  - pose proof Hsite as (Hin & Hpi & Hcell & _ & _ & Hheld & Hmig).
    destruct (held_in_range t1 b1 Hwf1 Hb1 Hheld) as (l & Hl1 & Hl & Hlt).
    rewrite Hl1. unfold add_to_bucket.
    apply wp_bind. apply wp_bind, wp_modify. apply wp_modify. apply wp_ret.
    assert (Hmpi : migrated t1 (lock_ind (pos_index pos))).
    { destruct Hmig as [Hm1 Hm2]. destruct Hpi as [-> | ->]; assumption. }
    destruct (put_spec t1 (pos_index pos) (pos_slot pos) (hv_partial (hashed_key key)) key
                val l Hg1 Hin Hcell Hmpi Hl Hlt) as (_ & _ & _ & _ & _ & Hc' & _).
    cbv zeta in Hc'. intros x. split.
    + intros (i & j & Hx). rewrite Hc' in Hx.
      destruct (decide _); [right; congruence|left; apply Hst; eexists _, _; exact Hx].
    + intros [Hx| ->].
      * apply Hst in Hx. destruct Hx as (i & j & Hx). exists i, j. rewrite Hc'.
        destruct (decide _) as [[-> ->]|]; [congruence|exact Hx].
      * exists (pos_index pos), (pos_slot pos). rewrite Hc'.
        destruct (decide _); [reflexivity|tauto].
  - destruct (duplicate_site_found key t1 b1 pos Hhp1 Hal1 Hsite)
      as (sl & (_ & _ & Hcell & Hin) & Heq).
    destruct Hsite as (_ & Hheld & _).
    destruct (held_in_range t1 b1 Hwf1 Hb1 Hheld) as (l & Hl1 & Hl & Hlt).
    apply wp_bind, wp_get_table.
    unfold mapped_at. pose proof Hcell as Hcell'. unfold cell in Hcell'. rewrite Hcell'.
    cbn [fmap option_fmap option_map].
    destruct (fn (s_mapped sl)) as [v' erase] eqn:Hfn.
    destruct (modify_sound t1 (pos_index pos) (pos_slot pos) sl v' erase l Hg1 Hp1 Hu1 Hin
                Hcell Hl Hlt) as (_ & _ & Hgone).
    destruct (modify_spec t1 (pos_index pos) (pos_slot pos) sl v' erase l Hg1 Hin Hcell
                Hl Hlt) as (_ & _ & _ & _ & _ & Hc' & _).
    cbv zeta in Hgone, Hc'.
    assert (Hpost :
      forall t', t' = (if erase
                       then decr_elem_counter l
                              (eraseKV (pos_index pos) (pos_slot pos)
                                 (set_mapped (pos_index pos) (pos_slot pos) v' t1))
                       else set_mapped (pos_index pos) (pos_slot pos) v' t1) ->
      exists sl0, stored t sl0 /\ key_eq (s_key sl0) key = true /\
        (forall x, key_eq (s_key x) key = false -> (stored t' x <-> stored t x)) /\
        (if snd (fn (s_mapped sl0)) then absent t' key
         else stored t' (mk_slot (s_partial sl0) (s_key sl0) (fst (fn (s_mapped sl0)))))).
    { intros t' ->. exists sl. split; [apply Hst; eexists _, _; exact Hcell|].
      split; [exact Heq|]. split.
      - intros x Hne. split.
        + intros (i & j & Hx). rewrite Hc' in Hx. apply Hst.
          destruct (decide _).
          * destruct erase; [discriminate|]. inversion Hx; subst x.
            cbn [s_key] in Hne. congruence.
          * exists i, j. exact Hx.
        + intros Hx. apply Hst in Hx. destruct Hx as (i & j & Hx). exists i, j.
          rewrite Hc'. destruct (decide _) as [[-> ->]|]; [congruence|exact Hx].
      - rewrite Hfn. cbn [fst snd]. destruct erase.
        + intros x Hx. destruct (key_eq (s_key x) key) eqn:He; [|reflexivity].
          rewrite <- (Hgone eq_refl x Hx). symmetry.
          apply (eq_ok_trans_r _ _ key Hok He Heq).
        + exists (pos_index pos), (pos_slot pos). rewrite Hc'.
          rewrite decide_True by (split; reflexivity). reflexivity. }
    apply wp_bind, wp_modify. apply wp_bind. destruct erase.
    + rewrite Hl1. unfold del_from_bucket.
      apply wp_bind, wp_modify. apply wp_modify. apply wp_ret.
      apply Hpost. reflexivity.
    + apply wp_ret. apply wp_ret. apply Hpost. reflexivity.
Qed.

End Uprase.

(** X23.  On a sound table an [uprase_fn(key, fn, val)] that returns
    leaves the table sound and returns [true] exactly when no slot held a
    key equal to [key]; then it has stored [(key, val)].  Otherwise [fn]
    runs on the value of the stored pair: when [fn] returns [false] the
    pair keeps its stored key and gets the value [fn] left, when it
    returns [true] the pair is erased and the key is absent.  The pairs
    of the other keys are the same. *)
Theorem uprase_fn_inserts_or_applies_fn `{params : Params}
        (fuel : nat) (key : K) (fn : V -> V * bool) (val : V) (t t' : table) (r : bool) :
  params_ok -> eq_ok -> sound t ->
  uprase_fn fuel key fn val t = (Ret r, t') ->
  sound t' /\
  (r = true <-> absent t key) /\
  (r = true -> stored t' (mk_slot (hv_partial (hashed_key key)) key val)) /\
  (forall sl, stored t sl -> key_eq (s_key sl) key = true ->
              if snd (fn (s_mapped sl)) then absent t' key
              else stored t' (mk_slot (s_partial sl) (s_key sl) (fst (fn (s_mapped sl))))) /\
  (forall x, key_eq (s_key x) key = false -> (stored t' x <-> stored t x)).
Proof.
  intros Hpar Hok Hs Hrun. pose proof Hs as (Hinv & Hp & Hu).
  pose proof (uprase_sound fuel key fn val t Hpar Hok Hs) as H1.
  pose proof (uprase_fn_stored fuel key fn val t Hpar Hok Hinv Hp Hu) as H2.
  pose proof (uprase_fn_sound fuel key fn val t Hpar Hok Hinv Hp Hu) as H3.
  unfold wp in H1, H2, H3. rewrite Hrun in H1, H2, H3. cbn [fst snd] in H1, H2, H3.
  destruct H3 as (_ & _ & Habs). pose proof Hok as (Hrefl & _).
  split; [exact H1|]. destruct r.
  - split; [split; [exact Habs|reflexivity]|].
    split; [intros _; apply H2; right; reflexivity|]. split.
    + intros sl Hsl He. rewrite (Habs eq_refl sl Hsl) in He. discriminate.
    + intros x Hne. rewrite H2. split; [|auto]. intros [H| ->]; [exact H|].
      cbn [s_key] in Hne. rewrite Hrefl in Hne. discriminate.
  - destruct H2 as (sl & Hsl & He & Hfr & Hfn).
    split; [split; [discriminate|]|].
    { intros Ha. rewrite (Ha sl Hsl) in He. discriminate. }
    split; [discriminate|]. split; [|exact Hfr].
    intros sl2 Hsl2 He2.
    destruct Hsl as (i & j & Hc). destruct Hsl2 as (i2 & j2 & Hc2).
    destruct (Hu _ _ _ _ _ _ Hc Hc2 (eq_ok_trans_r _ _ key Hok He He2)) as [-> ->].
    assert (sl = sl2) by congruence. subst sl2. exact Hfn.
Qed.
Lemma uprase_fn_inserts_or_applies_fn_witness :
  stored (snd (@upsert int_params 5 3 (fun v => v + 1) 0
                 (int_table_with 8 [(1, 10); (3, 30)])))
         (@mk_slot int_params 3 3 31).
Proof.
  assert (Hs : sound (int_table_with 8 [(1, 10); (3, 30)])).
  { apply sound_check_sound. vm_compute. reflexivity. }
  destruct (@uprase_fn_inserts_or_applies_fn int_params 5 3 (fun v => (v + 1, false)) 0
              (int_table_with 8 [(1, 10); (3, 30)])
              (snd (@upsert int_params 5 3 (fun v => v + 1) 0
                      (int_table_with 8 [(1, 10); (3, 30)]))) false
              int_params_ok int_eq_ok Hs ltac:(vm_compute; reflexivity))
    as (_ & _ & _ & Hfn & _).
  apply (Hfn (@mk_slot int_params 3 3 30)).
  - exists 1, 2. vm_compute. reflexivity.
  - reflexivity.
Defined.

Section ExpandSound.
Context {params : Params}.

Lemma cuckoo_expand_simple_loop_sound n new_hp :
  params_ok ->
  forall t, good t -> placed t -> unique t ->
  wp (cuckoo_expand_simple_loop false n (hashpower t) new_hp)
     (fun o t' =>
        match o with
        | Ret _ => placed t' /\ unique t'
        | Throw e => e = std_bad_alloc \/ (placed t' /\ unique t')
        | OutOfFuel => True
        end) t.
Proof.
  intros Hpar. induction n as [|n IH]; intros t Hgood Hp Hu;
    pose proof (good_hashpower t Hpar Hgood) as Hhp;
    cbn [cuckoo_expand_simple_loop]; rewrite wrap64_small by lia;
    (destruct (hashpower t <? new_hp) eqn:Hlt; [|apply wp_ret; auto]).
  - exact I.
  - apply wp_bind.
    eapply wp_mono;
      [apply wp_conj;
       [apply (cuckoo_fast_double_spec_mode locked_table_mode false t Hpar Hgood)
       |apply wp_conj;
        [apply (cuckoo_fast_double_sound locked_table_mode false t Hpar Hgood Hp Hu)
        |apply wp_run]]|].
    intros [st|e|] t2 (Hspec & Hsound & Hrun).
    + destruct Hspec as (-> & Hg2 & _ & Ht2 & _). cbn [status_eqb negb].
      rewrite wrap_i32_small by lia. rewrite <- Ht2.
      destruct Hsound as [Hp2 Hu2]. apply (IH t2 Hg2 Hp2 Hu2).
    + destruct (cuckoo_fast_double_throw _ _ _ _ _ Hrun) as [(_ & -> & _)|He].
      * right. auto.
      * left. exact He.
    + exact I.
Qed.

Lemma cuckoo_expand_simple_sound mode fuel new_hp t :
  params_ok -> good t -> placed t -> unique t ->
  wp (cuckoo_expand_simple mode false fuel new_hp)
     (fun o t' =>
        match o with
        | Ret _ => placed t' /\ unique t'
        | Throw e => e = std_bad_alloc \/ (placed t' /\ unique t')
        | OutOfFuel => True
        end) t.
Proof.
  intros Hpar Hgood Hp Hu. pose proof (good_hashpower t Hpar Hgood) as Hhp.
  unfold cuckoo_expand_simple. apply wp_bind, wp_get_table.
  rewrite wrap_i32_small by lia. apply cuckoo_expand_simple_loop_sound; assumption.
Qed.

(** The same pairs in two sound tables give the same lookups. *)
Lemma find_same_stored n key t t' :
  params_ok -> eq_ok -> sound t -> sound t' ->
  (forall x, stored t' x <-> stored t x) ->
  fst (find (3 + n) key t') = fst (find (3 + n) key t).
Proof.
  intros Hpar Hok Hs Hs' Hst. apply find_same_pairs; try assumption.
  intros x _. split; intros (y & Hy & Hk); exists y; (split; [apply Hst; exact Hy|exact Hk]).
Qed.

(** What an expansion to [new_hp] leaves, when it returns and when the
    maximum hashpower stops it. *)
Lemma cuckoo_expand_simple_keeps mode fuel new_hp t :
  params_ok -> sound t ->
  wp (cuckoo_expand_simple mode false fuel new_hp)
     (fun o t' =>
        match o with
        | Ret _ => sound t' /\ forall x, stored t' x <-> stored t x
        | Throw e => e = std_bad_alloc \/ (sound t' /\ forall x, stored t' x <-> stored t x)
        | OutOfFuel => True
        end) t.
Proof.
  intros Hpar (Hinv & Hp & Hu). pose proof (inv_good t Hinv) as Hgood.
  eapply wp_mono;
    [apply (wp_conj _ _ _ _ (cuckoo_expand_simple_spec mode fuel new_hp t Hpar Hgood)
              (cuckoo_expand_simple_sound mode fuel new_hp t Hpar Hgood Hp Hu))|].
  unfold expanded. intros [st|e|] t'; [| |auto].
  - intros [(_ & Hg & Hc & _) [Hp' Hu']].
    destruct (carries_inv_size t t' Hpar Hinv Hg Hc) as (Hinv' & _ & Hst & _).
    split; [split; [exact Hinv'|auto]|exact Hst].
  - intros [[He|(_ & Hg & Hc & _)] Hsound]; [left; exact He|].
    destruct Hsound as [He|[Hp' Hu']]; [left; exact He|right].
    destruct (carries_inv_size t t' Hpar Hinv Hg Hc) as (Hinv' & _ & Hst & _).
    split; [split; [exact Hinv'|auto]|exact Hst].
Qed.

End ExpandSound.

(** X24.  On a sound table a [rehash_concurrent(n)] or a
    [reserve_concurrent(n)] that returns, or that the maximum hashpower
    stops with [maximum_hashpower_exceeded] after a part of the doublings,
    leaves a sound table with the same pairs, and every later [find]
    returns what it would have returned before. *)
Theorem rehash_concurrent_keeps_lookups `{params : Params}
        (fuel : nat) (n : Z) (t t' : table) (o : outcome bool) :
  params_ok -> eq_ok -> sound t -> (3 <= fuel)%nat ->
  rehash_concurrent fuel n t = (o, t') \/ reserve_concurrent fuel n t = (o, t') ->
  (exists r, o = Ret r) \/ (exists hp, o = Throw (maximum_hashpower_exceeded hp)) ->
  sound t' /\ (forall x, stored t' x <-> stored t x) /\
  forall key, fst (find fuel key t') = fst (find fuel key t).
Proof.
  intros Hpar Hok Hs Hfuel Hrun Ho.
  assert (H : sound t' /\ forall x, stored t' x <-> stored t x).
  { assert (Hgen : forall m,
              cuckoo_rehash_concurrent normal_mode fuel m t = (o, t') ->
              sound t' /\ forall x, stored t' x <-> stored t x).
    { intros m Hm. unfold cuckoo_rehash_concurrent in Hm.
      unfold bind at 1, get_table in Hm.
      destruct (m <=? hashpower t).
      - inversion Hm; subst o t'. split; [exact Hs|reflexivity].
      - pose proof (cuckoo_expand_simple_keeps normal_mode fuel m t Hpar Hs) as Hk.
        unfold wp in Hk. unfold bind, ret in Hm.
        destruct (cuckoo_expand_simple normal_mode false fuel m t) as [[st|e|] t1];
          cbn [fst snd] in Hk; inversion Hm; subst o t'.
        + exact Hk.
        + destruct Ho as [[r Hr]|[hp Hhp]]; [discriminate|].
          inversion Hhp; subst e. destruct Hk as [Hk|Hk]; [discriminate|exact Hk].
        + destruct Ho as [[r Hr]|[hp Hhp]]; discriminate. }
    destruct Hrun as [Hrun|Hrun].
    - apply (Hgen n). exact Hrun.
    - apply (Hgen (wrap64 (reserve_calc n))). exact Hrun. }
  destruct H as [Hs' Hst]. split; [exact Hs'|]. split; [exact Hst|].
  intros key. rewrite (fuel_three fuel Hfuel). apply find_same_stored; assumption.
Qed.
Lemma rehash_concurrent_keeps_lookups_witness :
  fst (@find int_params 5 3
         (snd (@rehash_concurrent int_params 5 3 (int_table_with 8 [(1, 10); (3, 30)]))))
  = fst (@find int_params 5 3 (int_table_with 8 [(1, 10); (3, 30)])).
Proof.
  assert (Hs : sound (int_table_with 8 [(1, 10); (3, 30)])).
  { apply sound_check_sound. vm_compute. reflexivity. }
  destruct (@rehash_concurrent_keeps_lookups int_params 5 3
              (int_table_with 8 [(1, 10); (3, 30)])
              (snd (@rehash_concurrent int_params 5 3 (int_table_with 8 [(1, 10); (3, 30)])))
              (Ret true)
              int_params_ok int_eq_ok Hs ltac:(lia)
              ltac:(left; vm_compute; reflexivity)
              ltac:(left; exists true; reflexivity))
    as (_ & _ & Hf).
  apply Hf.
Defined.

(** X25.  On a sound table a [cuckoo_fast_double] called with the current
    hashpower that returns leaves a sound table, in the normal mode too,
    where the stripes are left to be migrated by the operations that lock
    them: every later [find] returns what it would have returned before
    the doubling. *)
Theorem cuckoo_fast_double_keeps_lookups `{params : Params}
        (mode : table_mode) (auto : bool) (fuel : nat) (t t' : table) (st : cuckoo_status) :
  params_ok -> eq_ok -> sound t -> (3 <= fuel)%nat ->
  cuckoo_fast_double mode auto (hashpower t) t = (Ret st, t') ->
  sound t' /\
  forall key, fst (find fuel key t') = fst (find fuel key t).
Proof.
  intros Hpar Hok Hs Hfuel Hrun. pose proof Hs as (Hinv & Hp & Hu).
  pose proof (inv_good t Hinv) as Hgood.
  pose proof (cuckoo_fast_double_spec_mode mode auto t Hpar Hgood) as H1.
  pose proof (cuckoo_fast_double_sound mode auto t Hpar Hgood Hp Hu) as H2.
  unfold wp in H1, H2. rewrite Hrun in H1, H2. cbn [fst snd] in H1, H2.
  destruct H1 as (_ & Hg & Hc & _). destruct H2 as [Hp' Hu'].
  destruct (carries_inv_size t t' Hpar Hinv Hg Hc) as (Hinv' & _ & Hst & _).
  assert (Hs' : sound t') by (split; [exact Hinv'|auto]).
  split; [exact Hs'|].
  intros key. rewrite (fuel_three fuel Hfuel). apply find_same_stored; assumption.
Qed.
Lemma cuckoo_fast_double_keeps_lookups_witness :
  fst (@find int_params 5 3
         (snd (@cuckoo_fast_double int_params normal_mode true 1
                 (int_table_with 8 [(1, 10); (3, 30)]))))
  = fst (@find int_params 5 3 (int_table_with 8 [(1, 10); (3, 30)])).
Proof.
  assert (Hs : sound (int_table_with 8 [(1, 10); (3, 30)])).
  { apply sound_check_sound. vm_compute. reflexivity. }
  destruct (@cuckoo_fast_double_keeps_lookups int_params normal_mode true 5
              (int_table_with 8 [(1, 10); (3, 30)])
              (snd (@cuckoo_fast_double int_params normal_mode true 1
                      (int_table_with 8 [(1, 10); (3, 30)])))
              ok int_params_ok int_eq_ok Hs ltac:(lia) ltac:(vm_compute; reflexivity))
    as (_ & Hf).
  apply Hf.
Defined.

Section Runs.
Context {params : Params}.

Lemma run_pair {A} (m : M A) t o : fst (m t) = o -> m t = (o, snd (m t)).
Proof. intros <-. destruct (m t); reflexivity. Qed.

Lemma insert_all_sound fuel kvs :
  params_ok -> eq_ok -> forall t, sound t ->
  wp (insert_all fuel kvs) (fun o t' => match o with Ret _ => sound t' | _ => True end) t.
Proof.
  intros Hpar Hok. induction kvs as [|[k v] rest IH]; intros t Hs; cbn [insert_all].
  - apply wp_ret. exact Hs.
  - apply wp_bind. eapply wp_mono; [apply insert_sound; assumption|].
    intros [r|e|] t' Hk; [|exact I|exact I]. apply IH. exact Hk.
Qed.

(** A doubling keeps a sound table sound. *)
Lemma cuckoo_fast_double_keeps_sound mode auto t :
  params_ok -> sound t ->
  wp (cuckoo_fast_double mode auto (hashpower t))
     (fun o t' => match o with Ret _ => sound t' | _ => True end) t.
Proof.
  intros Hpar (Hinv & Hp & Hu). pose proof (inv_good t Hinv) as Hgood.
  eapply wp_mono;
    [apply (wp_conj _ _ _ _ (cuckoo_fast_double_spec_mode mode auto t Hpar Hgood)
              (cuckoo_fast_double_sound mode auto t Hpar Hgood Hp Hu))|].
  intros [st|e|] t'; [|auto|auto]. intros [(_ & Hg & Hc & _) [Hp' Hu']].
  destruct (carries_inv_size t t' Hpar Hinv Hg Hc) as (Hinv' & _).
  split; [exact Hinv'|auto].
Qed.

End Runs.

Lemma int_table_new n :
  wrap64 (reserve_calc_for_slots 4 n) <= 40 -> @new_table int_params n = Ret (int_table n).
Proof.
  intros Hle. unfold int_table, new_table.
  change (@reserve_calc int_params n) with (reserve_calc_for_slots 4 n).
  change (@alloc_max_hashpower int_params) with 40.
  destruct (wrap64 (reserve_calc_for_slots 4 n) >? 40) eqn:Hgt; [|reflexivity].
  apply Z.gtb_lt in Hgt. lia.
Qed.

Lemma int_table_with_sound n kvs :
  wrap64 (reserve_calc_for_slots 4 n) <= 40 ->
  fst (insert_all 10 kvs (int_table n)) = Ret tt ->
  sound (int_table_with n kvs).
Proof.
  intros Hle Hrun.
  pose proof (new_table_sound n _ int_params_ok (int_table_new n Hle)) as Hs.
  pose proof (insert_all_sound 10 kvs int_params_ok int_eq_ok _ Hs) as H.
  unfold wp in H. rewrite Hrun in H. exact H.
Qed.

Lemma lazy_table_sound : sound lazy_table.
Proof.
  assert (Hs : sound wide_table).
  { apply int_table_with_sound; vm_compute; [discriminate|reflexivity]. }
  pose proof (cuckoo_fast_double_keeps_sound normal_mode false wide_table int_params_ok Hs)
    as H.
  assert (Hrun : fst (@cuckoo_fast_double int_params normal_mode false
                        (hashpower wide_table) wide_table) = Ret ok).
  { vm_compute. reflexivity. }
  apply (wp_inv _ _ _ _ _ H (run_pair _ _ _ Hrun)).
Qed.

(** X10.  On a table that satisfies the invariant, [lock_and_rehash] of
    a stripe keeps the invariant, the hashpower, the size and the stored
    pairs, and marks the stripe migrated; it changes no bucket of another
    stripe and no other stripe's mark, and a second call changes nothing.
    It moves the pairs: if every pair sat in a candidate bucket of its key
    at the hashpower of its stripe and no key was stored twice, this
    still holds, and every pair in a bucket of the stripe now sits in a
    candidate bucket of its key at the hashpower of the table. *)
Theorem lock_and_rehash_migrates_one_stripe `{params : Params} (l : Z) (t : table) :
  params_ok -> inv t ->
  inv (lock_and_rehash l t) /\ migrated (lock_and_rehash l t) l /\
  hashpower (lock_and_rehash l t) = hashpower t /\
  size (lock_and_rehash l t) = size t /\
  (forall x, stored (lock_and_rehash l t) x <-> stored t x) /\
  (forall i s, lock_ind i <> l -> cell (lock_and_rehash l t) i s = cell t i s) /\
  (forall l', l' <> l -> (migrated (lock_and_rehash l t) l' <-> migrated t l')) /\
  lock_and_rehash l (lock_and_rehash l t) = lock_and_rehash l t /\
  (placed t -> unique t ->
   placed (lock_and_rehash l t) /\ unique (lock_and_rehash l t) /\
   forall i s sl, lock_ind i = l -> cell (lock_and_rehash l t) i s = Some sl ->
                  candidate (hashpower t) (s_key sl) i).
Proof.
  intros Hpar Hinv. pose proof Hinv as (Hwf & Hlazy & _).
  destruct (lock_and_rehash_spec l t Hpar Hwf Hlazy) as (Hwf' & Hlazy' & Hk & Hm & Hother & Hcell & _).
  cbv zeta in *.
  pose proof (inv_keeps t _ Hwf' Hlazy' Hk Hinv) as Hinv'.
  split; [exact Hinv'|]. split; [exact Hm|].
  pose proof Hk as (Hhp & _ & _ & Hcs & _ & Hst & Hmono).
  split; [exact Hhp|].
  split; [rewrite (inv_size t Hpar Hinv), (inv_size _ Hpar Hinv'); exact Hcs|].
  split; [exact Hst|]. split; [exact Hcell|].
  split; [intros l' Hne; split; [apply Hother; exact Hne|apply Hmono]|].
  split.
  - unfold migrated in Hm. unfold lock_and_rehash at 1. rewrite Hm. reflexivity.
  - intros Hp Hu.
    destruct (lock_and_rehash_sound l t Hpar (conj Hwf Hlazy) Hp Hu) as [Hp' Hu'].
    split; [exact Hp'|]. split; [exact Hu'|].
    intros i s sl Hi Hc. destruct (Hp' i s sl Hc) as [_ Hcand].
    cbv beta in Hcand. rewrite level_migrated in Hcand by (rewrite Hi; exact Hm).
    rewrite Hhp in Hcand. exact Hcand.
Qed.

(** The witness: stripe 5 of [lazy_table].  Key 65541 sits in bucket 5,
    where the doubling left it, which is no candidate bucket of the key
    in the doubled table; the migration moves it to bucket 65541. *)
Lemma lock_and_rehash_migrates_one_stripe_witness :
  ~ migrated lazy_table 5 /\
  cell lazy_table 5 2 = Some (@mk_slot int_params 4 65541 60) /\
  ~ candidate (hashpower lazy_table) 65541 5 /\
  cell (lock_and_rehash 5 lazy_table) 5 2 = None /\
  cell (lock_and_rehash 5 lazy_table) 65541 0 = Some (@mk_slot int_params 4 65541 60) /\
  candidate (hashpower lazy_table) 65541 65541 /\
  migrated (lock_and_rehash 5 lazy_table) 5.
Proof.
  pose proof lazy_table_sound as (Hinv & Hp & Hu).
  destruct (@lock_and_rehash_migrates_one_stripe int_params 5 lazy_table int_params_ok Hinv)
    as (_ & Hm & _ & _ & _ & _ & _ & _ & Hmove).
  destruct (Hmove Hp Hu) as (_ & _ & Hcand).
  assert (Hnew : cell (lock_and_rehash 5 lazy_table) 65541 0
                 = Some (@mk_slot int_params 4 65541 60)).
  { vm_compute. reflexivity. }
  split; [unfold migrated; intros H; vm_compute in H; discriminate H|].
  split; [vm_compute; reflexivity|].
  split; [intros [H|H]; vm_compute in H; discriminate H|].
  split; [vm_compute; reflexivity|].
  split; [exact Hnew|].
  split; [|exact Hm].
  apply (Hcand 65541 0 (@mk_slot int_params 4 65541 60)); [vm_compute; reflexivity|exact Hnew].
Defined.

Section Search.
Context {params : Params}.

Lemma grows_refl q : grows q q.
Proof. split; [lia|auto]. Qed.

Lemma grows_trans q1 q2 q3 : 0 <= last_ q1 -> grows q1 q2 -> grows q2 q3 -> grows q1 q3.
Proof.
  intros H0 [H1 H2] [H3 H4]. split; [lia|]. intros k Hk.
  rewrite H4 by lia. apply H2. exact Hk.
Qed.

Lemma seen_grows q q' e : grows q q' -> seen q e -> seen q' e.
Proof.
  intros [H1 H2] (k & Hk & He). exists k. split; [lia|]. rewrite H2 by exact Hk. exact He.
Qed.

Lemma enqueue_grows q x q' B :
  queue_inv q B -> enqueue q x = Some q' ->
  grows q q' /\ first_ q' = first_ q /\ last_ q' = last_ q + 1 /\
  slots_ q' !! Z.to_nat (last_ q) = Some x.
Proof.
  intros (Hfl & Hlast & Hlen & _) Henq. unfold enqueue, q_full in Henq.
  destruct (last_ q =? MAX_CUCKOO_COUNT) eqn:Hfull; [discriminate|].
  apply Z.eqb_neq in Hfull. inversion Henq; subst q'; clear Henq.
  unfold grows. cbn [first_ last_ slots_]. split; [split; [lia|]|].
  - intros k Hk. apply list_lookup_insert_ne. lia.
  - split; [reflexivity|]. split; [reflexivity|].
    apply list_lookup_insert_eq. lia.
Qed.

(** A scan of a bucket that finds no empty slot: every scanned slot
    holds a pair whose alternate bucket is enqueued. *)
Lemma slot_search_bucket_none (slots_pos : 0 < slot_per_bucket) hp x b starting_slot :
  0 <= depth x < MAX_BFS_PATH_LEN ->
  forall range q q',
  queue_inv q (Z.of_nat (length range) *
               (if depth x <? MAX_BFS_PATH_LEN - 1 then bfs_weight (depth x + 1) else 0)) ->
  slot_search_bucket hp x b starting_slot range q = Some (q', None) ->
  grows q q' /\ first_ q' = first_ q /\
  forall i, i ∈ range ->
    exists sl, slot_at b (wrap16 ((starting_slot + i) mod slot_per_bucket)) = Some sl /\
      (depth x < MAX_BFS_PATH_LEN - 1 ->
       exists e', seen q' e' /\ bs_bucket e' = alt_index hp (s_partial sl) (bs_bucket x) /\
                  depth e' = depth x + 1).
Proof.
  intros Hd. induction range as [|i rest IH]; intros q q' Hinv Hrun.
  - cbn [slot_search_bucket] in Hrun. inversion Hrun; subst q'.
    split; [apply grows_refl|]. split; [reflexivity|]. intros i Hi. inversion Hi.
  - cbn [slot_search_bucket] in Hrun.
    destruct (slot_at b _) as [sl|] eqn:Hsl; [|discriminate].
    destruct (depth x <? MAX_BFS_PATH_LEN - 1) eqn:Hdepth.
    + apply Z.ltb_lt in Hdepth.
      pose proof (bfs_weight_pos slots_pos (depth x + 1) ltac:(lia)) as Hw1.
      match type of Hrun with
      | context [enqueue q ?y] =>
          destruct (queue_inv_enqueue slots_pos q _ y Hinv) as (q1 & Henq & Hf & Hinv1)
      end.
      { cbn [depth]. lia. }
      { cbn [depth]. cbn [length]. nia. }
      rewrite Henq in Hrun. cbn [depth] in Hinv1.
      destruct (enqueue_grows _ _ _ _ Hinv Henq) as (Hg1 & _ & Hl1 & Hat).
      assert (Hinv1' : queue_inv q1 (Z.of_nat (length rest) * bfs_weight (depth x + 1))).
      { eapply queue_inv_weaken; [exact Hinv1|]. cbn [length]. nia. }
      destruct (IH q1 q' Hinv1' Hrun) as (Hg & Hf' & Hall).
      assert (H0 : 0 <= last_ q) by (destruct Hinv as ((? & ?) & _); lia).
      split; [eapply grows_trans; eauto|]. split; [congruence|].
      intros j Hj. apply elem_of_cons in Hj. destruct Hj as [->|Hj]; [|apply Hall; exact Hj].
      exists sl. split; [exact Hsl|]. intros _.
      eexists. split.
      { apply (seen_grows q1 q' _ Hg). exists (Z.to_nat (last_ q)).
        split; [lia|exact Hat]. }
      split; reflexivity.
    + assert (Hinv' : queue_inv q (Z.of_nat (length rest) * 0)).
      { eapply queue_inv_weaken; [exact Hinv|]. lia. }
      destruct (IH q q' Hinv' Hrun) as (Hg & Hf' & Hall).
      split; [exact Hg|]. split; [exact Hf'|].
      intros j Hj. apply elem_of_cons in Hj. destruct Hj as [->|Hj]; [|apply Hall; exact Hj].
      exists sl. split; [exact Hsl|]. apply Z.ltb_ge in Hdepth. intros Hlt. lia.
Qed.

Lemma slot_fits (Hpar : params_ok) s : 0 <= s < slot_per_bucket -> wrap16 s = s.
Proof.
  intros Hs. destruct Hpar as (Hpos & Hfits & _). unfold wrap16. apply wrap_small.
  assert (slot_per_bucket <= slot_per_bucket ^ MAX_BFS_PATH_LEN).
  { change MAX_BFS_PATH_LEN with (1 + 4). rewrite Z.pow_add_r by lia.
    rewrite Z.pow_1_r. assert (0 < slot_per_bucket ^ 4) by (apply Z.pow_pos_nonneg; lia).
    nia. }
  change (2 ^ 16) with 65536. lia.
Qed.

(** The scan goes through all the slots of the bucket. *)
Lemma slot_search_bucket_all (Hpar : params_ok) hp x b starting_slot q q' :
  0 <= depth x < MAX_BFS_PATH_LEN -> 0 <= starting_slot < slot_per_bucket ->
  queue_inv q (Z.of_nat (length (zseq SLOT_PER_BUCKET)) *
               (if depth x <? MAX_BFS_PATH_LEN - 1 then bfs_weight (depth x + 1) else 0)) ->
  slot_search_bucket hp x b starting_slot (zseq SLOT_PER_BUCKET) q = Some (q', None) ->
  grows q q' /\
  forall s, 0 <= s < slot_per_bucket ->
    exists sl, slot_at b s = Some sl /\
      (depth x < MAX_BFS_PATH_LEN - 1 ->
       exists e', seen q' e' /\ bs_bucket e' = alt_index hp (s_partial sl) (bs_bucket x) /\
                  depth e' = depth x + 1).
Proof.
  intros Hd Hstart Hinv Hscan. pose proof Hpar as (Hpos & _).
  destruct (slot_search_bucket_none Hpos hp x b starting_slot Hd _ q q' Hinv Hscan)
    as (Hg & _ & Hscanned).
  split; [exact Hg|]. intros s Hs.
  destruct (Hscanned ((s - starting_slot) mod slot_per_bucket)) as (sl & Hsl & Hchild).
  { apply elem_of_zseq. fold slot_per_bucket. apply Z.mod_pos_bound. lia. }
  rewrite Zplus_mod_idemp_r in Hsl.
  replace (starting_slot + (s - starting_slot)) with s in Hsl by lia.
  rewrite Z.mod_small in Hsl by lia.
  rewrite (slot_fits Hpar s Hs) in Hsl. exists sl. auto.
Qed.

Lemma migr_all_migrated t t' : (forall l, migrated t l) -> migr t t' -> t' = t.
Proof.
  intros Hall Hm. induction Hm as [|t l t' Hm IH]; [reflexivity|].
  rewrite (lock_and_rehash_migrated l t (Hall l)) in *. apply IH. exact Hall.
Qed.

(** The search that comes back empty-handed has visited every entry it
    enqueued. *)
Lemma slot_search_loop_closed (Hpar : params_ok) n hp t :
  hashpower t = hp -> (forall l, migrated t l) ->
  forall q x q' t',
  queue_inv q 0 -> bfs_inv hp t q ->
  slot_search_loop normal_mode n hp q t = (Ret (x, q'), t') -> depth x = -1 ->
  t' = t /\ bfs_inv hp t q' /\ grows q q' /\ first_ q' = last_ q'.
Proof.
  intros Hhp Hall. pose proof Hpar as (Hpos & Hfits & _).
  induction n as [|n IH]; intros q x q' t' Hinv Hbfs Hrun Hx.
  - discriminate.
  - cbn [slot_search_loop] in Hrun.
    destruct (q_empty q) eqn:Hempty.
    + inversion Hrun; subst x q' t'. split; [reflexivity|]. split; [exact Hbfs|].
      split; [apply grows_refl|]. unfold q_empty in Hempty. apply Z.eqb_eq. exact Hempty.
    + destruct (queue_inv_dequeue Hpos q Hinv Hempty) as (Hd & Hf & Hinv1).
      pose proof Hinv as (Hfl & Hlast & Hlen & _).
      unfold q_empty in Hempty. apply Z.eqb_neq in Hempty.
      assert (Hx0 : slots_ q !! Z.to_nat (first_ q) = Some (fst (dequeue q))).
      { unfold dequeue. cbn [fst].
        destruct (lookup_lt_is_Some_2 (slots_ q) (Z.to_nat (first_ q)) ltac:(lia)) as [y Hy].
        rewrite Hy. reflexivity. }
      assert (Hs1 : slots_ (snd (dequeue q)) = slots_ q) by reflexivity.
      assert (Hl1 : last_ (snd (dequeue q)) = last_ q) by reflexivity.
      destruct (dequeue q) as [y q1]. cbn [fst snd] in *.
      unfold bind at 1 in Hrun. rewrite (lock_one_normal hp _ t Hhp) in Hrun.
      rewrite (lock_and_rehash_migrated _ t (Hall _)) in Hrun.
      unfold bind at 1, get_table at 1 in Hrun.
      assert (Hinv1' : queue_inv q1 (Z.of_nat (length (zseq SLOT_PER_BUCKET)) *
                 (if depth y <? MAX_BFS_PATH_LEN - 1 then bfs_weight (depth y + 1) else 0))).
      { rewrite length_zseq. fold slot_per_bucket.
        destruct (depth y <? MAX_BFS_PATH_LEN - 1) eqn:Hdepth.
        - apply Z.ltb_lt in Hdepth. rewrite (bfs_weight_step (depth y)) in Hinv1 by lia.
          replace (slot_per_bucket * bfs_weight (depth y + 1))
            with (1 + slot_per_bucket * bfs_weight (depth y + 1) - 1) by lia.
          exact Hinv1.
        - apply Z.ltb_ge in Hdepth.
          assert (depth y = MAX_BFS_PATH_LEN - 1) as Heq by lia.
          rewrite Heq in Hinv1. rewrite Z.mul_0_r.
          rewrite bfs_weight_last in Hinv1. exact Hinv1. }
      destruct (slot_search_bucket_inv Hpos hp y (get_bucket t (bs_bucket y))
                  (pathcode y mod slot_per_bucket) (zseq SLOT_PER_BUCKET) q1 Hd Hinv1')
        as (q2 & r & Hscan & Hf2 & Hinv2).
      rewrite Hscan in Hrun. destruct r as [x'|].
      * inversion Hrun; subst x' q' t'.
        rewrite (slot_search_bucket_depth _ _ _ _ _ _ _ _ Hscan) in Hx. lia.
      * destruct (slot_search_bucket_all Hpar hp y (get_bucket t (bs_bucket y))
                    (pathcode y mod slot_per_bucket) q1 q2 Hd
                    ltac:(apply Z.mod_pos_bound; lia) Hinv1' Hscan)
          as (Hg12 & Hscanned).
        assert (Hg2 : grows q q2).
        { destruct Hg12 as [Ha Hb]. split; [lia|]. intros k Hk.
          rewrite Hb by lia. rewrite Hs1. reflexivity. }
        assert (Hbfs2 : bfs_inv hp t q2).
        { intros e (k & Hk & He).
          rewrite (proj2 Hg2 k) in He by lia.
          destruct (decide (k = Z.to_nat (first_ q))) as [->|Hne].
          - rewrite Hx0 in He. inversion He; subst e; clear He. split.
            + intros s Hs. destruct (Hscanned s Hs) as (sl & Hsl & _).
              unfold cell. rewrite Hsl. discriminate.
            + intros Hdepth s sl Hs Hcell.
              destruct (Hscanned s Hs) as (sl' & Hsl & Hchild).
              unfold cell in Hcell. rewrite Hcell in Hsl. inversion Hsl; subst sl'.
              apply Hchild. exact Hdepth.
          - destruct (Hbfs e) as [Hfull Hchildren].
            { exists k. split; [lia|exact He]. }
            split; [exact Hfull|]. intros Hdepth s sl Hs Hcell.
            destruct (Hchildren Hdepth s sl Hs Hcell) as (e' & Hseen & He').
            exists e'. split; [apply (seen_grows q q2 _ Hg2); exact Hseen|exact He']. }
        destruct (IH q2 x q' t' Hinv2 Hbfs2 Hrun Hx) as (Ht' & Hbfs' & Hg' & Hend).
        split; [exact Ht'|]. split; [exact Hbfs'|]. split; [|exact Hend].
        eapply grows_trans; [lia|exact Hg2|exact Hg'].
Qed.

(** [slot_search] reports no free slot only if every bucket in its reach
    is full. *)
Lemma slot_search_closed hp i1 i2 t x t' :
  params_ok -> hashpower t = hp -> (forall l, migrated t l) ->
  slot_search normal_mode hp i1 i2 t = (Ret x, t') -> depth x = -1 ->
  t' = t /\ forall d i, reach hp t i1 i2 d i -> full_bucket t i.
Proof.
  intros Hpar Hhp Hall Hrun Hx. pose proof Hpar as (Hpos & Hfits & _).
  unfold slot_search, slot_search_queue in Hrun.
  pose proof (queue_inv_new Hpos Hfits) as Hinv0.
  pose proof (bfs_weight_pos Hpos 0 ltac:(unfold MAX_BFS_PATH_LEN; lia)) as Hw.
  destruct (queue_inv_enqueue Hpos b_queue_new _ (mk_b_slot i1 0 0) Hinv0)
    as (q1 & Henq1 & Hf1 & Hinv1);
    [cbn [depth]; unfold MAX_BFS_PATH_LEN; lia|cbn [depth]; lia|].
  rewrite Henq1 in Hrun. cbn [depth] in Hinv1.
  destruct (queue_inv_enqueue Hpos q1 _ (mk_b_slot i2 1 0) Hinv1)
    as (q2 & Henq2 & Hf2 & Hinv2);
    [cbn [depth]; unfold MAX_BFS_PATH_LEN; lia|cbn [depth]; lia|].
  rewrite Henq2 in Hrun. cbn [depth] in Hinv2.
  destruct (enqueue_grows _ _ _ _ Hinv0 Henq1) as (_ & _ & Hl1 & Hat1).
  destruct (enqueue_grows _ _ _ _ Hinv1 Henq2) as (Hg12 & _ & Hl2 & Hat2).
  cbn [b_queue_new last_ first_] in Hl1, Hat1, Hf1. rewrite Hl1 in Hl2, Hat2.
  assert (Hinv2' : queue_inv q2 0).
  { eapply queue_inv_weaken; [exact Hinv2|]. lia. }
  assert (Hbfs2 : bfs_inv hp t q2).
  { intros e (k & Hk & _). rewrite Hf2, Hf1 in Hk. lia. }
  unfold bind in Hrun.
  destruct (slot_search_loop normal_mode _ hp q2 t) as [[[y q']|e|] t0] eqn:Hloop;
    try discriminate.
  cbn [fst ret] in Hrun. inversion Hrun; subst y t0.
  destruct (slot_search_loop_closed Hpar _ hp t Hhp Hall q2 x q' t' Hinv2' Hbfs2 Hloop Hx)
    as (Ht' & Hbfs' & Hg' & Hend).
  split; [exact Ht'|].
  assert (Hseen : forall d i, reach hp t i1 i2 d i ->
                    exists e, seen q' e /\ bs_bucket e = i /\ depth e = d).
  { intros d i Hr. induction Hr as [| |d i s sl Hr IH Hd Hs Hcell].
    - exists (mk_b_slot i1 0 0). split; [|split; reflexivity].
      apply (seen_grows q2 q' _ Hg'). exists 0%nat. split; [lia|].
      rewrite (proj2 Hg12) by lia. exact Hat1.
    - exists (mk_b_slot i2 1 0). split; [|split; reflexivity].
      apply (seen_grows q2 q' _ Hg'). exists 1%nat. split; [lia|exact Hat2].
    - destruct IH as (e & (k & Hk & He) & Hb & Hde).
      destruct (Hbfs' e) as [_ Hchildren].
      { exists k. split; [lia|exact He]. }
      rewrite Hb, Hde in Hchildren.
      destruct (Hchildren Hd s sl Hs Hcell) as (e' & Hseen' & Hb' & Hd').
      exists e'. auto. }
  intros d i Hr. destruct (Hseen d i Hr) as (e & (k & Hk & He) & Hb & _).
  destruct (Hbfs' e) as [Hfull _].
  { exists k. split; [lia|exact He]. }
  rewrite Hb in Hfull. exact Hfull.
Qed.

Lemma fill_path_depth mode hp D range :
  forall (p : list CuckooRecord) t d p' t',
  fill_path mode hp range D p t = (Ret (d, p'), t') -> d = D \/ d ∈ range.
Proof.
  induction range as [|i rest IH]; intros p t d p' t' Hrun; cbn [fill_path] in Hrun.
  - inversion Hrun. left. reflexivity.
  - unfold bind at 1 in Hrun.
    destruct (lock_one mode hp _ t) as [[o|e|] t1]; try discriminate.
    unfold bind at 1, get_table at 1 in Hrun.
    destruct (slot_at _ _) as [s|].
    + destruct (IH _ _ _ _ _ Hrun) as [H|H]; [left; exact H|right].
      apply elem_of_cons. right. exact H.
    + inversion Hrun. right. apply elem_of_cons. left. reflexivity.
Qed.

(** [cuckoopath_search] reports no path only if every bucket in its
    reach is full. *)
Lemma cuckoopath_search_closed hp (p : list CuckooRecord) i1 i2 t d p' t' :
  params_ok -> hashpower t = hp -> (forall l, migrated t l) ->
  cuckoopath_search normal_mode hp p i1 i2 t = (Ret (d, p'), t') -> d < 0 ->
  t' = t /\ forall k i, reach hp t i1 i2 k i -> full_bucket t i.
Proof.
  intros Hpar Hhp Hall Hrun Hd. unfold cuckoopath_search in Hrun.
  destruct (slot_search_normal hp i1 i2 t Hpar Hhp) as (x & t0 & Hs & Hm0 & Hdx).
  unfold bind at 1 in Hrun. rewrite Hs in Hrun.
  destruct (depth x =? -1) eqn:Hneg.
  - apply Z.eqb_eq in Hneg. inversion Hrun; subst d p' t'.
    apply (slot_search_closed hp i1 i2 t x t0 Hpar Hhp Hall Hs Hneg).
  - exfalso. apply Z.eqb_neq in Hneg. destruct Hdx as [Hdx|Hdx]; [lia|].
    destruct (decode_slots _ _ _ _) as [code p1].
    unfold bind at 1 in Hrun.
    destruct (lock_one normal_mode hp _ t0) as [[o|e|] t1]; try discriminate.
    unfold bind at 1, get_table at 1 in Hrun.
    destruct (slot_at _ _) as [s|].
    + destruct (fill_path_depth _ _ _ _ _ _ _ _ _ Hrun) as [H|H]; [lia|].
      apply list_elem_of_fmap in H. destruct H as (y & -> & Hy).
      apply elem_of_zseq in Hy. lia.
    + inversion Hrun. lia.
Qed.

(** [run_cuckoo_loop] gives up only if every bucket in the reach of the
    search is full. *)
Lemma run_cuckoo_loop_closed hp n :
  params_ok -> 0 <= hp < 64 ->
  forall (path : list CuckooRecord) b ib islot t,
  good t -> hashpower t = hp -> length path = Z.to_nat MAX_BFS_PATH_LEN ->
  buckets_in hp b -> (forall l, migrated t l) ->
  wp (run_cuckoo_loop normal_mode n hp path b ib islot)
     (fun o t' =>
        match o with
        | Ret (done, _, _, _) =>
            done = false ->
            forall k i, reach hp t' (tb_i1 b) (tb_i2 b) k i -> full_bucket t' i
        | _ => True
        end) t.
Proof.
  intros Hpar Hhp. induction n as [|n IH]; intros path b ib islot t Hgood Ht Hlen Hb Hall.
  - exact I.
  - cbn [run_cuckoo_loop].
    destruct Hb as [Hi1 Hi2].
    destruct (cuckoopath_search_normal hp path (tb_i1 b) (tb_i2 b) t Hpar Ht Hhp Hlen Hi1 Hi2)
      as (d & path' & t1 & Hrun & Hm & Hlen' & Hd).
    apply wp_bind. eapply wp_eq; [exact Hrun|]. cbv beta iota.
    destruct (good_migr t t1 Hpar Hgood Hm) as (Hg1 & Hk1).
    destruct (d <? 0) eqn:Hneg.
    + apply Z.ltb_lt in Hneg. apply wp_ret. intros _.
      destruct (cuckoopath_search_closed hp path _ _ t d path' t1 Hpar Ht Hall Hrun Hneg)
        as [-> Hclosed].
      exact Hclosed.
    + apply Z.ltb_ge in Hneg. destruct Hd as [Hd|(Hd & Hok & H0)]; [lia|].
      assert (Ht1 : hashpower t1 = hp) by (rewrite (keeps_hashpower _ _ Hk1); exact Ht).
      destruct (cuckoopath_move_spec hp path' d b t1 Hpar Hg1 Ht1 ltac:(lia) Hok)
        as (moved & b' & t2 & Hmove & Hg2 & Hk2 & H1 & H2 & Hpost).
      apply wp_bind. eapply wp_eq; [exact Hmove|]. cbv beta iota. destruct moved.
      * apply wp_ret. discriminate.
      * assert (Ht2 : hashpower t2 = hp) by (rewrite (keeps_hashpower _ _ Hk2); exact Ht1).
        eapply wp_mono.
        { apply (IH path' b' ib islot t2 Hg2 Ht2 Hlen').
          - unfold buckets_in. rewrite H1, H2. split; assumption.
          - intros l. apply (keeps_migrated _ _ _ Hk2), (keeps_migrated _ _ _ Hk1), Hall. }
        intros [[[[done b''] ib'] islot']|e|] t3; [|auto|auto].
        rewrite H1, H2. auto.
Qed.

Lemma run_cuckoo_closed fuel b ib islot t :
  params_ok -> good t -> buckets_in (hashpower t) b -> (forall l, migrated t l) ->
  wp (run_cuckoo normal_mode fuel b ib islot)
     (fun o t' =>
        match o with
        | Ret (st, _, _, _) =>
            st = failure ->
            forall k i, reach (hashpower t) t' (tb_i1 b) (tb_i2 b) k i -> full_bucket t' i
        | _ => True
        end) t.
Proof.
  intros Hpar Hgood Hb Hall. pose proof Hgood as [Hwf _].
  pose proof (params_ok_hashpower Hpar) as Hmax.
  assert (Hhp : 0 <= hashpower t < 64) by (destruct Hwf as (H & _); lia).
  assert (Hlen : length cuckoo_path_new = Z.to_nat MAX_BFS_PATH_LEN).
  { unfold cuckoo_path_new. rewrite length_replicate. reflexivity. }
  unfold run_cuckoo. apply wp_bind, wp_get_table. apply wp_catch. apply wp_bind.
  eapply wp_mono.
  { apply wp_conj.
    - apply (run_cuckoo_loop_spec (hashpower t) fuel Hpar Hhp cuckoo_path_new (tb_unlock b)
               ib islot t Hgood eq_refl Hlen Hb).
    - apply (run_cuckoo_loop_closed (hashpower t) fuel Hpar Hhp cuckoo_path_new
               (tb_unlock b) ib islot t Hgood eq_refl Hlen Hb Hall). }
  intros [[[[done b'] ib'] islot']|e|] t' [Hspec Hcl]; [|destruct Hspec|exact I].
  apply wp_ret. destruct done; [discriminate|]. intros _. apply Hcl. reflexivity.
Qed.

End Search.

(** X14.  On a table that satisfies the invariant, [run_cuckoo] on two
    buckets of the table throws nothing; when it returns, the status is
    [ok] or [failure], the two bucket indices are the ones it was given,
    and the invariant, the hashpower, the size and the stored pairs are
    kept.  With status [ok] the reported slot is an empty slot of one of
    the two buckets.  In a table whose stripes are all migrated it reports
    [failure] only if every bucket in the reach of the search is full:
    the two buckets and, along paths of at most [MAX_BFS_PATH_LEN]
    buckets, the alternate buckets of their pairs. *)
Theorem run_cuckoo_frees_a_slot `{params : Params}
        (fuel : nat) (b : TwoBuckets) (ib islot : Z) (t : table) :
  params_ok -> inv t -> buckets_in (hashpower t) b ->
  (forall e t', run_cuckoo normal_mode fuel b ib islot t <> (Throw e, t')) /\
  (forall st b' ib' islot' t',
     run_cuckoo normal_mode fuel b ib islot t = (Ret (st, b', ib', islot'), t') ->
     inv t' /\ hashpower t' = hashpower t /\ size t' = size t /\
     (forall x, stored t' x <-> stored t x) /\
     tb_i1 b' = tb_i1 b /\ tb_i2 b' = tb_i2 b /\
     (st = ok \/ st = failure) /\
     (st = ok ->
      in_table (hashpower t) ib' islot' /\ (ib' = tb_i1 b \/ ib' = tb_i2 b) /\
      cell t' ib' islot' = None) /\
     ((forall l, migrated t l) -> st = failure ->
      forall d i, reach (hashpower t) t' (tb_i1 b) (tb_i2 b) d i -> full_bucket t' i)).
Proof.
  intros Hpar Hinv Hb. pose proof (inv_good t Hinv) as Hgood.
  pose proof (run_cuckoo_spec fuel b ib islot t Hpar Hgood Hb) as Hwp.
  unfold wp in Hwp. split.
  - intros e t' Hrun. rewrite Hrun in Hwp. exact Hwp.
  - intros st b' ib' islot' t' Hrun. rewrite Hrun in Hwp. cbn [fst snd] in Hwp.
    destruct Hwp as (Hg & Hk & H1 & H2 & Hst & Hok).
    destruct Hg as [Hwf Hlazy]. pose proof (inv_keeps t t' Hwf Hlazy Hk Hinv) as Hinv'.
    pose proof Hk as (Hhp & _ & _ & Hcs & _ & Hstored & _).
    split; [exact Hinv'|]. split; [exact Hhp|].
    split; [rewrite (inv_size t Hpar Hinv), (inv_size t' Hpar Hinv'); exact Hcs|].
    split; [exact Hstored|]. split; [exact H1|]. split; [exact H2|]. split; [exact Hst|].
    split.
    + intros Hs. destruct (Hok Hs) as (Ha & Hb' & Hc & _). auto.
    + intros Hall Hfail.
      pose proof (run_cuckoo_closed fuel b ib islot t Hpar Hgood Hb Hall) as Hcl.
      unfold wp in Hcl. rewrite Hrun in Hcl. cbn [fst snd] in Hcl. apply Hcl. exact Hfail.
Qed.

(** The witness: for a ninth key of the buckets 1 and 3 of [path_table]
    the search frees slot 3 of bucket 3 by moving key 259 to bucket 0; in
    [crowded_table], where both candidates of every key are bucket 1, it
    fails. *)
Lemma run_cuckoo_frees_a_slot_witness :
  fst (@run_cuckoo int_params normal_mode 8 (mk_two 1 3 (Some 1) (Some 3)) 0 0 path_table)
  = Ret (ok, mk_two 1 3 (Some 1) (Some 3), 3, 3) /\
  cell path_table 3 3 = Some (@mk_slot int_params 2 259 2590) /\
  cell (snd (@run_cuckoo int_params normal_mode 8 (mk_two 1 3 (Some 1) (Some 3)) 0 0
               path_table)) 3 3 = None /\
  stored (snd (@run_cuckoo int_params normal_mode 8 (mk_two 1 3 (Some 1) (Some 3)) 0 0
                 path_table)) (@mk_slot int_params 2 259 2590) /\
  fst (@run_cuckoo int_params normal_mode 8 (mk_two 1 1 (Some 1) None) 0 0 crowded_table)
  = Ret (failure, mk_two 1 1 None None, 0, 0) /\
  full_bucket (snd (@run_cuckoo int_params normal_mode 8 (mk_two 1 1 (Some 1) None) 0 0
                      crowded_table)) 1.
Proof.
  assert (Hinv : inv path_table).
  { apply inv_check_sound. vm_compute. reflexivity. }
  assert (Hb : buckets_in (hashpower path_table) (mk_two 1 3 (Some 1) (Some 3))).
  { vm_compute. repeat split; discriminate. }
  assert (Hrun : fst (@run_cuckoo int_params normal_mode 8 (mk_two 1 3 (Some 1) (Some 3)) 0 0
                        path_table) = Ret (ok, mk_two 1 3 (Some 1) (Some 3), 3, 3)).
  { vm_compute. reflexivity. }
  assert (Hc : cell path_table 3 3 = Some (@mk_slot int_params 2 259 2590)).
  { vm_compute. reflexivity. }
  destruct (@run_cuckoo_frees_a_slot int_params 8 (mk_two 1 3 (Some 1) (Some 3)) 0 0
              path_table int_params_ok Hinv Hb) as (_ & Hret).
  destruct (Hret _ _ _ _ _ (run_pair _ _ _ Hrun))
    as (_ & _ & _ & Hst & _ & _ & _ & Hok & _).
  destruct (Hok eq_refl) as (_ & _ & Hfree).
  assert (Hinv2 : inv crowded_table).
  { apply inv_check_sound. vm_compute. reflexivity. }
  assert (Hb2 : buckets_in (hashpower crowded_table) (mk_two 1 1 (Some 1) None)).
  { vm_compute. repeat split; discriminate. }
  assert (Hrun2 : fst (@run_cuckoo int_params normal_mode 8 (mk_two 1 1 (Some 1) None) 0 0
                         crowded_table) = Ret (failure, mk_two 1 1 None None, 0, 0)).
  { vm_compute. reflexivity. }
  destruct (@run_cuckoo_frees_a_slot int_params 8 (mk_two 1 1 (Some 1) None) 0 0
              crowded_table int_params_ok Hinv2 Hb2) as (_ & Hret2).
  destruct (Hret2 _ _ _ _ _ (run_pair _ _ _ Hrun2))
    as (_ & _ & _ & _ & _ & _ & _ & _ & Hfull).
  split; [exact Hrun|]. split; [exact Hc|]. split; [exact Hfree|].
  split; [apply Hst; exists 3, 3; exact Hc|]. split; [exact Hrun2|].
  apply (Hfull ltac:(apply all_migrated; vm_compute; reflexivity) eq_refl 0).
  apply reach_first.
Defined.
